(** * jsprose/core: the resolution pipeline, embedded in Rocq

    A shallow embedding of the TypeScript sources of the content model:
    the base62 [hash], the children normalizer, the identity assigner
    [createId], the resolution engine [resolveRawElement], the tree
    walker [walkElements], the storage filler [fillStorage], the unique
    (named anchor) handle of [defineUnique] and the [Registry].

    Conventions.
    - A JavaScript exception is a [Throw] outcome; a mutable object that the
      code updates in place is an explicit state that is threaded through
      the calls and survives a [Throw].
    - A [while] loop without a syntactic bound is modelled with fuel;
      [OutOfFuel] is a third outcome, and the theorems show which fuel is
      enough.
    - JavaScript truthiness is written out ([truthy], [truthyStr]). *)

From Stdlib Require Import ZArith String Ascii List Lia Bool.
From Stdlib Require Import DecimalString DecimalNat DecimalZ.
From stdpp Require Import gmap strings list fin_maps.

Local Open Scope string_scope.
Local Open Scope Z_scope.
Local Open Scope list_scope.

Set Warnings "-register-all,-clear-no-such-hyp".

(* ===================================================================== *)
(** * Outcomes and errors *)
(* ===================================================================== *)

(** The errors the modelled code throws. [ProseError] is thrown with a
    message only; the constructors keep the site and the interpolated
    names. *)
Inductive Error : Type :=
  | TypeErrorLength
      (* TypeError('length must be a positive integer') *)
  | DuplicateUniqueId (uniqueName id : string)
      (* throwDuplicateUniqueId(uniqueName, id) *)
  | MissingSchema (schemaName : string)
      (* Missing schema "..." in registry! *)
  | SchemaAlreadyDefined (schemaName : string)
      (* Schema "..." is already defined in registry! *)
  | TagAlreadyDefined (tagName : string)
      (* Tag <...> is already defined in registry! *)
  | UniqueAlreadyAssigned (name : string)
      (* Unique "..." raw element is already assigned ... *)
  | UniqueTagMismatch (name expected provided : string)
      (* Unique "..." tag mismatch on raw element assignment! *)
  | TypeErrorUndefined
      (* reading a property of undefined *).

Inductive Outcome (A : Type) : Type :=
  | Ok (a : A)
  | Throw (e : Error)
  | OutOfFuel.
Arguments Ok {A} a.
Arguments Throw {A} e.
Arguments OutOfFuel {A}.

Definition obind {A B} (m : Outcome A) (k : A -> Outcome B) : Outcome B :=
  match m with
  | Ok a => k a
  | Throw e => Throw e
  | OutOfFuel => OutOfFuel
  end.

Notation "'let*' x ':=' m 'in' k" := (obind m (fun x => k))
  (at level 10, x name, m at level 100, k at level 200, only parsing).

(** A computation over a mutable state [S]: the state after the call is
    returned in every outcome, as a JavaScript object keeps the updates made
    before an exception. *)
Definition Eff (S A : Type) : Type := S -> S * Outcome A.

Definition eret {S A} (a : A) : Eff S A := fun s => (s, Ok a).
Definition ethrow {S A} (e : Error) : Eff S A := fun s => (s, Throw e).
Definition ebind {S A B} (m : Eff S A) (k : A -> Eff S B) : Eff S B :=
  fun s =>
    match m s with
    | (s', Ok a) => k a s'
    | (s', Throw e) => (s', Throw e)
    | (s', OutOfFuel) => (s', OutOfFuel)
    end.
Definition eget {S} : Eff S S := fun s => (s, Ok s).
Definition emodify {S} (f : S -> S) : Eff S unit := fun s => (f s, Ok tt).

Notation "'let+' x ':=' m 'in' k" := (ebind m (fun x => k))
  (at level 10, x name, m at level 100, k at level 200, only parsing).

(* ===================================================================== *)
(** * JavaScript values *)
(* ===================================================================== *)

(** The values the modelled code receives as [any]. A number is
    integer-valued (fractions, NaN and the infinities are not
    represented); an object is a plain object of plain data, named by what
    it holds, so that a [structuredClone] of it is the same value (arrays,
    and objects holding functions or symbols, which [structuredClone]
    refuses, are not represented). *)
Inductive JsValue : Type :=
  | JUndefined
  | JNull
  | JBool (b : bool)
  | JNum (z : Z)            (* an integer-valued number *)
  | JStr (s : string)
  | JObj (ref : nat).       (* a plain object of plain data *)

(** [Boolean(v)], the test of [if (v)] and [!v]. *)
Definition truthy (v : JsValue) : bool :=
  match v with
  | JUndefined | JNull => false
  | JBool b => b
  | JNum z => negb (Z.eqb z 0)
  | JStr s => negb (String.eqb s "")
  | JObj _ => true
  end.

(** An optional string property ([slug?: string]): [None] is [undefined].
    [if (x)] on it is false for [undefined] and for the empty string. *)
Definition truthyStr (o : option string) : option string :=
  match o with
  | Some s => if String.eqb s "" then None else Some s
  | None => None
  end.

(** Decimal rendering of a counter, [`${n}`]. *)
Definition natToString (n : nat) : string :=
  NilEmpty.string_of_uint (Nat.to_uint n).

(** [Number.isSafeInteger]: up to [2^53 - 1] in absolute value every
    integer is a number, and [String] prints all its decimal digits. *)
Definition MAX_SAFE_INTEGER : Z := 2 ^ 53 - 1.
Definition isSafeInteger (z : Z) : bool := Z.abs z <=? MAX_SAFE_INTEGER.

(** What the code asks of the JavaScript runtime and the sources do not
    hold: [numberToString] is [Number::toString] on a number that is not a
    safe integer. There the runtime prints the shortest digits that read
    back as the same number and pads them with zeros, or writes the
    exponent form from [1e21] on ([String(1e21)] is [1e+21]). Everything
    below holds for every such printer. *)
Class Runtime : Type := { numberToString : Z -> string }.

(** [String(v)]. *)
Definition jsString `{Runtime} (v : JsValue) : string :=
  match v with
  | JUndefined => "undefined"
  | JNull => "null"
  | JBool true => "true"
  | JBool false => "false"
  | JNum z =>
      if isSafeInteger z then NilZero.string_of_int (Z.to_int z)
      else numberToString z
  | JStr s => s
  | JObj _ => "[object Object]"
  end.

(** A number passed where the code expects a length: either
    integer-valued, or anything [Number.isInteger] rejects (a fraction, NaN,
    an infinity). *)
Inductive JsNumber : Type :=
  | NumInt (z : Z)
  | NumNonInteger.

(* ===================================================================== *)
(** * utils/hash: string to base62 hash *)
(* ===================================================================== *)

Module Hash.

(** 32-bit conversions of ECMAScript. *)
Definition toUint32 (z : Z) : Z := z mod 2 ^ 32.
Definition toInt32 (z : Z) : Z :=
let u := toUint32 z in if Z.ltb u (2 ^ 31) then u else u - 2 ^ 32.

(** [a << n], [a >>> n] and [a ^ b] on numbers. *)
Definition shl (a n : Z) : Z := toInt32 (Z.shiftl (toInt32 a) n).
Definition ushr (a n : Z) : Z := Z.shiftr (toUint32 a) n.
Definition bxor (a b : Z) : Z := toInt32 (Z.lxor (toInt32 a) (toInt32 b)).

(** [str.charCodeAt(i)] for every [i]: the code units of a string. The
  strings of this development are byte strings, so every unit is below
  256; [fnv1a32] itself takes any list of units. *)
Definition charCodes (s : string) : list Z :=
map (fun c => Z.of_N (N_of_ascii c)) (list_ascii_of_string s).

Definition ALPHABET : string :=
"0123456789ABCDEFGHIJKLMNOPQRSTUVWXYZabcdefghijklmnopqrstuvwxyz".
Definition ALPHABET_LEN : Z := 62.

(** [ALPHABET.charAt(idx)] is a one-character string, or the empty string
  out of range. *)
Definition charAt (s : string) (idx : Z) : string :=
if Z.ltb idx 0 then ""
else match String.get (Z.to_nat idx) s with
     | Some c => String c ""
     | None => ""
     end.

(** FNV-1a, 32 bit. *)
Definition fnv1a32 (str : list Z) : Z :=
let h0 := ushr 2166136261 0 in
let h :=
  fold_left
    (fun h c =>
       let h := bxor h c in
       ushr (h + (shl h 1 + shl h 4 + shl h 7 + shl h 8 + shl h 24)) 0)
    str h0 in
ushr h 0.

(** [makeXorShift32(seed)]: the closure's variable [x] is the state. *)
Definition makeXorShift32 (seed : Z) : Z :=
if Z.eqb (ushr seed 0) 0 then 1 else ushr seed 0.

(** One call of the closure: the new state and the returned [x >>> 0]. *)
Definition nextUint32 (x : Z) : Z * Z :=
let x := bxor x (ushr (shl x 13) 0) in
let x := bxor x (ushr x 17) in
let x := bxor x (ushr (shl x 5) 0) in
(x, ushr x 0).

Definition MAX_UINT32 : Z := ushr 4294967295 0.
Definition acceptBound : Z := ((MAX_UINT32 + 1) / ALPHABET_LEN) * ALPHABET_LEN.

(** [let r = nextUint32(); while (r >= acceptBound) r = nextUint32();]
  The fuel counts the draws. *)
Fixpoint draw (fuel : nat) (x : Z) : Outcome (Z * Z) :=
match fuel with
| O => OutOfFuel
| S fuel' =>
    let '(x', r) := nextUint32 x in
    if Z.leb acceptBound r then draw fuel' x' else Ok (x', r)
end.

(** [while (out.length < length) { ... out += ALPHABET.charAt(idx) }]:
  every round appends one character, so the loop is a recursion on the
  number [n] of characters still missing. *)
Fixpoint fill (fuel : nat) (n : nat) (x : Z) (out : string) : Outcome string :=
match n with
| O => Ok out
| S n' =>
    let* xr := draw fuel x in
    let idx := snd xr mod ALPHABET_LEN in
    fill fuel n' (fst xr) (out +:+ charAt ALPHABET idx)
end.

(** [hash] on the code units of the input. [fuel] bounds the draws of one
  rejection-sampling loop. *)
Definition hashUnits (fuel : nat) (input : list Z) (length : JsNumber)
: Outcome string :=
match length with
| NumNonInteger => Throw TypeErrorLength
| NumInt len =>
    if Z.leb len 0 then Throw TypeErrorLength
    else
      let seed := fnv1a32 input in
      fill fuel (Z.to_nat len) (makeXorShift32 seed) ""
end.

Definition hash (fuel : nat) (input : string) (length : JsNumber)
: Outcome string :=
hashUnits fuel (charCodes input) length.

End Hash.


(* ===================================================================== *)
(** * Data model: schemas, tags, elements, uniques *)
(* ===================================================================== *)

Inductive SchemaType : Type := block | inliner.

(** The runtime part of a schema ([SchemaRealProperties]). *)
Record Schema : Type := mkSchema {
  name : string;
  type : SchemaType;
  linkable : bool;
}.

(** [schema.linkable], where [linkable] names something else. *)
Definition schemaLinkable (schema : Schema) : bool := linkable schema.

(** A tag is a function carrying [tagName] and [schemaName]; only the two
    properties are read by the modelled code. *)
Module Tag.
Record Tag : Type := mk {
  tagName : string;
  schemaName : string;
}.
End Tag.
Abbreviation Tag := Tag.Tag.

(** [RawElement]: the object a tag returns. [schemaKind] is the
    symbol-keyed schema; [slug], [storageKey] and [uniqueName] are optional
    strings, [children] an array or [undefined]. *)
Module Raw.
Inductive RawElement : Type := mk {
  schemaKind : Schema;
  schemaName : string;
  hash : string;
  tagName : string;
  slug : option string;
  data : JsValue;
  storageKey : option string;
  children : option (list RawElement);
  uniqueName : option string;
}.

Definition setSlug (v : option string) (el : RawElement) : RawElement :=
  mk (schemaKind el) (schemaName el) (hash el) (tagName el) v (data el)
     (storageKey el) (children el) (uniqueName el).
Definition setUniqueName (v : option string) (el : RawElement) : RawElement :=
  mk (schemaKind el) (schemaName el) (hash el) (tagName el) (slug el)
     (data el) (storageKey el) (children el) v.
Definition setData (v : JsValue) (el : RawElement) : RawElement :=
  mk (schemaKind el) (schemaName el) (hash el) (tagName el) (slug el) v
     (storageKey el) (children el) (uniqueName el).
Definition setHash (v : string) (el : RawElement) : RawElement :=
  mk (schemaKind el) (schemaName el) v (tagName el) (slug el) (data el)
     (storageKey el) (children el) (uniqueName el).
End Raw.
Abbreviation RawElement := Raw.RawElement.

(** [ProseElement]: the resolved element. *)
Module Prose.
Inductive ProseElement : Type := mk {
  schemaKind : Schema;
  schemaName : string;
  data : JsValue;
  storageKey : option string;
  children : option (list ProseElement);
  id : option string;
  uniqueName : option string;
}.

Definition setId (v : option string) (el : ProseElement) : ProseElement :=
  mk (schemaKind el) (schemaName el) (data el) (storageKey el)
     (children el) v (uniqueName el).
Definition setUniqueName (v : option string) (el : ProseElement)
  : ProseElement :=
  mk (schemaKind el) (schemaName el) (data el) (storageKey el)
     (children el) (id el) v.
End Prose.
Abbreviation ProseElement := Prose.ProseElement.

(** [textSchema] of default/text. *)
Definition textSchema : Schema :=
  {| name := "text"; type := inliner; linkable := false |}.

(** [isRawProseElement(element, schema)] on a value that is a raw element:
    the brand holds, so the test is the comparison of schema names. *)
Definition isRawProseElement (element : RawElement) (schema : option Schema)
  : bool :=
  match schema with
  | None => true
  | Some sc => String.eqb (Raw.schemaName element) (name sc)
  end.

(** [deepCloneRawElement], as what the clone holds: [structuredClone]
    copies every own property and drops the symbol-keyed one, which is then
    put back on the element and, recursively, on its children. The clone
    holds what the element holds; that it is another object is the matter
    of [Obj.deepCloneRawElement] below, on a heap of objects. *)
Fixpoint deepCloneRawElement (element : RawElement) : RawElement :=
  Raw.mk (Raw.schemaKind element) (Raw.schemaName element)
         (Raw.hash element) (Raw.tagName element) (Raw.slug element)
         (Raw.data element) (Raw.storageKey element)
         (match Raw.children element with
          | None => None
          | Some cs => Some (map deepCloneRawElement cs)
          end)
         (Raw.uniqueName element).

(* ===================================================================== *)
(** * unique: named anchors with a write-once raw element *)
(* ===================================================================== *)

(** The object [defineUnique] returns, with the closure variable
    [_rawElement] as a field. *)
Module Unique.
Record Unique : Type := mk {
  documentId : string;
  tag : Tag;
  name : string;
  _rawElement : option RawElement;
}.
End Unique.
Abbreviation Unique := Unique.Unique.

Definition defineUnique (documentId name : string) (tag : Tag) : Unique :=
  Unique.mk documentId tag name None.

(** [get rawElement()]: [_rawElement!], that is [undefined] while unbound. *)
Definition getRawElement (u : Unique) : option RawElement :=
  Unique._rawElement u.

(** [set rawElement(value)]: the unique is the state. *)
Definition setRawElement (value : RawElement) : Eff Unique unit :=
  fun u =>
    match Unique._rawElement u with
    | Some _ => (u, Throw (UniqueAlreadyAssigned (Unique.name u)))
    | None =>
        if negb (String.eqb (Raw.tagName value)
                            (Tag.tagName (Unique.tag u)))
        then (u, Throw (UniqueTagMismatch (Unique.name u)
                          (Tag.tagName (Unique.tag u)) (Raw.tagName value)))
        else (Unique.mk (Unique.documentId u) (Unique.tag u) (Unique.name u)
                        (Some value), Ok tt)
    end.

(* ===================================================================== *)
(** * children: normalizeChildren *)
(* ===================================================================== *)

(** One element of the [children] array, classified as the code does:
    [isRawProseElement(child)], else [isUnique(child)], else anything. *)
Inductive Child : Type :=
  | ChildRaw (el : RawElement)
  | ChildUnique (u : Unique)
  | ChildOther (v : JsValue).

(** The [children] argument: [undefined], an array, or a single value. *)
Inductive Children : Type :=
  | ChildrenUndefined
  | ChildrenArray (cs : list Child)
  | ChildrenSingle (c : Child).

Section Normalize.
(** [S] is whatever the optional [step] callback mutates; the callback may
    throw. [fuel] is the fuel of [hash]. The elements are taken by what
    they hold; [Obj.normalizeChildren] below is the same code on a heap of
    objects. *)
Context `{Runtime} {S : Type}.
Variable fuel : nat.
Variable step : option (RawElement -> Eff S unit).

Definition callStep (el : RawElement) : Eff S unit :=
  match step with
  | Some f => f el
  | None => eret tt
  end.

Definition liftOutcome {A} (o : Outcome A) : Eff S A := fun s => (s, o).

(** The text element built for a stringified child. *)
Definition jsxText (strChild h : string) : RawElement :=
  Raw.mk textSchema (name textSchema) h "pure-text" None (JStr strChild)
         None None None.

(** [lastNormalized.data += strChild]: [+] with a string operand
    concatenates the string forms. *)
Definition appendData (d : JsValue) (strChild : string) : string :=
  jsString d +:+ strChild.

(** The body of [for (const child of childrenArray)], on the array
    [normalizedChildren] built so far. *)
Definition normalizeChild (normalizedChildren : list RawElement)
    (child : Child) : Eff S (list RawElement) :=
  match child with
  | ChildRaw el =>
      let clonedRawProseElement := deepCloneRawElement el in
      let+ _ := callStep clonedRawProseElement in
      eret (normalizedChildren ++ [clonedRawProseElement])
  | ChildUnique u =>
      match getRawElement u with
      | None => ethrow TypeErrorUndefined
      | Some el =>
          let cloned := deepCloneRawElement el in
          let cloned := Raw.setSlug (Raw.uniqueName cloned) cloned in
          let cloned := Raw.setUniqueName None cloned in
          let+ _ := callStep cloned in
          eret (normalizedChildren ++ [cloned])
      end
  | ChildOther v =>
      let strChild := jsString v in
      let+ h := liftOutcome (Hash.hash fuel strChild (NumInt 12)) in
      let+ _ := callStep (jsxText strChild h) in
      match last normalizedChildren with
      | Some lastNormalized =>
          if isRawProseElement lastNormalized (Some textSchema) then
            let d := appendData (Raw.data lastNormalized) strChild in
            let+ h' := liftOutcome (Hash.hash fuel d (NumInt 12)) in
            eret (removelast normalizedChildren
                    ++ [Raw.setHash h' (Raw.setData (JStr d) lastNormalized)])
          else eret (normalizedChildren ++ [jsxText strChild h])
      | None => eret (normalizedChildren ++ [jsxText strChild h])
      end
  end.

Fixpoint normalizeLoop (normalizedChildren : list RawElement)
    (childrenArray : list Child) : Eff S (list RawElement) :=
  match childrenArray with
  | [] => eret normalizedChildren
  | child :: rest =>
      let+ acc := normalizeChild normalizedChildren child in
      normalizeLoop acc rest
  end.

Definition normalizeChildren (children : Children)
  : Eff S (option (list RawElement)) :=
  match children with
  | ChildrenUndefined => eret None
  | ChildrenArray cs =>
      let+ r := normalizeLoop [] cs in eret (Some r)
  | ChildrenSingle c =>
      let+ r := normalizeLoop [] [c] in eret (Some r)
  end.
End Normalize.

(* ===================================================================== *)
(** * walk: walkElements *)
(* ===================================================================== *)

(** What [walkElements] reads of an element: the element itself, handed to
    [step], and its [children], an array whose slots may be falsy
    ([None]), or no array at all. *)
Inductive ElementTree (A : Type) : Type :=
  TreeNode { self : A; treeChildren : option (list (option (ElementTree A))) }.
Arguments TreeNode {A} self treeChildren.
Arguments self {A} e.
Arguments treeChildren {A} e.

(** The two signal objects, and any other value a step returns. *)
Inductive Signal : Type := WalkStop | WalkNoDeeper | Void.

Section Walk.
Context {S A : Type}.
Variable step : ElementTree A -> Eff S Signal.

Fixpoint walkElements (element : ElementTree A) : Eff S Signal :=
  let+ result := step element in
  match result with
  | WalkStop => eret WalkStop
  | WalkNoDeeper => eret Void
  | Void =>
      match treeChildren element with
      | None => eret Void
      | Some children =>
          (* for (const child of children.filter(Boolean)) *)
          (fix loop (cs : list (option (ElementTree A))) : Eff S Signal :=
             match cs with
             | [] => eret Void
             | None :: cs' => loop cs'
             | Some child :: cs' =>
                 let+ childResult := walkElements child in
                 match childResult with
                 | WalkStop => eret WalkStop
                 | _ => loop cs'
                 end
             end) children
      end
  end.

(** The loop over the children, by itself. *)
Fixpoint walkChildren (cs : list (option (ElementTree A))) : Eff S Signal :=
  match cs with
  | [] => eret Void
  | None :: cs' => walkChildren cs'
  | Some child :: cs' =>
      let+ childResult := walkElements child in
      match childResult with
      | WalkStop => eret WalkStop
      | _ => walkChildren cs'
      end
  end.
End Walk.

(** A raw element seen by the walker: its [children] array has no falsy
    slot. *)
Fixpoint rawTree (el : RawElement) : ElementTree RawElement :=
  TreeNode el
    (match Raw.children el with
     | None => None
     | Some cs => Some (map (fun c => Some (rawTree c)) cs)
     end).

(* ===================================================================== *)
(** * registry: Registry *)
(* ===================================================================== *)

(** A registry item: its schema, its [tags] object as the list of its
    entries in enumeration order, and the optional storage creator. *)
Record RegistryItem : Type := mkItem {
  schema : Schema;
  tags : list (string * Tag);
  createStorage : option (ProseElement -> JsValue);
}.

Module Registry.
Record Registry : Type := mk {
  items : gmap string RegistryItem;
  tags : gmap string Tag;
}.
End Registry.
Abbreviation Registry := Registry.Registry.

Definition setItem (schemaName : string) (item : RegistryItem) (r : Registry)
  : Registry :=
  Registry.mk (<[schemaName := item]> (Registry.items r)) (Registry.tags r).
Definition setTag (tagName : string) (tag : Tag) (r : Registry) : Registry :=
  Registry.mk (Registry.items r) (<[tagName := tag]> (Registry.tags r)).

(** [for (const [tagName, tag] of Object.entries(item.tags))]: throw on the
    first name already in [this.tags]. *)
Fixpoint checkTags (entries : list (string * Tag)) : Eff Registry unit :=
  match entries with
  | [] => eret tt
  | (tagName, _) :: rest =>
      let+ r := eget in
      match Registry.tags r !! tagName with
      | Some _ => ethrow (TagAlreadyDefined tagName)
      | None => checkTags rest
      end
  end.

(** [for (const tagName in item.tags) this.tags.set(tagName, ...)]. *)
Fixpoint setTags (entries : list (string * Tag)) : Eff Registry unit :=
  match entries with
  | [] => eret tt
  | (tagName, tag) :: rest =>
      let+ _ := emodify (setTag tagName tag) in
      setTags rest
  end.

Definition addItem (item : RegistryItem) : Eff Registry unit :=
  let schemaName := name (schema item) in
  let+ r := eget in
  match Registry.items r !! schemaName with
  | Some _ => ethrow (SchemaAlreadyDefined schemaName)
  | None =>
      let+ _ := checkTags (tags item) in
      let+ _ := emodify (setItem schemaName item) in
      setTags (tags item)
  end.

Definition getSchema (r : Registry) (schemaName : string) : Outcome Schema :=
  match Registry.items r !! schemaName with
  | Some item => Ok (schema item)
  | None => Throw (MissingSchema schemaName)
  end.

(* ===================================================================== *)
(** * id: createId, and resolve: resolveRawElement *)
(* ===================================================================== *)

(** [object[key] = value] on an object the code made with [{}], as the map
    of its own properties. [__proto__] is the accessor property of
    [Object.prototype]: assigning an object to it replaces the prototype of
    [object] and adds no property. *)
Definition setProperty {V : Type} (key : string) (value : V)
    (object : gmap string V) : gmap string V :=
  if String.eqb key "__proto__" then object else <[key := value]> object.

(** The result object of [resolveRawElement]; [resultUniques] is the map
    of the own properties of [uniques]. *)
Record ResolvedRawElement : Type := mkResolved {
  proseElement : ProseElement;
  resultUniques : gmap string ProseElement;
  resultIds : gset string;
}.

(** What [resolveRecursive] mutates: the set [ids], the record [uniques],
    and whatever the hooks mutate. *)
Record Resolving (H : Type) : Type := mkResolving {
  ids : gset string;
  uniques : gmap string ProseElement;
  hooked : H;
}.
Arguments mkResolving {H} ids uniques hooked.
Arguments ids {H} r.
Arguments uniques {H} r.
Arguments hooked {H} r.

Section Resolve.
(** [kebabCase] of utils/case is not among the sources: it is a
    parameter of everything below. *)
Variable kebabCase : string -> string.

Definition uniqueName2Id (uniqueName : string) : string :=
  kebabCase uniqueName.

(** [while (ids.has(id) || uniqueIds.has(id)) { dedupeCounter += 1;
    id = `${baseId}-${dedupeCounter}`; }]: the fuel counts the tests of
    the condition. *)
Fixpoint dedupe (fuel : nat) (ids uniqueIds : gset string)
    (baseId id : string) (dedupeCounter : nat) : Outcome string :=
  match fuel with
  | O => OutOfFuel
  | Datatypes.S fuel' =>
      if bool_decide (id ∈ ids) || bool_decide (id ∈ uniqueIds) then
        let dedupeCounter := Datatypes.S dedupeCounter in
        dedupe fuel' ids uniqueIds baseId
               (baseId +:+ "-" +:+ natToString dedupeCounter) dedupeCounter
      else Ok id
  end.

(** [createId(ids, uniqueIds, rawElement)]; [ids] is mutated. The loop
    gets one test per member of the two sets, and one more. *)
Definition createId (uniqueIds : gset string) (rawElement : RawElement)
  : Eff (gset string) string :=
  fun ids =>
    match truthyStr (Raw.uniqueName rawElement) with
    | Some uniqueName =>
        let id := uniqueName2Id uniqueName in
        if decide (id ∈ ids) then
          (ids, Throw (DuplicateUniqueId uniqueName id))
        else ({[id]} ∪ ids, Ok id)
    | None =>
        let baseId :=
          match truthyStr (Raw.slug rawElement) with
          | Some slug => kebabCase slug
          | None => Raw.schemaName rawElement +:+ "-" +:+ Raw.hash rawElement
          end in
        match dedupe (Datatypes.S (size (ids ∪ uniqueIds))) ids uniqueIds
                     baseId baseId 0 with
        | Ok id => ({[id]} ∪ ids, Ok id)
        | Throw e => (ids, Throw e)
        | OutOfFuel => (ids, OutOfFuel)
        end
    end.

(** The callback of the pre-scan; it reads [ids] and mutates
    [uniqueIds]. *)
Definition prescan (ids : gset string) (node : ElementTree RawElement)
  : Eff (gset string) Signal :=
  fun uniqueIds =>
    match truthyStr (Raw.uniqueName (self node)) with
    | Some uniqueName =>
        let id := uniqueName2Id uniqueName in
        if decide (id ∈ ids) then
          (uniqueIds, Throw (DuplicateUniqueId uniqueName id))
        else ({[id]} ∪ uniqueIds, Ok Void)
    | None => (uniqueIds, Ok Void)
    end.

Section Recursive.
(** The hooks mutate a state [H] of their own and may throw; they do
    not write to the element they are given. *)
Context {H : Type}.
Variable registry : Registry.
Variable linkable : bool.
Variable pre : option (RawElement -> Eff H unit).
Variable post : option (ProseElement -> Eff H unit).
Variable uniqueIds : gset string.

Definition onHooks {A} (m : Eff H A) : Eff (Resolving H) A :=
  fun st =>
    let '(h, o) := m (hooked st) in
    (mkResolving (ids st) (uniques st) h, o).
Definition onIds {A} (m : Eff (gset string) A) : Eff (Resolving H) A :=
  fun st =>
    let '(i, o) := m (ids st) in
    (mkResolving i (uniques st) (hooked st), o).
Definition pure {A} (o : Outcome A) : Eff (Resolving H) A :=
  fun st => (st, o).
Definition setUnique (uniqueName : string) (el : ProseElement)
  : Eff (Resolving H) unit :=
  emodify (fun st =>
    mkResolving (ids st) (setProperty uniqueName el (uniques st))
                (hooked st)).

Definition callPre (rawElement : RawElement) : Eff (Resolving H) unit :=
  match pre with
  | Some f => onHooks (f rawElement)
  | None => eret tt
  end.
Definition callPost (el : ProseElement) : Eff (Resolving H) unit :=
  match post with
  | Some f => onHooks (f el)
  | None => eret tt
  end.

(** The part of [resolveRecursive] after the children. *)
Definition resolveSelf (rawElement : RawElement)
    (resolvedChildren : option (list ProseElement))
  : Eff (Resolving H) ProseElement :=
  let+ schema := pure (getSchema registry (Raw.schemaName rawElement)) in
  let proseElement :=
    Prose.mk schema (name schema) (Raw.data rawElement)
             (Raw.storageKey rawElement) resolvedChildren None None in
  let+ proseElement :=
    (if linkable && schemaLinkable schema then
       let+ id := onIds (createId uniqueIds rawElement) in
       eret (Prose.setId (Some id) proseElement)
     else eret proseElement) in
  let+ proseElement :=
    (match truthyStr (Raw.uniqueName rawElement) with
     | Some uniqueName =>
         let proseElement :=
           Prose.setUniqueName (Raw.uniqueName rawElement) proseElement in
         let+ _ := setUnique uniqueName proseElement in
         eret proseElement
     | None => eret proseElement
     end) in
  let+ _ := callPost proseElement in
  eret proseElement.

Fixpoint resolveRecursive (rawElement : RawElement)
  : Eff (Resolving H) ProseElement :=
  let+ _ := callPre rawElement in
  let+ resolvedChildren :=
    (match Raw.children rawElement with
     | None => eret None
     | Some children =>
         let+ rs :=
           (fix loop (cs : list RawElement)
              : Eff (Resolving H) (list ProseElement) :=
              match cs with
              | [] => eret []
              | child :: cs' =>
                  let+ resolvedChild := resolveRecursive child in
                  let+ rest := loop cs' in
                  eret (resolvedChild :: rest)
              end) children in
         eret (Some rs)
     end) in
  resolveSelf rawElement resolvedChildren.

(** The loop over the children, by itself. *)
Fixpoint resolveChildren (cs : list RawElement)
  : Eff (Resolving H) (list ProseElement) :=
  match cs with
  | [] => eret []
  | child :: cs' =>
      let+ resolvedChild := resolveRecursive child in
      let+ rest := resolveChildren cs' in
      eret (resolvedChild :: rest)
  end.
End Recursive.

(** [resolveRawElement({ rawElement, linkable, hook, ids })]; the state is
    the hooks' state, the sets and the record are local to the call. *)
Definition resolveRawElement {H : Type} (registry : Registry)
    (rawElement : RawElement) (linkable : bool)
    (pre : option (RawElement -> Eff H unit))
    (post : option (ProseElement -> Eff H unit))
    (externalIds : gset string) : Eff H ResolvedRawElement :=
  fun h =>
    let ids0 := externalIds in
    let scanned :=
      if linkable then
        walkElements (prescan ids0) (rawTree rawElement) ∅
      else (∅, Ok Void) in
    match scanned with
    | (uniqueIds, Ok _) =>
        match resolveRecursive registry linkable pre post uniqueIds
                rawElement (mkResolving ids0 ∅ h) with
        | (st, Ok el) => (hooked st, Ok (mkResolved el (uniques st) (ids st)))
        | (st, Throw e) => (hooked st, Throw e)
        | (st, OutOfFuel) => (hooked st, OutOfFuel)
        end
    | (_, Throw e) => (h, Throw e)
    | (_, OutOfFuel) => (h, OutOfFuel)
    end.
End Resolve.

(* ===================================================================== *)
(** * storage: fillStorage *)
(* ===================================================================== *)

(** [createStorageFor] is asynchronous. A call runs until its first
    [await]: either [await generator(proseElement)], where it stays
    suspended until the generator's promise settles, or
    [await Promise.all(...)], after all children were started in order. What
    remains to be done after the first kind of [await] is a [Pending]: the
    element, and the value the generator produced. Nothing remains after
    the second kind. Pending continuations resume in the order in which the
    promises settle, which the code does not control: a schedule picks
    it. *)
Record Pending : Type := mkPending {
  suspended : ProseElement;
  produced : JsValue;
}.

(** The side table [storage], the elements passed to [step] so far, and
    the suspended calls. *)
Record Filling : Type := mkFilling {
  storage : gmap string JsValue;
  stepped : list ProseElement;
  pool : list Pending;
}.

(** Where a call of [createStorageFor] is entered: at its start, or after
    [await generator(proseElement)] with the awaited value. *)
Inductive Entry : Type :=
  | FromStart
  | AfterAwait (value : JsValue).

(** The property names of [Object.prototype]. A plain object answers a
    read of one of them with the inherited member when it has no own
    property of that name ([({})['constructor']] is the function
    [Object]). *)
Definition objectPrototypeNames : list string :=
  ["constructor"; "__defineGetter__"; "__defineSetter__"; "hasOwnProperty";
   "__lookupGetter__"; "__lookupSetter__"; "isPrototypeOf";
   "propertyIsEnumerable"; "toString"; "valueOf"; "__proto__";
   "toLocaleString"].

(** A name that a plain object does not inherit: a read of it finds an
    own property or [undefined]. *)
Definition ownName (key : string) : bool :=
  negb (existsb (String.eqb key) objectPrototypeNames).

Section FillStorage.
(** [args.storageCreators] and [args.storage] are the maps of the own
    properties of the two objects, and a generator is a function that
    returns. The maps say what [storage[storageKey]] and
    [storageCreators[schemaName]] read for every [ownName]; for a name of
    [objectPrototypeNames] a plain object yields the inherited member
    instead, which the maps do not hold. *)
Variable storageCreators : gmap string (ProseElement -> JsValue).
(** [args.step] is present or not; a present step is recorded. *)
Variable step : bool.

(** [storage[storageKey]] on the own properties: a missing key reads as
    [undefined]. *)
Definition readStorage (st : gmap string JsValue) (key : string)
  : JsValue :=
  match st !! key with
  | Some v => v
  | None => JUndefined
  end.

(** [storageKey && !storage[storageKey]], then [if (generator)]. *)
Definition generatorFor (st : gmap string JsValue) (el : ProseElement)
  : option (ProseElement -> JsValue) :=
  match truthyStr (Prose.storageKey el) with
  | Some storageKey =>
      if negb (truthy (readStorage st storageKey)) then
        storageCreators !! Prose.schemaName el
      else None
  | None => None
  end.

Definition callStepOn (el : ProseElement) (f : Filling) : Filling :=
  if step then mkFilling (storage f) (stepped f ++ [el]) (pool f) else f.

Definition suspend (p : Pending) (f : Filling) : Filling :=
  mkFilling (storage f) (stepped f) (pool f ++ [p]).

(** [storage[storageKey] = value]. *)
Definition writeStorage (el : ProseElement) (value : JsValue) (f : Filling)
  : Filling :=
  match Prose.storageKey el with
  | Some storageKey =>
      mkFilling (<[storageKey := value]> (storage f)) (stepped f) (pool f)
  | None => f
  end.

Fixpoint createStorageFor (entry : Entry) (el : ProseElement) (f : Filling)
  : Filling :=
  let proceed (f : Filling) : Filling :=
    let f := callStepOn el f in
    match Prose.children el with
    | None => f
    | Some children =>
        (* children.map((child) => createStorageFor(child)) *)
        (fix each (cs : list ProseElement) (f : Filling) : Filling :=
           match cs with
           | [] => f
           | child :: cs' => each cs' (createStorageFor FromStart child f)
           end) children f
    end in
  match entry with
  | FromStart =>
      match generatorFor (storage f) el with
      | Some generator => suspend (mkPending el (generator el)) f
      | None => proceed f
      end
  | AfterAwait value => proceed (writeStorage el value f)
  end.

(** The promise of the [i]-th suspended call settles: the call
    resumes. *)
Definition resume (i : nat) (f : Filling) : Filling :=
  match pool f !! i with
  | Some p =>
      createStorageFor (AfterAwait (produced p)) (suspended p)
        (mkFilling (storage f) (stepped f) (delete i (pool f)))
  | None => f
  end.

(** [fillStorage(args)] under a schedule; the call has completed when no
    call is suspended. *)
Definition fillStorage (schedule : list nat) (st : gmap string JsValue)
    (el : ProseElement) : Filling :=
  fold_left (fun f i => resume i f) schedule
            (createStorageFor FromStart el (mkFilling st [] [])).

Definition completed (f : Filling) : bool :=
  match pool f with [] => true | _ => false end.
End FillStorage.

(* ===================================================================== *)
(** * Vocabulary of the statements *)
(* ===================================================================== *)

(** The characters of the 62-symbol alphabet: digits, upper case, lower
    case. *)
Definition isBase62 (c : ascii) : bool :=
  let n := N_of_ascii c in
  ((48 <=? n) && (n <=? 57) || (65 <=? n) && (n <=? 90)
   || (97 <=? n) && (n <=? 122))%N.

Definition allBase62 (s : string) : Prop :=
  Forall (fun c => isBase62 c = true) (list_ascii_of_string s).

(** What [Number.isInteger(length) && length > 0] accepts. *)
Definition positiveInteger (length : JsNumber) : option Z :=
  match length with
  | NumInt n => if 0 <? n then Some n else None
  | NumNonInteger => None
  end.

(** The fingerprint [hash(s, 12)] of a string, as a string. *)
Definition hash12 (s : string) : string :=
  match Hash.hash 2 s (NumInt 12) with
  | Ok h => h
  | _ => ""
  end.

(** The concatenation of the string forms of a run of values. *)
Definition runText `{Runtime} (vs : list JsValue) : string :=
  fold_right (fun v acc => jsString v +:+ acc) "" vs.

Definition isText (el : RawElement) : bool :=
  isRawProseElement el (Some textSchema).

(** A text element [t] after the string [str] was merged into it. *)
Definition mergedText `{Runtime} (t : RawElement) (str : string)
  : RawElement :=
  let d := jsString (Raw.data t) +:+ str in
  Raw.setHash (hash12 d) (Raw.setData (JStr d) t).

(** The normalized children [acc] after a run of stringified values with
    text [str]: the run is one text element, merged into the last element
    of [acc] when that is a text element, appended otherwise. *)
Definition mergeRun `{Runtime} (acc : list RawElement) (str : string)
  : list RawElement :=
  match last acc with
  | Some t =>
      if isText t then removelast acc ++ [mergedText t str]
      else acc ++ [jsxText str (hash12 str)]
  | None => acc ++ [jsxText str (hash12 str)]
  end.

(** A list of children that does not continue a run of stringified
    values. *)
Definition endsRun (cs : list Child) : Prop :=
  match cs with
  | ChildOther _ :: _ => False
  | _ => True
  end.

(** The clone made for a reference to a unique bound to [el]. *)
Definition anonymized (el : RawElement) : RawElement :=
  Raw.setUniqueName None (Raw.setSlug (Raw.uniqueName el) el).

(** The candidates of the de-duplication loop: [baseId], [baseId-1],
    [baseId-2], ... *)
Definition candidate (baseId : string) (k : nat) : string :=
  match k with
  | O => baseId
  | Datatypes.S _ => baseId +:+ "-" +:+ natToString k
  end.

(** ** The walker *)

Section WalkVocabulary.
Context {A : Type}.

(** A step that decides by the node alone and records the nodes it is
    given. *)
Definition logStep (sig : ElementTree A -> Signal)
  : ElementTree A -> Eff (list (ElementTree A)) Signal :=
  fun node log => (log ++ [node], Ok (sig node)).

Section Order.
Variable sig : ElementTree A -> Signal.

(** The order of a full walk: a node, then, unless its signal is
    [WalkNoDeeper] (or [WalkStop]), the orders of its children from left
    to right, every child after the whole subtree of the child before
    it; empty slots are passed over. *)
Fixpoint visitOrder (t : ElementTree A) : list (ElementTree A) :=
  t :: match sig t with
       | Void =>
           match treeChildren t with
           | None => []
           | Some cs =>
               (fix each (cs : list (option (ElementTree A))) :=
                  match cs with
                  | [] => []
                  | None :: cs' => each cs'
                  | Some c :: cs' => visitOrder c ++ each cs'
                  end) cs
           end
       | _ => []
       end.

Fixpoint forestOrder (cs : list (option (ElementTree A)))
  : list (ElementTree A) :=
  match cs with
  | [] => []
  | None :: cs' => forestOrder cs'
  | Some c :: cs' => visitOrder c ++ forestOrder cs'
  end.
End Order.

Definition isStop (s : Signal) : bool :=
  match s with WalkStop => true | _ => false end.

(** A sequence of nodes up to and including the first one that
    stops. *)
Fixpoint uptoStop (sig : ElementTree A -> Signal)
    (l : list (ElementTree A)) : list (ElementTree A) :=
  match l with
  | [] => []
  | x :: l' => if isStop (sig x) then [x] else x :: uptoStop sig l'
  end.

Definition hasStop (sig : ElementTree A -> Signal)
    (l : list (ElementTree A)) : bool :=
  existsb (fun x => isStop (sig x)) l.

(** The record and the result of a walk over the order [l]. *)
Definition walked (sig : ElementTree A -> Signal)
    (l : list (ElementTree A)) (log : list (ElementTree A))
  : list (ElementTree A) * Outcome Signal :=
  (log ++ uptoStop sig l, Ok (if hasStop sig l then WalkStop else Void)).


(** Any step, with a record of the nodes it was given and of what it
    did. *)
Definition traced {S : Type} (step : ElementTree A -> Eff S Signal)
  : ElementTree A
    -> Eff (S * list (ElementTree A * Outcome Signal)) Signal :=
  fun node st =>
    let '(s', o) := step node (fst st) in
    ((s', snd st ++ [(node, o)]), o).

(** A recorded call after which the walk goes on. *)
Definition goesOn (entry : ElementTree A * Outcome Signal) : Prop :=
  snd entry = Ok Void \/ snd entry = Ok WalkNoDeeper.

(** What the walk returns when the last recorded call did [o]. *)
Definition walkReturn (o : Outcome Signal) : Outcome Signal :=
  match o with
  | Ok WalkStop => Ok WalkStop
  | Ok _ => Ok Void
  | Throw e => Throw e
  | OutOfFuel => OutOfFuel
  end.
(** The walk told as an agenda of slots still to be visited, for any
    step: an empty slot is passed over without a call; a stop or an
    exception ends the walk at once; after [WalkNoDeeper] the walk goes on
    with what follows the node; otherwise the children of the node are
    visited, from left to right, before what follows the node. *)
Definition slotsOf (node : ElementTree A) : list (option (ElementTree A)) :=
  match treeChildren node with
  | Some cs => cs
  | None => []
  end.

Inductive Agenda {S : Type} (step : ElementTree A -> Eff S Signal)
  : list (option (ElementTree A)) -> S -> S * Outcome Signal -> Prop :=
  | agenda_done s :
      Agenda step [] s (s, Ok Void)
  | agenda_empty_slot rest s r :
      Agenda step rest s r ->
      Agenda step (None :: rest) s r
  | agenda_stop node rest s s' :
      step node s = (s', Ok WalkStop) ->
      Agenda step (Some node :: rest) s (s', Ok WalkStop)
  | agenda_no_deeper node rest s s' r :
      step node s = (s', Ok WalkNoDeeper) ->
      Agenda step rest s' r ->
      Agenda step (Some node :: rest) s r
  | agenda_deeper node rest s s' r :
      step node s = (s', Ok Void) ->
      Agenda step (slotsOf node ++ rest) s' r ->
      Agenda step (Some node :: rest) s r
  | agenda_throw node rest s s' e :
      step node s = (s', Throw e) ->
      Agenda step (Some node :: rest) s (s', Throw e)
  | agenda_out_of_fuel node rest s s' :
      step node s = (s', OutOfFuel) ->
      Agenda step (Some node :: rest) s (s', OutOfFuel).

(** What a walk of some slots returns is what the agenda returns, once
    it is told how the walk goes on after them. *)
Definition continues {S : Type} (step : ElementTree A -> Eff S Signal)
    (walk : S * Outcome Signal)
    (work rest : list (option (ElementTree A))) (s : S) : Prop :=
  match snd walk with
  | Ok Void =>
      forall r, Agenda step rest (fst walk) r -> Agenda step (work ++ rest) s r
  | _ => Agenda step (work ++ rest) s walk
  end.
End WalkVocabulary.

(** ** The resolution engine *)

(** The identifiers carried by a resolved tree, children first. *)
Fixpoint treeIds (el : ProseElement) : list string :=
  match Prose.children el with
  | None => []
  | Some cs =>
      (fix each (cs : list ProseElement) : list string :=
         match cs with
         | [] => []
         | c :: cs' => treeIds c ++ each cs'
         end) cs
  end ++ match Prose.id el with
         | Some i => [i]
         | None => []
         end.

Fixpoint forestIds (cs : list ProseElement) : list string :=
  match cs with
  | [] => []
  | c :: cs' => treeIds c ++ forestIds cs'
  end.

Section AnchorIds.
Variable kebabCase : string -> string.
Variable registry : Registry.

(** The identifier of a raw element that carries a unique name and whose
    schema is registered as linkable. *)
Definition ownAnchorId (rawElement : RawElement) : list string :=
  match truthyStr (Raw.uniqueName rawElement) with
  | Some uniqueName =>
      match getSchema registry (Raw.schemaName rawElement) with
      | Ok schema =>
          if schemaLinkable schema then [kebabCase uniqueName] else []
      | _ => []
      end
  | None => []
  end.

(** These identifiers over a raw tree, children first. *)
Fixpoint anchorIds (rawElement : RawElement) : list string :=
  match Raw.children rawElement with
  | None => []
  | Some cs =>
      (fix each (cs : list RawElement) : list string :=
         match cs with
         | [] => []
         | c :: cs' => anchorIds c ++ each cs'
         end) cs
  end ++ ownAnchorId rawElement.

Fixpoint forestAnchorIds (cs : list RawElement) : list string :=
  match cs with
  | [] => []
  | c :: cs' => anchorIds c ++ forestAnchorIds cs'
  end.
End AnchorIds.

(** What one resolution adds to [ids]: identifiers that are distinct and
    were not in [ids]. *)
Definition assignsFresh (before after : gset string) (added : list string)
  : Prop :=
  NoDup added
  /\ (forall i, i ∈ added -> i ∉ before)
  /\ after = before ∪ list_to_set added.

(** Hooks that record their calls. *)
Inductive HookCall : Type :=
  | PreCalled (rawElement : RawElement)
  | PostCalled (proseElement : ProseElement).

Definition recordPre : RawElement -> Eff (list HookCall) unit :=
  fun el log => (log ++ [PreCalled el], Ok tt).
Definition recordPost : ProseElement -> Eff (list HookCall) unit :=
  fun el log => (log ++ [PostCalled el], Ok tt).

(** ** The storage filler *)

(** The number of elements of a resolved tree. *)
Fixpoint proseSize (el : ProseElement) : nat :=
  Datatypes.S
    match Prose.children el with
    | None => O
    | Some cs =>
        (fix each (cs : list ProseElement) : nat :=
           match cs with
           | [] => O
           | c :: cs' => (proseSize c + each cs')%nat
           end) cs
    end.

Fixpoint forestSize (cs : list ProseElement) : nat :=
  match cs with
  | [] => O
  | c :: cs' => (proseSize c + forestSize cs')%nat
  end.

(** The work left in the suspended calls. *)
Definition poolSize (pool : list Pending) : nat :=
  forestSize (map suspended pool).

Section FillVocabulary.
Variable storageCreators : gmap string (ProseElement -> JsValue).
Variable step : bool.

(** The loop of [createStorageFor] that starts the children, and the part
    of [createStorageFor] after the generator, by themselves. *)
Fixpoint startChildren (cs : list ProseElement) (f : Filling) : Filling :=
  match cs with
  | [] => f
  | child :: cs' =>
      startChildren cs' (createStorageFor storageCreators step FromStart child f)
  end.

Definition proceed (el : ProseElement) (f : Filling) : Filling :=
  let f := callStepOn step el f in
  match Prose.children el with
  | None => f
  | Some children => startChildren children f
  end.
End FillVocabulary.

(** A key is kept when the table [st0] before the call holds a truthy
    value under it. *)
Definition kept (st0 : gmap string JsValue) (key : string) : Prop :=
  exists value, st0 !! key = Some value /\ truthy value = true.

(** The invariant of a call: the kept keys hold their values, and no
    suspended call is about to write to one of them. *)
Definition keeping (st0 : gmap string JsValue) (f : Filling) : Prop :=
  (forall key value,
     st0 !! key = Some value -> truthy value = true ->
     storage f !! key = Some value)
  /\ Forall (fun p => forall key,
               Prose.storageKey (suspended p) = Some key -> ~ kept st0 key)
            (pool f).

(** The claim, as the spec states it: whatever is stored under a key
    before the call is stored under it when the call has completed. *)
Definition neverOverwrites : Prop :=
  forall (storageCreators : gmap string (ProseElement -> JsValue))
         (step : bool) (schedule : list nat) (st : gmap string JsValue)
         (el : ProseElement) (key : string) (value : JsValue),
    st !! key = Some value ->
    completed (fillStorage storageCreators step schedule st el) = true ->
    storage (fillStorage storageCreators step schedule st el) !! key
    = Some value.

(* ===================================================================== *)
(** * children, on a heap of objects *)
(* ===================================================================== *)

(** [normalizeChildren] above takes a raw element by what it holds. Here
    a raw element is an object: it has an identity, the code reads and
    writes its properties in place, and two references may name one
    object. The heap lists the objects in the order of their creation; a
    reference is a position in it. *)
Module Obj.

Abbreviation Ref := nat.

(** A raw element object: the properties of [RawElement], with the
    references of the children in the [children] array. *)
Record RawObject : Type := mk {
  schemaKind : Schema;
  schemaName : string;
  hash : string;
  tagName : string;
  slug : option string;
  data : JsValue;
  storageKey : option string;
  children : option (list Ref);
  uniqueName : option string;
}.

Definition setSlug (v : option string) (o : RawObject) : RawObject :=
  mk (schemaKind o) (schemaName o) (hash o) (tagName o) v (data o)
     (storageKey o) (children o) (uniqueName o).
Definition setUniqueName (v : option string) (o : RawObject) : RawObject :=
  mk (schemaKind o) (schemaName o) (hash o) (tagName o) (slug o) (data o)
     (storageKey o) (children o) v.
Definition setData (v : JsValue) (o : RawObject) : RawObject :=
  mk (schemaKind o) (schemaName o) (hash o) (tagName o) (slug o) v
     (storageKey o) (children o) (uniqueName o).
Definition setHash (v : string) (o : RawObject) : RawObject :=
  mk (schemaKind o) (schemaName o) v (tagName o) (slug o) (data o)
     (storageKey o) (children o) (uniqueName o).
Definition setChildren (v : option (list Ref)) (o : RawObject) : RawObject :=
  mk (schemaKind o) (schemaName o) (hash o) (tagName o) (slug o) (data o)
     (storageKey o) v (uniqueName o).

Abbreviation Heap := (list RawObject).

(** An object literal or a copy: a new object, behind every other. *)
Definition new (o : RawObject) : Eff Heap Ref :=
  fun h => (h ++ [o], Ok (length h)).

(** Reading the properties of [r]. A reference always names an object in
    JavaScript; a position without one reads as [undefined] does. *)
Definition read (r : Ref) : Eff Heap RawObject :=
  fun h =>
    match h !! r with
    | Some o => (h, Ok o)
    | None => (h, Throw TypeErrorUndefined)
    end.

(** An assignment to a property of [r], or its [delete]. *)
Definition write (r : Ref) (f : RawObject -> RawObject) : Eff Heap unit :=
  fun h => (alter f r h, Ok tt).

(** A loop that collects what each round returns. *)
Fixpoint each {S A B : Type} (f : A -> Eff S B) (l : list A)
  : Eff S (list B) :=
  match l with
  | [] => eret []
  | a :: l' =>
      let+ b := f a in
      let+ bs := each f l' in
      eret (b :: bs)
  end.

(** [deepCloneRawElement]. [structuredClone(element)] makes a new object
    with the own properties of [element]; the symbol-keyed [schemaKind],
    which it drops, is put back. Then every entry of [cloned.children] is
    replaced by the [deepCloneRawElement] of the original child. The copies
    that [structuredClone] itself made of the children are unreachable
    after the loop and are left out: the array of the clone is empty until
    the loop has made the clones of the children. [depth] bounds the
    nesting of children the recursion follows. *)
Fixpoint deepCloneRawElement (depth : nat) (element : Ref) : Eff Heap Ref :=
  match depth with
  | O => fun h => (h, OutOfFuel)
  | Datatypes.S depth' =>
      let+ o := read element in
      match children o with
      | None => new o
      | Some originalChildren =>
          let+ cloned := new (setChildren (Some []) o) in
          let+ clonedChildren :=
            each (deepCloneRawElement depth') originalChildren in
          let+ _ := write cloned (setChildren (Some clonedChildren)) in
          eret cloned
      end
  end.

Definition isRawProseElement (element : RawObject) (schema : option Schema)
  : bool :=
  match schema with
  | None => true
  | Some sc => String.eqb (schemaName element) (name sc)
  end.

(** The object literal built for a stringified child. *)
Definition jsxText (strChild h : string) : RawObject :=
  mk textSchema (name textSchema) h "pure-text" None (JStr strChild)
     None None None.

(** The unique, as far as [normalizeChildren] reads it: its name, and the
    getter [rawElement], a reference or [undefined]. *)
Record Unique : Type := mkUnique {
  name : string;
  _rawElement : option Ref;
}.

Inductive Child : Type :=
  | ChildRaw (element : Ref)
  | ChildUnique (u : Unique)
  | ChildOther (v : JsValue).

Inductive Children : Type :=
  | ChildrenUndefined
  | ChildrenArray (cs : list Child)
  | ChildrenSingle (c : Child).

Section Normalize.
(** [S] is whatever the optional [step] callback mutates. The callback
    is given the heap to read the child it is passed; the callback of
    tag.ts reads [child.schemaName] and [child.tagName] and writes
    nothing. *)
Context `{Runtime} {S : Type}.
Variable fuel : nat.
Variable depth : nat.
Variable step : option (Heap -> Ref -> Eff S unit).

Definition onHeap {A : Type} (m : Eff Heap A) : Eff (Heap * S) A :=
  fun hs => let '(h, o) := m (fst hs) in ((h, snd hs), o).

Definition callStep (child : Ref) : Eff (Heap * S) unit :=
  fun hs =>
    match step with
    | Some f => let '(s, o) := f (fst hs) child (snd hs) in ((fst hs, s), o)
    | None => (hs, Ok tt)
    end.

Definition liftOutcome {A : Type} (o : Outcome A) : Eff (Heap * S) A :=
  fun hs => (hs, o).

(** The body of [for (const child of childrenArray)]; the array
    [normalizedChildren] holds references. *)
Definition normalizeChild (normalizedChildren : list Ref) (child : Child)
  : Eff (Heap * S) (list Ref) :=
  match child with
  | ChildRaw element =>
      let+ clonedRawProseElement :=
        onHeap (deepCloneRawElement depth element) in
      let+ _ := callStep clonedRawProseElement in
      eret (normalizedChildren ++ [clonedRawProseElement])
  | ChildUnique u =>
      match _rawElement u with
      | None => ethrow TypeErrorUndefined
      | Some element =>
          let+ cloned := onHeap (deepCloneRawElement depth element) in
          let+ _ :=
            onHeap (write cloned (fun o => setSlug (uniqueName o) o)) in
          let+ _ := onHeap (write cloned (setUniqueName None)) in
          let+ _ := callStep cloned in
          eret (normalizedChildren ++ [cloned])
      end
  | ChildOther v =>
      let strChild := jsString v in
      let+ h := liftOutcome (Hash.hash fuel strChild (NumInt 12)) in
      let+ text := onHeap (new (jsxText strChild h)) in
      let+ _ := callStep text in
      match last normalizedChildren with
      | Some lastNormalized =>
          let+ o := onHeap (read lastNormalized) in
          if isRawProseElement o (Some textSchema) then
            let d := appendData (data o) strChild in
            let+ _ := onHeap (write lastNormalized (setData (JStr d))) in
            let+ h' := liftOutcome (Hash.hash fuel d (NumInt 12)) in
            let+ _ := onHeap (write lastNormalized (setHash h')) in
            eret normalizedChildren
          else eret (normalizedChildren ++ [text])
      | None => eret (normalizedChildren ++ [text])
      end
  end.

Fixpoint normalizeLoop (normalizedChildren : list Ref)
    (childrenArray : list Child) : Eff (Heap * S) (list Ref) :=
  match childrenArray with
  | [] => eret normalizedChildren
  | child :: rest =>
      let+ acc := normalizeChild normalizedChildren child in
      normalizeLoop acc rest
  end.

Definition normalizeChildren (children : Children)
  : Eff (Heap * S) (option (list Ref)) :=
  match children with
  | ChildrenUndefined => eret None
  | ChildrenArray cs =>
      let+ r := normalizeLoop [] cs in eret (Some r)
  | ChildrenSingle c =>
      let+ r := normalizeLoop [] [c] in eret (Some r)
  end.
End Normalize.

(** ** What an object holds *)

Definition toRaw (o : RawObject) (children : option (list RawElement))
  : RawElement :=
  Raw.mk (schemaKind o) (schemaName o) (hash o) (tagName o) (slug o)
         (data o) (storageKey o) children (uniqueName o).

(** The raw element that the object [r] holds in the heap [h], read
    through the [children] arrays down to [depth] levels, when [r] and all
    the objects below it were created at position [since] or later. *)
Fixpoint contentSince (since : Ref) (depth : nat) (h : Heap) (r : Ref)
  : option RawElement :=
  match depth with
  | O => None
  | Datatypes.S depth' =>
      if (since <=? r)%nat then
        match h !! r with
        | None => None
        | Some o =>
            match children o with
            | None => Some (toRaw o None)
            | Some rs =>
                match mapM (contentSince since depth' h) rs with
                | Some cs => Some (toRaw o (Some cs))
                | None => None
                end
            end
        end
      else None
  end.

(** The raw element that [r] holds, whenever its objects were created. *)
Definition content (depth : nat) (h : Heap) (r : Ref) : option RawElement :=
  contentSince 0%nat depth h r.

(** The raw element that [r] holds when all the objects below it were
    created after [r] itself. *)
Definition contentOwned (depth : nat) (h : Heap) (r : Ref)
  : option RawElement :=
  match depth with
  | O => None
  | Datatypes.S depth' =>
      match h !! r with
      | None => None
      | Some o =>
          match children o with
          | None => Some (toRaw o None)
          | Some rs =>
              match mapM (contentSince (Datatypes.S r) depth' h) rs with
              | Some cs => Some (toRaw o (Some cs))
              | None => None
              end
          end
      end
  end.

(** [o'] is [o] after strings were merged into it: at most [data] and
    [hash] differ. *)
Definition merged (o o' : RawObject) : Prop :=
  exists d h, o' = setHash h (setData d o).

(** A list of children that does not continue a run of stringified
    values. *)
Definition endsRun (cs : list Child) : Prop :=
  match cs with
  | ChildOther _ :: _ => False
  | _ => True
  end.

End Obj.

(* ===================================================================== *)
(** * Sample data, after the test fixtures *)
(* ===================================================================== *)

Definition paragraphSchema : Schema :=
  {| name := "paragraph"; type := block; linkable := true |}.
Definition boldSchema : Schema :=
  {| name := "bold"; type := inliner; linkable := true |}.
Definition inlinersSchema : Schema :=
  {| name := "inliners"; type := inliner; linkable := false |}.
Definition mixSchema : Schema :=
  {| name := "mix"; type := block; linkable := false |}.
Definition imageSchema : Schema :=
  {| name := "image"; type := block; linkable := true |}.

Definition P : Tag := Tag.mk "P" "paragraph".
Definition Bold : Tag := Tag.mk "Bold" "bold".

(** A paragraph without children, and a fragment around some children. *)
Definition rawP (h : string) (slug uniqueName : option string) : RawElement :=
  Raw.mk paragraphSchema "paragraph" h "P" slug JUndefined None None
         uniqueName.
Definition rawBold (h : string) : RawElement :=
  Raw.mk boldSchema "bold" h "Bold" None JUndefined None None None.
Definition rawMix (children : list RawElement) : RawElement :=
  Raw.mk mixSchema "mix" "mix-hash" "Mix" None JUndefined None
         (Some children) None.

(** A paragraph bound to the unique [pUnique] of document [foo]. *)
Definition sampleAnchored : RawElement := rawP "p-hash" None (Some "pUnique").
Definition sampleUnique : Unique :=
  Unique.mk "foo" P "pUnique" (Some sampleAnchored).

(** A runtime for the examples. They hold no number outside the safe
    integers, so its printer is never asked; it answers as [String(1e21)]
    does. *)
Definition sampleRuntime : Runtime :=
  {| numberToString := fun _ => "1e+21" |}.

(** A heap with a bold element and, around it, a paragraph that is bound
    to the unique [pUnique]; and what the paragraph holds. *)
Definition sampleHeap : Obj.Heap :=
  [Obj.mk boldSchema "bold" "bold-hash" "Bold" None JUndefined None None
          None;
   Obj.mk paragraphSchema "paragraph" "p-hash" "P" None JUndefined None
          (Some [0%nat]) (Some "pUnique")].
Definition sampleBound : RawElement :=
  Raw.mk paragraphSchema "paragraph" "p-hash" "P" None JUndefined None
         (Some [rawBold "bold-hash"]) (Some "pUnique").
Definition sampleUniqueObject : Obj.Unique :=
  Obj.mkUnique "pUnique" (Some 1%nat).

(** The objects that [normalizeChildren(["a", pUnique, 7])] makes on this
    heap: a text element, the clone of the paragraph with the clone of its
    bold element, and a text element. *)
Definition sampleCreated : Obj.Heap :=
  [Obj.jsxText "a" (hash12 "a");
   Obj.mk paragraphSchema "paragraph" "p-hash" "P" (Some "pUnique")
          JUndefined None (Some [4%nat]) None;
   Obj.mk boldSchema "bold" "bold-hash" "Bold" None JUndefined None None
          None;
   Obj.jsxText "7" (hash12 "7")].

Definition defineRegistryItem (schema : Schema) (tags : list Tag)
    (createStorage : option (ProseElement -> JsValue)) : RegistryItem :=
  mkItem schema (map (fun t => (Tag.tagName t, t)) tags) createStorage.

(** [new Registry()] followed by [setItems(paragraph, bold)]. *)
Definition sampleRegistry : Registry :=
  fold_left (fun r item => fst (addItem item r))
    [defineRegistryItem textSchema [] None;
     defineRegistryItem inlinersSchema [] None;
     defineRegistryItem mixSchema [] None;
     defineRegistryItem paragraphSchema [P] None;
     defineRegistryItem boldSchema [Bold] None]
    (Registry.mk ∅ ∅).

(** Modelled from the spec: utils/case.js ([kebabCase]) is not among the
    sources. The spec and the tests give [myAnchor] as [my-anchor] and
    [myCustomSlug] as [my-custom-slug]: an upper-case letter becomes a
    hyphen and its lower-case form, without the hyphen at the start. Only
    the examples use it; every theorem holds for any [kebabCase]. *)
Definition isUpper (c : ascii) : bool :=
  let n := N_of_ascii c in ((65 <=? n) && (n <=? 90))%N.
Definition toLower (c : ascii) : ascii :=
  if isUpper c then ascii_of_N (N_of_ascii c + 32) else c.
Fixpoint kebabTail (s : string) : string :=
  match s with
  | EmptyString => EmptyString
  | String c s' =>
      if isUpper c then String "-" (String (toLower c) (kebabTail s'))
      else String c (kebabTail s')
  end.
Definition kebabCaseSample (s : string) : string :=
  match s with
  | EmptyString => EmptyString
  | String c s' => String (toLower c) (kebabTail s')
  end.

(** A fragment with two paragraphs whose unique names are equal. *)
Definition duplicatedAnchors : RawElement :=
  rawMix [rawP "h1" None (Some "intro"); rawP "h2" None (Some "intro")].

(** A fragment with two paragraphs whose slugs are equal. *)
Definition duplicatedSlugs : RawElement :=
  rawMix [rawP "h1" (Some "intro") None; rawP "h2" (Some "intro") None].

(** A resolved image with storage key [cat.jpg]. *)
Definition sampleImage : ProseElement :=
  Prose.mk imageSchema "image" (JObj 0) (Some "cat.jpg") None None None.
Definition sampleGallery : ProseElement :=
  Prose.mk mixSchema "mix" JUndefined None (Some [sampleImage; sampleImage])
           None None.
Definition sampleCreators : gmap string (ProseElement -> JsValue) :=
  {["image" := fun _ => JObj 1]}.
(* ===================================================================== *)
(** * registry: the remaining methods of Registry *)
(* ===================================================================== *)

(** [xs.forEach(f)] and [for (const x of xs) f(x)]: the first throw ends
    the loop. *)
Fixpoint forEach {S A : Type} (xs : list A) (f : A -> Eff S unit)
  : Eff S unit :=
  match xs with
  | [] => eret tt
  | x :: rest => let+ _ := f x in forEach rest f
  end.

Module Define.

(** [acc[tag.tagName] = tag] on an object kept as its entries in
    enumeration order: a key that is present keeps its place and takes the
    new value, a new key goes to the end. (A tag name starts with a
    letter, [defineTag] sees to that, so no key is an array index, which
    would be enumerated first.) *)
Fixpoint assign (key : string) (tag : Tag) (acc : list (string * Tag))
  : list (string * Tag) :=
  match acc with
  | [] => [(key, tag)]
  | (k, t) :: rest =>
      if String.eqb k key then (key, tag) :: rest
      else (k, t) :: assign key tag rest
  end.

(** [(item.tags ?? []).reduce((acc, tag) => ..., {})]. *)
Definition tagObject (tags : option (list Tag)) : list (string * Tag) :=
  fold_left (fun acc tag => assign (Tag.tagName tag) tag acc)
            (default [] tags) [].

Definition defineRegistryItem (schema : Schema) (tags : option (list Tag))
    (createStorage : option (ProseElement -> JsValue)) : RegistryItem :=
  mkItem schema (tagObject tags) createStorage.

End Define.

Definition addItems (items : list RegistryItem) : Eff Registry unit :=
  forEach items addItem.

Definition setDefaultItems : Eff Registry unit :=
  forEach [textSchema; inlinersSchema; mixSchema]
    (fun schema => addItem (Define.defineRegistryItem schema None None)).

(** [new Registry()]: two empty maps, then the constructor body. *)
Definition newRegistry : Registry * Outcome unit :=
  setDefaultItems (Registry.mk ∅ ∅).

Definition clearItems (r : Registry) : Registry :=
  Registry.mk ∅ (Registry.tags r).
Definition clearTags (r : Registry) : Registry :=
  Registry.mk (Registry.items r) ∅.

Definition setItems (items : list RegistryItem) : Eff Registry unit :=
  let+ _ := emodify clearItems in
  let+ _ := emodify clearTags in
  let+ _ := setDefaultItems in
  addItems items.

(** The argument of [removeItem]: a registry item (it has a [schema]
    property) or a schema. *)
Inductive RemoveArg : Type :=
  | ByItem (item : RegistryItem)
  | BySchema (schema : Schema).

Definition deleteItem (schemaName : string) (r : Registry) : Registry :=
  Registry.mk (delete schemaName (Registry.items r)) (Registry.tags r).
Definition deleteTag (tagName : string) (r : Registry) : Registry :=
  Registry.mk (Registry.items r) (delete tagName (Registry.tags r)).

Definition removeItem (arg : RemoveArg) : Eff Registry unit :=
  let+ r := eget in
  let item :=
    match arg with
    | ByItem item => Some item
    | BySchema schema => Registry.items r !! name schema
    end in
  match item with
  | None => eret tt
  | Some item =>
      let schemaName := name (schema item) in
      let+ _ := emodify (deleteItem schemaName) in
      forEach (map snd (tags item))
        (fun tag => emodify (deleteTag (Tag.tagName tag)))
  end.

(** The two other lookups throw their own messages. *)
Inductive LookupError : Type :=
  | MissingItem (schemaName : string)
  | MissingTag (tagName : string).

Definition getItem (r : Registry) (schemaName : string)
  : RegistryItem + LookupError :=
  match Registry.items r !! schemaName with
  | Some item => inl item
  | None => inr (MissingItem schemaName)
  end.

Definition getTag (r : Registry) (tagName : string) : Tag + LookupError :=
  match Registry.tags r !! tagName with
  | Some tag => inl tag
  | None => inr (MissingTag tagName)
  end.

Definition getTagSchema (r : Registry) (tag : Tag) : Outcome Schema :=
  getSchema r (Tag.schemaName tag).


(* ===================================================================== *)
(** * document: document identifiers, and the scan of insertDocumentId *)
(* ===================================================================== *)

(** [PROSE_SINGLETON.document]. *)
Record Documents : Type := mkDocuments {
  autoIdCounter : nat;
  documentIds : gset string;
}.

(** The singleton when the module has been loaded. *)
Definition initialDocuments : Documents := mkDocuments 1 ∅.

Inductive DocumentError : Type :=
  | DuplicateDocumentId (documentId : string).

(** [`__JSPROSE_DOCUMENT_ID_${n}__`]. *)
Definition autoId (n : nat) : string :=
  "__JSPROSE_DOCUMENT_ID_" +:+ natToString n +:+ "__".

(** [tryAddDocumentId(documentId?)]: the counter is read and then
    incremented; an explicit identifier is checked against the set, an
    automatic one is not. *)
Definition tryAddDocumentId (documentId : option string) (d : Documents)
  : Documents * (string + DocumentError) :=
  match documentId with
  | None =>
      let finalId := autoId (autoIdCounter d) in
      (mkDocuments (Datatypes.S (autoIdCounter d))
                   ({[finalId]} ∪ documentIds d),
       inl finalId)
  | Some documentId =>
      if decide (documentId ∈ documentIds d) then
        (d, inr (DuplicateDocumentId documentId))
      else
        (mkDocuments (autoIdCounter d) ({[documentId]} ∪ documentIds d),
         inl documentId)
  end.

Module Comma.

Definition backslash : ascii := "\"%char.
Definition doubleQuote : ascii := ascii_of_nat 34.
Definition singleQuote : ascii := "'"%char.
Definition backtick : ascii := "`"%char.

Definition isQuote (char : ascii) : bool :=
  Ascii.eqb char doubleQuote || Ascii.eqb char singleQuote
  || Ascii.eqb char backtick.
Definition isOpening (char : ascii) : bool :=
  Ascii.eqb char "("%char || Ascii.eqb char "["%char
  || Ascii.eqb char "{"%char.
Definition isClosing (char : ascii) : bool :=
  Ascii.eqb char ")"%char || Ascii.eqb char "]"%char
  || Ascii.eqb char "}"%char.

(** The loop of [hasCommaBeforeDefinition] from the character at hand,
    with the three variables [depth], [inString] and [escaped]; [depth] is
    decremented also at zero. *)
Fixpoint scan (depth : Z) (inString : option ascii) (escaped : bool)
    (chars : list ascii) : bool :=
  match chars with
  | [] => false
  | char :: rest =>
      if escaped then scan depth inString false rest
      else if Ascii.eqb char backslash then scan depth inString true rest
      else
        match inString with
        | Some quote =>
            if Ascii.eqb char quote then scan depth None false rest
            else scan depth inString false rest
        | None =>
            if isQuote char then scan depth (Some char) false rest
            else if isOpening char then scan (depth + 1) None false rest
            else if isClosing char then
              if Z.eqb depth 0 && Ascii.eqb char ")"%char then false
              else scan (depth - 1) None false rest
            else if Ascii.eqb char ","%char && Z.eqb depth 0 then true
            else scan depth None false rest
        end
  end.

Definition hasCommaBeforeDefinition (afterParen : string) : bool :=
  scan 0 None false (list_ascii_of_string afterParen).

End Comma.
(* ===================================================================== *)
(** * Vocabulary for the registry *)
(* ===================================================================== *)

(** The keys of an item's [tags] object. *)
Definition tagKeys (item : RegistryItem) : list string := map fst (tags item).

(** The [tags] object has each key once, as every object has. *)
Definition objectKeys (item : RegistryItem) : Prop := NoDup (tagKeys item).

(** Every tag is stored under its own tag name, as [defineRegistryItem]
    builds the object. *)
Definition keyedByTagName (item : RegistryItem) : Prop :=
  Forall (fun entry => fst entry = Tag.tagName (snd entry)) (tags item).

(** One call of a mutating method. *)
Inductive RegistryCall : Type :=
  | CallAddItem (item : RegistryItem)
  | CallAddItems (items : list RegistryItem)
  | CallSetItems (items : list RegistryItem)
  | CallRemoveItem (arg : RemoveArg).

Definition call (c : RegistryCall) : Eff Registry unit :=
  match c with
  | CallAddItem item => addItem item
  | CallAddItems items => addItems items
  | CallSetItems items => setItems items
  | CallRemoveItem arg => removeItem arg
  end.

(** The registry after a sequence of calls on [new Registry()], each of
    which may have returned or thrown (the caller catching the throw). *)
Definition after (calls : list RegistryCall) : Registry :=
  fold_left (fun r c => fst (call c r)) calls (fst newRegistry).

Definition itemsOf (c : RegistryCall) : list RegistryItem :=
  match c with
  | CallAddItem item => [item]
  | CallAddItems items | CallSetItems items => items
  | CallRemoveItem (ByItem item) => [item]
  | CallRemoveItem (BySchema _) => []
  end.

Definition builtInNames : list string := ["text"; "inliners"; "mix"].

Definition itemName (item : RegistryItem) : string := name (schema item).

(** The tag map after the second loop of [addItem]. *)
Definition tagsAfter (entries : list (string * Tag)) (m : gmap string Tag)
  : gmap string Tag :=
  fold_left (fun m entry => <[fst entry := snd entry]> m) entries m.

(** The tag map after the loop of [removeItem]. *)
Definition tagsWithout (removed : list Tag) (m : gmap string Tag)
  : gmap string Tag :=
  fold_left (fun m tag => delete (Tag.tagName tag) m) removed m.

Definition itemsKeyed (r : Registry) : Prop :=
  forall n item, Registry.items r !! n = Some item -> itemName item = n.
Definition tagsKeyed (r : Registry) : Prop :=
  forall k tag, Registry.tags r !! k = Some tag -> Tag.tagName tag = k.

Definition headingItem : RegistryItem :=
  Define.defineRegistryItem (mkSchema "heading" block true)
    (Some [Tag.mk "H1" "heading"; Tag.mk "H2" "heading"]) None.
Definition imageItem : RegistryItem :=
  Define.defineRegistryItem imageSchema (Some [Tag.mk "Image" "image"])
    (Some (fun el => JStr (default "" (Prose.storageKey el)))).

Definition allTagKeys (items : list RegistryItem) : list string :=
  concat (map tagKeys items).

Definition defaultItems : list RegistryItem :=
  map (fun schema => Define.defineRegistryItem schema None None)
      [textSchema; inlinersSchema; mixSchema].

(* ===================================================================== *)
(** * Vocabulary for the resolution *)
(* ===================================================================== *)

(** [if (rawElement.uniqueName)] decides whether the name is copied. *)
Definition copiedUniqueName (rawElement : RawElement) : option string :=
  match truthyStr (Raw.uniqueName rawElement) with
  | Some _ => Raw.uniqueName rawElement
  | None => None
  end.

Section Mirrors.
Variable registry : Registry.
Variable linkable : bool.

(** A resolved element against the raw element it was made from: the
    schema is the registered one of that name; data and storage key are
    those of the raw element; the unique name is copied; there is an
    identifier exactly when [linkable] was asked for and the schema is
    linkable. *)
Definition mirrorsSelf (rawElement : RawElement) (el : ProseElement)
  : Prop :=
  getSchema registry (Raw.schemaName rawElement) = Ok (Prose.schemaKind el)
  /\ Prose.schemaName el = name (Prose.schemaKind el)
  /\ Prose.data el = Raw.data rawElement
  /\ Prose.storageKey el = Raw.storageKey rawElement
  /\ Prose.uniqueName el = copiedUniqueName rawElement
  /\ (is_Some (Prose.id el)
      <-> linkable && schemaLinkable (Prose.schemaKind el) = true).

(** The same all over the two trees, which have the same shape. *)
Fixpoint mirrors (rawElement : RawElement) (el : ProseElement) : Prop :=
  mirrorsSelf rawElement el
  /\ match Raw.children rawElement, Prose.children el with
     | None, None => True
     | Some rs, Some es =>
         (fix each (rs : list RawElement) (es : list ProseElement) : Prop :=
            match rs, es with
            | [], [] => True
            | r :: rs', e :: es' => mirrors r e /\ each rs' es'
            | _, _ => False
            end) rs es
     | _, _ => False
     end.

Fixpoint mirrorsEach (rs : list RawElement) (es : list ProseElement)
  : Prop :=
  match rs, es with
  | [], [] => True
  | r :: rs', e :: es' => mirrors r e /\ mirrorsEach rs' es'
  | _, _ => False
  end.
End Mirrors.

(** The truthy unique names of a raw tree, in the order of the walk. *)
Definition ownUniqueName (rawElement : RawElement) : list string :=
  match truthyStr (Raw.uniqueName rawElement) with
  | Some uniqueName => [uniqueName]
  | None => []
  end.

Fixpoint uniqueNames (rawElement : RawElement) : list string :=
  ownUniqueName rawElement
  ++ match Raw.children rawElement with
     | None => []
     | Some cs =>
         (fix each (cs : list RawElement) : list string :=
            match cs with
            | [] => []
            | c :: cs' => uniqueNames c ++ each cs'
            end) cs
     end.

Fixpoint forestUniqueNames (cs : list RawElement) : list string :=
  match cs with
  | [] => []
  | c :: cs' => uniqueNames c ++ forestUniqueNames cs'
  end.

(** The pre-scan told over the list of unique names. *)
Fixpoint scanNames (kebabCase : string -> string) (ids : gset string)
    (names : list string) (uniqueIds : gset string)
  : gset string * Outcome Signal :=
  match names with
  | [] => (uniqueIds, Ok Void)
  | uniqueName :: rest =>
      if decide (kebabCase uniqueName ∈ ids) then
        (uniqueIds,
         Throw (DuplicateUniqueId uniqueName (kebabCase uniqueName)))
      else scanNames kebabCase ids rest ({[kebabCase uniqueName]} ∪ uniqueIds)
  end.

(** The elements of a resolved tree, children before their parent. *)
Fixpoint proseNodes (el : ProseElement) : list ProseElement :=
  match Prose.children el with
  | None => []
  | Some cs =>
      (fix each (cs : list ProseElement) : list ProseElement :=
         match cs with
         | [] => []
         | c :: cs' => proseNodes c ++ each cs'
         end) cs
  end ++ [el].

Fixpoint forestNodes (cs : list ProseElement) : list ProseElement :=
  match cs with
  | [] => []
  | c :: cs' => proseNodes c ++ forestNodes cs'
  end.

(** The calls of the two hooks over a raw tree and its resolved tree:
    [pre] on the raw element, then the calls for the children from left
    to right, then [post] on the resolved element. *)
Fixpoint hookTrace (rawElement : RawElement) (el : ProseElement)
  : list HookCall :=
  PreCalled rawElement
  :: match Raw.children rawElement, Prose.children el with
     | Some rs, Some es =>
         (fix each (rs : list RawElement) (es : list ProseElement)
            : list HookCall :=
            match rs, es with
            | r :: rs', e :: es' => hookTrace r e ++ each rs' es'
            | _, _ => []
            end) rs es
     | _, _ => []
     end
  ++ [PostCalled el].

Fixpoint forestTrace (rs : list RawElement) (es : list ProseElement)
  : list HookCall :=
  match rs, es with
  | r :: rs', e :: es' => hookTrace r e ++ forestTrace rs' es'
  | _, _ => []
  end.

(** A hook that returns normally whatever it is given. *)
Definition returns {A H : Type} (hook : option (A -> Eff H unit)) : Prop :=
  forall f, hook = Some f -> forall a h, snd (f a h) = Ok tt.

(** The schema names of a raw tree. *)
Fixpoint schemaNames (rawElement : RawElement) : list string :=
  Raw.schemaName rawElement
  :: match Raw.children rawElement with
     | None => []
     | Some cs =>
         (fix each (cs : list RawElement) : list string :=
            match cs with
            | [] => []
            | c :: cs' => schemaNames c ++ each cs'
            end) cs
     end.

Fixpoint forestSchemaNames (cs : list RawElement) : list string :=
  match cs with
  | [] => []
  | c :: cs' => schemaNames c ++ forestSchemaNames cs'
  end.

Definition registered (registry : Registry) (schemaName : string) : Prop :=
  is_Some (Registry.items registry !! schemaName).

(** A small article: a fragment around a paragraph with a slug, a bound
    paragraph, bold text, and a paragraph with the same slug. *)
Definition sampleArticle : RawElement :=
  rawMix [rawP "h1" (Some "intro") None;
          rawP "h2" None (Some "myAnchor");
          rawBold "h3";
          rawP "h4" (Some "intro") None].

(** A fragment around a paragraph bound to the unique [myAnchor] and a
    paragraph whose unique name is [__proto__]. *)
Definition sampleProtoArticle : RawElement :=
  rawMix [rawP "h1" None (Some "myAnchor");
          rawP "h2" None (Some "__proto__")].

(** An identifier made for an element without a unique name is none of
    the pre-scanned ones. *)
Definition generatedApart (uniqueIds : gset string) (el : ProseElement)
  : Prop :=
  Prose.uniqueName el = None ->
  forall i, Prose.id el = Some i -> i ∉ uniqueIds.

(** What a resolution adds to the record of uniques: an entry for each
    unique name of the raw tree but [__proto__], holding an element of the
    resolved tree that carries this name. *)
Definition recordsUniques (before after : gmap string ProseElement)
    (names : list string) (nodes : list ProseElement) : Prop :=
  (forall u, is_Some (after !! u)
     <-> (u ∈ names /\ u <> "__proto__") \/ is_Some (before !! u))
  /\ (forall u el, after !! u = Some el ->
        (el ∈ nodes /\ Prose.uniqueName el = Some u)
        \/ (((u ∉ names) \/ u = "__proto__") /\ before !! u = Some el)).

(** A paragraph with the slug [intro] before a paragraph bound to the
    unique [intro]. *)
Definition sampleClash : RawElement :=
  rawMix [rawP "h1" (Some "intro") None; rawP "h2" None (Some "intro")].

(** The identifiers in [ids] after a step: those before it, the
    identifiers of unique names met in the step, and identifiers that are
    none of the pre-scanned ones. *)
Definition grownBy (uniqueIds before after : gset string)
    (anchors : list string) : Prop :=
  forall i, i ∈ after -> i ∈ before \/ i ∈ anchors \/ i ∉ uniqueIds.

(** What a subtree needs of the state it is resolved in: the identifiers
    of its unique names are distinct, free, and pre-scanned. *)
Definition accepts (linkable : bool) (uniqueIds : gset string)
    (anchors : list string) (idSet : gset string) : Prop :=
  linkable = true ->
  NoDup anchors
  /\ forall a, a ∈ anchors -> (a ∉ idSet) /\ a ∈ uniqueIds.

(* ===================================================================== *)
(** * Vocabulary for the hash *)
(* ===================================================================== *)

(** FNV-1a as it is defined: xor with the unit, then multiply by the
    prime 16777619, modulo [2 ^ 32], from the offset basis. *)
Definition fnvReference (str : list Z) : Z :=
  fold_left (fun h c => (Z.lxor h c * 16777619) mod 2 ^ 32) str 2166136261.

(** A code unit of a string. *)
Definition codeUnit (c : Z) : Prop := 0 <= c < 2 ^ 16.

(* ===================================================================== *)
(** * Vocabulary for createId *)
(* ===================================================================== *)

Section CreateIdVocabulary.
Variable kebabCase : string -> string.

(** The base of the identifier of an element without a unique name. *)
Definition baseIdOf (rawElement : RawElement) : string :=
  match truthyStr (Raw.slug rawElement) with
  | Some slug => kebabCase slug
  | None => Raw.schemaName rawElement +:+ "-" +:+ Raw.hash rawElement
  end.

Definition plain (baseId : string) (rawElement : RawElement) : Prop :=
  truthyStr (Raw.uniqueName rawElement) = None
  /\ baseIdOf rawElement = baseId.

(** [createId] called for the elements of a list, one after the other,
    on the same two sets. *)
Fixpoint createIdEach (uniqueIds : gset string) (els : list RawElement)
  : Eff (gset string) (list string) :=
  match els with
  | [] => eret []
  | el :: rest =>
      let+ id := createId kebabCase uniqueIds el in
      let+ others := createIdEach uniqueIds rest in
      eret (id :: others)
  end.
End CreateIdVocabulary.

(** Three paragraphs with the slug [intro]. *)
Definition sampleIntros : list RawElement :=
  [rawP "h1" (Some "intro") None; rawP "h2" (Some "intro") None;
   rawP "h3" (Some "intro") None].

(* ===================================================================== *)
(** * Vocabulary for normalizeChildren *)
(* ===================================================================== *)

(** A step that records the elements it is given. *)
Definition recordStep : RawElement -> Eff (list RawElement) unit :=
  fun el log => (log ++ [el], Ok tt).

(** The element made for one child, by itself: the clone of an element,
    the clone of a unique's element with the name turned into the slug,
    the text element of a stringified value. *)
Definition stepArgument `{Runtime} (c : Child) : option RawElement :=
  match c with
  | ChildRaw el => Some (deepCloneRawElement el)
  | ChildUnique u =>
      match getRawElement u with
      | Some el => Some (anonymized (deepCloneRawElement el))
      | None => None
      end
  | ChildOther v => Some (jsxText (jsString v) (hash12 (jsString v)))
  end.

Fixpoint stepArguments `{Runtime} (cs : list Child)
  : option (list RawElement) :=
  match cs with
  | [] => Some []
  | c :: rest =>
      match stepArgument c, stepArguments rest with
      | Some el, Some els => Some (el :: els)
      | _, _ => None
      end
  end.

(** The elements of a list that are not text elements. *)
Definition nonText (els : list RawElement) : list RawElement :=
  List.filter (fun el => negb (isText el)) els.

Definition sampleChildren : list Child :=
  [ChildOther (JStr "a"); ChildRaw (rawBold "bold-hash"); ChildOther (JNum 7);
   ChildOther (JStr "b"); ChildUnique sampleUnique].

(** ** On the heap *)

(** What a unique is bound to, as an object and as what the object
    holds. *)
Definition holdsBound (depth : nat) (h : Obj.Heap)
    (bound : option Obj.Ref) (el : option RawElement) : Prop :=
  match bound, el with
  | Some r, Some e => Obj.content depth h r = Some e
  | None, None => True
  | _, _ => False
  end.

(** A child given as objects of the heap [h], and the same child given by
    what the objects hold. *)
Inductive holds (depth : nat) (h : Obj.Heap) : Obj.Child -> Child -> Prop :=
  | holds_raw (r : Obj.Ref) (el : RawElement) :
      Obj.content depth h r = Some el ->
      holds depth h (Obj.ChildRaw r) (ChildRaw el)
  | holds_unique (u : Obj.Unique) (u' : Unique) :
      holdsBound depth h (Obj._rawElement u) (getRawElement u') ->
      holds depth h (Obj.ChildUnique u) (ChildUnique u')
  | holds_other (v : JsValue) :
      holds depth h (Obj.ChildOther v) (ChildOther v).

(** The normalized children [refs] hold the raw elements [els]: they were
    created one after the other, and each holds its element in objects
    created before the next one, the last in objects created before
    [bound]. *)
Fixpoint heldBy (depth : nat) (h : Obj.Heap) (bound : nat)
    (refs : list Obj.Ref) (els : list RawElement) : Prop :=
  match refs, els with
  | [], [] => True
  | r :: refs', el :: els' =>
      let next := match refs' with r' :: _ => r' | [] => bound end in
      (r < next)%nat
      /\ Obj.contentOwned depth (take next h) r = Some el
      /\ heldBy depth h bound refs' els'
  | _, _ => False
  end.

(** Three children on [sampleHeap], and what they hold. *)
Definition sampleObjectChildren : list Obj.Child :=
  [Obj.ChildOther (JStr "a"); Obj.ChildUnique sampleUniqueObject;
   Obj.ChildOther (JNum 7)].
Definition sampleHeldChildren : list Child :=
  [ChildOther (JStr "a");
   ChildUnique (Unique.mk "foo" P "pUnique" (Some sampleBound));
   ChildOther (JNum 7)].

(* ===================================================================== *)
(** * Vocabulary for fillStorage *)
(* ===================================================================== *)

(** The elements of a resolved tree, a parent before its children. *)
Fixpoint prosePreorder (el : ProseElement) : list ProseElement :=
  el :: match Prose.children el with
        | None => []
        | Some cs =>
            (fix each (cs : list ProseElement) : list ProseElement :=
               match cs with
               | [] => []
               | c :: cs' => prosePreorder c ++ each cs'
               end) cs
        end.

Fixpoint forestPreorder (cs : list ProseElement) : list ProseElement :=
  match cs with
  | [] => []
  | c :: cs' => prosePreorder c ++ forestPreorder cs'
  end.

Definition childrenPreorder (el : ProseElement) : list ProseElement :=
  match Prose.children el with
  | None => []
  | Some cs => forestPreorder cs
  end.

(** The elements that the suspended calls have still to visit. *)
Definition poolPreorder (pool : list Pending) : list ProseElement :=
  forestPreorder (map suspended pool).

(** A tree whose elements make [fillStorage] read own properties only:
    no schema name and no storage key in it is a property name of
    [Object.prototype]. For such a tree the maps of own properties say
    what the code reads from the plain objects [storage] and
    [storageCreators]. *)
Definition readsOwnProperties (el : ProseElement) : bool :=
  forallb (fun n =>
             ownName (Prose.schemaName n)
             && match Prose.storageKey n with
                | Some key => ownName key
                | None => true
                end)
          (prosePreorder el).

Section FillStatements.
Variable storageCreators : gmap string (ProseElement -> JsValue).

(** A value in the side table that a generator produced for an element
    of [nodes] with this storage key. *)
Definition generatedBy (nodes : list ProseElement) (key : string)
    (value : JsValue) : Prop :=
  exists el generator,
    el ∈ nodes
    /\ Prose.storageKey el = Some key
    /\ storageCreators !! Prose.schemaName el = Some generator
    /\ value = generator el.

(** A suspended call waits for the value of the generator of its
    element. *)
Definition awaitsGenerator (p : Pending) : Prop :=
  exists generator,
    storageCreators !! Prose.schemaName (suspended p) = Some generator
    /\ produced p = generator (suspended p).

(** An element with a storage key and a generator has an entry. *)
Definition filled (st : gmap string JsValue) (el : ProseElement) : Prop :=
  forall key generator,
    truthyStr (Prose.storageKey el) = Some key ->
    storageCreators !! Prose.schemaName el = Some generator ->
    is_Some (st !! key).
End FillStatements.

(** A gallery of two images under different keys, and a paragraph. *)
Definition sampleAlbum : ProseElement :=
  Prose.mk mixSchema "mix" JUndefined None
    (Some [sampleImage;
           Prose.mk imageSchema "image" (JObj 0) (Some "dog.jpg") None None
                    None;
           Prose.mk paragraphSchema "paragraph" JUndefined None None None
                    None])
    None None.

(* ===================================================================== *)
(** * Vocabulary for the documents *)
(* ===================================================================== *)

(** A sequence of [defineDocument] calls, told by their identifier
    arguments; a call that throws is caught. The identifiers of the calls
    that returned, in order. *)
Fixpoint defineAll (requests : list (option string)) (d : Documents)
  : Documents * list string :=
  match requests with
  | [] => (d, [])
  | request :: rest =>
      match tryAddDocumentId request d with
      | (d1, inl documentId) =>
          let '(d2, others) := defineAll rest d1 in
          (d2, documentId :: others)
      | (d1, inr _) => defineAll rest d1
      end
  end.

(** No identifier of the automatic form that is still to come is in use
    or asked for. *)
Definition autoIdsReserved (requests : list (option string))
    (d : Documents) : Prop :=
  forall n, (autoIdCounter d <= n)%nat ->
    (autoId n ∉ documentIds d) /\ (Some (autoId n) ∉ requests).

(** Characters that neither open nor close anything: no quote, bracket
    or backslash. *)
Definition inert (char : ascii) : bool :=
  negb (Comma.isQuote char || Comma.isOpening char || Comma.isClosing char
        || Ascii.eqb char Comma.backslash).

Definition isComma (char : ascii) : bool := Ascii.eqb char ","%char.

Definition sampleRequests : list (option string) :=
  [None; Some "intro"; Some "intro"; None].

(** The storage key of an element, as [if (storageKey && ...)] takes
    it. *)
Definition keyOf (el : ProseElement) : option string :=
  truthyStr (Prose.storageKey el).

Definition storageKeys (nodes : list ProseElement) : list string :=
  omap keyOf nodes.

Section FillExpectation.
Variable storageCreators : gmap string (ProseElement -> JsValue).
Variable st : gmap string JsValue.

(** The entry of an element's key when the call has completed, told from
    the side table before the call: the generated value if the element
    needs one, the entry from before otherwise. *)
Definition expectedEntry (el : ProseElement) (key : string)
  : option JsValue :=
  match generatorFor storageCreators st el with
  | Some generator => Some (generator el)
  | None => st !! key
  end.

(** The invariant of a call on a tree whose storage keys are distinct,
    with the elements [pending] that are still to be visited. *)
Definition settling (nodes pending : list ProseElement) (f : Filling)
  : Prop :=
  (forall key, (forall n, n ∈ nodes -> keyOf n <> Some key) ->
     storage f !! key = st !! key)
  /\ (forall n key, n ∈ nodes -> keyOf n = Some key ->
        (n ∈ pending -> storage f !! key = st !! key)
        /\ (n ∉ pending -> storage f !! key = expectedEntry n key))
  /\ (forall n, n ∈ pending -> n ∈ nodes)
  /\ NoDup (storageKeys pending)
  /\ Forall (fun p => exists generator,
               generatorFor storageCreators st (suspended p) = Some generator
               /\ produced p = generator (suspended p)) (pool f).
End FillExpectation.

(* ===================================================================== *)
(** * Facts about hash *)
(* ===================================================================== *)

Section HashFacts.
Import Hash.

Lemma acceptBound_value : acceptBound = 4294967292.
Proof. reflexivity. Qed.

Lemma toUint32_range z : 0 <= toUint32 z < 2 ^ 32.
Proof. unfold toUint32. apply Z.mod_pos_bound. reflexivity. Qed.

Lemma toInt32_range z : - 2 ^ 31 <= toInt32 z < 2 ^ 31.
Proof.
  unfold toInt32. pose proof (toUint32_range z) as Hu.
  destruct (Z.ltb_spec (toUint32 z) (2 ^ 31)); lia.
Qed.

Lemma ushr_0 z : ushr z 0 = toUint32 z.
Proof. unfold ushr. apply Z.shiftr_0_r. Qed.

(** The state after a draw is a 32-bit integer, and the number drawn is
    its unsigned reading. *)
Lemma nextUint32_state x :
  - 2 ^ 31 <= fst (nextUint32 x) < 2 ^ 31
  /\ snd (nextUint32 x) = toUint32 (fst (nextUint32 x)).
Proof.
  unfold nextUint32. cbn [fst snd]. split.
  - unfold bxor at 1. apply toInt32_range.
  - apply ushr_0.
Qed.

(** The four numbers at and above [acceptBound] are the unsigned readings
    of -4 .. -1, and the draw after each of them is accepted. *)
Lemma rejected_state x :
  - 2 ^ 31 <= x < 2 ^ 31 -> acceptBound <= toUint32 x ->
  x = -4 \/ x = -3 \/ x = -2 \/ x = -1.
Proof.
  rewrite acceptBound_value. unfold toUint32. intros Hx Hr.
  change (2 ^ 32) with 4294967296 in Hr.
  change (2 ^ 31) with 2147483648 in Hx.
  Z.div_mod_to_equations. lia.
Qed.

Lemma draw_after_rejected x :
  - 2 ^ 31 <= x < 2 ^ 31 -> acceptBound <= toUint32 x ->
  (acceptBound <=? snd (nextUint32 x)) = false.
Proof.
  intros Hx Hr.
  destruct (rejected_state x Hx Hr) as [-> | [-> | [-> | ->]]];
    vm_compute; reflexivity.
Qed.

(** Two draws are always enough, and more fuel changes nothing. *)
Lemma draw_enough fuel x :
  (2 <= fuel)%nat ->
  exists x' r, draw fuel x = Ok (x', r) /\ 0 <= r < acceptBound.
Proof.
  intros Hfuel.
  destruct fuel as [| [| fuel]]; [lia | lia |].
  cbn [draw].
  destruct (nextUint32 x) as [x1 r1] eqn:E1.
  pose proof (nextUint32_state x) as [Hx1 Hr1]. rewrite E1 in Hx1, Hr1.
  cbn [fst snd] in Hx1, Hr1.
  destruct (Z.leb_spec acceptBound r1) as [Hrej | Hacc].
  - destruct (nextUint32 x1) as [x2 r2] eqn:E2.
    assert (Hrej1 : acceptBound <= toUint32 x1) by (rewrite <- Hr1; exact Hrej).
    pose proof (draw_after_rejected x1 Hx1 Hrej1) as Hnext.
    rewrite E2 in Hnext. cbn [snd] in Hnext. rewrite Hnext.
    exists x2, r2. split; [reflexivity |].
    pose proof (nextUint32_state x1) as [_ Hr2]. rewrite E2 in Hr2.
    cbn [fst snd] in Hr2.
    pose proof (toUint32_range x2).
    apply Z.leb_gt in Hnext. lia.
  - exists x1, r1. split; [reflexivity |].
    pose proof (toUint32_range x1). lia.
Qed.

Lemma draw_fuel_irrelevant fuel fuel' x :
  (2 <= fuel)%nat -> (2 <= fuel')%nat -> draw fuel x = draw fuel' x.
Proof.
  intros Hf Hf'.
  destruct fuel as [| [| fuel]]; [lia | lia |].
  destruct fuel' as [| [| fuel']]; [lia | lia |].
  cbn [draw].
  destruct (nextUint32 x) as [x1 r1] eqn:E1.
  pose proof (nextUint32_state x) as [Hx1 Hr1]. rewrite E1 in Hx1, Hr1.
  cbn [fst snd] in Hx1, Hr1.
  destruct (Z.leb_spec acceptBound r1) as [Hrej | Hacc]; [| reflexivity].
  destruct (nextUint32 x1) as [x2 r2] eqn:E2.
  assert (Hrej1 : acceptBound <= toUint32 x1) by (rewrite <- Hr1; exact Hrej).
  pose proof (draw_after_rejected x1 Hx1 Hrej1) as Hnext.
  rewrite E2 in Hnext. cbn [snd] in Hnext. rewrite Hnext. reflexivity.
Qed.

Lemma charAt_alphabet idx :
  0 <= idx < ALPHABET_LEN ->
  exists c, charAt ALPHABET idx = String c "" /\ isBase62 c = true.
Proof.
  intros Hidx. unfold charAt.
  destruct (Z.ltb_spec idx 0); [lia |].
  assert (Hn : (Z.to_nat idx < 62)%nat) by (unfold ALPHABET_LEN in Hidx; lia).
  generalize dependent (Z.to_nat idx). intros n Hn.
  do 62 (destruct n as [| n];
         [vm_compute; eexists; split; reflexivity |]).
  lia.
Qed.

Lemma allBase62_app s c :
  allBase62 s -> isBase62 c = true -> allBase62 (s +:+ String c "").
Proof.
  unfold allBase62. intros Hs Hc.
  induction s as [| a s IH]; cbn.
  - constructor; [exact Hc | constructor].
  - inversion Hs; subst. constructor; auto.
Qed.

Lemma length_app_char s c :
  String.length (s +:+ String c "") = Datatypes.S (String.length s).
Proof. induction s as [| a s IH]; simpl; [reflexivity | now f_equal]. Qed.

(** The filling loop appends exactly [n] alphabet characters. *)
Lemma fill_enough fuel n : forall x out,
  (2 <= fuel)%nat -> allBase62 out ->
  exists res, fill fuel n x out = Ok res
    /\ String.length res = (String.length out + n)%nat
    /\ allBase62 res.
Proof.
  induction n as [| n IH]; intros x out Hfuel Hout.
  - exists out. cbn. repeat split; [lia | exact Hout].
  - cbn [fill].
    destruct (draw_enough fuel x Hfuel) as (x' & r & -> & Hr).
    cbn [obind fst snd].
    destruct (charAt_alphabet (r mod ALPHABET_LEN)) as (c & -> & Hc).
    { apply Z.mod_pos_bound. reflexivity. }
    destruct (IH x' (out +:+ String c "") Hfuel (allBase62_app _ _ Hout Hc))
      as (res & -> & Hlen & Hres).
    exists res. repeat split; [| exact Hres].
    rewrite Hlen, length_app_char. lia.
Qed.

Lemma fill_fuel_irrelevant fuel fuel' n : forall x out,
  (2 <= fuel)%nat -> (2 <= fuel')%nat ->
  fill fuel n x out = fill fuel' n x out.
Proof.
  induction n as [| n IH]; intros x out Hf Hf'; [reflexivity |].
  cbn [fill]. rewrite (draw_fuel_irrelevant fuel fuel' x Hf Hf').
  destruct (draw fuel' x) as [[x' r] | |]; cbn [obind]; auto.
Qed.

(** C8. For every input (a list of code units) and every positive
    integer [n], [hash(input, n)] returns a string of exactly [n]
    characters, all of the 62-symbol alphabet, and the same string
    whatever fuel (at least two draws per character) is given; for every
    [length] that is not a positive integer it throws the TypeError. *)
Theorem hash_contract (fuel : nat) (input : list Z) (length : JsNumber) :
  (2 <= fuel)%nat ->
  match positiveInteger length with
  | Some n =>
      exists out,
        hashUnits fuel input length = Ok out
        /\ Z.of_nat (String.length out) = n
        /\ allBase62 out
        /\ forall fuel', (2 <= fuel')%nat ->
             hashUnits fuel' input length = Ok out
  | None => hashUnits fuel input length = Throw TypeErrorLength
  end.
Proof.
  intros Hfuel. destruct length as [n |]; cbn [positiveInteger].
  - destruct (Z.ltb_spec 0 n) as [Hpos | Hnpos].
    + unfold hashUnits.
      destruct (Z.leb_spec n 0); [lia |].
      destruct (fill_enough fuel (Z.to_nat n)
                  (makeXorShift32 (fnv1a32 input)) "" Hfuel)
        as (out & Hout & Hlen & Hall); [constructor |].
      exists out. repeat split.
      * exact Hout.
      * rewrite Hlen. cbn. lia.
      * exact Hall.
      * intros fuel' Hfuel'. destruct (Z.leb_spec n 0); [lia |].
        rewrite <- Hout. apply fill_fuel_irrelevant; assumption.
    + unfold hashUnits. destruct (Z.leb_spec n 0); [reflexivity | lia].
  - reflexivity.
Qed.

Lemma hash_contract_witness :
  exists out,
    hashUnits 2 (charCodes "ABC") (NumInt 12) = Ok out
    /\ Z.of_nat (String.length out) = 12
    /\ allBase62 out
    /\ forall fuel', (2 <= fuel')%nat ->
         hashUnits fuel' (charCodes "ABC") (NumInt 12) = Ok out.
Proof.
  exact (hash_contract 2 (charCodes "ABC") (NumInt 12) (le_n 2)).
Defined.

(** On strings, [hash] is [hashUnits] on the code units; for the length
    12 of the element hashes it always returns. *)
Lemma hash_enough fuel input :
  (2 <= fuel)%nat ->
  exists out, hash fuel input (NumInt 12) = Ok out
    /\ forall fuel', (2 <= fuel')%nat -> hash fuel' input (NumInt 12) = Ok out.
Proof.
  intros Hfuel. unfold hash, hashUnits. cbn [Z.leb Z.compare].
  destruct (fill_enough fuel (Z.to_nat 12)
              (makeXorShift32 (fnv1a32 (charCodes input))) "" Hfuel)
    as (out & Hout & _ & _); [constructor |].
  exists out. split; [exact Hout |].
  intros fuel' Hfuel'. rewrite <- Hout.
  apply fill_fuel_irrelevant; assumption.
Qed.
End HashFacts.

(* ===================================================================== *)
(** * Facts about normalizeChildren *)
(* ===================================================================== *)

Lemma deepCloneRawElement_id : forall el, deepCloneRawElement el = el.
Proof.
  fix IH 1. intros [sk sn h tn sl d st ch un]. cbn. f_equal.
  destruct ch as [cs |]; [| reflexivity]. f_equal.
  induction cs as [| c cs IHcs]; cbn; [reflexivity |].
  f_equal; [apply IH | exact IHcs].
Qed.

Lemma append_assoc (a b c : string) : (a +:+ b) +:+ c = a +:+ (b +:+ c).
Proof.
  induction a as [| x a IH]; [reflexivity |].
  change (String x ((a +:+ b) +:+ c) = String x (a +:+ (b +:+ c))).
  now f_equal.
Qed.

Lemma append_empty_r (a : string) : a +:+ "" = a.
Proof.
  induction a as [| x a IH]; [reflexivity |].
  change (String x (a +:+ "") = String x a). now f_equal.
Qed.

Lemma hash12_ok fuel s :
  (2 <= fuel)%nat -> Hash.hash fuel s (NumInt 12) = Ok (hash12 s).
Proof.
  intros Hfuel. destruct (hash_enough fuel s Hfuel) as (out & Hout & Hall).
  unfold hash12. rewrite (Hall 2%nat (le_n 2)). exact Hout.
Qed.

Lemma removelast_prefix {A} (l : list A) : exists r, l = removelast l ++ r.
Proof.
  destruct (last l) as [x |] eqn:E.
  - apply last_Some in E as [l' ->]. exists [x]. now rewrite removelast_last.
  - apply last_None in E as ->. now exists [].
Qed.

Section NormalizeFacts.
Context `{Runtime}.
Variable fuel : nat.
Hypothesis Hfuel : (2 <= fuel)%nat.

(** A stringified child, without a callback. *)
Lemma normalizeChild_other {S} (s : S) acc v :
  normalizeChild fuel None acc (ChildOther v) s
  = (s, Ok (mergeRun acc (jsString v))).
Proof.
  unfold normalizeChild, ebind, liftOutcome, callStep, eret, mergeRun.
  rewrite (hash12_ok fuel _ Hfuel).
  destruct (last acc) as [t |]; [| reflexivity].
  unfold isText. destruct (isRawProseElement t (Some textSchema));
    [| reflexivity].
  unfold appendData. rewrite (hash12_ok fuel _ Hfuel). reflexivity.
Qed.

Lemma normalizeChild_raw {S} (s : S) acc el :
  normalizeChild fuel None acc (ChildRaw el) s = (s, Ok (acc ++ [el])).
Proof.
  unfold normalizeChild, ebind, callStep, eret.
  now rewrite deepCloneRawElement_id.
Qed.

Lemma normalizeChild_unique {S} (s : S) acc u :
  normalizeChild fuel None acc (ChildUnique u) s
  = match getRawElement u with
    | Some el => (s, Ok (acc ++ [anonymized el]))
    | None => (s, Throw TypeErrorUndefined)
    end.
Proof.
  unfold normalizeChild, ebind, callStep, eret, ethrow, anonymized.
  destruct (getRawElement u) as [el |]; [| reflexivity].
  now rewrite deepCloneRawElement_id.
Qed.

(** A callback changes the state and may throw; it does not change what
    is returned. *)
Lemma normalizeChild_step {S S0} step acc c (s s' : S) (s0 : S0) out :
  normalizeChild fuel step acc c s = (s', Ok out) ->
  normalizeChild fuel None acc c s0 = (s0, Ok out).
Proof.
  destruct c as [el | u | v].
  - rewrite normalizeChild_raw.
    unfold normalizeChild, ebind, eret. rewrite deepCloneRawElement_id.
    destruct (callStep step el s) as [s1 [[] | e |]]; congruence.
  - rewrite normalizeChild_unique.
    unfold normalizeChild, ebind, eret, ethrow.
    destruct (getRawElement u) as [el |]; [| congruence].
    rewrite deepCloneRawElement_id. fold (anonymized el).
    destruct (callStep step (anonymized el) s) as [s1 [[] | e |]];
      congruence.
  - rewrite normalizeChild_other.
    unfold normalizeChild, ebind, liftOutcome, eret, mergeRun.
    rewrite (hash12_ok fuel _ Hfuel).
    destruct (callStep step _ s) as [s1 [[] | e |]]; try congruence.
    destruct (last acc) as [t |]; [| congruence].
    unfold isText. destruct (isRawProseElement t (Some textSchema));
      [| congruence].
    unfold appendData, mergedText. rewrite (hash12_ok fuel _ Hfuel).
    congruence.
Qed.

Lemma normalizeLoop_step {S S0} step cs : forall acc (s s' : S) (s0 : S0) out,
  normalizeLoop fuel step acc cs s = (s', Ok out) ->
  normalizeLoop fuel None acc cs s0 = (s0, Ok out).
Proof.
  induction cs as [| c cs IH]; intros acc s s' s0 out.
  - cbn. unfold eret. congruence.
  - cbn [normalizeLoop]. unfold ebind.
    destruct (normalizeChild fuel step acc c s) as [s1 [acc1 | e |]] eqn:E;
      try congruence.
    rewrite (normalizeChild_step step acc c s s1 s0 acc1 E).
    apply IH.
Qed.

Lemma normalizeLoop_app {S} step xs : forall ys acc (s : S),
  normalizeLoop fuel step acc (xs ++ ys) s
  = ebind (normalizeLoop fuel step acc xs)
          (fun acc' => normalizeLoop fuel step acc' ys) s.
Proof.
  induction xs as [| x xs IH]; intros ys acc s; [reflexivity |].
  cbn [normalizeLoop app]. unfold ebind.
  destruct (normalizeChild fuel step acc x s) as [s1 [acc1 | e |]];
    [| reflexivity | reflexivity].
  rewrite IH. reflexivity.
Qed.

(** Merging a string and then another is merging their concatenation. *)
Lemma mergeRun_mergeRun acc a b :
  mergeRun (mergeRun acc a) b = mergeRun acc (a +:+ b).
Proof.
  unfold mergeRun at 2 3.
  destruct (last acc) as [t |] eqn:El.
  - destruct (isText t) eqn:Et.
    + unfold mergeRun. rewrite last_snoc.
      replace (isText (mergedText t a)) with true by (symmetry; exact Et).
      rewrite removelast_last. do 2 f_equal.
      unfold mergedText. cbn. now rewrite append_assoc.
    + unfold mergeRun. rewrite last_snoc. cbn.
      rewrite removelast_last. reflexivity.
  - unfold mergeRun. rewrite last_snoc. cbn.
    rewrite removelast_last. reflexivity.
Qed.

(** A run of stringified values is merged into one text element. *)
Lemma normalizeLoop_run {S} (s : S) vs : forall v acc,
  normalizeLoop fuel None acc (map ChildOther (v :: vs)) s
  = (s, Ok (mergeRun acc (runText (v :: vs)))).
Proof.
  induction vs as [| v' vs IH]; intros v acc.
  - cbn [map normalizeLoop]. unfold ebind.
    rewrite normalizeChild_other. cbn. now rewrite append_empty_r.
  - change (map ChildOther (v :: v' :: vs))
      with (ChildOther v :: map ChildOther (v' :: vs)).
    cbn [normalizeLoop]. unfold ebind.
    rewrite normalizeChild_other, IH, mergeRun_mergeRun. reflexivity.
Qed.

Lemma mergeRun_nonempty acc str : exists init t,
  mergeRun acc str = init ++ [t]
  /\ isText t = true
  /\ Raw.hash t = hash12 (jsString (Raw.data t))
  /\ exists before, Raw.data t = JStr (before +:+ str).
Proof.
  unfold mergeRun. destruct (last acc) as [t |] eqn:El.
  - destruct (isText t) eqn:Et.
    + exists (removelast acc), (mergedText t str).
      repeat split; [exact Et |]. now exists (jsString (Raw.data t)).
    + exists acc, (jsxText str (hash12 str)).
      repeat split. now exists "".
  - exists acc, (jsxText str (hash12 str)). repeat split. now exists "".
Qed.

(** What was normalized before the last element is never touched
    again. *)
Lemma normalizeChild_keeps {S} (s : S) acc c out :
  normalizeChild fuel None acc c s = (s, Ok out) ->
  exists r, removelast out = removelast acc ++ r.
Proof.
  destruct c as [el | u | v].
  - rewrite normalizeChild_raw. intros [= <-].
    rewrite removelast_last. apply removelast_prefix.
  - rewrite normalizeChild_unique.
    destruct (getRawElement u); [| discriminate]. intros [= <-].
    rewrite removelast_last. apply removelast_prefix.
  - rewrite normalizeChild_other. intros [= <-]. unfold mergeRun.
    destruct (last acc) as [t |]; [destruct (isText t) |];
      rewrite removelast_last;
      (apply removelast_prefix || (exists []; now rewrite app_nil_r)).
Qed.

Lemma normalizeLoop_keeps {S} (s : S) cs : forall acc out,
  normalizeLoop fuel None acc cs s = (s, Ok out) ->
  exists r, out = removelast acc ++ r.
Proof.
  induction cs as [| c cs IH]; intros acc out.
  - cbn. unfold eret. intros [= <-]. apply removelast_prefix.
  - cbn [normalizeLoop]. unfold ebind.
    destruct (normalizeChild fuel None acc c s) as [s1 [acc1 | e |]] eqn:E;
      try discriminate.
    assert (s1 = s) as ->.
    { destruct c as [el | u | v].
      - rewrite normalizeChild_raw in E. congruence.
      - rewrite normalizeChild_unique in E.
        destruct (getRawElement u); congruence.
      - rewrite normalizeChild_other in E. congruence. }
    intros Hloop. destruct (IH _ _ Hloop) as [r ->].
    destruct (normalizeChild_keeps s acc c acc1 E) as [r' ->].
    exists (r' ++ r). now rewrite app_assoc.
Qed.
End NormalizeFacts.

Section NormalizeClaims.
Context `{Runtime}.
Variable fuel : nat.
Hypothesis Hfuel : (2 <= fuel)%nat.

(** After a child that is an element, what follows keeps every element
    before it; the element itself is kept or, when it is a text element,
    has later strings merged into it. *)
Lemma normalizeLoop_after post : forall acc c out,
  normalizeLoop fuel None (acc ++ [c]) post tt = (tt, Ok out) ->
  exists c' rest,
    out = acc ++ [c'] ++ rest
    /\ (c' = c \/ isText c = true /\ exists str, c' = mergedText c str)
    /\ (endsRun post -> c' = c).
Proof.
  induction post as [| child post IH]; intros acc c out.
  - cbn. unfold eret. intros [= <-]. exists c, []. auto.
  - cbn [normalizeLoop]. unfold ebind.
    destruct child as [el | u | v].
    + rewrite (normalizeChild_raw fuel). intros Hloop.
      destruct (normalizeLoop_keeps fuel Hfuel tt post _ _ Hloop) as [r ->].
      rewrite removelast_last. exists c, r. rewrite <- app_assoc. auto.
    + rewrite (normalizeChild_unique fuel).
      destruct (getRawElement u) as [el |]; [| discriminate].
      intros Hloop.
      destruct (normalizeLoop_keeps fuel Hfuel tt post _ _ Hloop) as [r ->].
      rewrite removelast_last. exists c, r. rewrite <- app_assoc. auto.
    + rewrite (normalizeChild_other fuel Hfuel). unfold mergeRun.
      rewrite last_snoc. destruct (isText c) eqn:Et.
      * rewrite removelast_last. intros Hloop.
        destruct (IH _ _ _ Hloop) as (c' & r & -> & Hc' & _).
        exists c', r. split; [reflexivity |]. split; [| intros []].
        right. split; [reflexivity |].
        destruct Hc' as [-> | [_ [str ->]]]; [now eexists |].
        exists (jsString v +:+ str). unfold mergedText. cbn.
        now rewrite append_assoc.
      * intros Hloop.
        destruct (normalizeLoop_keeps fuel Hfuel tt post _ _ Hloop)
          as [r ->].
        rewrite removelast_last. exists c, r. rewrite <- app_assoc.
        split; [reflexivity |]. split; [now left | intros []].
Qed.

(** C6. [normalizeChildren(["A","B","C"])] is one text element with
    data "ABC" and hash [hash("ABC", 12)]. In general, for every run of
    adjacent children that are neither elements nor uniques, followed by
    an element, a unique or nothing: the run is stringified and
    concatenated into a single text element [t], whose data ends with the
    text of the run and whose hash is recomputed from its data; [t] is
    appended to what was normalized before the run, or is its last element
    with the run merged into it when that is a text element ([mergeRun]).
    A callback does not change the result. The string of a value is
    [String(value)]; for a number that is not a safe integer it is what
    the runtime prints ([numberToString]). *)
Theorem adjacent_text_merged :
  normalizeChildren fuel None
    (ChildrenArray
       [ChildOther (JStr "A"); ChildOther (JStr "B"); ChildOther (JStr "C")])
    tt
  = (tt, Ok (Some [jsxText "ABC" (hash12 "ABC")]))
  /\ Hash.hash fuel "ABC" (NumInt 12) = Ok (hash12 "ABC")
  /\ forall (S : Type) (step : option (RawElement -> Eff S unit))
       (s s' : S) pre v vs post out,
       endsRun post ->
       normalizeChildren fuel step
         (ChildrenArray (pre ++ map ChildOther (v :: vs) ++ post)) s
       = (s', Ok out) ->
       exists acc init t rest,
         normalizeLoop fuel None [] pre tt = (tt, Ok acc)
         /\ mergeRun acc (runText (v :: vs)) = init ++ [t]
         /\ out = Some (init ++ [t] ++ rest)
         /\ isText t = true
         /\ (exists before, Raw.data t = JStr (before +:+ runText (v :: vs)))
         /\ Raw.hash t = hash12 (jsString (Raw.data t))
         /\ (post = [] -> rest = []).
Proof.
  split; [| split].
  - unfold normalizeChildren, ebind.
    change [ChildOther (JStr "A"); ChildOther (JStr "B");
            ChildOther (JStr "C")]
      with (map ChildOther [JStr "A"; JStr "B"; JStr "C"]).
    rewrite (normalizeLoop_run fuel Hfuel tt
               [JStr "B"; JStr "C"] (JStr "A") []).
    reflexivity.
  - apply hash12_ok, Hfuel.
  - intros S step s s' pre v vs post out Hpost.
    unfold normalizeChildren, ebind.
    destruct (normalizeLoop fuel step [] _ s) as [s1 [l | e |]] eqn:E;
      try discriminate.
    unfold eret. intros [= <- <-].
    apply (normalizeLoop_step fuel Hfuel step _ _ s s1 tt l) in E.
    rewrite normalizeLoop_app in E. unfold ebind in E.
    destruct (normalizeLoop fuel None [] pre tt) as [[] [acc | e |]] eqn:Epre;
      try discriminate.
    rewrite normalizeLoop_app in E. unfold ebind in E.
    rewrite (normalizeLoop_run fuel Hfuel) in E.
    exists acc.
    destruct (mergeRun_nonempty acc (runText (v :: vs)))
      as (init & t & Hm & Htext & Hhash & Hdata).
    rewrite Hm in E.
    destruct (normalizeLoop_after post init t l E) as (c' & rest & -> & _ & Hc).
    rewrite (Hc Hpost). exists init, t, rest.
    repeat (split; [assumption || reflexivity |]).
    intros ->. cbn in E. unfold eret in E. injection E as E.
    rewrite (Hc Hpost) in E. rewrite <- (app_nil_r (init ++ [t])) in E at 1.
    rewrite <- app_assoc in E. apply app_inv_head in E.
    cbn in E. injection E as E. now symmetry.
Qed.

End NormalizeClaims.

Section NormalizeWitness.
Local Existing Instance sampleRuntime.

Lemma adjacent_text_merged_witness :
  exists acc init t rest,
    normalizeLoop 2 None [] [ChildRaw (rawBold "bold-hash")] tt = (tt, Ok acc)
    /\ mergeRun acc (runText [JStr "a"; JNum 7]) = init ++ [t]
    /\ Some [rawBold "bold-hash"; jsxText "a7" (hash12 "a7")]
       = Some (init ++ [t] ++ rest)
    /\ isText t = true
    /\ (exists before, Raw.data t = JStr (before +:+ runText [JStr "a"; JNum 7]))
    /\ Raw.hash t = hash12 (jsString (Raw.data t))
    /\ (@nil Child = [] -> rest = []).
Proof.
  destruct (adjacent_text_merged 2 (le_n 2)) as (_ & _ & Hruns).
  apply (Hruns unit None tt tt [ChildRaw (rawBold "bold-hash")]
           (JStr "a") [JNum 7] [] _ I).
  vm_compute. reflexivity.
Defined.
End NormalizeWitness.

(* ===================================================================== *)
(** * Facts about normalizeChildren on the heap *)
(* ===================================================================== *)

Lemma merged_refl o : Obj.merged o o.
Proof. exists (Obj.data o), (Obj.hash o). now destruct o. Qed.

Lemma merged_trans o1 o2 o3 :
  Obj.merged o1 o2 -> Obj.merged o2 o3 -> Obj.merged o1 o3.
Proof.
  intros (d1 & h1 & ->) (d2 & h2 & ->). exists d2, h2. now destruct o1.
Qed.

(** An object reads the same in a heap that holds the same objects from
    [since] on. *)
Lemma contentSince_agree since depth : forall h h2 r el,
  (forall i o, (since <= i)%nat -> h !! i = Some o -> h2 !! i = Some o) ->
  Obj.contentSince since depth h r = Some el ->
  Obj.contentSince since depth h2 r = Some el.
Proof.
  induction depth as [| depth IH]; intros h h2 r el Hagree;
    cbn [Obj.contentSince]; [discriminate |].
  destruct (since <=? r)%nat eqn:Hle; [| discriminate].
  apply Nat.leb_le in Hle.
  destruct (h !! r) as [o |] eqn:Ho; [| discriminate].
  rewrite (Hagree r o Hle Ho).
  destruct (Obj.children o) as [rs |]; [| auto].
  destruct (mapM (Obj.contentSince since depth h) rs) as [cs |] eqn:Hcs;
    [| discriminate].
  intros [= <-]. apply mapM_Some in Hcs.
  assert (mapM (Obj.contentSince since depth h2) rs = Some cs) as ->;
    [| reflexivity].
  apply mapM_Some. eapply Forall2_impl; [exact Hcs |].
  intros r' el' Hr'. cbn beta in *. eapply IH; eauto.
Qed.

Lemma contentSince_mono depth : forall since since' h r el,
  (since' <= since)%nat ->
  Obj.contentSince since depth h r = Some el ->
  Obj.contentSince since' depth h r = Some el.
Proof.
  induction depth as [| depth IH]; intros since since' h r el Hsince;
    cbn [Obj.contentSince]; [discriminate |].
  destruct (since <=? r)%nat eqn:Hle; [| discriminate].
  apply Nat.leb_le in Hle.
  assert ((since' <=? r)%nat = true) as -> by (apply Nat.leb_le; lia).
  destruct (h !! r) as [o |]; [| discriminate].
  destruct (Obj.children o) as [rs |]; [| auto].
  destruct (mapM (Obj.contentSince since depth h) rs) as [cs |] eqn:Hcs;
    [| discriminate].
  intros [= <-]. apply mapM_Some in Hcs.
  assert (mapM (Obj.contentSince since' depth h) rs = Some cs) as ->;
    [| reflexivity].
  apply mapM_Some. eapply Forall2_impl; [exact Hcs |].
  intros r' el' Hr'. cbn beta in *. eapply IH; eauto.
Qed.

Lemma contentSince_prefix since depth h h2 r el :
  h `prefix_of` h2 ->
  Obj.contentSince since depth h r = Some el ->
  Obj.contentSince since depth h2 r = Some el.
Proof.
  intros Hpre. apply contentSince_agree.
  intros i o _ Ho. exact (prefix_lookup_Some _ _ _ _ Ho Hpre).
Qed.

Lemma contentOwned_since depth h r el :
  Obj.contentOwned depth h r = Some el ->
  Obj.contentSince r depth h r = Some el.
Proof.
  destruct depth as [| depth]; cbn [Obj.contentOwned Obj.contentSince];
    [discriminate |].
  rewrite Nat.leb_refl.
  destruct (h !! r) as [o |]; [| discriminate].
  destruct (Obj.children o) as [rs |]; [| auto].
  destruct (mapM (Obj.contentSince (Datatypes.S r) depth h) rs)
    as [cs |] eqn:Hcs; [| discriminate].
  intros [= <-]. apply mapM_Some in Hcs.
  assert (mapM (Obj.contentSince r depth h) rs = Some cs) as ->;
    [| reflexivity].
  apply mapM_Some. eapply Forall2_impl; [exact Hcs |].
  intros r' el' Hr'. cbn beta in *.
  eapply contentSince_mono; [| exact Hr']. lia.
Qed.

Lemma contentOwned_agree depth h h2 r el :
  (forall i o, (r <= i)%nat -> h !! i = Some o -> h2 !! i = Some o) ->
  Obj.contentOwned depth h r = Some el ->
  Obj.contentOwned depth h2 r = Some el.
Proof.
  intros Hagree.
  destruct depth as [| depth]; cbn [Obj.contentOwned]; [discriminate |].
  destruct (h !! r) as [o |] eqn:Ho; [| discriminate].
  rewrite (Hagree r o (le_n r) Ho).
  destruct (Obj.children o) as [rs |]; [| auto].
  destruct (mapM (Obj.contentSince (Datatypes.S r) depth h) rs)
    as [cs |] eqn:Hcs; [| discriminate].
  intros [= <-]. apply mapM_Some in Hcs.
  assert (mapM (Obj.contentSince (Datatypes.S r) depth h2) rs = Some cs)
    as ->; [| reflexivity].
  apply mapM_Some. eapply Forall2_impl; [exact Hcs |].
  intros r' el' Hr'. cbn beta in *.
  eapply contentSince_agree; [| exact Hr'].
  intros i o' Hi. apply Hagree. lia.
Qed.

(** Writing a property other than [children] of the object [r] changes
    the same property of what [r] holds. *)
Lemma contentOwned_alter depth h r el
    (f : Obj.RawObject -> Obj.RawObject) (F : RawElement -> RawElement) :
  (forall o cs, Obj.toRaw (f o) cs = F (Obj.toRaw o cs)) ->
  (forall o, Obj.children (f o) = Obj.children o) ->
  Obj.contentOwned depth h r = Some el ->
  Obj.contentOwned depth (alter f r h) r = Some (F el).
Proof.
  intros HF Hch.
  destruct depth as [| depth]; cbn [Obj.contentOwned]; [discriminate |].
  rewrite list_lookup_alter_eq.
  destruct (h !! r) as [o |] eqn:Ho; [| discriminate]. cbn [fmap option_fmap option_map].
  rewrite Hch.
  destruct (Obj.children o) as [rs |]; [| intros [= <-]; now rewrite HF].
  destruct (mapM (Obj.contentSince (Datatypes.S r) depth h) rs)
    as [cs |] eqn:Hcs; [| discriminate].
  intros [= <-]. apply mapM_Some in Hcs.
  assert (mapM (Obj.contentSince (Datatypes.S r) depth (alter f r h)) rs
          = Some cs) as ->; [| now rewrite HF].
  apply mapM_Some. eapply Forall2_impl; [exact Hcs |].
  intros r' el' Hr'. cbn beta in *.
  eapply contentSince_agree; [| exact Hr'].
  intros i o' Hi Ho'. rewrite list_lookup_alter_ne by lia. exact Ho'.
Qed.

(** A heap that keeps every object of [h] is [h] followed by the objects
    created since. *)
Lemma kept_objects_app {A} (h h' : list A) :
  (length h <= length h')%nat ->
  (forall i o, h !! i = Some o -> h' !! i = Some o) ->
  exists created, h' = h ++ created.
Proof.
  intros Hlen Hkeep. exists (drop (length h) h').
  rewrite <- (take_drop (length h) h') at 1. f_equal.
  apply list_eq. intros i.
  destruct (h !! i) as [o |] eqn:Ho.
  - rewrite lookup_take_lt by (apply lookup_lt_Some in Ho; lia).
    now apply Hkeep.
  - apply lookup_ge_None in Ho.
    apply lookup_ge_None. rewrite length_take. lia.
Qed.

(** ** deepCloneRawElement *)

(** The clone is the next object of the heap, and nothing that was there
    is written. *)
Lemma each_deepClone_prefix depth
    (IH : forall r h h' out,
        Obj.deepCloneRawElement depth r h = (h', out) -> h `prefix_of` h') :
  forall rs h h' out,
    Obj.each (Obj.deepCloneRawElement depth) rs h = (h', out) ->
    h `prefix_of` h'.
Proof.
  induction rs as [| r rs IHrs]; intros h h' out.
  - cbn. unfold eret. intros [= <- _]. reflexivity.
  - cbn [Obj.each]. unfold ebind.
    destruct (Obj.deepCloneRawElement depth r h) as [h1 [c | e |]] eqn:Ec;
      try (intros [= <- _]; exact (IH _ _ _ _ Ec)).
    destruct (Obj.each (Obj.deepCloneRawElement depth) rs h1)
      as [h2 [cs | e |]] eqn:Ers;
      intros [= <- _]; (etransitivity; [exact (IH _ _ _ _ Ec) |]);
      exact (IHrs _ _ _ Ers).
Qed.

Lemma prefix_alter_new {A} (f : A -> A) (h h2 : list A) c :
  h `prefix_of` h2 -> (length h <= c)%nat -> h `prefix_of` alter f c h2.
Proof.
  intros [k ->] Hc. rewrite alter_app_r_alt by exact Hc.
  now apply prefix_app_r.
Qed.

Lemma deepClone_prefix depth : forall r h h' out,
  Obj.deepCloneRawElement depth r h = (h', out) -> h `prefix_of` h'.
Proof.
  induction depth as [| depth IH]; intros r h h' out.
  - cbn. intros [= <- _]. reflexivity.
  - cbn [Obj.deepCloneRawElement]. unfold ebind, Obj.read.
    destruct (h !! r) as [o |]; [| intros [= <- _]; reflexivity].
    destruct (Obj.children o) as [rs |].
    + unfold Obj.new at 1.
      destruct (Obj.each (Obj.deepCloneRawElement depth) rs
                  (h ++ [Obj.setChildren (Some []) o]))
        as [h2 [cs | e |]] eqn:Ers;
        pose proof (each_deepClone_prefix depth IH _ _ _ _ Ers) as Hpre.
      * unfold Obj.write, eret. intros [= <- _].
        apply prefix_alter_new; [| lia].
        etransitivity; [| exact Hpre]. now apply prefix_app_r.
      * intros [= <- _]. etransitivity; [| exact Hpre].
        now apply prefix_app_r.
      * intros [= <- _]. etransitivity; [| exact Hpre].
        now apply prefix_app_r.
    + unfold Obj.new. intros [= <- _]. now apply prefix_app_r.
Qed.

Lemma deepClone_ref depth r h h' c :
  Obj.deepCloneRawElement depth r h = (h', Ok c) ->
  c = length h /\ (length h < length h')%nat.
Proof.
  destruct depth as [| depth]; [discriminate |].
  cbn [Obj.deepCloneRawElement]. unfold ebind, Obj.read.
  destruct (h !! r) as [o |]; [| discriminate].
  destruct (Obj.children o) as [rs |].
  - unfold Obj.new at 1.
    destruct (Obj.each (Obj.deepCloneRawElement depth) rs
                (h ++ [Obj.setChildren (Some []) o]))
      as [h2 [cs | e |]] eqn:Ers; try discriminate.
    unfold Obj.write, eret. intros [= <- <-]. split; [reflexivity |].
    rewrite length_alter.
    pose proof (each_deepClone_prefix depth (deepClone_prefix depth)
                  _ _ _ _ Ers) as Hpre.
    apply prefix_length in Hpre. rewrite length_app in Hpre. cbn in Hpre. lia.
  - unfold Obj.new. intros [= <- <-]. split; [reflexivity |].
    rewrite length_app. cbn. lia.
Qed.

(** The clone of an object that holds [el] holds [el], in objects that
    are all new. *)
Lemma deepClone_content depth : forall r h el,
  Obj.content depth h r = Some el ->
  exists created,
    Obj.deepCloneRawElement depth r h = (h ++ created, Ok (length h))
    /\ Obj.contentOwned depth (h ++ created) (length h) = Some el.
Proof.
  induction depth as [| depth IH]; intros r h el; [discriminate |].
  unfold Obj.content. cbn [Obj.contentSince Obj.deepCloneRawElement].
  unfold ebind, Obj.read. cbn [Nat.leb].
  destruct (h !! r) as [o |] eqn:Ho; [| discriminate].
  destruct (Obj.children o) as [rs |] eqn:Hch.
  - destruct (mapM (Obj.contentSince 0 depth h) rs) as [cs |] eqn:Hcs;
      [| discriminate].
    intros [= <-]. apply mapM_Some in Hcs.
    unfold Obj.new at 1.
    set (o0 := Obj.setChildren (Some []) o).
    assert (Heach : forall hcur,
               h `prefix_of` hcur ->
               exists created rs',
                 Obj.each (Obj.deepCloneRawElement depth) rs hcur
                 = (hcur ++ created, Ok rs')
                 /\ Forall2 (fun r' e =>
                               Obj.contentSince (length hcur) depth
                                 (hcur ++ created) r' = Some e) rs' cs).
    { clear Ho Hch o0. induction Hcs as [| r' e rs cs Hr' Hcs IHcs];
        intros hcur Hpre.
      - exists [], []. cbn. unfold eret. rewrite app_nil_r.
        split; [reflexivity | constructor].
      - cbn beta in Hr'.
        destruct (IH r' hcur e) as (created1 & Hclone & Hown).
        { unfold Obj.content. eapply contentSince_prefix; eauto. }
        destruct (IHcs (hcur ++ created1)) as (created2 & rs' & Hrest & Hall).
        { etransitivity; [exact Hpre |]. now apply prefix_app_r. }
        exists (created1 ++ created2), (length hcur :: rs').
        cbn [Obj.each]. unfold ebind. rewrite Hclone, Hrest. unfold eret.
        rewrite app_assoc. split; [reflexivity |]. constructor.
        + eapply contentSince_prefix; [now apply prefix_app_r |].
          now apply contentOwned_since.
        + eapply Forall2_impl; [exact Hall |].
          intros r2 e2 Hr2. cbn beta in *.
          eapply contentSince_mono; [| exact Hr2].
          rewrite length_app. lia. }
    destruct (Heach (h ++ [o0])) as (created & rs' & Hrun & Hall).
    { now apply prefix_app_r. }
    rewrite Hrun. unfold Obj.write, eret.
    exists (Obj.setChildren (Some rs') o0 :: created).
    assert (Halter :
              alter (Obj.setChildren (Some rs')) (length h)
                    ((h ++ [o0]) ++ created)
              = h ++ Obj.setChildren (Some rs') o0 :: created).
    { rewrite <- app_assoc. rewrite alter_app_r_alt by lia.
      rewrite Nat.sub_diag. reflexivity. }
    rewrite Halter. split; [reflexivity |].
    cbn [Obj.contentOwned]. rewrite list_lookup_middle by reflexivity.
    cbn [Obj.children Obj.setChildren].
    assert (mapM (Obj.contentSince (Datatypes.S (length h)) depth
                    (h ++ Obj.setChildren (Some rs') o0 :: created)) rs'
            = Some cs) as ->.
    { apply mapM_Some. eapply Forall2_impl; [exact Hall |].
      intros r2 e2 Hr2. cbn beta in *. rewrite length_app in Hr2.
      cbn [length] in Hr2.
      replace (length h + 1)%nat with (Datatypes.S (length h)) in Hr2 by lia.
      eapply contentSince_agree; [| exact Hr2].
      intros i o' Hi Ho'. rewrite <- Halter.
      rewrite list_lookup_alter_ne by lia. exact Ho'. }
    destruct o. reflexivity.
  - intros [= <-]. unfold Obj.new. exists [o]. split; [reflexivity |].
    cbn [Obj.contentOwned]. rewrite list_lookup_middle by reflexivity.
    rewrite Hch. reflexivity.
Qed.

(** ** The loop *)

Section ObjectLoop.
Context `{Runtime} {S : Type}.
Variable fuel : nat.
Variable depth : nat.
Variable step : option (Obj.Heap -> Obj.Ref -> Eff S unit).

Lemma callStep_heap c h s hs' out :
  Obj.callStep step c (h, s) = (hs', out) -> fst hs' = h.
Proof.
  unfold Obj.callStep. destruct step as [f |].
  - cbn. destruct (f h c s) as [s1 o]. now intros [= <- _].
  - now intros [= <- _].
Qed.

(** What one round does to the heap: it makes new objects, and writes at
    most [data] and [hash] of the last normalized child. *)
Lemma objChild_keeps acc c h s h' s' out :
  Obj.normalizeChild fuel depth step acc c (h, s) = ((h', s'), Ok out) ->
  (exists more,
      out = acc ++ more
      /\ Forall (fun r => (length h <= r < length h')%nat) more
      /\ NoDup more
      /\ match c with Obj.ChildOther _ => True | _ => more <> [] end)
  /\ (length h <= length h')%nat
  /\ forall i o, h !! i = Some o ->
       exists o', h' !! i = Some o'
         /\ Obj.merged o o'
         /\ (last acc <> Some i -> o' = o)
         /\ (Obj.isRawProseElement o (Some textSchema) = false -> o' = o)
         /\ match c with Obj.ChildOther _ => True | _ => o' = o end.
Proof.
  destruct c as [element | u | v]; cbn [Obj.normalizeChild].
  - unfold ebind, Obj.onHeap. cbn [fst snd].
    destruct (Obj.deepCloneRawElement depth element h)
      as [h1 [c | e |]] eqn:Ec; try discriminate.
    destruct (Obj.callStep step c (h1, s)) as [[h2 s2] [[] | e |]] eqn:Es;
      try discriminate.
    apply callStep_heap in Es. cbn in Es. subst h2.
    unfold eret. intros [= <- <- <-].
    destruct (deepClone_ref _ _ _ _ _ Ec) as [-> Hlen].
    pose proof (deepClone_prefix _ _ _ _ _ Ec) as Hpre.
    split.
    { exists [length h]. split; [reflexivity |].
      split; [constructor; [lia | constructor] |].
      split; [apply NoDup_singleton | discriminate]. }
    split; [lia |]. intros i o Ho. exists o.
    split; [exact (prefix_lookup_Some _ _ _ _ Ho Hpre) |].
    split; [apply merged_refl | auto].
  - destruct (Obj._rawElement u) as [element |]; [| discriminate].
    unfold ebind, Obj.onHeap, Obj.write. cbn [fst snd].
    destruct (Obj.deepCloneRawElement depth element h)
      as [h1 [c | e |]] eqn:Ec; try discriminate.
    destruct (Obj.callStep step c _) as [[h2 s2] [[] | e |]] eqn:Es;
      try discriminate.
    apply callStep_heap in Es. cbn in Es. subst h2.
    unfold eret. intros [= <- <- <-].
    destruct (deepClone_ref _ _ _ _ _ Ec) as [-> Hlen].
    pose proof (deepClone_prefix _ _ _ _ _ Ec) as Hpre.
    split.
    { exists [length h]. split; [reflexivity |].
      split; [constructor; [rewrite !length_alter; lia | constructor] |].
      split; [apply NoDup_singleton | discriminate]. }
    split; [rewrite !length_alter; lia |]. intros i o Ho. exists o.
    split.
    { pose proof (lookup_lt_Some _ _ _ Ho).
      rewrite !list_lookup_alter_ne by lia.
      exact (prefix_lookup_Some _ _ _ _ Ho Hpre). }
    split; [apply merged_refl | auto].
  - unfold ebind, Obj.liftOutcome, Obj.onHeap, Obj.new. cbn [fst snd].
    destruct (Hash.hash fuel (jsString v) (NumInt 12)) as [hv | e |];
      try discriminate.
    destruct (Obj.callStep step (length h) _) as [[h2 s2] [[] | e |]] eqn:Es;
      try discriminate.
    apply callStep_heap in Es. cbn in Es. subst h2.
    cbn [fst snd].
    assert (Hnew : forall out0,
               out0 = acc ++ [length h] ->
               (exists more,
                   out0 = acc ++ more
                   /\ Forall (fun r =>
                                (length h <= r
                                 < length (h ++ [Obj.jsxText (jsString v)
                                                   hv]))%nat) more
                   /\ NoDup more /\ True)
               /\ (length h <= length (h ++ [Obj.jsxText (jsString v) hv]))%nat
               /\ forall i o, h !! i = Some o ->
                    exists o', (h ++ [Obj.jsxText (jsString v) hv]) !! i
                               = Some o'
                      /\ Obj.merged o o'
                      /\ (last acc <> Some i -> o' = o)
                      /\ (Obj.isRawProseElement o (Some textSchema) = false
                          -> o' = o)
                      /\ True).
    { intros out0 ->.
      split.
      { exists [length h]. split; [reflexivity |].
        split; [constructor; [rewrite length_app; cbn; lia | constructor] |].
        split; [apply NoDup_singleton | exact I]. }
      split; [rewrite length_app; lia |]. intros i o Ho. exists o.
      split; [now apply lookup_app_l_Some |].
      split; [apply merged_refl | auto]. }
    destruct (last acc) as [lastNormalized |] eqn:Elast.
    + unfold Obj.read. cbn [fst snd].
      destruct ((h ++ [Obj.jsxText (jsString v) hv]) !! lastNormalized)
        as [ol |] eqn:Hol; cbn beta iota zeta; [| discriminate].
      destruct (Obj.isRawProseElement ol (Some textSchema)) eqn:Htext.
      * unfold Obj.write. cbn [fst snd].
        destruct (Hash.hash fuel _ (NumInt 12)) as [hd | e |];
          try discriminate.
        cbn [fst snd]. unfold eret. intros [= <- <- <-].
        split.
        { exists []. rewrite app_nil_r. split; [reflexivity |].
          split; [constructor |]. split; [apply NoDup_nil_2 | exact I]. }
        split; [rewrite !length_alter, length_app; lia |].
        intros i o Ho.
        destruct (decide (i = lastNormalized)) as [-> | Hne].
        -- rewrite (lookup_app_l_Some _ _ _ _ Ho) in Hol.
           injection Hol as <-.
           exists (Obj.setHash hd
                     (Obj.setData (JStr (appendData (Obj.data o)
                                           (jsString v))) o)).
           split.
           { rewrite list_lookup_alter_eq, list_lookup_alter_eq.
             rewrite (lookup_app_l_Some _ _ _ _ Ho). reflexivity. }
           split; [now eexists _, _ |].
           split; [congruence |]. split; [congruence | exact I].
        -- exists o. split.
           { rewrite !list_lookup_alter_ne by congruence.
             now apply lookup_app_l_Some. }
           split; [apply merged_refl | auto].
      * unfold eret. intros [= <- <- <-]. now apply Hnew.
    + unfold eret. intros [= <- <- <-]. now apply Hnew.
Qed.

Lemma objLoop_app xs : forall ys acc hs,
  Obj.normalizeLoop fuel depth step acc (xs ++ ys) hs
  = ebind (Obj.normalizeLoop fuel depth step acc xs)
          (fun acc' => Obj.normalizeLoop fuel depth step acc' ys) hs.
Proof.
  induction xs as [| x xs IH]; intros ys acc hs; [reflexivity |].
  cbn [Obj.normalizeLoop app]. unfold ebind.
  destruct (Obj.normalizeChild fuel depth step acc x hs)
    as [hs1 [acc1 | e |]]; [| reflexivity | reflexivity].
  rewrite IH. reflexivity.
Qed.

(** What the loop does to the heap. *)
Lemma objLoop_keeps cs : forall acc h s h' s' out,
  Obj.normalizeLoop fuel depth step acc cs (h, s) = ((h', s'), Ok out) ->
  (exists more,
      out = acc ++ more
      /\ Forall (fun r => (length h <= r < length h')%nat) more
      /\ NoDup more)
  /\ (length h <= length h')%nat
  /\ forall i o, h !! i = Some o ->
       exists o', h' !! i = Some o'
         /\ Obj.merged o o'
         /\ (last acc <> Some i -> o' = o)
         /\ (Obj.isRawProseElement o (Some textSchema) = false -> o' = o)
         /\ (Obj.endsRun cs -> o' = o).
Proof.
  induction cs as [| c cs IH]; intros acc h s h' s' out.
  - cbn. unfold eret. intros [= <- <- <-].
    split; [exists []; rewrite app_nil_r;
            repeat split; [constructor | apply NoDup_nil_2] |].
    split; [lia |]. intros i o Ho. exists o.
    split; [exact Ho |]. split; [apply merged_refl | auto].
  - cbn [Obj.normalizeLoop]. unfold ebind.
    destruct (Obj.normalizeChild fuel depth step acc c (h, s))
      as [[h1 s1] [acc1 | e |]] eqn:Ec; try discriminate.
    intros Hrest.
    destruct (objChild_keeps _ _ _ _ _ _ _ Ec)
      as ((more1 & -> & Hmore1 & Hnodup1 & Hnonempty) & Hlen1 & Hkeep1).
    destruct (IH _ _ _ _ _ _ Hrest)
      as ((more2 & -> & Hmore2 & Hnodup2) & Hlen2 & Hkeep2).
    split.
    { exists (more1 ++ more2). rewrite app_assoc. split; [reflexivity |].
      split.
      - apply Forall_app. split.
        + eapply Forall_impl; [exact Hmore1 |]. cbn. intros; lia.
        + eapply Forall_impl; [exact Hmore2 |]. cbn. intros; lia.
      - apply NoDup_app. split; [exact Hnodup1 |].
        split; [| exact Hnodup2]. intros x Hx1 Hx2.
        rewrite Forall_forall in Hmore1, Hmore2.
        specialize (Hmore1 x Hx1). specialize (Hmore2 x Hx2).
        cbn beta in *. lia. }
    split; [lia |]. intros i o Ho.
    destruct (Hkeep1 i o Ho) as (o1 & Ho1 & Hm1 & Hlast1 & Htext1 & Hc1).
    destruct (Hkeep2 i o1 Ho1) as (o' & Ho' & Hm2 & Hlast2 & Htext2 & _).
    exists o'. split; [exact Ho' |].
    split; [exact (merged_trans _ _ _ Hm1 Hm2) |].
    assert (Hfresh : more1 <> [] -> last (acc ++ more1) <> Some i).
    { intros Hne Hl. apply last_Some in Hl as [l' Hl].
      destruct (last more1) as [x |] eqn:Ex.
      - apply last_Some in Ex as [m' ->].
        rewrite app_assoc in Hl. apply app_inj_tail in Hl as [_ ->].
        destruct (proj1 (Forall_app _ _ _) Hmore1) as [_ Hx].
        apply (proj1 (Forall_singleton _ _)) in Hx. cbn beta in Hx.
        apply lookup_lt_Some in Ho. lia.
      - apply last_None in Ex. contradiction. }
    assert (Hsame : last acc <> Some i -> last (acc ++ more1) <> Some i).
    { intros Hl. destruct more1 as [| x more1].
      - now rewrite app_nil_r.
      - now apply Hfresh. }
    split; [intros Hl; rewrite (Hlast2 (Hsame Hl)); auto |].
    split.
    { intros Ht. rewrite <- (Htext1 Ht) in Ht |- *.
      rewrite (Htext2 Ht). reflexivity. }
    intros Hends. destruct c as [element | u | v]; [| | destruct Hends].
    + subst o1. apply Hlast2, Hfresh, Hnonempty.
    + subst o1. apply Hlast2, Hfresh, Hnonempty.
Qed.

(** The round of a reference to a unique whose element holds [el]. *)
Lemma objChild_unique_content acc u bound el h s :
  Obj._rawElement u = Some bound ->
  Obj.content depth h bound = Some el ->
  exists h3,
    Obj.contentOwned depth h3 (length h) = Some (anonymized el)
    /\ (length h < length h3)%nat
    /\ (forall i o, h !! i = Some o -> h3 !! i = Some o)
    /\ Obj.normalizeChild fuel depth None acc (Obj.ChildUnique u) (h, s)
       = ((h3, s), Ok (acc ++ [length h]))
    /\ forall h' s' out,
         Obj.normalizeChild fuel depth step acc (Obj.ChildUnique u) (h, s)
         = ((h', s'), Ok out) ->
         h' = h3 /\ out = acc ++ [length h].
Proof.
  intros Hbound Hcontent.
  destruct (deepClone_content depth bound h el Hcontent)
    as (created & Hclone & Hown).
  exists (alter (Obj.setUniqueName None) (length h)
            (alter (fun o => Obj.setSlug (Obj.uniqueName o) o) (length h)
               (h ++ created))).
  split.
  { unfold anonymized.
    apply (contentOwned_alter depth _ (length h) _
             (Obj.setUniqueName None) (Raw.setUniqueName None));
      [reflexivity | reflexivity |].
    apply (contentOwned_alter depth _ (length h) _
             (fun o => Obj.setSlug (Obj.uniqueName o) o)
             (fun e => Raw.setSlug (Raw.uniqueName e) e));
      [reflexivity | reflexivity | exact Hown]. }
  split.
  { rewrite !length_alter, length_app.
    destruct created as [| o created]; [| cbn; lia].
    destruct depth; cbn in Hown; [discriminate |].
    rewrite app_nil_r in Hown.
    now rewrite (lookup_ge_None_2 h (length h)) in Hown by lia. }
  split.
  { intros i o Ho. pose proof (lookup_lt_Some _ _ _ Ho).
    rewrite !list_lookup_alter_ne by lia. now apply lookup_app_l_Some. }
  split.
  { cbn [Obj.normalizeChild]. rewrite Hbound.
    unfold ebind, Obj.onHeap, Obj.write, Obj.callStep, eret. cbn [fst snd].
    rewrite Hclone. reflexivity. }
  intros h' s' out. cbn [Obj.normalizeChild]. rewrite Hbound.
  unfold ebind, Obj.onHeap, Obj.write. cbn [fst snd].
  rewrite Hclone. cbn [fst snd].
  destruct (Obj.callStep step (length h) _) as [[h2 s2] [[] | e |]] eqn:Es;
    try discriminate.
  apply callStep_heap in Es. cbn in Es. subst h2.
  unfold eret. now intros [= <- <- <-].
Qed.
End ObjectLoop.

(** C7. A reference to a unique whose bound object holds the raw element
    [el]. Alone, the reference is normalized to one child; and in every
    call that returns, among any children, the child [c] made for it is a
    clone of the bound object: [c] is a new object, the first one made
    after the children before the reference were normalized; every object
    that existed before the call is as it was, so the bound object still
    holds [el] with its [uniqueName]; [c] has no [uniqueName] and its
    [slug] is the [uniqueName] of [el], which is the name of the unique
    when a tag bound it; and [c] holds [el] with these two properties
    changed, in objects that were all made during the call, unless [el]
    is a text element followed by values that are merged into it. *)
Theorem unique_reference_cloned `{Runtime} (fuel depth : nat)
    (h : Obj.Heap) (u : Obj.Unique) (bound : Obj.Ref) (el : RawElement) :
  Obj._rawElement u = Some bound ->
  Obj.content depth h bound = Some el ->
  (exists created,
      Obj.normalizeChildren fuel depth None
        (Obj.ChildrenSingle (Obj.ChildUnique u)) (h, tt)
      = ((h ++ created, tt), Ok (Some [length h]))
      /\ Obj.contentSince (length h) depth (h ++ created) (length h)
         = Some (anonymized el))
  /\ forall (S : Type) (step : option (Obj.Heap -> Obj.Ref -> Eff S unit))
       (s s' : S) (h' : Obj.Heap) pre post out,
       Obj.normalizeChildren fuel depth step
         (Obj.ChildrenArray (pre ++ Obj.ChildUnique u :: post)) (h, s)
       = ((h', s'), Ok out) ->
       exists h1 s1 before c rest created o,
         Obj.normalizeLoop fuel depth step [] pre (h, s)
         = ((h1, s1), Ok before)
         /\ out = Some (before ++ [c] ++ rest)
         /\ c = length h1
         /\ (length h <= c)%nat
         /\ h' = h ++ created
         /\ Obj.content depth h' bound = Some el
         /\ h' !! c = Some o
         /\ Obj.uniqueName o = None
         /\ Obj.slug o = Raw.uniqueName el
         /\ (Raw.uniqueName el = Some (Obj.name u) ->
             Obj.slug o = Some (Obj.name u))
         /\ (isText el = false \/ Obj.endsRun post ->
             Obj.contentSince (length h) depth h' c = Some (anonymized el)).
Proof.
  intros Hbound Hcontent. split.
  - destruct (objChild_unique_content fuel depth None [] u bound el
                h tt Hbound Hcontent)
      as (h3 & Hown & Hlen & Hkeep & Hrun & _).
    destruct (kept_objects_app h h3 ltac:(lia) Hkeep) as [created ->].
    exists created. split.
    + cbn [Obj.normalizeChildren Obj.normalizeLoop]. unfold ebind.
      rewrite Hrun. reflexivity.
    + now apply contentOwned_since.
  - intros S step s s' h' pre post out.
    cbn [Obj.normalizeChildren]. unfold ebind.
    destruct (Obj.normalizeLoop fuel depth step [] _ (h, s))
      as [[h4 s4] [l | e |]] eqn:E; try discriminate.
    unfold eret. intros [= <- <- <-].
    rewrite objLoop_app in E. unfold ebind in E.
    destruct (Obj.normalizeLoop fuel depth step [] pre (h, s))
      as [[h1 s1] [before | e |]] eqn:Epre; try discriminate.
    cbn [Obj.normalizeLoop] in E. unfold ebind in E.
    destruct (Obj.normalizeChild fuel depth step before (Obj.ChildUnique u)
                (h1, s1)) as [[h3 s3] [acc3 | e |]] eqn:Eu; try discriminate.
    destruct (objLoop_keeps fuel depth step pre _ _ _ _ _ _ Epre)
      as ((more1 & Hbefore & Hmore1 & _) & Hlen1 & Hkeep1).
    assert (Hh1 : forall i o, h !! i = Some o -> h1 !! i = Some o).
    { intros i o Ho.
      destruct (Hkeep1 i o Ho) as (o1 & Ho1 & _ & Hlast & _).
      rewrite (Hlast ltac:(discriminate)) in Ho1. exact Ho1. }
    assert (Hcontent1 : Obj.content depth h1 bound = Some el).
    { unfold Obj.content. eapply contentSince_agree; [| exact Hcontent].
      intros i o _. apply Hh1. }
    destruct (objChild_unique_content fuel depth step before u bound
                el h1 s1 Hbound Hcontent1)
      as (h3' & Hown & Hlen3 & Hkeep3 & _ & Hrun).
    destruct (Hrun _ _ _ Eu) as [-> ->]. clear Hrun.
    destruct (objLoop_keeps fuel depth step post _ _ _ _ _ _ E)
      as ((rest & -> & Hrest & _) & Hlen4 & Hkeep4).
    assert (Hroot : exists o3, h3' !! length h1 = Some o3
                               /\ Obj.toRaw o3 (Raw.children (anonymized el))
                                  = anonymized el).
    { destruct depth as [| depth']; [discriminate |].
      cbn [Obj.contentOwned] in Hown.
      destruct (h3' !! length h1) as [o3 |]; [| discriminate].
      exists o3. split; [reflexivity |].
      assert (Hsome : forall x y : RawElement, Some x = Some y -> x = y)
        by (intros x y Heq; congruence).
      destruct (Obj.children o3) as [rs |].
      - destruct (mapM _ rs) as [cs |]; [| discriminate].
        apply Hsome in Hown. now rewrite <- Hown.
      - apply Hsome in Hown. now rewrite <- Hown. }
    destruct Hroot as (o3 & Ho3 & Hfields).
    destruct (Hkeep4 _ _ Ho3) as (o & Ho & Hmerged & _ & Htext & Hends).
    assert (Hh' : forall i o, h !! i = Some o -> h4 !! i = Some o).
    { intros i o0 Ho0. pose proof (lookup_lt_Some _ _ _ Ho0) as Hi.
      destruct (Hkeep4 i o0 (Hkeep3 _ _ (Hh1 _ _ Ho0)))
        as (o1 & Ho1 & _ & Hlast & _).
      rewrite Hlast in Ho1; [exact Ho1 |].
      rewrite last_snoc. intros [= Heq]. lia. }
    destruct (kept_objects_app h h4 ltac:(lia) Hh') as [created Hcreated].
    exists h1, s1, before, (length h1), rest, created, o.
    split; [reflexivity |]. split; [now rewrite <- app_assoc |].
    split; [reflexivity |]. split; [exact Hlen1 |].
    split; [exact Hcreated |].
    split.
    { unfold Obj.content. eapply contentSince_agree; [| exact Hcontent].
      intros i o0 _. apply Hh'. }
    split; [exact Ho |].
    assert (Hslug : Obj.uniqueName o = None
                    /\ Obj.slug o = Raw.uniqueName el).
    { destruct Hmerged as (d & hh & ->). cbn.
      apply (f_equal Raw.uniqueName) in Hfields as Hu.
      apply (f_equal Raw.slug) in Hfields as Hs.
      cbn in Hu, Hs. auto. }
    destruct Hslug as [Hu Hs].
    split; [exact Hu |]. split; [exact Hs |].
    split; [intros <-; exact Hs |].
    intros Hcase.
    assert (o = o3) as ->.
    { destruct Hcase as [Hnt | He]; [| exact (Hends He)].
      apply Htext. apply (f_equal Raw.schemaName) in Hfields.
      unfold isText, isRawProseElement in Hnt.
      unfold Obj.isRawProseElement. cbn in Hfields |- *.
      now rewrite Hfields. }
    eapply contentSince_mono; [exact Hlen1 |].
    apply contentOwned_since.
    eapply contentOwned_agree; [| exact Hown].
    intros i o0 Hi Ho0.
    destruct (Hkeep4 i o0 Ho0) as (o1 & Ho1 & _ & Hlast & _).
    destruct (decide (i = length h1)) as [-> | Hne].
    + rewrite Ho3 in Ho0. injection Ho0 as <-. exact Ho.
    + rewrite Hlast in Ho1; [exact Ho1 |].
      rewrite last_snoc. congruence.
Qed.

Section ObjectWitness.
Local Existing Instance sampleRuntime.

Lemma unique_reference_cloned_witness :
  exists h1 s1 before c rest created o,
    Obj.normalizeLoop 2 2 None [] [Obj.ChildOther (JStr "a")]
      (sampleHeap, tt)
    = ((h1, s1), Ok before)
    /\ Some [2%nat; 3%nat; 5%nat] = Some (before ++ [c] ++ rest)
    /\ c = length h1
    /\ (length sampleHeap <= c)%nat
    /\ sampleHeap ++ sampleCreated = sampleHeap ++ created
    /\ Obj.content 2 (sampleHeap ++ sampleCreated) 1 = Some sampleBound
    /\ (sampleHeap ++ sampleCreated) !! c = Some o
    /\ Obj.uniqueName o = None
    /\ Obj.slug o = Raw.uniqueName sampleBound
    /\ (Raw.uniqueName sampleBound = Some (Obj.name sampleUniqueObject) ->
        Obj.slug o = Some (Obj.name sampleUniqueObject))
    /\ (isText sampleBound = false
        \/ Obj.endsRun [Obj.ChildOther (JNum 7)] ->
        Obj.contentSince (length sampleHeap) 2
          (sampleHeap ++ sampleCreated) c
        = Some (anonymized sampleBound)).
Proof.
  destruct (unique_reference_cloned 2 2 sampleHeap sampleUniqueObject
              1%nat sampleBound) as [_ Hcalls];
    [reflexivity | vm_compute; reflexivity |].
  apply (Hcalls unit None tt tt (sampleHeap ++ sampleCreated)
           [Obj.ChildOther (JStr "a")] [Obj.ChildOther (JNum 7)]
           (Some [2%nat; 3%nat; 5%nat])).
  vm_compute. reflexivity.
Defined.
End ObjectWitness.

(* ===================================================================== *)
(** * Facts about uniques *)
(* ===================================================================== *)

(** C5. For every unique and raw element: assigning to a bound unique
    throws and leaves it as it was; assigning an element of another tag
    name throws; the assignment succeeds exactly when the unique is unbound
    and the tag names are equal, and then [rawElement] is the assigned
    element, nothing else has changed, and any further assignment throws
    and leaves the first one in place. *)
Theorem unique_assigned_once (u : Unique) (value : RawElement) :
  (forall first, Unique._rawElement u = Some first ->
     setRawElement value u = (u, Throw (UniqueAlreadyAssigned (Unique.name u))))
  /\ (Raw.tagName value <> Tag.tagName (Unique.tag u) ->
      exists e, setRawElement value u = (u, Throw e))
  /\ ((exists u', setRawElement value u = (u', Ok tt))
      <-> Unique._rawElement u = None
          /\ Raw.tagName value = Tag.tagName (Unique.tag u))
  /\ (forall u', setRawElement value u = (u', Ok tt) ->
        getRawElement u' = Some value
        /\ Unique.documentId u' = Unique.documentId u
        /\ Unique.tag u' = Unique.tag u
        /\ Unique.name u' = Unique.name u
        /\ forall second,
             setRawElement second u'
             = (u', Throw (UniqueAlreadyAssigned (Unique.name u')))
             /\ getRawElement (fst (setRawElement second u')) = Some value).
Proof.
  unfold setRawElement, getRawElement.
  split; [| split; [| split]].
  - intros first Hfirst. rewrite Hfirst. reflexivity.
  - intros Hne. destruct (Unique._rawElement u); [eauto |].
    destruct (String.eqb_spec (Raw.tagName value)
                              (Tag.tagName (Unique.tag u)));
      [contradiction | cbn; eauto].
  - split.
    + intros [u' Hok]. destruct (Unique._rawElement u); [discriminate |].
      destruct (String.eqb_spec (Raw.tagName value)
                                (Tag.tagName (Unique.tag u)));
        [auto | discriminate].
    + intros [-> ->]. rewrite String.eqb_refl. cbn. eauto.
  - intros u' Hok. destruct (Unique._rawElement u); [discriminate |].
    destruct (String.eqb_spec (Raw.tagName value)
                              (Tag.tagName (Unique.tag u)));
      [| discriminate].
    cbn in Hok. injection Hok as <-. cbn. repeat split; reflexivity.
Qed.

(* ===================================================================== *)
(** * Facts about the registry *)
(* ===================================================================== *)

Lemma checkTags_state entries : forall r,
  fst (checkTags entries r) = r.
Proof.
  induction entries as [| [tagName tag] rest IH]; intros r; [reflexivity |].
  cbn [checkTags]. unfold ebind, eget, ethrow.
  destruct (Registry.tags r !! tagName); [reflexivity | apply IH].
Qed.

Lemma checkTags_throws entries : forall r r' e,
  checkTags entries r = (r', Throw e) ->
  exists tagName, e = TagAlreadyDefined tagName
    /\ tagName ∈ map fst entries
    /\ is_Some (Registry.tags r !! tagName).
Proof.
  induction entries as [| [tagName tag] rest IH]; intros r r' e.
  - discriminate.
  - cbn [checkTags]. unfold ebind, eget, ethrow.
    destruct (Registry.tags r !! tagName) as [t |] eqn:El.
    + intros [= <- <-]. exists tagName. split; [reflexivity |].
      split; [left | rewrite El; eauto].
    + intros Hrest. destruct (IH _ _ _ Hrest) as (n & -> & Hin & Hsome).
      exists n. split; [reflexivity |]. split; [now right | exact Hsome].
Qed.

Lemma setTags_ok entries : forall r, snd (setTags entries r) = Ok tt.
Proof.
  induction entries as [| [tagName tag] rest IH]; intros r; [reflexivity |].
  cbn [setTags]. unfold ebind, emodify. apply IH.
Qed.

(** C10. For every registry and item: if [addItem] throws, the registry
    is exactly as before the call, and the throw is the one for the schema
    name, which is registered, or the one for a tag name of the item that is
    registered. *)
Theorem addItem_atomic (r r' : Registry) (item : RegistryItem) (e : Error) :
  addItem item r = (r', Throw e) ->
  r' = r
  /\ (e = SchemaAlreadyDefined (name (schema item))
      /\ is_Some (Registry.items r !! name (schema item))
      \/ exists tagName, e = TagAlreadyDefined tagName
           /\ tagName ∈ map fst (tags item)
           /\ is_Some (Registry.tags r !! tagName)).
Proof.
  unfold addItem, ebind, eget, ethrow.
  destruct (Registry.items r !! name (schema item)) as [old |] eqn:Ei.
  - intros [= <- <-]. split; [reflexivity |]. left. split; eauto.
  - pose proof (checkTags_state (tags item) r) as Hst.
    destruct (checkTags (tags item) r) as [r1 [[] | e1 |]] eqn:Ec.
    + unfold emodify.
      pose proof (setTags_ok (tags item)
                    (setItem (name (schema item)) item r1)) as Hok.
      destruct (setTags (tags item) _) as [r2 o]. cbn in Hok. subst o.
      discriminate.
    + cbn in Hst. subst r1. intros [= <- <-]. split; [reflexivity |].
      right. exact (checkTags_throws _ _ _ _ Ec).
    + discriminate.
Qed.

Lemma addItem_atomic_witness :
  fst (addItem (mkItem (mkSchema "heading" block true)
                       [("H1", Tag.mk "H1" "heading"); ("P", P)] None)
               sampleRegistry)
  = sampleRegistry
  /\ Registry.tags sampleRegistry !! "H1" = None.
Proof.
  split; [| vm_compute; reflexivity].
  apply (addItem_atomic sampleRegistry _
           (mkItem (mkSchema "heading" block true)
                   [("H1", Tag.mk "H1" "heading"); ("P", P)] None)
           (TagAlreadyDefined "P")).
  vm_compute. reflexivity.
Defined.

(* ===================================================================== *)
(** * Facts about createId *)
(* ===================================================================== *)

Lemma natToString_inj : Inj (=) (=) natToString.
Proof.
  intros n m Heq. unfold natToString in Heq.
  apply Unsigned.to_uint_inj.
  assert (Some (Nat.to_uint n) = Some (Nat.to_uint m)) as [= ->];
    [| reflexivity].
  rewrite <- !NilEmpty.usu. now rewrite Heq.
Qed.

Lemma candidate_inj baseId : Inj (=) (=) (candidate baseId).
Proof.
  assert (Hne : forall k,
             baseId <> baseId +:+ "-" +:+ natToString (Datatypes.S k)).
  { intros k Heq. rewrite <- (append_empty_r baseId) in Heq at 1.
    apply String.app_inj in Heq. discriminate. }
  intros [| j] [| k] Heq; cbn [candidate] in Heq.
  - reflexivity.
  - now apply Hne in Heq.
  - symmetry in Heq. now apply Hne in Heq.
  - apply String.app_inj in Heq.
    apply (String.app_inj "-") in Heq.
    now apply natToString_inj.
Qed.

(** Among the first [size X + 1] candidates one is not in [X], and so
    there is a first one. *)
Lemma first_free_candidate (X : gset string) baseId :
  exists k, (k <= size X)%nat
    /\ (candidate baseId k ∉ X)
    /\ forall j, (j < k)%nat -> candidate baseId j ∈ X.
Proof.
  assert (Hscan : forall n,
             (forall j, (j < n)%nat -> candidate baseId j ∈ X)
             \/ exists k, (k < n)%nat /\ (candidate baseId k ∉ X)
                  /\ forall j, (j < k)%nat -> candidate baseId j ∈ X).
  { induction n as [| n [Hall | (k & Hk & Hfree & Hbelow)]].
    - left. intros j Hj. lia.
    - destruct (decide (candidate baseId n ∈ X)) as [Hin | Hout].
      + left. intros j Hj.
        destruct (decide (j = n)) as [-> | Hne]; [exact Hin |].
        apply Hall. lia.
      + right. exists n. split; [lia |]. split; [exact Hout | exact Hall].
    - right. exists k. split; [lia |]. split; assumption. }
  destruct (Hscan (Datatypes.S (size X))) as [Hall | (k & Hk & Hfree & Hbelow)].
  - exfalso.
    set (l := candidate baseId <$> seq 0 (Datatypes.S (size X))).
    assert (Hnd : NoDup l).
    { apply (@NoDup_fmap_2 _ _ (candidate baseId) (candidate_inj baseId)).
      apply NoDup_seq. }
    assert (Hsub : list_to_set (C := gset string) l ⊆ X).
    { intros x Hx. apply elem_of_list_to_set in Hx.
      apply list_elem_of_fmap in Hx as (j & -> & Hj).
      apply elem_of_seq in Hj. apply Hall. lia. }
    apply subseteq_size in Hsub.
    rewrite (size_list_to_set l Hnd) in Hsub.
    unfold l in Hsub. rewrite length_fmap, length_seq in Hsub. lia.
  - exists k. split; [lia |]. split; assumption.
Qed.

Section CreateIdFacts.
Variable kebabCase : string -> string.

(** The loop stops at the first free candidate at or after the current
    one, when it has fuel for the tests up to it. *)
Lemma dedupe_first_free ids uniqueIds baseId k : forall fuel c,
  (c <= k)%nat -> (k - c < fuel)%nat ->
  (forall j, (c <= j < k)%nat ->
     candidate baseId j ∈ ids ∪ uniqueIds) ->
  candidate baseId k ∉ ids ∪ uniqueIds ->
  dedupe fuel ids uniqueIds baseId (candidate baseId c) c
  = Ok (candidate baseId k).
Proof.
  induction fuel as [| fuel IH]; intros c Hc Hfuel Hbelow Hfree; [lia |].
  cbn [dedupe].
  destruct (decide (c = k)) as [-> | Hne].
  - rewrite !bool_decide_eq_false_2 by set_solver. reflexivity.
  - assert (Hin : candidate baseId c ∈ ids ∪ uniqueIds)
      by (apply Hbelow; lia).
    replace (bool_decide (candidate baseId c ∈ ids)
             || bool_decide (candidate baseId c ∈ uniqueIds)) with true.
    + apply (IH (Datatypes.S c)); [lia | lia | | exact Hfree].
      intros j Hj. apply Hbelow. lia.
    + symmetry. apply orb_true_iff.
      rewrite !bool_decide_eq_true. set_solver.
Qed.

(** C1. For every raw element and sets [ids], [uniqueIds]: with a
    [uniqueName], the identifier is its kebab-case, without suffix; the
    call throws the duplicate error when it is in [ids], and adds it to
    [ids] and returns it otherwise. Without a [uniqueName], the base is the
    kebab-cased [slug] when there is one, [schemaName-hash] otherwise, and
    the call returns the first of base, base-1, base-2, ... that is in
    neither set, after adding it to [ids]. ([if (x)] on an optional string
    takes the empty string as absent.) *)
Theorem createId_contract (ids uniqueIds : gset string)
    (rawElement : RawElement) :
  match truthyStr (Raw.uniqueName rawElement) with
  | Some uniqueName =>
      (kebabCase uniqueName ∈ ids ->
       createId kebabCase uniqueIds rawElement ids
       = (ids, Throw (DuplicateUniqueId uniqueName (kebabCase uniqueName))))
      /\ (kebabCase uniqueName ∉ ids ->
          createId kebabCase uniqueIds rawElement ids
          = ({[kebabCase uniqueName]} ∪ ids, Ok (kebabCase uniqueName)))
  | None =>
      let baseId :=
        match truthyStr (Raw.slug rawElement) with
        | Some slug => kebabCase slug
        | None => Raw.schemaName rawElement +:+ "-" +:+ Raw.hash rawElement
        end in
      exists k,
        createId kebabCase uniqueIds rawElement ids
        = ({[candidate baseId k]} ∪ ids, Ok (candidate baseId k))
        /\ (candidate baseId k ∉ ids)
        /\ (candidate baseId k ∉ uniqueIds)
        /\ forall j, (j < k)%nat ->
             candidate baseId j ∈ ids \/ candidate baseId j ∈ uniqueIds
  end.
Proof.
  unfold createId, uniqueName2Id.
  destruct (truthyStr (Raw.uniqueName rawElement)) as [uniqueName |].
  - split; intros Hin; destruct (decide (kebabCase uniqueName ∈ ids));
      try reflexivity; contradiction.
  - cbv zeta.
    set (baseId := match truthyStr (Raw.slug rawElement) with
                   | Some slug => kebabCase slug
                   | None => _
                   end).
    destruct (first_free_candidate (ids ∪ uniqueIds) baseId)
      as (k & Hk & Hfree & Hbelow).
    exists k.
    rewrite (dedupe_first_free ids uniqueIds baseId k
               (Datatypes.S (size (ids ∪ uniqueIds))) 0%nat);
      [| lia | lia | intros j Hj; apply Hbelow; lia | exact Hfree].
    split; [reflexivity |].
    split; [set_solver |]. split; [set_solver |].
    intros j Hj. apply elem_of_union. now apply Hbelow.
Qed.
End CreateIdFacts.

(* ===================================================================== *)
(** * Facts about walkElements *)
(* ===================================================================== *)

(** Induction on a tree with the hypothesis for every child. *)
Lemma ElementTree_children_ind {A} (P : ElementTree A -> Prop) :
  (forall x ch,
     match ch with
     | None => True
     | Some cs =>
         Forall (fun slot => match slot with
                             | None => True
                             | Some c => P c
                             end) cs
     end ->
     P (TreeNode x ch)) ->
  forall t, P t.
Proof.
  intros Hnode. fix IH 1. intros [x ch]. apply Hnode.
  destruct ch as [cs |]; [| exact I].
  induction cs as [| [c |] cs IHcs]; constructor;
    solve [apply IH | exact IHcs | exact I].
Qed.

Section WalkFacts.
Context {S A : Type}.
Variable step : ElementTree A -> Eff S Signal.

Lemma walkElements_unfold (element : ElementTree A) :
  walkElements step element
  = ebind (step element)
      (fun result =>
         match result with
         | WalkStop => eret WalkStop
         | WalkNoDeeper => eret Void
         | Void =>
             match treeChildren element with
             | None => eret Void
             | Some children => walkChildren step children
             end
         end).
Proof. destruct element as [x [cs |]]; reflexivity. Qed.
End WalkFacts.

Section WalkOrder.
Context {A : Type}.
Variable sig : ElementTree A -> Signal.

Lemma visitOrder_unfold (t : ElementTree A) :
  visitOrder sig t
  = t :: match sig t with
         | Void =>
             match treeChildren t with
             | None => []
             | Some cs => forestOrder sig cs
             end
         | _ => []
         end.
Proof. destruct t as [x [cs |]]; reflexivity. Qed.

Lemma hasStop_app l1 l2 :
  hasStop sig (l1 ++ l2) = hasStop sig l1 || hasStop sig l2.
Proof. apply existsb_app. Qed.

Lemma uptoStop_app_stop l1 l2 :
  hasStop sig l1 = true -> uptoStop sig (l1 ++ l2) = uptoStop sig l1.
Proof.
  induction l1 as [| x l1 IH]; cbn; [discriminate |].
  destruct (isStop (sig x)); [reflexivity |].
  cbn. intros H. now rewrite IH.
Qed.

Lemma uptoStop_app_nostop l1 l2 :
  hasStop sig l1 = false -> uptoStop sig (l1 ++ l2) = l1 ++ uptoStop sig l2.
Proof.
  induction l1 as [| x l1 IH]; cbn; [reflexivity |].
  destruct (isStop (sig x)); [discriminate |].
  cbn. intros H. now rewrite IH.
Qed.

Lemma uptoStop_nostop l : hasStop sig l = false -> uptoStop sig l = l.
Proof.
  intros H. rewrite <- (app_nil_r l) at 1.
  rewrite (uptoStop_app_nostop l [] H). cbn. apply app_nil_r.
Qed.

Local Abbreviation walked := (walked sig).

Lemma walkChildren_log cs :
  Forall (fun slot =>
            match slot with
            | None => True
            | Some c =>
                forall log, walkElements (logStep sig) c log
                            = walked (visitOrder sig c) log
            end) cs ->
  forall log, walkChildren (logStep sig) cs log
              = walked (forestOrder sig cs) log.
Proof.
  unfold walked. induction 1 as [| slot cs Hslot _ IH]; intros log.
  - cbn. unfold eret. now rewrite app_nil_r.
  - destruct slot as [c |]; cbn [walkChildren forestOrder]; [| apply IH].
    unfold ebind. rewrite Hslot.
    rewrite hasStop_app.
    destruct (hasStop sig (visitOrder sig c)) eqn:Hs.
    + cbn. unfold eret. now rewrite uptoStop_app_stop.
    + cbn [orb]. rewrite IH, uptoStop_app_nostop, uptoStop_nostop by exact Hs.
      now rewrite app_assoc.
Qed.

(** With a step that decides by the node, the nodes given to the step
    are the walk order up to the first stop. *)
Lemma walkElements_log : forall t log,
  walkElements (logStep sig) t log = walked (visitOrder sig t) log.
Proof.
  induction t as [x ch IH] using ElementTree_children_ind. intros log.
  rewrite walkElements_unfold, visitOrder_unfold.
  unfold ebind, logStep at 1, walked. cbn [treeChildren].
  destruct (sig (TreeNode x ch)) eqn:Hsig; cbn; rewrite ?Hsig; cbn.
  - reflexivity.
  - reflexivity.
  - destruct ch as [cs |]; [| reflexivity].
    rewrite (walkChildren_log cs IH). unfold walked.
    now rewrite <- app_assoc.
Qed.
End WalkOrder.

Section WalkTraced.
Context {S A : Type}.
Variable step : ElementTree A -> Eff S Signal.

Lemma walkReturn_goesOn (entry : ElementTree A * Outcome Signal) :
  goesOn entry -> walkReturn (snd entry) = Ok Void.
Proof. intros [-> | ->]; reflexivity. Qed.

Lemma snoc_or_nil {B} (l : list B) :
  l = [] \/ exists init x, l = init ++ [x].
Proof.
  destruct l as [| b l]; [now left | right].
  destruct (exists_last (l := b :: l)) as (init & x & ->); [discriminate |].
  eauto.
Qed.

(** What a walk of some children records: calls after which the walk
    went on, and possibly a last one after which it did not. *)
Lemma walkChildren_traced cs :
  Forall (fun slot =>
            match slot with
            | None => True
            | Some c =>
                forall s log, exists s' init last,
                  walkElements (traced step) c (s, log)
                  = ((s', log ++ init ++ [last]), walkReturn (snd last))
                  /\ Forall goesOn init
                  /\ walkElements step c s = (s', walkReturn (snd last))
            end) cs ->
  forall s log, exists s' added o,
    walkChildren (traced step) cs (s, log) = ((s', log ++ added), o)
    /\ walkChildren step cs s = (s', o)
    /\ (Forall goesOn added /\ o = Ok Void
        \/ exists init last,
             added = init ++ [last] /\ Forall goesOn init
             /\ o = walkReturn (snd last)).
Proof.
  induction 1 as [| slot cs Hslot _ IH]; intros s log.
  - exists s, [], (Ok Void). cbn. unfold eret. rewrite app_nil_r.
    repeat split. left. split; [constructor | reflexivity].
  - destruct slot as [c |]; cbn [walkChildren]; [| apply IH].
    destruct (Hslot s log) as (s1 & init & last & Hc & Hinit & Hc').
    unfold ebind. rewrite Hc, Hc'.
    assert (Hgo : goesOn last ->
              exists s' added o,
                walkChildren (traced step) cs (s1, log ++ init ++ [last])
                = ((s', log ++ added), o)
                /\ walkChildren step cs s1 = (s', o)
                /\ (Forall goesOn added /\ o = Ok Void
                    \/ exists init' last',
                         added = init' ++ [last'] /\ Forall goesOn init'
                         /\ o = walkReturn (snd last'))).
    { intros Hlast.
      assert (Hall : Forall goesOn (init ++ [last])).
      { apply Forall_app. split; [exact Hinit |].
        constructor; [exact Hlast | constructor]. }
      destruct (IH s1 (log ++ init ++ [last]))
        as (s2 & added & o & Hf & Hf' & Hcases).
      exists s2, ((init ++ [last]) ++ added), o.
      split; [rewrite Hf; now rewrite <- !app_assoc |].
      split; [exact Hf' |].
      destruct Hcases as [[Hadded ->] | (init' & last' & -> & Hinit' & ->)].
      - left. split; [| reflexivity].
        apply Forall_app. split; assumption.
      - right. exists ((init ++ [last]) ++ init'), last'.
        split; [now rewrite <- !app_assoc |]. split; [| reflexivity].
        apply Forall_app. split; assumption. }
    destruct last as [n [[ | | ] | e |]]; cbn [snd walkReturn] in *.
    + exists s1, (init ++ [(n, Ok WalkStop)]), (Ok WalkStop).
      unfold eret. repeat split. right. eauto.
    + apply Hgo. now right.
    + apply Hgo. now left.
    + exists s1, (init ++ [(n, Throw e)]), (Throw e).
      repeat split. right. eauto.
    + exists s1, (init ++ [(n, OutOfFuel)]), OutOfFuel.
      repeat split. right. eauto.
Qed.

(** With any step: every call but the last one was followed by more of
    the walk, so a call that stops or throws is the last one; and the walk
    returns what the last call asks for. Recording changes nothing. *)
Lemma walkElements_traced : forall t s log,
  exists s' init last,
    walkElements (traced step) t (s, log)
    = ((s', log ++ init ++ [last]), walkReturn (snd last))
    /\ Forall goesOn init
    /\ walkElements step t s = (s', walkReturn (snd last)).
Proof.
  induction t as [x ch IH] using ElementTree_children_ind. intros s log.
  rewrite !walkElements_unfold. unfold ebind, traced at 1.
  cbn [fst snd treeChildren].
  destruct (step (TreeNode x ch) s) as [s1 o] eqn:Hstep.
  destruct o as [[ | | ] | e |].
  - exists s1, [], (TreeNode x ch, Ok WalkStop). repeat split. constructor.
  - exists s1, [], (TreeNode x ch, Ok WalkNoDeeper). repeat split.
    constructor.
  - destruct ch as [cs |].
    + destruct (walkChildren_traced cs IH s1
                  (log ++ [(TreeNode x (Some cs), Ok Void)]))
        as (s2 & added & o & Hf & Hf' & Hcases).
      rewrite Hf, Hf'.
      destruct Hcases as [[Hadded ->] | (init' & last' & -> & Hinit' & ->)].
      * destruct (snoc_or_nil added) as [-> | (init' & last' & ->)].
        -- exists s2, [], (TreeNode x (Some cs), Ok Void).
           rewrite app_nil_r. repeat split. constructor.
        -- apply Forall_app in Hadded as [Hinit' Hlast'].
           inversion Hlast' as [| ? ? Hgo _]; subst.
           exists s2, ((TreeNode x (Some cs), Ok Void) :: init'), last'.
           rewrite (walkReturn_goesOn last' Hgo).
           rewrite <- !app_assoc. repeat split.
           constructor; [now left | exact Hinit'].
      * exists s2, ((TreeNode x (Some cs), Ok Void) :: init'), last'.
        rewrite <- !app_assoc. repeat split.
        constructor; [now left | exact Hinit'].
    + exists s1, [], (TreeNode x None, Ok Void). repeat split. constructor.
  - exists s1, [], (TreeNode x ch, Throw e). repeat split. constructor.
  - exists s1, [], (TreeNode x ch, OutOfFuel). repeat split. constructor.
Qed.
End WalkTraced.

Section WalkAgenda.
Context {S A : Type}.
Variable step : ElementTree A -> Eff S Signal.

Lemma Agenda_functional work s r :
  Agenda step work s r -> forall r', Agenda step work s r' -> r = r'.
Proof.
  induction 1 as [s | rest s r _ IH | node rest s s' Hs
                  | node rest s s' r Hs _ IH | node rest s s' r Hs _ IH
                  | node rest s s' e Hs | node rest s s' Hs];
    intros r' Hr'; inversion Hr'; subst; try congruence; auto;
    match goal with
    | H1 : step ?n ?s = _, H2 : step ?n ?s = _ |- _ =>
        rewrite H1 in H2; injection H2 as <-; auto
    end.
Qed.

Local Abbreviation continues := (continues step).

Lemma walkElements_returns t s s' :
  walkElements step t s <> (s', Ok WalkNoDeeper).
Proof.
  destruct (walkElements_traced step t s []) as (s1 & init & last & _ & _ & ->).
  destruct last as [n [[ | | ] | e |]]; discriminate.
Qed.

Lemma walkChildren_agenda cs :
  Forall (fun slot =>
            match slot with
            | None => True
            | Some c =>
                forall rest s,
                  continues (walkElements step c s) [Some c] rest s
            end) cs ->
  forall rest s, continues (walkChildren step cs s) cs rest s.
Proof.
  induction 1 as [| slot cs Hslot _ IH]; intros rest s.
  - cbn. intros r Hr. exact Hr.
  - destruct slot as [c |]; cbn [walkChildren].
    + specialize (Hslot (cs ++ rest) s). unfold continues in *.
      unfold ebind.
      pose proof (walkElements_returns c s) as Hret.
      destruct (walkElements step c s) as [s1 [[ | | ] | e |]];
        cbn [fst snd app] in *.
      * exact Hslot.
      * now contradiction (Hret s1).
      * specialize (IH rest s1).
        destruct (walkChildren step cs s1) as [s2 [[ | | ] | e |]];
          cbn [fst snd] in *;
          solve [ intros r Hr; apply Hslot, IH, Hr | apply Hslot, IH ].
      * exact Hslot.
      * exact Hslot.
    + specialize (IH rest s). unfold continues in *.
      destruct (walkChildren step cs s) as [s1 [[ | | ] | e |]];
        cbn [fst snd app] in *;
        solve [ intros r Hr; apply agenda_empty_slot, IH, Hr
              | apply agenda_empty_slot, IH ].
Qed.

Lemma walkElements_continues : forall t rest s,
  continues (walkElements step t s) [Some t] rest s.
Proof.
  induction t as [x ch IH] using ElementTree_children_ind. intros rest s.
  unfold continues. rewrite walkElements_unfold. unfold ebind.
  destruct (step (TreeNode x ch) s) as [s1 [[ | | ] | e |]] eqn:Hstep;
    cbn [fst snd app eret].
  - now apply agenda_stop.
  - intros r Hr. now apply (agenda_no_deeper step _ _ _ s1).
  - cbn [treeChildren]. destruct ch as [cs |].
    + pose proof (walkChildren_agenda cs IH rest s1) as Hcs.
      unfold continues in Hcs.
      destruct (walkChildren step cs s1) as [s2 [[ | | ] | e |]];
        cbn [fst snd] in *;
        solve [ intros r Hr; apply (agenda_deeper step _ _ _ s1 _ Hstep);
                apply Hcs, Hr
              | apply (agenda_deeper step _ _ _ s1 _ Hstep); exact Hcs ].
    + intros r Hr. apply (agenda_deeper step _ _ _ s1 _ Hstep). exact Hr.
  - now apply agenda_throw.
  - now apply agenda_out_of_fuel.
Qed.

(** The walk is the agenda that starts with the tree alone. *)
Lemma walkElements_agenda t s r :
  Agenda step [Some t] s r <-> walkElements step t s = r.
Proof.
  assert (Hwalk : Agenda step [Some t] s (walkElements step t s)).
  { pose proof (walkElements_continues t [] s) as Hc.
    pose proof (walkElements_returns t s) as Hret.
    unfold continues in Hc.
    destruct (walkElements step t s) as [s1 [[ | | ] | e |]];
      cbn [fst snd app] in *; try exact Hc.
    apply Hc. constructor. }
  split.
  - intros Hr. symmetry. exact (Agenda_functional _ _ _ Hr _ Hwalk).
  - intros <-. exact Hwalk.
Qed.
End WalkAgenda.

(** C9. For every tree: (1) with a step that decides by the node, the
    nodes the step is called on are, in this order, the walk order (the node,
    then its children left to right, each with its whole subtree before the
    next sibling, without the children of a node whose step returns
    [WalkNoDeeper], and passing over empty slots) up to and including the
    first node whose step returns [WalkStop]; the walk returns [WalkStop]
    when there is such a node, and nothing otherwise. (2) With any step,
    stateful or throwing: every call before the last one returned neither
    [WalkStop] nor an exception, and the walk returns [WalkStop] exactly when
    the last call did. (3) With any step, the walk is the agenda of slots
    [Agenda]: a stop ends it at once, [WalkNoDeeper] passes over the
    children of that node only and goes on with what follows it, otherwise
    the children come first, left to right, and empty slots cost no call. *)
Theorem walk_order_and_signals :
  (forall (A : Type) (sig : ElementTree A -> Signal) (t : ElementTree A)
          (log : list (ElementTree A)),
     walkElements (logStep sig) t log
     = (log ++ uptoStop sig (visitOrder sig t),
        Ok (if hasStop sig (visitOrder sig t) then WalkStop else Void)))
  /\ (forall (S A : Type) (step : ElementTree A -> Eff S Signal)
             (t : ElementTree A) (s : S)
             (log : list (ElementTree A * Outcome Signal)),
        exists s' init last,
          walkElements (traced step) t (s, log)
          = ((s', log ++ init ++ [last]), walkReturn (snd last))
          /\ Forall goesOn init
          /\ walkElements step t s = (s', walkReturn (snd last)))
  /\ (forall (S A : Type) (step : ElementTree A -> Eff S Signal)
             (t : ElementTree A) (s : S) (r : S * Outcome Signal),
        Agenda step [Some t] s r <-> walkElements step t s = r).
Proof.
  split; [| split].
  - intros A sig t log. apply walkElements_log.
  - intros S A step t s log. apply walkElements_traced.
  - intros S A step t s r. apply walkElements_agenda.
Qed.

(* ===================================================================== *)
(** * Facts about resolveRawElement *)
(* ===================================================================== *)

Lemma RawElement_children_ind (P : RawElement -> Prop) :
  (forall el,
     match Raw.children el with
     | None => True
     | Some cs => Forall P cs
     end -> P el) ->
  forall el, P el.
Proof.
  intros Hnode. fix IH 1. intros el. apply Hnode.
  destruct el as [sk sn h tn sl d st ch un]. cbn.
  destruct ch as [cs |]; [| exact I].
  induction cs as [| c cs IHcs]; constructor; [apply IH | exact IHcs].
Qed.

Lemma ebind_Ok {S A B} (m : Eff S A) (k : A -> Eff S B) s s' b :
  ebind m k s = (s', Ok b) ->
  exists s1 a, m s = (s1, Ok a) /\ k a s1 = (s', Ok b).
Proof.
  unfold ebind. destruct (m s) as [s1 [a | e |]]; try discriminate. eauto.
Qed.

Lemma treeIds_unfold el :
  treeIds el
  = match Prose.children el with
    | None => []
    | Some cs => forestIds cs
    end ++ match Prose.id el with
           | Some i => [i]
           | None => []
           end.
Proof. destruct el as [sk sn d st [cs |] i un]; reflexivity. Qed.

Section ResolveFacts.
Variable kebabCase : string -> string.

(** The loop returns an identifier only when it is in neither set. *)
Lemma dedupe_free ids uniqueIds baseId fuel : forall id dedupeCounter r,
  dedupe fuel ids uniqueIds baseId id dedupeCounter = Ok r ->
  (r ∉ ids) /\ (r ∉ uniqueIds).
Proof.
  induction fuel as [| fuel IH]; intros id dedupeCounter r; [discriminate |].
  cbn [dedupe].
  destruct (bool_decide (id ∈ ids) || bool_decide (id ∈ uniqueIds)) eqn:Ht.
  - apply IH.
  - intros [= <-]. apply orb_false_iff in Ht as [Hi Hu].
    apply bool_decide_eq_false in Hi, Hu. auto.
Qed.

(** An identifier that [createId] returns was not in [ids], and is added
    to it. *)
Lemma createId_fresh uniqueIds rawElement ids ids' id :
  createId kebabCase uniqueIds rawElement ids = (ids', Ok id) ->
  (id ∉ ids) /\ ids' = {[id]} ∪ ids.
Proof.
  unfold createId.
  destruct (truthyStr (Raw.uniqueName rawElement)) as [uniqueName |].
  - destruct (decide (uniqueName2Id kebabCase uniqueName ∈ ids));
      [discriminate |].
    intros [= <- <-]. auto.
  - destruct (dedupe _ _ _ _ _ _) as [r | e |] eqn:Hd; try discriminate.
    intros [= <- <-]. apply dedupe_free in Hd as [Hi _]. auto.
Qed.

Context {H : Type}.
Variable registry : Registry.
Variable linkable : bool.
Variable pre : option (RawElement -> Eff H unit).
Variable post : option (ProseElement -> Eff H unit).
Variable uniqueIds : gset string.

Local Abbreviation resolveRecursive' :=
  (resolveRecursive kebabCase registry linkable pre post uniqueIds).
Local Abbreviation resolveChildren' :=
  (resolveChildren kebabCase registry linkable pre post uniqueIds).
Local Abbreviation resolveSelf' :=
  (resolveSelf kebabCase registry linkable post uniqueIds).

Lemma resolveRecursive_unfold rawElement :
  resolveRecursive' rawElement
  = ebind (callPre pre rawElement)
      (fun _ =>
         ebind (match Raw.children rawElement with
                | None => eret None
                | Some children =>
                    ebind (resolveChildren' children)
                          (fun rs => eret (Some rs))
                end)
               (resolveSelf' rawElement)).
Proof.
  destruct rawElement as [sk sn h tn sl d st [cs |] un]; reflexivity.
Qed.

Lemma callPre_ids rawElement st st' o :
  callPre pre rawElement st = (st', o) -> ids st' = ids st.
Proof.
  unfold callPre, onHooks, eret. destruct pre as [f |];
    [destruct (f rawElement (hooked st)) |]; intros [= <- _]; reflexivity.
Qed.

Lemma callPost_ids el st st' o :
  callPost post el st = (st', o) -> ids st' = ids st.
Proof.
  unfold callPost, onHooks, eret. destruct post as [f |];
    [destruct (f el (hooked st)) |]; intros [= <- _]; reflexivity.
Qed.

(** The element built for a raw element carries the resolved children
    and either no identifier, or one that was not in [ids] and is added. *)
Lemma resolveSelf_ids rawElement resolvedChildren st st' el :
  resolveSelf' rawElement resolvedChildren st = (st', Ok el) ->
  Prose.children el = resolvedChildren
  /\ (Prose.id el = None /\ ids st' = ids st
      \/ exists i, Prose.id el = Some i /\ (i ∉ ids st)
           /\ ids st' = {[i]} ∪ ids st).
Proof.
  unfold resolveSelf. intros Hself.
  apply ebind_Ok in Hself as (st1 & schema & Hschema & Hself).
  unfold pure in Hschema. injection Hschema as <- Hschema.
  apply ebind_Ok in Hself as (st2 & el1 & Hid & Hself).
  apply ebind_Ok in Hself as (st3 & el2 & Hun & Hself).
  apply ebind_Ok in Hself as (st4 & [] & Hpost & Hself).
  unfold eret in Hself. injection Hself as <- <-.
  apply callPost_ids in Hpost.
  assert (Hel2 : Prose.children el2 = Prose.children el1
                 /\ Prose.id el2 = Prose.id el1 /\ ids st3 = ids st2).
  { destruct (truthyStr (Raw.uniqueName rawElement)) as [uniqueName |].
    - apply ebind_Ok in Hun as (stu & [] & Hset & Hret).
      unfold setUnique, emodify in Hset. injection Hset as <-.
      unfold eret in Hret. injection Hret as <- <-. auto.
    - unfold eret in Hun. injection Hun as <- <-. auto. }
  destruct Hel2 as (-> & -> & Hids3). rewrite Hpost, Hids3.
  destruct (linkable && schemaLinkable schema).
  - apply ebind_Ok in Hid as (sti & i & Hcreate & Hret).
    unfold eret in Hret. injection Hret as <- <-.
    unfold onIds in Hcreate.
    destruct (createId kebabCase uniqueIds rawElement (ids st))
      as [ids' o] eqn:Hc.
    injection Hcreate as <- ->.
    apply createId_fresh in Hc as [Hfresh ->].
    split; [reflexivity |]. right. exists i. auto.
  - unfold eret in Hid. injection Hid as <- <-.
    split; [reflexivity |]. now left.
Qed.

Lemma assignsFresh_app before middle after l1 l2 :
  assignsFresh before middle l1 -> assignsFresh middle after l2 ->
  assignsFresh before after (l1 ++ l2).
Proof.
  intros (Hnd1 & Hf1 & ->) (Hnd2 & Hf2 & ->). repeat split.
  - apply NoDup_app. split; [exact Hnd1 |]. split; [| exact Hnd2].
    intros i Hi1 Hi2. apply (Hf2 i Hi2). set_solver.
  - intros i Hi. apply elem_of_app in Hi as [Hi | Hi]; [now apply Hf1 |].
    specialize (Hf2 i Hi). set_solver.
  - rewrite list_to_set_app_L. set_solver.
Qed.

Lemma resolveChildren_ids cs :
  Forall (fun c => forall st st' el,
            resolveRecursive' c st = (st', Ok el) ->
            assignsFresh (ids st) (ids st') (treeIds el)) cs ->
  forall st st' els,
    resolveChildren' cs st = (st', Ok els) ->
    assignsFresh (ids st) (ids st') (forestIds els).
Proof.
  induction 1 as [| c cs Hc _ IH]; intros st st' els.
  - cbn. unfold eret. intros [= <- <-]. cbn.
    repeat split; [constructor | set_solver | set_solver].
  - cbn [resolveChildren]. intros Hloop.
    apply ebind_Ok in Hloop as (st1 & el & Hel & Hloop).
    apply ebind_Ok in Hloop as (st2 & rest & Hrest & Hret).
    unfold eret in Hret. injection Hret as <- <-. cbn [forestIds].
    eapply assignsFresh_app; [exact (Hc _ _ _ Hel) | exact (IH _ _ _ Hrest)].
Qed.

Lemma resolveRecursive_ids : forall rawElement st st' el,
  resolveRecursive' rawElement st = (st', Ok el) ->
  assignsFresh (ids st) (ids st') (treeIds el).
Proof.
  induction rawElement as [rawElement IH] using RawElement_children_ind.
  intros st st' el. rewrite resolveRecursive_unfold. intros Hres.
  apply ebind_Ok in Hres as (st1 & [] & Hpre & Hres).
  apply callPre_ids in Hpre.
  apply ebind_Ok in Hres as (st2 & resolvedChildren & Hchildren & Hself).
  apply resolveSelf_ids in Hself as [Hch Hid].
  rewrite treeIds_unfold, Hch. rewrite <- Hpre.
  assert (Hkids : assignsFresh (ids st1) (ids st2)
                    match resolvedChildren with
                    | None => []
                    | Some cs => forestIds cs
                    end).
  { destruct (Raw.children rawElement) as [cs |].
    - apply ebind_Ok in Hchildren as (stc & rs & Hrs & Hret).
      unfold eret in Hret. injection Hret as <- <-.
      exact (resolveChildren_ids cs IH _ _ _ Hrs).
    - unfold eret in Hchildren. injection Hchildren as <- <-.
      repeat split; [constructor | set_solver | set_solver]. }
  eapply assignsFresh_app; [exact Hkids |].
  destruct Hid as [[-> ->] | (i & -> & Hfresh & ->)].
  - repeat split; [constructor | set_solver | set_solver].
  - repeat split.
    + apply NoDup_singleton.
    + intros j Hj. apply list_elem_of_singleton in Hj as ->. exact Hfresh.
    + cbn. set_solver.
Qed.
Local Abbreviation ownAnchorId := (ownAnchorId kebabCase registry).
Local Abbreviation anchorIds := (anchorIds kebabCase registry).
Local Abbreviation forestAnchorIds := (forestAnchorIds kebabCase registry).

Lemma anchorIds_unfold rawElement :
  anchorIds rawElement
  = match Raw.children rawElement with
    | None => []
    | Some cs => forestAnchorIds cs
    end ++ ownAnchorId rawElement.
Proof.
  destruct rawElement as [sk sn h tn sl d st [cs |] un]; reflexivity.
Qed.

(** With [linkable], the element built for a linkable raw element with a
    unique name carries the kebab-case of that name. *)
Lemma resolveSelf_anchor rawElement resolvedChildren st st' el :
  linkable = true ->
  resolveSelf' rawElement resolvedChildren st = (st', Ok el) ->
  ownAnchorId rawElement
  `sublist_of` match Prose.id el with
               | Some i => [i]
               | None => []
               end.
Proof.
  intros -> Hself. unfold resolveSelf in Hself.
  apply ebind_Ok in Hself as (st1 & schema & Hschema & Hself).
  unfold pure in Hschema. injection Hschema as <- Hschema.
  apply ebind_Ok in Hself as (st2 & el1 & Hid & Hself).
  apply ebind_Ok in Hself as (st3 & el2 & Hun & Hself).
  apply ebind_Ok in Hself as (st4 & [] & Hpost & Hself).
  unfold eret in Hself. injection Hself as <- <-.
  assert (Hel2 : Prose.id el2 = Prose.id el1).
  { destruct (truthyStr (Raw.uniqueName rawElement)) as [uniqueName |].
    - apply ebind_Ok in Hun as (stu & [] & Hset & Hret).
      unfold eret in Hret. injection Hret as <- <-. reflexivity.
    - unfold eret in Hun. injection Hun as <- <-. reflexivity. }
  rewrite Hel2. cbv delta [ownAnchorId] beta. rewrite Hschema.
  destruct (truthyStr (Raw.uniqueName rawElement)) as [uniqueName |] eqn:Hname;
    [| apply sublist_nil_l].
  cbn [andb] in Hid.
  destruct (schemaLinkable schema); [| apply sublist_nil_l].
  apply ebind_Ok in Hid as (sti & i & Hcreate & Hret).
  unfold eret in Hret. injection Hret as <- <-. cbn [Prose.id Prose.setId].
  unfold onIds in Hcreate.
  destruct (createId kebabCase uniqueIds rawElement (ids st))
    as [ids' o] eqn:Hc.
  injection Hcreate as <- ->.
  unfold createId in Hc. rewrite Hname in Hc.
  destruct (decide (uniqueName2Id kebabCase uniqueName ∈ ids st));
    [discriminate |].
  injection Hc as <- <-. reflexivity.
Qed.

Lemma resolveChildren_anchor cs :
  linkable = true ->
  Forall (fun c => forall st st' el,
            resolveRecursive' c st = (st', Ok el) ->
            anchorIds c `sublist_of` treeIds el) cs ->
  forall st st' els,
    resolveChildren' cs st = (st', Ok els) ->
    forestAnchorIds cs `sublist_of` forestIds els.
Proof.
  intros Hlink. induction 1 as [| c cs Hc _ IH]; intros st st' els.
  - cbn. unfold eret. intros [= <- <-]. constructor.
  - cbn [resolveChildren]. intros Hloop.
    apply ebind_Ok in Hloop as (st1 & el & Hel & Hloop).
    apply ebind_Ok in Hloop as (st2 & rest & Hrest & Hret).
    unfold eret in Hret. injection Hret as <- <-.
    cbn [forestIds]. change (forestAnchorIds (c :: cs))
      with (anchorIds c ++ forestAnchorIds cs).
    apply sublist_app; [exact (Hc _ _ _ Hel) | exact (IH _ _ _ Hrest)].
Qed.

(** With [linkable], the identifiers of the linkable raw elements with a
    unique name are among the identifiers of the resolved tree, one for
    one. *)
Lemma resolveRecursive_anchor :
  linkable = true ->
  forall rawElement st st' el,
    resolveRecursive' rawElement st = (st', Ok el) ->
    anchorIds rawElement `sublist_of` treeIds el.
Proof.
  intros Hlink.
  induction rawElement as [rawElement IH] using RawElement_children_ind.
  intros st st' el. rewrite resolveRecursive_unfold. intros Hres.
  apply ebind_Ok in Hres as (st1 & [] & Hpre & Hres).
  apply ebind_Ok in Hres as (st2 & resolvedChildren & Hchildren & Hself).
  pose proof (resolveSelf_anchor _ _ _ _ _ Hlink Hself) as Hown.
  apply resolveSelf_ids in Hself as [Hch _].
  rewrite treeIds_unfold, anchorIds_unfold, Hch.
  apply sublist_app; [| exact Hown].
  destruct (Raw.children rawElement) as [cs |].
  - apply ebind_Ok in Hchildren as (stc & rs & Hrs & Hret).
    unfold eret in Hret. injection Hret as <- <-.
    exact (resolveChildren_anchor cs Hlink IH _ _ _ Hrs).
  - unfold eret in Hchildren. injection Hchildren as <- <-. constructor.
Qed.
End ResolveFacts.



(** A result of [resolveRawElement] is a result of the recursion, started
    with the seed as [ids]. *)
Lemma resolveRawElement_Ok (kebabCase : string -> string) {H : Type}
    (registry : Registry) (rawElement : RawElement) (linkable : bool)
    (pre : option (RawElement -> Eff H unit))
    (post : option (ProseElement -> Eff H unit))
    (externalIds : gset string) (h h' : H) (result : ResolvedRawElement) :
  resolveRawElement kebabCase registry rawElement linkable pre post
                    externalIds h = (h', Ok result) ->
  exists uniqueIds st st',
    resolveRecursive kebabCase registry linkable pre post uniqueIds
                     rawElement st = (st', Ok (proseElement result))
    /\ ids st = externalIds
    /\ resultIds result = ids st'.
Proof.
  unfold resolveRawElement.
  destruct (if linkable then _ else _) as [uniqueIds [sig | e |]];
    try discriminate.
  destruct (resolveRecursive _ _ _ _ _ _ _ _) as [st [el | e |]] eqn:Hres;
    try discriminate.
  intros [= <- <-]. cbn [proseElement resultIds].
  exists uniqueIds, (mkResolving externalIds ∅ h), st.
  split; [exact Hres | split; reflexivity].
Qed.

(** C3. For every raw tree, hooks and seed [externalIds]: when
    [resolveRawElement] returns, the identifiers of the resolved tree, which
    are the identifiers assigned during the call, are pairwise distinct, none
    of them is in the seed, and the returned [ids] is the seed with them
    added. *)
Theorem resolved_ids_distinct (kebabCase : string -> string) {H : Type}
    (registry : Registry) (rawElement : RawElement) (linkable : bool)
    (pre : option (RawElement -> Eff H unit))
    (post : option (ProseElement -> Eff H unit))
    (externalIds : gset string) (h h' : H) (result : ResolvedRawElement) :
  resolveRawElement kebabCase registry rawElement linkable pre post
                    externalIds h = (h', Ok result) ->
  NoDup (treeIds (proseElement result))
  /\ (forall i, i ∈ treeIds (proseElement result) -> i ∉ externalIds)
  /\ resultIds result
     = externalIds ∪ list_to_set (treeIds (proseElement result)).
Proof.
  intros Hres.
  apply resolveRawElement_Ok in Hres
    as (uniqueIds & st & st' & Hrec & <- & ->).
  exact (resolveRecursive_ids kebabCase registry linkable pre post uniqueIds
           rawElement _ _ _ Hrec).
Qed.

Lemma resolved_ids_distinct_witness :
  exists result,
    resolveRawElement kebabCaseSample sampleRegistry duplicatedSlugs true
                      None None {["intro-1"]} tt = (tt, Ok result)
    /\ treeIds (proseElement result) = ["intro"; "intro-2"]
    /\ NoDup (treeIds (proseElement result))
    /\ (forall i, i ∈ treeIds (proseElement result) ->
          i ∉ ({["intro-1"]} : gset string))
    /\ resultIds result
       = {["intro-1"]} ∪ list_to_set (treeIds (proseElement result)).
Proof.
  eexists. split; [vm_compute; reflexivity |].
  split; [vm_compute; reflexivity |].
  apply (resolved_ids_distinct kebabCaseSample sampleRegistry duplicatedSlugs
           true None None {["intro-1"]} tt tt).
  vm_compute. reflexivity.
Defined.

(** Colliding unique names are still rejected, by [createId]: when two
    linkable raw elements of a tree carry unique names with the same
    kebab-case, [resolveRawElement] with [linkable] returns no result. *)
Lemma resolve_rejects_colliding_anchors (kebabCase : string -> string)
    {H : Type} (registry : Registry) (rawElement : RawElement)
    (pre : option (RawElement -> Eff H unit))
    (post : option (ProseElement -> Eff H unit))
    (externalIds : gset string) (h h' : H) (result : ResolvedRawElement) :
  resolveRawElement kebabCase registry rawElement true pre post
                    externalIds h = (h', Ok result) ->
  NoDup (anchorIds kebabCase registry rawElement).
Proof.
  intros Hres.
  apply resolveRawElement_Ok in Hres
    as (uniqueIds & st & st' & Hrec & _ & _).
  apply (sublist_NoDup _ (treeIds (proseElement result))).
  - exact (proj1 (resolveRecursive_ids kebabCase registry true pre post
                    uniqueIds rawElement _ _ _ Hrec)).
  - exact (resolveRecursive_anchor kebabCase registry true pre post uniqueIds
             eq_refl rawElement _ _ _ Hrec).
Qed.

Example colliding_anchors_rejected :
  ~ NoDup (anchorIds kebabCaseSample sampleRegistry duplicatedAnchors).
Proof.
  vm_compute. intros Hnd. apply NoDup_cons in Hnd as [Hin _].
  apply Hin. left.
Qed.

Section Prescan.
Variable kebabCase : string -> string.

Lemma prescan_empty node uniqueIds :
  exists uniqueIds',
    prescan kebabCase ∅ node uniqueIds = (uniqueIds', Ok Void).
Proof.
  unfold prescan.
  destruct (truthyStr (Raw.uniqueName (self node))) as [uniqueName |];
    [| eauto].
  destruct (decide (uniqueName2Id kebabCase uniqueName ∈ ∅)) as [Hin | _];
    [set_solver | eauto].
Qed.

Lemma prescan_children_empty cs :
  Forall (fun c => forall uniqueIds, exists uniqueIds',
            walkElements (prescan kebabCase ∅) (rawTree c) uniqueIds
            = (uniqueIds', Ok Void)) cs ->
  forall uniqueIds, exists uniqueIds',
    walkChildren (prescan kebabCase ∅)
                 (map (fun c => Some (rawTree c)) cs) uniqueIds
    = (uniqueIds', Ok Void).
Proof.
  induction 1 as [| c cs Hc _ IH]; intros uniqueIds.
  - exists uniqueIds. reflexivity.
  - cbn [map walkChildren]. unfold ebind.
    destruct (Hc uniqueIds) as [u1 ->]. apply IH.
Qed.

(** Without external identifiers the pre-scan returns normally on every
    tree, whatever unique names it holds. *)
Lemma prescan_walk_empty : forall rawElement uniqueIds,
  exists uniqueIds',
    walkElements (prescan kebabCase ∅) (rawTree rawElement) uniqueIds
    = (uniqueIds', Ok Void).
Proof.
  induction rawElement as [rawElement IH] using RawElement_children_ind.
  intros uniqueIds. rewrite walkElements_unfold. unfold ebind.
  destruct (prescan_empty (rawTree rawElement) uniqueIds) as [u1 ->].
  destruct rawElement as [sk sn h tn sl d st [cs |] un];
    cbn [rawTree treeChildren Raw.children] in *.
  - apply prescan_children_empty, IH.
  - eauto.
Qed.
End Prescan.

(** C2, on the code. Without external identifiers the pre-scan never
    throws: it tests the set [ids], which it does not write. On the fragment
    with two paragraphs of unique name [intro] the pre-scan returns, the
    recursion runs [pre] on the fragment and on both paragraphs and [post]
    on the first resolved paragraph, and only then [createId] throws the
    duplicate error for the second paragraph. *)
Theorem duplicate_anchor_found_late :
  (forall kebabCase rawElement uniqueIds,
     exists uniqueIds',
       walkElements (prescan kebabCase ∅) (rawTree rawElement) uniqueIds
       = (uniqueIds', Ok Void))
  /\ walkElements (prescan kebabCaseSample ∅) (rawTree duplicatedAnchors) ∅
     = ({["intro"]}, Ok Void)
  /\ resolveRawElement kebabCaseSample sampleRegistry duplicatedAnchors true
       (Some recordPre) (Some recordPost) ∅ []
     = ([PreCalled duplicatedAnchors;
         PreCalled (rawP "h1" None (Some "intro"));
         PostCalled (Prose.mk paragraphSchema "paragraph" JUndefined None
                              None (Some "intro") (Some "intro"));
         PreCalled (rawP "h2" None (Some "intro"))],
        Throw (DuplicateUniqueId "intro" "intro")).
Proof.
  split; [exact prescan_walk_empty |].
  split; vm_compute; reflexivity.
Qed.

(* ===================================================================== *)
(** * Facts about fillStorage *)
(* ===================================================================== *)

Lemma ProseElement_children_ind (P : ProseElement -> Prop) :
  (forall el,
     match Prose.children el with
     | None => True
     | Some cs => Forall P cs
     end -> P el) ->
  forall el, P el.
Proof.
  intros Hnode. fix IH 1. intros el. apply Hnode.
  destruct el as [sk sn d st ch i un]. cbn.
  destruct ch as [cs |]; [| exact I].
  induction cs as [| c cs IHcs]; constructor; [apply IH | exact IHcs].
Qed.

Section FillFacts.
Variable storageCreators : gmap string (ProseElement -> JsValue).
Variable step : bool.
(** The side table before the call. *)
Variable st0 : gmap string JsValue.

Local Abbreviation createStorageFor' :=
  (createStorageFor storageCreators step).
Local Abbreviation keeping := (keeping st0).
Local Abbreviation kept := (kept st0).
Local Abbreviation proceed := (proceed storageCreators step).
Local Abbreviation startChildren := (startChildren storageCreators step).
Local Abbreviation resume := (resume storageCreators step).

Lemma createStorageFor_unfold entry el f :
  createStorageFor' entry el f
  = match entry with
    | FromStart =>
        match generatorFor storageCreators (storage f) el with
        | Some generator => suspend (mkPending el (generator el)) f
        | None => proceed el f
        end
    | AfterAwait value => proceed el (writeStorage el value f)
    end.
Proof.
  destruct el as [sk sn d st [cs |] i un]; destruct entry; reflexivity.
Qed.

Lemma generatorFor_not_kept st el generator :
  (forall key value, st0 !! key = Some value -> truthy value = true ->
     st !! key = Some value) ->
  generatorFor storageCreators st el = Some generator ->
  forall key, Prose.storageKey el = Some key -> ~ kept key.
Proof.
  intros Hst Hgen key Hkey (value & Hvalue & Htruthy).
  unfold generatorFor in Hgen. rewrite Hkey in Hgen. cbn in Hgen.
  destruct (String.eqb key ""); [discriminate |].
  unfold readStorage in Hgen. rewrite (Hst key value Hvalue Htruthy) in Hgen.
  rewrite Htruthy in Hgen. discriminate.
Qed.

Lemma callStepOn_keeping el f : keeping f -> keeping (callStepOn step el f).
Proof. unfold callStepOn. destruct step; intros [Hs Hp]; split; assumption. Qed.

Lemma startChildren_keeping cs :
  Forall (fun c => forall f, keeping f ->
            keeping (createStorageFor' FromStart c f)) cs ->
  forall f, keeping f -> keeping (startChildren cs f).
Proof.
  induction 1 as [| c cs Hc _ IH]; intros f Hf; [exact Hf |].
  cbn [startChildren]. apply IH, Hc, Hf.
Qed.

Lemma proceed_keeping el :
  match Prose.children el with
  | None => True
  | Some cs =>
      Forall (fun c => forall f, keeping f ->
                keeping (createStorageFor' FromStart c f)) cs
  end ->
  forall f, keeping f -> keeping (proceed el f).
Proof.
  intros Hcs f Hf. unfold proceed.
  destruct (Prose.children el) as [cs |].
  - apply (startChildren_keeping cs Hcs), callStepOn_keeping, Hf.
  - apply callStepOn_keeping, Hf.
Qed.

Lemma createStorageFor_keeping : forall el f,
  keeping f -> keeping (createStorageFor' FromStart el f).
Proof.
  induction el as [el IH] using ProseElement_children_ind. intros f Hf.
  rewrite createStorageFor_unfold.
  destruct (generatorFor storageCreators (storage f) el) as [generator |]
    eqn:Hgen.
  - destruct Hf as [Hs Hp]. split; [exact Hs |].
    unfold suspend. cbn [pool]. apply Forall_app. split; [exact Hp |].
    constructor; [| constructor]. cbn [suspended].
    exact (generatorFor_not_kept _ _ _ Hs Hgen).
  - apply (proceed_keeping el IH), Hf.
Qed.

Lemma writeStorage_keeping el value f :
  keeping f ->
  (forall key, Prose.storageKey el = Some key -> ~ kept key) ->
  keeping (writeStorage el value f).
Proof.
  intros [Hs Hp] Hkey. unfold writeStorage.
  destruct (Prose.storageKey el) as [storageKey |]; [| now split].
  split; [| exact Hp]. cbn [storage]. intros key v Hv Ht.
  destruct (decide (storageKey = key)) as [-> | Hne].
  - exfalso. apply (Hkey key eq_refl). now exists v.
  - rewrite lookup_insert_ne by exact Hne. now apply Hs.
Qed.

Lemma resume_keeping i f : keeping f -> keeping (resume i f).
Proof.
  intros [Hs Hp]. unfold resume.
  destruct (pool f !! i) as [p |] eqn:Hi; [| now split].
  rewrite createStorageFor_unfold.
  assert (Hsub : forall el, match Prose.children el with
                            | None => True
                            | Some cs =>
                                Forall (fun c => forall f, keeping f ->
                                  keeping (createStorageFor' FromStart c f)) cs
                            end).
  { intros el. destruct (Prose.children el) as [cs |]; [| exact I].
    apply Forall_forall. intros c _. apply createStorageFor_keeping. }
  apply (proceed_keeping _ (Hsub _)).
  apply writeStorage_keeping.
  - split; [exact Hs |]. cbn [pool]. apply Forall_delete, Hp.
  - apply (proj1 (Forall_forall _ _) Hp).
    apply list_elem_of_lookup. eauto.
Qed.

Lemma schedule_keeping schedule : forall f,
  keeping f -> keeping (fold_left (fun f i => resume i f) schedule f).
Proof.
  induction schedule as [| i schedule IH]; intros f Hf; [exact Hf |].
  cbn [fold_left]. apply IH, resume_keeping, Hf.
Qed.
End FillFacts.

Section FillCompletes.
Variable storageCreators : gmap string (ProseElement -> JsValue).
Variable step : bool.

Local Abbreviation createStorageFor' :=
  (createStorageFor storageCreators step).
Local Abbreviation proceed := (proceed storageCreators step).
Local Abbreviation startChildren := (startChildren storageCreators step).
Local Abbreviation resume := (resume storageCreators step).

Lemma proseSize_unfold el :
  proseSize el
  = Datatypes.S match Prose.children el with
                | None => O
                | Some cs => forestSize cs
                end.
Proof. destruct el as [sk sn d st [cs |] i un]; reflexivity. Qed.

Lemma poolSize_app p1 p2 :
  poolSize (p1 ++ p2) = (poolSize p1 + poolSize p2)%nat.
Proof.
  unfold poolSize. induction p1 as [| p p1 IH]; cbn -[proseSize];
    [reflexivity |].
  cbn -[proseSize] in IH. rewrite IH. lia.
Qed.

Lemma poolSize_delete pool : forall i p,
  pool !! i = Some p ->
  poolSize pool = (poolSize (delete i pool) + proseSize (suspended p))%nat.
Proof.
  unfold poolSize.
  induction pool as [| q pool IH]; intros [| i] p Hp; try discriminate.
  - injection Hp as ->. cbn -[proseSize]. lia.
  - change (delete (Datatypes.S i) (q :: pool)) with (q :: delete i pool).
    cbn [map forestSize]. rewrite (IH i p Hp). lia.
Qed.

Lemma startChildren_size cs :
  Forall (fun c => forall f,
            (poolSize (pool (createStorageFor' FromStart c f))
             <= poolSize (pool f) + proseSize c)%nat) cs ->
  forall f, (poolSize (pool (startChildren cs f))
             <= poolSize (pool f) + forestSize cs)%nat.
Proof.
  induction 1 as [| c cs Hc _ IH]; intros f; cbn [startChildren forestSize];
    [lia |].
  specialize (IH (createStorageFor' FromStart c f)). specialize (Hc f). lia.
Qed.

Lemma proceed_size el :
  match Prose.children el with
  | None => True
  | Some cs =>
      Forall (fun c => forall f,
                (poolSize (pool (createStorageFor' FromStart c f))
                 <= poolSize (pool f) + proseSize c)%nat) cs
  end ->
  forall f, (Datatypes.S (poolSize (pool (proceed el f)))
             <= poolSize (pool f) + proseSize el)%nat.
Proof.
  intros Hcs f. unfold proceed. rewrite proseSize_unfold.
  assert (Hstep : pool (callStepOn step el f) = pool f)
    by (unfold callStepOn; destruct step; reflexivity).
  destruct (Prose.children el) as [cs |].
  - pose proof (startChildren_size cs Hcs (callStepOn step el f)) as Hsz.
    rewrite Hstep in Hsz. lia.
  - rewrite Hstep. lia.
Qed.

Lemma createStorageFor_size : forall el f,
  (poolSize (pool (createStorageFor' FromStart el f))
   <= poolSize (pool f) + proseSize el)%nat.
Proof.
  induction el as [el IH] using ProseElement_children_ind. intros f.
  rewrite (createStorageFor_unfold storageCreators step).
  destruct (generatorFor storageCreators (storage f) el) as [generator |].
  - unfold suspend. cbn [pool]. rewrite poolSize_app.
    unfold poolSize at 2. cbn -[proseSize]. lia.
  - pose proof (proceed_size el IH f). lia.
Qed.

(** Resuming a suspended call leaves less work. *)
Lemma resume_size i f p :
  pool f !! i = Some p ->
  (poolSize (pool (resume i f)) < poolSize (pool f))%nat.
Proof.
  intros Hp. rewrite (poolSize_delete (pool f) i p Hp).
  cbv delta [resume] beta. rewrite Hp.
  rewrite (createStorageFor_unfold storageCreators step).
  assert (Hsub : match Prose.children (suspended p) with
                 | None => True
                 | Some cs =>
                     Forall (fun c => forall f,
                       (poolSize (pool (createStorageFor' FromStart c f))
                        <= poolSize (pool f) + proseSize c)%nat) cs
                 end).
  { destruct (Prose.children (suspended p)) as [cs |]; [| exact I].
    apply Forall_forall. intros c _. apply createStorageFor_size. }
  pose proof (proceed_size (suspended p) Hsub
                (writeStorage (suspended p) (produced p)
                   (mkFilling (storage f) (stepped f) (delete i (pool f)))))
    as Hsz.
  assert (Hw : pool (writeStorage (suspended p) (produced p)
                       (mkFilling (storage f) (stepped f)
                                  (delete i (pool f))))
               = delete i (pool f)).
  { unfold writeStorage. destruct (Prose.storageKey (suspended p));
      reflexivity. }
  rewrite Hw in Hsz. lia.
Qed.

(** Resuming the first suspended call again and again completes the
    call. *)
Lemma resume_first_completes n : forall f,
  (poolSize (pool f) <= n)%nat ->
  completed (fold_left (fun f i => resume i f) (repeat 0%nat n) f) = true.
Proof.
  induction n as [| n IH]; intros f Hn.
  - cbn. unfold completed. destruct (pool f) as [| p rest]; [reflexivity |].
    unfold poolSize in Hn. cbn -[proseSize] in Hn.
    rewrite proseSize_unfold in Hn. lia.
  - cbn [repeat fold_left]. apply IH.
    destruct (pool f !! 0%nat) as [p |] eqn:Hp.
    + pose proof (resume_size 0 f p Hp). lia.
    + cbv delta [resume] beta. rewrite Hp.
      destruct (pool f); [cbn; lia | discriminate].
Qed.

Lemma schedule_size schedule : forall f,
  (poolSize (pool (fold_left (fun f i => resume i f) schedule f))
   <= poolSize (pool f))%nat.
Proof.
  induction schedule as [| i schedule IH]; intros f; [cbn; lia |].
  cbn [fold_left]. specialize (IH (resume i f)).
  destruct (pool f !! i) as [p |] eqn:Hp.
  - pose proof (resume_size i f p Hp). lia.
  - assert (Heq : resume i f = f)
      by (cbv delta [resume] beta; now rewrite Hp).
    rewrite Heq in IH |- *. exact IH.
Qed.
End FillCompletes.

(** What the guard does keep. For every resolved tree, side table,
    generators and schedule of the suspended calls: a key that holds a
    truthy value before the call holds the same value in every state of the
    call, in particular when it has completed; so a second run on the table
    left by a first one changes no truthy value of it. Every call can be
    completed. *)
Theorem fillStorage_keeps_truthy
    (storageCreators : gmap string (ProseElement -> JsValue)) (step : bool)
    (schedule : list nat) (st : gmap string JsValue) (el : ProseElement)
    (key : string) (value : JsValue) :
  st !! key = Some value -> truthy value = true ->
  storage (fillStorage storageCreators step schedule st el) !! key
  = Some value
  /\ (forall schedule2 key' value',
        storage (fillStorage storageCreators step schedule st el) !! key'
        = Some value' ->
        truthy value' = true ->
        storage (fillStorage storageCreators step schedule2
                   (storage (fillStorage storageCreators step schedule st el))
                   el) !! key'
        = Some value')
  /\ completed (fillStorage storageCreators step
                  (schedule ++ repeat 0%nat (proseSize el)) st el) = true.
Proof.
  assert (Hkeeps : forall schedule st key value,
             st !! key = Some value -> truthy value = true ->
             storage (fillStorage storageCreators step schedule st el) !! key
             = Some value).
  { clear. intros schedule st key value Hkey Htruthy. unfold fillStorage.
    assert (Hinit : keeping st (mkFilling st [] []))
      by (split; [auto | constructor]).
    apply (createStorageFor_keeping storageCreators step st el) in Hinit.
    apply (schedule_keeping storageCreators step st schedule) in Hinit.
    destruct Hinit as [Hs _]. exact (Hs key value Hkey Htruthy). }
  intros Hkey Htruthy. split; [exact (Hkeeps _ _ _ _ Hkey Htruthy) |].
  split; [intros schedule2 key' value'; apply Hkeeps |].
  unfold fillStorage. rewrite fold_left_app.
  apply resume_first_completes.
  etransitivity; [apply schedule_size |].
  pose proof (createStorageFor_size storageCreators step el
                (mkFilling st [] [])) as Hsz.
  cbn in Hsz. exact Hsz.
Qed.

Lemma fillStorage_keeps_truthy_witness :
  storage (fillStorage sampleCreators true [1%nat; 0%nat]
             {["cat.jpg" := JObj 7]} sampleGallery) !! "cat.jpg"
  = Some (JObj 7).
Proof.
  apply (fillStorage_keeps_truthy sampleCreators true [1%nat; 0%nat]
           {["cat.jpg" := JObj 7]} sampleGallery "cat.jpg" (JObj 7));
    vm_compute; reflexivity.
Defined.

(** C4, on the code. The guard of [createStorageFor] is
    [storageKey && !storage[storageKey]]: it asks whether the stored value
    is truthy, not whether the key is present. On the side table
    [{ 'cat.jpg': 0 }] and an image with this storage key, the entry is
    present before the call, the call completes, and the entry then holds
    the value of the generator: a populated entry was overwritten. So
    [neverOverwrites], which is the claim and what the test 'should not
    overwrite existing storage values' expects of an existing value, does
    not hold of the code. *)
Theorem fillStorage_overwrites_falsy :
  ({["cat.jpg" := JNum 0]} : gmap string JsValue) !! "cat.jpg"
  = Some (JNum 0)
  /\ completed (fillStorage sampleCreators false [0%nat]
                  {["cat.jpg" := JNum 0]} sampleImage) = true
  /\ storage (fillStorage sampleCreators false [0%nat]
                {["cat.jpg" := JNum 0]} sampleImage) !! "cat.jpg"
     = Some (JObj 1)
  /\ ~ neverOverwrites.
Proof.
  assert (Hbefore : ({["cat.jpg" := JNum 0]} : gmap string JsValue)
                      !! "cat.jpg" = Some (JNum 0))
    by (vm_compute; reflexivity).
  assert (Hdone :
            completed (fillStorage sampleCreators false [0%nat]
                         {["cat.jpg" := JNum 0]} sampleImage) = true)
    by (vm_compute; reflexivity).
  assert (Hafter :
            storage (fillStorage sampleCreators false [0%nat]
                       {["cat.jpg" := JNum 0]} sampleImage) !! "cat.jpg"
            = Some (JObj 1)) by (vm_compute; reflexivity).
  repeat (split; [assumption |]).
  intros Hnever.
  specialize (Hnever sampleCreators false [0%nat] {["cat.jpg" := JNum 0]}
                sampleImage "cat.jpg" (JNum 0) Hbefore Hdone).
  rewrite Hafter in Hnever. discriminate.
Qed.

(* ===================================================================== *)
(** * Worked examples *)
(* ===================================================================== *)

Example kebabCaseSample_examples :
  kebabCaseSample "myAnchor" = "my-anchor"
  /\ kebabCaseSample "myCustomSlug" = "my-custom-slug"
  /\ kebabCaseSample "intro" = "intro".
Proof. repeat split. Qed.

Example hash_examples :
  Hash.hash 2 "ABC" (NumInt 12) = Ok "pAb6C0GyJ65x"
  /\ Hash.hash 2 "example input" (NumInt 10) = Ok "8qDqbxXuwG"
  /\ Hash.hash 2 "ABC" (NumInt 0) = Throw TypeErrorLength
  /\ Hash.hash 2 "ABC" (NumInt (-3)) = Throw TypeErrorLength
  /\ Hash.hash 2 "ABC" NumNonInteger = Throw TypeErrorLength.
Proof. repeat split; vm_compute; reflexivity. Qed.

Section NormalizeExamples.
Local Existing Instance sampleRuntime.

(** [normalizeChildren(["A", <Bold/>, "B"])]: text, element, text. *)
Example normalize_around_element :
  normalizeChildren 2 None
    (ChildrenArray [ChildOther (JStr "A"); ChildRaw (rawBold "bold-hash");
                    ChildOther (JStr "B")]) tt
  = (tt, Ok (Some [jsxText "A" (hash12 "A"); rawBold "bold-hash";
                   jsxText "B" (hash12 "B")])).
Proof. vm_compute. reflexivity. Qed.

(** A reference to a unique that is not bound yet throws. *)
Example normalize_unbound_unique :
  normalizeChildren 2 None
    (ChildrenSingle (ChildUnique (defineUnique "foo" "pUnique" P))) tt
  = (tt, Throw TypeErrorUndefined).
Proof. reflexivity. Qed.
End NormalizeExamples.

(** Two sibling paragraphs with the slug [intro]. *)
Example resolve_sibling_slugs :
  exists result,
    resolveRawElement kebabCaseSample sampleRegistry duplicatedSlugs true
                      None None ∅ tt = (tt, Ok result)
    /\ treeIds (proseElement result) = ["intro"; "intro-1"]
    /\ resultIds result = {["intro"; "intro-1"]}.
Proof. eexists. repeat split; vm_compute; reflexivity. Qed.

(** An automatic identifier gives way to a unique deeper in the tree: the
    paragraph with slug [myAnchor] comes first and gets the suffix. *)
Example resolve_slug_before_unique :
  exists result,
    resolveRawElement kebabCaseSample sampleRegistry
      (rawMix [rawP "h1" (Some "myAnchor") None;
               rawMix [rawP "h2" None (Some "myAnchor")]])
      true None None ∅ tt = (tt, Ok result)
    /\ treeIds (proseElement result) = ["my-anchor-1"; "my-anchor"].
Proof. eexists. repeat split; vm_compute; reflexivity. Qed.

(** Without [linkable] no identifier is assigned. *)
Example resolve_not_linkable :
  exists result,
    resolveRawElement kebabCaseSample sampleRegistry duplicatedSlugs false
                      None None ∅ tt = (tt, Ok result)
    /\ treeIds (proseElement result) = [].
Proof. eexists. repeat split; vm_compute; reflexivity. Qed.

(** A missing schema is the registry's error. *)
Example resolve_missing_schema :
  resolveRawElement kebabCaseSample (Registry.mk ∅ ∅) duplicatedSlugs true
                    None None ∅ tt
  = (tt, Throw (MissingSchema "paragraph")).
Proof. vm_compute. reflexivity. Qed.

(** A walk over a tree of numbers: 2 asks for no deeper, 5 stops, the
    empty slot is passed over, 6 is never reached. *)
Example walk_numbers :
  let leaf n := TreeNode n None in
  let sig (t : ElementTree Z) :=
    if self t =? 2 then WalkNoDeeper
    else if self t =? 5 then WalkStop else Void in
  walkElements (logStep sig)
    (TreeNode 1 (Some [Some (TreeNode 2 (Some [Some (leaf 3)]));
                       None;
                       Some (TreeNode 4 (Some [Some (leaf 5); Some (leaf 6)]));
                       Some (leaf 7)])) []
  = ([TreeNode 1 (Some [Some (TreeNode 2 (Some [Some (leaf 3)]));
                        None;
                        Some (TreeNode 4 (Some [Some (leaf 5); Some (leaf 6)]));
                        Some (leaf 7)]);
      TreeNode 2 (Some [Some (leaf 3)]);
      TreeNode 4 (Some [Some (leaf 5); Some (leaf 6)]);
      leaf 5],
     Ok WalkStop).
Proof. reflexivity. Qed.

(** Binding a unique twice, and binding an element of another tag. *)
Example unique_examples :
  setRawElement sampleAnchored (defineUnique "foo" "pUnique" P)
  = (sampleUnique, Ok tt)
  /\ setRawElement (rawP "other" None None) sampleUnique
     = (sampleUnique, Throw (UniqueAlreadyAssigned "pUnique"))
  /\ setRawElement (rawBold "bold-hash") (defineUnique "foo" "pUnique" P)
     = (defineUnique "foo" "pUnique" P,
        Throw (UniqueTagMismatch "pUnique" "P" "Bold")).
Proof. repeat split. Qed.

(** Two siblings with the same storage key and an empty table: both calls
    are suspended before either writes, so the generator runs twice. *)
Example fillStorage_same_key :
  map suspended
      (pool (fillStorage sampleCreators false [] ∅ sampleGallery))
  = [sampleImage; sampleImage]
  /\ storage (fillStorage sampleCreators false [0%nat; 0%nat] ∅ sampleGallery)
     = {["cat.jpg" := JObj 1]}.
Proof. split; vm_compute; reflexivity. Qed.
(* ===================================================================== *)
(** * More facts about the registry *)
(* ===================================================================== *)

Section RegistryFacts.

Lemma forEach_app {S A} (f : A -> Eff S unit) xs : forall ys s,
  forEach (xs ++ ys) f s
  = match forEach xs f s with
    | (s1, Ok _) => forEach ys f s1
    | (s1, Throw e) => (s1, Throw e)
    | (s1, OutOfFuel) => (s1, OutOfFuel)
    end.
Proof.
  induction xs as [| x xs IH]; intros ys s; [reflexivity |].
  cbn [forEach app]. unfold ebind.
  destruct (f x s) as [s1 [[] | e |]]; [apply IH | reflexivity..].
Qed.

Lemma tagsAfter_notin entries : forall m k,
  k ∉ map fst entries -> tagsAfter entries m !! k = m !! k.
Proof.
  induction entries as [| [k0 t0] rest IH]; intros m k Hk; [reflexivity |].
  cbn in Hk. apply not_elem_of_cons in Hk as [Hne Hk].
  unfold tagsAfter in *. cbn [fold_left fst snd].
  rewrite (IH _ _ Hk). apply lookup_insert_ne. congruence.
Qed.

Lemma tagsAfter_in entries : forall m k t,
  NoDup (map fst entries) -> (k, t) ∈ entries ->
  tagsAfter entries m !! k = Some t.
Proof.
  induction entries as [| [k0 t0] rest IH]; intros m k t Hnd Hin.
  - inversion Hin.
  - cbn in Hnd. apply NoDup_cons in Hnd as [Hfresh Hnd].
    apply elem_of_cons in Hin as [[= -> ->] | Hin].
    + change (tagsAfter ((k0, t0) :: rest) m)
        with (tagsAfter rest (<[k0 := t0]> m)).
      rewrite (tagsAfter_notin _ _ _ Hfresh). apply lookup_insert_eq.
    + change (tagsAfter ((k0, t0) :: rest) m)
        with (tagsAfter rest (<[k0 := t0]> m)).
      apply IH; assumption.
Qed.

Lemma tagsAfter_is_Some entries : forall m k,
  is_Some (tagsAfter entries m !! k)
  <-> k ∈ map fst entries \/ is_Some (m !! k).
Proof.
  induction entries as [| [k0 t0] rest IH]; intros m k.
  - cbn. split; [auto | intros [H | H]; [inversion H | exact H]].
  - change (tagsAfter ((k0, t0) :: rest) m)
      with (tagsAfter rest (<[k0 := t0]> m)).
    rewrite IH. cbn [map fst]. rewrite elem_of_cons.
    destruct (decide (k0 = k)) as [-> | Hne].
    + rewrite lookup_insert_eq. split; eauto.
    + rewrite (lookup_insert_ne _ _ _ _ Hne). split.
      * intros [H | H]; auto.
      * intros [[H | H] | H]; auto. congruence.
Qed.

Lemma tagsAfter_keyed entries : forall m k tag,
  Forall (fun entry => fst entry = Tag.tagName (snd entry)) entries ->
  (forall k tag, m !! k = Some tag -> Tag.tagName tag = k) ->
  tagsAfter entries m !! k = Some tag -> Tag.tagName tag = k.
Proof.
  induction entries as [| [k0 t0] rest IH]; intros m k tag Hall Hm.
  - apply Hm.
  - change (tagsAfter ((k0, t0) :: rest) m)
      with (tagsAfter rest (<[k0 := t0]> m)).
    apply Forall_cons in Hall as [Hk0 Hall]. cbn in Hk0.
    apply IH; [exact Hall |].
    intros k1 t1. destruct (decide (k0 = k1)) as [<- | Hne].
    + rewrite lookup_insert_eq. intros [= <-]. now symmetry.
    + rewrite (lookup_insert_ne _ _ _ _ Hne). apply Hm.
Qed.

Lemma tagsWithout_lookup removed : forall m k,
  tagsWithout removed m !! k
  = if bool_decide (k ∈ map Tag.tagName removed) then None else m !! k.
Proof.
  induction removed as [| t rest IH]; intros m k.
  - cbn. rewrite bool_decide_eq_false_2; [reflexivity | apply not_elem_of_nil].
  - change (tagsWithout (t :: rest) m)
      with (tagsWithout rest (delete (Tag.tagName t) m)).
    rewrite IH. cbn [map].
    destruct (decide (k ∈ map Tag.tagName rest)) as [Hin | Hnin].
    + rewrite !bool_decide_eq_true_2; [reflexivity | | exact Hin].
      now apply list_elem_of_further.
    + rewrite (bool_decide_eq_false_2 _ Hnin).
      destruct (decide (Tag.tagName t = k)) as [<- | Hne].
      * rewrite lookup_delete_eq, bool_decide_eq_true_2;
          [reflexivity | apply list_elem_of_here].
      * rewrite (lookup_delete_ne _ _ _ Hne), bool_decide_eq_false_2;
          [reflexivity |].
        intros [-> | H]%elem_of_cons; [congruence | contradiction].
Qed.

Lemma setTags_run entries : forall r,
  setTags entries r
  = (Registry.mk (Registry.items r) (tagsAfter entries (Registry.tags r)),
     Ok tt).
Proof.
  induction entries as [| [k t] rest IH]; intros r.
  - destruct r. reflexivity.
  - cbn [setTags]. unfold ebind, emodify. rewrite IH. reflexivity.
Qed.

Lemma removeLoop_run removed : forall r,
  forEach removed (fun tag => emodify (deleteTag (Tag.tagName tag))) r
  = (Registry.mk (Registry.items r) (tagsWithout removed (Registry.tags r)),
     Ok tt).
Proof.
  induction removed as [| t rest IH]; intros r.
  - destruct r. reflexivity.
  - cbn [forEach]. unfold ebind, emodify. rewrite IH. reflexivity.
Qed.

Lemma checkTags_run entries : forall r,
  (forall k, k ∈ map fst entries -> Registry.tags r !! k = None) ->
  checkTags entries r = (r, Ok tt).
Proof.
  induction entries as [| [k t] rest IH]; intros r Hfree; [reflexivity |].
  cbn [checkTags]. unfold ebind, eget.
  rewrite (Hfree k); [| cbn; apply list_elem_of_here].
  apply IH. intros k1 Hk1. apply Hfree. cbn. now apply list_elem_of_further.
Qed.

Lemma checkTags_Ok entries : forall r r',
  checkTags entries r = (r', Ok tt) ->
  forall k, k ∈ map fst entries -> Registry.tags r !! k = None.
Proof.
  induction entries as [| [k t] rest IH]; intros r r' Hrun k1 Hk1.
  - inversion Hk1.
  - cbn [checkTags] in Hrun. unfold ebind, eget, ethrow in Hrun.
    destruct (Registry.tags r !! k) eqn:El; [discriminate |].
    cbn in Hk1. apply elem_of_cons in Hk1 as [-> | Hk1]; [exact El |].
    exact (IH _ _ Hrun _ Hk1).
Qed.

Lemma checkTags_returns entries : forall r,
  snd (checkTags entries r) <> OutOfFuel.
Proof.
  induction entries as [| [k t] rest IH]; intros r; [discriminate |].
  cbn [checkTags]. unfold ebind, eget, ethrow.
  destruct (Registry.tags r !! k); [discriminate | apply IH].
Qed.

(** What [addItem] does, case by case. *)
Lemma addItem_run item r :
  Registry.items r !! itemName item = None ->
  (forall k, k ∈ tagKeys item -> Registry.tags r !! k = None) ->
  addItem item r
  = (Registry.mk (<[itemName item := item]> (Registry.items r))
                 (tagsAfter (tags item) (Registry.tags r)),
     Ok tt).
Proof.
  intros Hname Hfree. unfold addItem, ebind, eget, itemName in *.
  rewrite Hname, (checkTags_run _ _ Hfree). unfold emodify.
  rewrite setTags_run. reflexivity.
Qed.

Lemma addItem_Ok item r r' :
  addItem item r = (r', Ok tt) ->
  Registry.items r !! itemName item = None
  /\ (forall k, k ∈ tagKeys item -> Registry.tags r !! k = None)
  /\ r' = Registry.mk (<[itemName item := item]> (Registry.items r))
                      (tagsAfter (tags item) (Registry.tags r)).
Proof.
  intros Hrun.
  assert (Registry.items r !! itemName item = None) as Hname.
  { unfold addItem, ebind, eget, ethrow, itemName in *.
    destruct (Registry.items r !! name (schema item)); [discriminate |].
    reflexivity. }
  assert (forall k, k ∈ tagKeys item -> Registry.tags r !! k = None)
    as Hfree.
  { unfold addItem, ebind, eget, ethrow, itemName in *.
    rewrite Hname in Hrun.
    destruct (checkTags (tags item) r) as [r1 [[] | e |]] eqn:Ec;
      [| discriminate..].
    exact (checkTags_Ok _ _ _ Ec). }
  rewrite (addItem_run _ _ Hname Hfree) in Hrun.
  injection Hrun as <-. auto.
Qed.

Lemma addItem_Throw item r r' e :
  addItem item r = (r', Throw e) -> r' = r.
Proof.
  unfold addItem, ebind, eget, ethrow.
  destruct (Registry.items r !! name (schema item)); [congruence |].
  pose proof (checkTags_state (tags item) r) as Hst.
  destruct (checkTags (tags item) r) as [r1 [[] | e1 |]]; cbn in Hst.
  - unfold emodify. rewrite setTags_run. discriminate.
  - congruence.
  - discriminate.
Qed.

Lemma addItem_returns item r : snd (addItem item r) <> OutOfFuel.
Proof.
  unfold addItem, ebind, eget, ethrow.
  destruct (Registry.items r !! name (schema item)); [discriminate |].
  pose proof (checkTags_returns (tags item) r) as Hret.
  destruct (checkTags (tags item) r) as [r1 [[] | e1 |]]; cbn in Hret.
  - unfold emodify. rewrite setTags_run. discriminate.
  - discriminate.
  - contradiction.
Qed.

(** [addItem] throws exactly when the schema name or a tag key is taken. *)
Lemma addItem_decides item r :
  (exists r', addItem item r = (r', Ok tt))
  <-> Registry.items r !! itemName item = None
      /\ forall k, k ∈ tagKeys item -> Registry.tags r !! k = None.
Proof.
  split.
  - intros [r' Hrun]. destruct (addItem_Ok _ _ _ Hrun) as (H1 & H2 & _).
    auto.
  - intros [H1 H2]. rewrite (addItem_run _ _ H1 H2). eauto.
Qed.

End RegistryFacts.

Section RegistryInvariants.

Lemma forEach_invariant {S A} (P : S -> Prop) (f : A -> Eff S unit) xs :
  (forall x s, x ∈ xs -> P s -> P (fst (f x s))) ->
  forall s, P s -> P (fst (forEach xs f s)).
Proof.
  induction xs as [| x xs IH]; intros Hstep s Hs; [exact Hs |].
  cbn [forEach]. unfold ebind.
  pose proof (Hstep x s (list_elem_of_here _ _) Hs) as H1.
  destruct (f x s) as [s1 [[] | e |]]; cbn in H1; [| exact H1..].
  apply IH; [| exact H1].
  intros y s2 Hy. apply Hstep. now apply list_elem_of_further.
Qed.

Lemma addItem_state item r :
  fst (addItem item r) = r
  \/ fst (addItem item r)
     = Registry.mk (<[itemName item := item]> (Registry.items r))
                   (tagsAfter (tags item) (Registry.tags r)).
Proof.
  pose proof (addItem_returns item r) as Hret.
  destruct (addItem item r) as [r1 [[] | e |]] eqn:Hrun; cbn in *.
  - right. now destruct (addItem_Ok _ _ _ Hrun) as (_ & _ & ->).
  - left. exact (addItem_Throw _ _ _ _ Hrun).
  - contradiction.
Qed.

Lemma addItem_itemsKeyed item r :
  itemsKeyed r -> itemsKeyed (fst (addItem item r)).
Proof.
  intros Hr. destruct (addItem_state item r) as [-> | ->]; [exact Hr |].
  intros n it. cbn. destruct (decide (itemName item = n)) as [<- | Hne].
  - rewrite lookup_insert_eq. now intros [= <-].
  - rewrite (lookup_insert_ne _ _ _ _ Hne). apply Hr.
Qed.

Lemma addItem_tagsKeyed item r :
  keyedByTagName item -> tagsKeyed r -> tagsKeyed (fst (addItem item r)).
Proof.
  intros Hitem Hr. destruct (addItem_state item r) as [-> | ->]; [exact Hr |].
  intros k tag. cbn. apply tagsAfter_keyed; assumption.
Qed.

Lemma removeItem_state arg r :
  exists removedName removed,
    fst (removeItem arg r)
    = Registry.mk (delete removedName (Registry.items r))
                  (tagsWithout removed (Registry.tags r))
    \/ fst (removeItem arg r) = r.
Proof.
  unfold removeItem, ebind, eget.
  destruct (match arg with
            | ByItem item => Some item
            | BySchema s => Registry.items r !! name s
            end) as [item |].
  - exists (name (schema item)), (map snd (tags item)). left.
    unfold emodify. rewrite removeLoop_run. reflexivity.
  - exists "", []. now right.
Qed.

Lemma removeItem_itemsKeyed arg r :
  itemsKeyed r -> itemsKeyed (fst (removeItem arg r)).
Proof.
  intros Hr. destruct (removeItem_state arg r) as (n0 & ts & [-> | ->]);
    [| exact Hr].
  intros n it. cbn. intros Hl. apply lookup_delete_Some in Hl as [_ Hl].
  exact (Hr _ _ Hl).
Qed.

Lemma removeItem_tagsKeyed arg r :
  tagsKeyed r -> tagsKeyed (fst (removeItem arg r)).
Proof.
  intros Hr. destruct (removeItem_state arg r) as (n0 & ts & [-> | ->]);
    [| exact Hr].
  intros k tag. cbn. rewrite tagsWithout_lookup.
  destruct (bool_decide _); [discriminate | apply Hr].
Qed.

Lemma defaults_keyedByTagName schema :
  keyedByTagName (Define.defineRegistryItem schema None None).
Proof. constructor. Qed.

Lemma setDefaultItems_itemsKeyed r :
  itemsKeyed r -> itemsKeyed (fst (setDefaultItems r)).
Proof.
  apply (forEach_invariant itemsKeyed). intros x s _.
  apply addItem_itemsKeyed.
Qed.

Lemma setDefaultItems_tagsKeyed r :
  tagsKeyed r -> tagsKeyed (fst (setDefaultItems r)).
Proof.
  apply (forEach_invariant tagsKeyed). intros x s _.
  apply addItem_tagsKeyed, defaults_keyedByTagName.
Qed.

Lemma addItems_itemsKeyed items r :
  itemsKeyed r -> itemsKeyed (fst (addItems items r)).
Proof.
  apply (forEach_invariant itemsKeyed). intros x s _.
  apply addItem_itemsKeyed.
Qed.

Lemma addItems_tagsKeyed items r :
  Forall keyedByTagName items ->
  tagsKeyed r -> tagsKeyed (fst (addItems items r)).
Proof.
  intros Hall. apply (forEach_invariant tagsKeyed). intros x s Hx.
  apply addItem_tagsKeyed. rewrite Forall_forall in Hall. now apply Hall.
Qed.

Lemma setItems_unfold items r :
  setItems items r
  = match setDefaultItems (Registry.mk ∅ ∅) with
    | (r1, Ok _) => addItems items r1
    | (r1, Throw e) => (r1, Throw e)
    | (r1, OutOfFuel) => (r1, OutOfFuel)
    end.
Proof. reflexivity. Qed.

Lemma empty_itemsKeyed : itemsKeyed (Registry.mk ∅ ∅).
Proof. intros n it. cbn. now rewrite lookup_empty. Qed.

Lemma empty_tagsKeyed : tagsKeyed (Registry.mk ∅ ∅).
Proof. intros n it. cbn. now rewrite lookup_empty. Qed.

Lemma setItems_itemsKeyed items r : itemsKeyed (fst (setItems items r)).
Proof.
  rewrite setItems_unfold.
  pose proof (setDefaultItems_itemsKeyed _ empty_itemsKeyed) as H1.
  destruct (setDefaultItems _) as [r1 [[] | e |]]; cbn in H1; [| exact H1..].
  now apply addItems_itemsKeyed.
Qed.

Lemma setItems_tagsKeyed items r :
  Forall keyedByTagName items -> tagsKeyed (fst (setItems items r)).
Proof.
  intros Hall. rewrite setItems_unfold.
  pose proof (setDefaultItems_tagsKeyed _ empty_tagsKeyed) as H1.
  destruct (setDefaultItems _) as [r1 [[] | e |]]; cbn in H1; [| exact H1..].
  now apply addItems_tagsKeyed.
Qed.

Lemma call_itemsKeyed c r : itemsKeyed r -> itemsKeyed (fst (call c r)).
Proof.
  destruct c; cbn [call].
  - apply addItem_itemsKeyed.
  - apply addItems_itemsKeyed.
  - intros _. apply setItems_itemsKeyed.
  - apply removeItem_itemsKeyed.
Qed.

Lemma call_tagsKeyed c r :
  Forall keyedByTagName (itemsOf c) ->
  tagsKeyed r -> tagsKeyed (fst (call c r)).
Proof.
  destruct c; cbn [call itemsOf]; intros Hall.
  - apply addItem_tagsKeyed. now apply Forall_cons in Hall as [? _].
  - now apply addItems_tagsKeyed.
  - intros _. now apply setItems_tagsKeyed.
  - apply removeItem_tagsKeyed.
Qed.

Lemma after_snoc calls c :
  after (calls ++ [c]) = fst (call c (after calls)).
Proof. unfold after. now rewrite fold_left_app. Qed.

Lemma after_itemsKeyed calls : itemsKeyed (after calls).
Proof.
  induction calls as [| c calls IH] using rev_ind.
  - apply (setDefaultItems_itemsKeyed _ empty_itemsKeyed).
  - rewrite after_snoc. now apply call_itemsKeyed.
Qed.

Lemma after_tagsKeyed calls :
  Forall keyedByTagName (concat (map itemsOf calls)) ->
  tagsKeyed (after calls).
Proof.
  induction calls as [| c calls IH] using rev_ind; intros Hall.
  - apply (setDefaultItems_tagsKeyed _ empty_tagsKeyed).
  - rewrite after_snoc. rewrite map_app, concat_app in Hall.
    apply Forall_app in Hall as [Hcalls Hc]. cbn in Hc.
    rewrite app_nil_r in Hc. apply call_tagsKeyed; auto.
Qed.

End RegistryInvariants.

Section AddItems.

Lemma forEach_map {S A B} (g : A -> B) (f : B -> Eff S unit) xs : forall s,
  forEach (map g xs) f s = forEach xs (fun x => f (g x)) s.
Proof.
  induction xs as [| x xs IH]; intros s; [reflexivity |].
  cbn [map forEach]. unfold ebind.
  destruct (f (g x) s) as [s1 [[] | e |]]; [apply IH | reflexivity..].
Qed.

Lemma addItems_cons item items r :
  addItems (item :: items) r
  = match addItem item r with
    | (r1, Ok _) => addItems items r1
    | (r1, Throw e) => (r1, Throw e)
    | (r1, OutOfFuel) => (r1, OutOfFuel)
    end.
Proof. reflexivity. Qed.

Lemma addItems_Ok items : forall r r',
  addItems items r = (r', Ok tt) ->
  NoDup (map itemName items)
  /\ (forall n, n ∈ map itemName items -> Registry.items r !! n = None)
  /\ (forall k, k ∈ allTagKeys items -> Registry.tags r !! k = None)
  /\ (Forall objectKeys items -> NoDup (allTagKeys items))
  /\ (forall item, item ∈ items ->
        Registry.items r' !! itemName item = Some item)
  /\ (forall n, n ∉ map itemName items ->
        Registry.items r' !! n = Registry.items r !! n)
  /\ (forall k, is_Some (Registry.tags r' !! k)
        <-> k ∈ allTagKeys items \/ is_Some (Registry.tags r !! k)).
Proof.
  induction items as [| item items IH]; intros r r' Hrun.
  - injection Hrun as <-. cbn. repeat split.
    + constructor.
    + intros n H. inversion H.
    + intros n H. inversion H.
    + intros _. constructor.
    + intros it H. inversion H.
    + auto.
    + intros [H | H]; [inversion H | exact H].
  - rewrite addItems_cons in Hrun.
    destruct (addItem item r) as [r1 [[] | e |]] eqn:Hadd;
      [| discriminate..].
    destruct (addItem_Ok _ _ _ Hadd) as (Hname & Hfree & ->).
    destruct (IH _ _ Hrun) as (Hnd & Hnames & Hkeys & Hobj & Hin & Hout & Htags).
    cbn [Registry.items Registry.tags] in *.
    assert (itemName item ∉ map itemName items) as Hfresh.
    { intros Hn. specialize (Hnames _ Hn).
      now rewrite lookup_insert_eq in Hnames. }
    assert (forall k, k ∈ tagKeys item -> k ∉ allTagKeys items) as Hdisj.
    { intros k Hk Hk'. specialize (Hkeys _ Hk').
      assert (is_Some (tagsAfter (tags item) (Registry.tags r) !! k)) as Hs.
      { apply tagsAfter_is_Some. now left. }
      rewrite Hkeys in Hs. now destruct Hs. }
    split; [| split; [| split; [| split; [| split; [| split]]]]].
    + cbn. now apply NoDup_cons.
    + intros n [-> | Hn]%elem_of_cons; [exact Hname |].
      specialize (Hnames _ Hn).
      destruct (decide (itemName item = n)) as [<- | Hne];
        [contradiction |].
      now rewrite (lookup_insert_ne _ _ _ _ Hne) in Hnames.
    + unfold allTagKeys. cbn [map concat].
      intros k [Hk | Hk]%elem_of_app; [now apply Hfree |].
      specialize (Hkeys _ Hk).
      destruct (Registry.tags r !! k) eqn:El; [| reflexivity].
      assert (is_Some (tagsAfter (tags item) (Registry.tags r) !! k)) as Hs.
      { apply tagsAfter_is_Some. right. rewrite El. eauto. }
      rewrite Hkeys in Hs. now destruct Hs.
    + intros [Hitem Hall]%Forall_cons. unfold allTagKeys. cbn [map concat].
      apply NoDup_app. split; [exact Hitem |]. split; [exact Hdisj |].
      now apply Hobj.
    + intros it [-> | Hit]%elem_of_cons; [| now apply Hin].
      rewrite (Hout _ Hfresh). apply lookup_insert_eq.
    + cbn [map]. intros n [Hne Hn]%not_elem_of_cons.
      rewrite (Hout _ Hn). apply lookup_insert_ne. congruence.
    + intros k. rewrite Htags, tagsAfter_is_Some. unfold allTagKeys.
      cbn [map concat]. rewrite elem_of_app. tauto.
Qed.

Lemma addItems_run items : forall r,
  NoDup (map itemName items) ->
  (forall n, n ∈ map itemName items -> Registry.items r !! n = None) ->
  NoDup (allTagKeys items) ->
  (forall k, k ∈ allTagKeys items -> Registry.tags r !! k = None) ->
  exists r', addItems items r = (r', Ok tt).
Proof.
  induction items as [| item items IH]; intros r Hnd Hnames Hkd Hkeys.
  - eexists. reflexivity.
  - rewrite addItems_cons. cbn [map] in Hnd, Hnames.
    unfold allTagKeys in Hkd, Hkeys. cbn [map concat] in Hkd, Hkeys.
    apply NoDup_cons in Hnd as [Hfresh Hnd].
    apply NoDup_app in Hkd as (Hk1 & Hdisj & Hk2).
    rewrite addItem_run.
    + apply IH; cbn [Registry.items Registry.tags]; try assumption.
      * intros n Hn. rewrite lookup_insert_ne; [| congruence].
        apply Hnames. now apply list_elem_of_further.
      * intros k Hk.
        destruct (tagsAfter (tags item) (Registry.tags r) !! k) eqn:El;
          [| reflexivity].
        assert (is_Some (tagsAfter (tags item) (Registry.tags r) !! k))
          as Hs by (rewrite El; eauto).
        apply tagsAfter_is_Some in Hs as [Hs | Hs].
        -- now destruct (Hdisj _ Hs).
        -- rewrite (Hkeys k) in Hs; [now destruct Hs |].
           apply elem_of_app. now right.
    + apply Hnames, list_elem_of_here.
    + intros k Hk. apply Hkeys, elem_of_app. now left.
Qed.

Lemma setItems_addItems items r :
  setItems items r = addItems (defaultItems ++ items) (Registry.mk ∅ ∅).
Proof.
  rewrite setItems_unfold. unfold addItems, defaultItems.
  rewrite forEach_app, forEach_map. reflexivity.
Qed.

Lemma addItems_returns items : forall r,
  snd (addItems items r) <> OutOfFuel.
Proof.
  induction items as [| item items IH]; intros r; [discriminate |].
  rewrite addItems_cons. pose proof (addItem_returns item r) as Hret.
  destruct (addItem item r) as [r1 [[] | e |]]; cbn in Hret;
    [apply IH | discriminate | contradiction].
Qed.

(** Whatever it holds, [addItems] never drops or replaces an entry. *)
Lemma addItems_keeps items : forall r n item,
  Registry.items r !! n = Some item ->
  Registry.items (fst (addItems items r)) !! n = Some item.
Proof.
  induction items as [| it items IH]; intros r n item Hn; [exact Hn |].
  rewrite addItems_cons.
  destruct (addItem_state it r) as [Hst | Hst];
    destruct (addItem it r) as [r1 [[] | e |]] eqn:Hadd; cbn in Hst; subst r1;
    cbn [fst]; try exact Hn; try (now apply IH).
  - apply IH. cbn.
    destruct (addItem_Ok _ _ _ Hadd) as (Hfree & _ & _).
    rewrite lookup_insert_ne; [exact Hn | congruence].
  - pose proof (addItem_Throw _ _ _ _ Hadd) as Heq.
    rewrite <- Heq in Hn. exact Hn.
  - pose proof (addItem_returns it r) as Hret. rewrite Hadd in Hret.
    now destruct Hret.
Qed.

End AddItems.

Section DefineRegistryItem.

Lemma assign_keys key tag acc :
  map fst (Define.assign key tag acc)
  = if bool_decide (key ∈ map fst acc) then map fst acc
    else map fst acc ++ [key].
Proof.
  induction acc as [| [k t] rest IH]; cbn [Define.assign map fst].
  - rewrite bool_decide_eq_false_2; [reflexivity | apply not_elem_of_nil].
  - destruct (String.eqb_spec k key) as [-> | Hne].
    + rewrite bool_decide_eq_true_2; [reflexivity | apply list_elem_of_here].
    + cbn [map fst]. rewrite IH.
      destruct (decide (key ∈ map fst rest)) as [Hin | Hnin].
      * rewrite !bool_decide_eq_true_2; [reflexivity | | exact Hin].
        now apply list_elem_of_further.
      * rewrite !bool_decide_eq_false_2; [reflexivity | | exact Hnin].
        intros [-> | H]%elem_of_cons; [congruence | contradiction].
Qed.

Lemma assign_NoDup key tag acc :
  NoDup (map fst acc) -> NoDup (map fst (Define.assign key tag acc)).
Proof.
  intros Hnd. rewrite assign_keys.
  destruct (decide (key ∈ map fst acc)) as [Hin | Hnin].
  - now rewrite bool_decide_eq_true_2.
  - rewrite bool_decide_eq_false_2 by exact Hnin.
    apply NoDup_app. split; [exact Hnd |]. split.
    + intros k Hk [-> | H]%elem_of_cons; [contradiction | inversion H].
    + apply NoDup_singleton.
Qed.

Lemma assign_elem key tag acc k t :
  NoDup (map fst acc) ->
  (k, t) ∈ Define.assign key tag acc
  <-> (k = key /\ t = tag) \/ (k <> key /\ (k, t) ∈ acc).
Proof.
  induction acc as [| [k0 t0] rest IH]; cbn [Define.assign map fst];
    intros Hnd.
  - rewrite list_elem_of_singleton. split.
    + intros [= -> ->]. now left.
    + intros [[-> ->] | [_ H]]; [reflexivity | inversion H].
  - apply NoDup_cons in Hnd as [Hfresh Hnd].
    destruct (String.eqb_spec k0 key) as [-> | Hne].
    + rewrite !elem_of_cons. split.
      * intros [[= -> ->] | H]; [now left |].
        right. split; [| now right].
        intros ->. apply Hfresh.
        change key with (fst (key, t)). now apply list_elem_of_fmap_2.
      * intros [[-> ->] | [Hk [[= -> ->] | H]]];
          [now left | contradiction | now right].
    + rewrite !elem_of_cons, (IH Hnd). split.
      * intros [[= -> ->] | [[-> ->] | [Hk H]]];
          [right; split; [exact Hne | now left] | now left
          | right; split; [exact Hk | now right]].
      * intros [[-> ->] | [Hk [[= -> ->] | H]]];
          [right; now left | now left | right; right; auto].
Qed.

Lemma tagObject_snoc tags tag :
  Define.tagObject (Some (tags ++ [tag]))
  = Define.assign (Tag.tagName tag) tag (Define.tagObject (Some tags)).
Proof. unfold Define.tagObject. cbn. now rewrite fold_left_app. Qed.

Lemma tagObject_NoDup tags : NoDup (map fst (Define.tagObject tags)).
Proof.
  destruct tags as [tags |]; [| constructor].
  induction tags as [| tag tags IH] using rev_ind; [constructor |].
  rewrite tagObject_snoc. now apply assign_NoDup.
Qed.

(** The entries of the object: for each tag name, the last tag given
    under it. *)
Lemma tagObject_elem tags k t :
  (k, t) ∈ Define.tagObject (Some tags)
  <-> exists before later,
        tags = before ++ t :: later /\ Tag.tagName t = k
        /\ Forall (fun u => Tag.tagName u <> k) later.
Proof.
  revert k t. induction tags as [| tag tags IH] using rev_ind; intros k t.
  - split; [intros H; inversion H |].
    intros (before & later & Heq & _). now destruct before.
  - rewrite tagObject_snoc, assign_elem by apply tagObject_NoDup. split.
    + intros [[-> ->] | [Hne Hin]].
      * exists tags, []. auto.
      * apply IH in Hin as (before & later & -> & Hk & Hall).
        exists before, (later ++ [tag]). rewrite <- app_assoc. cbn.
        split; [reflexivity |]. split; [exact Hk |].
        apply Forall_app. split; [exact Hall |].
        constructor; [congruence | constructor].
    + intros (before & later & Heq & Hk & Hall).
      destruct later as [| u later _] using rev_ind.
      * apply app_inj_tail in Heq as [-> ->]. left. auto.
      * rewrite app_comm_cons, app_assoc in Heq.
        apply app_inj_tail in Heq as [-> ->].
        apply Forall_app in Hall as [Hall Hu].
        apply Forall_cons in Hu as [Hu _].
        right. split; [congruence |]. apply IH. eauto.
Qed.

End DefineRegistryItem.

Lemma keyedByTagName_keys item :
  keyedByTagName item ->
  tagKeys item = map Tag.tagName (map snd (tags item)).
Proof.
  unfold keyedByTagName, tagKeys.
  induction (tags item) as [| [k t] rest IH]; intros Hall; [reflexivity |].
  apply Forall_cons in Hall as [Hk Hall]. cbn in *. now rewrite Hk, IH.
Qed.


(** X1. When [addItem] returns, the item, its schema and each of its tags
    are found under their names, and every other name looks up as before
    the call. *)
Theorem addItem_registers (item : RegistryItem) (r r' : Registry) :
  objectKeys item ->
  addItem item r = (r', Ok tt) ->
  getItem r' (itemName item) = inl item
  /\ getSchema r' (itemName item) = Ok (schema item)
  /\ (forall k t, (k, t) ∈ tags item -> getTag r' k = inl t)
  /\ (forall n, n <> itemName item ->
        getItem r' n = getItem r n /\ getSchema r' n = getSchema r n)
  /\ (forall k, k ∉ tagKeys item -> getTag r' k = getTag r k).
Proof.
  intros Hobj Hrun. destruct (addItem_Ok _ _ _ Hrun) as (_ & _ & ->).
  unfold getItem, getSchema, getTag. cbn [Registry.items Registry.tags].
  split; [| split; [| split; [| split]]].
  - now rewrite lookup_insert_eq.
  - now rewrite lookup_insert_eq.
  - intros k t Hin. now rewrite (tagsAfter_in _ _ _ _ Hobj Hin).
  - intros n Hne. rewrite lookup_insert_ne by congruence. auto.
  - intros k Hk. now rewrite (tagsAfter_notin _ _ _ Hk).
Qed.

Lemma addItem_registers_witness :
  getTag (fst (addItem headingItem sampleRegistry)) "H2"
  = inl (Tag.mk "H2" "heading").
Proof.
  refine (proj1 (proj2 (proj2
    (addItem_registers headingItem sampleRegistry
       (fst (addItem headingItem sampleRegistry)) _ _)))
    "H2" (Tag.mk "H2" "heading") _).
  - apply (bool_decide_unpack _). vm_compute. exact I.
  - vm_compute. reflexivity.
  - vm_compute. apply list_elem_of_further, list_elem_of_here.
Defined.

(** X2. Removing an item that [addItem] has just added, by the item or by
    its schema, gives back the registry as it was before the two calls,
    for an item whose tags are stored under their tag names. *)
Theorem add_then_remove_restores (item : RegistryItem) (r r' : Registry) :
  keyedByTagName item ->
  addItem item r = (r', Ok tt) ->
  removeItem (ByItem item) r' = (r, Ok tt)
  /\ removeItem (BySchema (schema item)) r' = (r, Ok tt).
Proof.
  intros Hkeyed Hrun. destruct (addItem_Ok _ _ _ Hrun) as (Hname & Hfree & ->).
  assert (removeItem (ByItem item)
            (Registry.mk (<[itemName item := item]> (Registry.items r))
                         (tagsAfter (tags item) (Registry.tags r)))
          = (r, Ok tt)) as Hby.
  { unfold removeItem, ebind, eget, emodify. rewrite removeLoop_run.
    cbn [deleteItem Registry.items Registry.tags]. destruct r as [its tgs].
    cbn [Registry.items Registry.tags] in *. f_equal. f_equal.
    - apply map_eq. intros n. fold (itemName item).
      destruct (decide (itemName item = n)) as [<- | Hne].
      + now rewrite lookup_delete_eq.
      + now rewrite (lookup_delete_ne _ _ _ Hne),
                    (lookup_insert_ne _ _ _ _ Hne).
    - apply map_eq. intros k. rewrite tagsWithout_lookup.
      rewrite <- (keyedByTagName_keys _ Hkeyed). fold (tagKeys item).
      destruct (decide (k ∈ tagKeys item)) as [Hin | Hnin].
      + rewrite bool_decide_eq_true_2 by exact Hin. symmetry. now apply Hfree.
      + rewrite bool_decide_eq_false_2 by exact Hnin.
        now apply tagsAfter_notin. }
  split; [exact Hby |].
  unfold removeItem, ebind, eget in *. cbn [Registry.items] in *.
  fold (itemName item). rewrite lookup_insert_eq. exact Hby.
Qed.

Lemma add_then_remove_restores_witness :
  removeItem (ByItem headingItem) (fst (addItem headingItem sampleRegistry))
  = (sampleRegistry, Ok tt).
Proof.
  refine (proj1 (add_then_remove_restores headingItem sampleRegistry
                   (fst (addItem headingItem sampleRegistry)) _ _)).
  - apply (bool_decide_unpack _). vm_compute. exact I.
  - vm_compute. reflexivity.
Defined.

(** X3. After any sequence of addItem, addItems, setItems and removeItem
    calls on a new registry, returned or thrown, an item found under a
    name holds the schema of that name: [getSchema(n).name] is [n]. *)
Theorem lookup_returns_the_named (calls : list RegistryCall) :
  (forall n s, getSchema (after calls) n = Ok s -> name s = n)
  /\ (forall n item, getItem (after calls) n = inl item ->
        itemName item = n).
Proof.
  pose proof (after_itemsKeyed calls) as Hkeyed.
  unfold getSchema, getItem. split.
  - intros n s. destruct (Registry.items (after calls) !! n) as [item |] eqn:El;
      [| discriminate].
    intros [= <-]. exact (Hkeyed _ _ El).
  - intros n item.
    destruct (Registry.items (after calls) !! n) as [it |] eqn:El;
      [| discriminate].
    intros [= <-]. exact (Hkeyed _ _ El).
Qed.

(** X4. If every item passed to the registry stores its tags under their
    tag names, then after any sequence of calls a tag found under a name
    has that tag name. *)
Theorem getTag_returns_the_named (calls : list RegistryCall)
    (k : string) (t : Tag) :
  Forall keyedByTagName (concat (map itemsOf calls)) ->
  getTag (after calls) k = inl t ->
  Tag.tagName t = k.
Proof.
  intros Hall. pose proof (after_tagsKeyed calls Hall) as Hkeyed.
  unfold getTag.
  destruct (Registry.tags (after calls) !! k) as [tag |] eqn:El;
    [| discriminate].
  intros [= <-]. exact (Hkeyed _ _ El).
Qed.

Lemma getTag_returns_the_named_witness :
  Tag.tagName (Tag.mk "H1" "heading") = "H1".
Proof.
  apply (getTag_returns_the_named
           [CallSetItems [imageItem]; CallAddItem headingItem;
            CallRemoveItem (BySchema imageSchema)]).
  - apply (bool_decide_unpack _). vm_compute. exact I.
  - vm_compute. reflexivity.
Defined.

Lemma defaultItems_names : map itemName defaultItems = builtInNames.
Proof. reflexivity. Qed.

Lemma defaultItems_tags : allTagKeys defaultItems = [].
Proof. reflexivity. Qed.

Lemma allTagKeys_app xs ys :
  allTagKeys (xs ++ ys) = allTagKeys xs ++ allTagKeys ys.
Proof. unfold allTagKeys. now rewrite map_app, concat_app. Qed.

(** X5. [setItems] returns exactly when the schema names of the items are
    distinct from each other and from text, inliners and mix, and no tag
    key occurs twice; the registry then holds the three built-in schemas
    and the items and nothing of what it held before. *)
Theorem setItems_succeeds_iff (items : list RegistryItem) (r : Registry) :
  Forall objectKeys items ->
  ((exists r', setItems items r = (r', Ok tt))
   <-> NoDup (builtInNames ++ map itemName items)
       /\ NoDup (allTagKeys items))
  /\ (forall r', setItems items r = (r', Ok tt) ->
        (forall n, is_Some (Registry.items r' !! n)
           <-> n ∈ builtInNames ++ map itemName items)
        /\ (forall k, is_Some (Registry.tags r' !! k)
              <-> k ∈ allTagKeys items)
        /\ (forall item, item ∈ items ->
              getItem r' (itemName item) = inl item)).
Proof.
  intros Hobj. rewrite setItems_addItems.
  assert (Forall objectKeys (defaultItems ++ items)) as Hobj'.
  { apply Forall_app. split; [| exact Hobj].
    repeat constructor. }
  split; [split |].
  - intros [r' Hrun].
    destruct (addItems_Ok _ _ _ Hrun) as (Hnd & _ & _ & Hkd & _).
    rewrite map_app, defaultItems_names in Hnd. split; [exact Hnd |].
    specialize (Hkd Hobj'). now rewrite allTagKeys_app in Hkd.
  - intros [Hnd Hkd]. apply addItems_run.
    + now rewrite map_app, defaultItems_names.
    + intros n _. apply lookup_empty.
    + now rewrite allTagKeys_app.
    + intros k _. apply lookup_empty.
  - intros r' Hrun.
    destruct (addItems_Ok _ _ _ Hrun) as (_ & _ & _ & _ & Hin & Hout & Htags).
    rewrite map_app, defaultItems_names in Hout.
    split; [| split].
    + intros n. split.
      * intros Hsome.
        destruct (decide (n ∈ builtInNames ++ map itemName items))
          as [Hn | Hn]; [exact Hn |].
        rewrite (Hout _ Hn) in Hsome. cbn in Hsome.
        rewrite lookup_empty in Hsome. now destruct Hsome.
      * rewrite <- defaultItems_names, <- map_app.
        intros (item & -> & Hitem)%list_elem_of_fmap.
        rewrite (Hin _ Hitem). eauto.
    + intros k. rewrite Htags, allTagKeys_app. cbn.
      rewrite lookup_empty. split.
      * intros [H | H]; [exact H | now destruct H].
      * auto.
    + intros item Hitem. unfold getItem. rewrite Hin; [reflexivity |].
      apply elem_of_app. now right.
Qed.

Lemma setItems_succeeds_iff_witness :
  exists r', setItems [imageItem; headingItem] sampleRegistry = (r', Ok tt).
Proof.
  apply (proj1 (setItems_succeeds_iff [imageItem; headingItem]
                  sampleRegistry
                  ltac:(apply (bool_decide_unpack _); vm_compute; exact I))).
  split; apply (bool_decide_unpack _); vm_compute; exact I.
Defined.

(** X6. [new Registry()] returns with the three built-in schemas, and
    after [setItems], whether it returned or threw, text, inliners and mix
    are registered with their own schemas. *)
Theorem builtins_registered (items : list RegistryItem) (r : Registry) :
  snd newRegistry = Ok tt
  /\ Forall (fun schema =>
       getSchema (fst newRegistry) (name schema) = Ok schema
       /\ getSchema (fst (setItems items r)) (name schema) = Ok schema)
     [textSchema; inlinersSchema; mixSchema].
Proof.
  split; [reflexivity |].
  assert (forall schema,
            getSchema (fst newRegistry) (name schema) = Ok schema ->
            getSchema (fst (setItems items r)) (name schema) = Ok schema)
    as Hkeep.
  { intros schema. rewrite setItems_unfold. unfold newRegistry, getSchema.
    destruct (setDefaultItems (Registry.mk ∅ ∅)) as [r1 [[] | e |]];
      cbn [fst]; [| auto..].
    destruct (Registry.items r1 !! name schema) as [item |] eqn:El;
      [| discriminate].
    now rewrite (addItems_keeps items _ _ _ El). }
  repeat constructor; try (apply Hkeep); reflexivity.
Qed.


(** X8. [addItems] stops at the first item that [addItem] rejects: the
    items before it stay registered, and neither the rejected item nor
    any later one changes the registry. *)
Theorem addItems_stops_at_first_failure
    (before later : list RegistryItem) (item : RegistryItem)
    (r r1 r2 : Registry) (e : Error) :
  addItems before r = (r1, Ok tt) ->
  addItem item r1 = (r2, Throw e) ->
  addItems (before ++ item :: later) r = (r1, Throw e).
Proof.
  intros Hbefore Hitem. unfold addItems in *.
  rewrite forEach_app, Hbefore. cbn [forEach]. unfold ebind.
  rewrite Hitem. now rewrite (addItem_Throw _ _ _ _ Hitem).
Qed.

Lemma addItems_stops_at_first_failure_witness :
  addItems ([headingItem] ++ Define.defineRegistryItem
                               (mkSchema "title" block true)
                               (Some [Tag.mk "H1" "title"]) None
            :: [imageItem]) sampleRegistry
  = (fst (addItem headingItem sampleRegistry), Throw (TagAlreadyDefined "H1")).
Proof.
  apply (addItems_stops_at_first_failure [headingItem] [imageItem] _
           sampleRegistry _ (fst (addItem headingItem sampleRegistry))).
  - vm_compute. reflexivity.
  - vm_compute. reflexivity.
Defined.

(** X9. The [tags] object that [defineRegistryItem] builds from a tag
    list has one entry for each tag name of the list, stored under that
    name, and the entry is the last tag of the list with that name. *)
Theorem defineRegistryItem_tags (schema : Schema) (tagList : list Tag)
    (createStorage : option (ProseElement -> JsValue)) :
  objectKeys (Define.defineRegistryItem schema (Some tagList) createStorage)
  /\ keyedByTagName
       (Define.defineRegistryItem schema (Some tagList) createStorage)
  /\ forall k t,
       (k, t) ∈ tags (Define.defineRegistryItem schema (Some tagList)
                        createStorage)
       <-> exists before later,
             tagList = before ++ t :: later /\ Tag.tagName t = k
             /\ Forall (fun u => Tag.tagName u <> k) later.
Proof.
  split; [apply tagObject_NoDup |]. split; [| apply tagObject_elem].
  apply Forall_forall. intros [k t] Hin. cbn.
  apply tagObject_elem in Hin as (_ & _ & _ & Hk & _). now symmetry.
Qed.
(* ===================================================================== *)
(** * More facts about resolveRawElement *)
(* ===================================================================== *)

Section ResolveSteps.
Variable kebabCase : string -> string.
Context {H : Type}.
Variable registry : Registry.
Variable linkable : bool.
Variable pre : option (RawElement -> Eff H unit).
Variable post : option (ProseElement -> Eff H unit).
Variable uniqueIds : gset string.

Local Abbreviation resolveRecursive' :=
  (resolveRecursive kebabCase registry linkable pre post uniqueIds).
Local Abbreviation resolveChildren' :=
  (resolveChildren kebabCase registry linkable pre post uniqueIds).
Local Abbreviation resolveSelf' :=
  (resolveSelf kebabCase registry linkable post uniqueIds).

(** The element after [if (rawElement.uniqueName)], and the record after
    it. *)
Lemma resolveSelf_Ok rawElement resolvedChildren st st' el :
  resolveSelf' rawElement resolvedChildren st = (st', Ok el) ->
  exists schema oid ids1,
    getSchema registry (Raw.schemaName rawElement) = Ok schema
    /\ el = Prose.mk schema (name schema) (Raw.data rawElement)
                     (Raw.storageKey rawElement) resolvedChildren oid
                     (copiedUniqueName rawElement)
    /\ (if linkable && schemaLinkable schema then
          exists i, oid = Some i
            /\ createId kebabCase uniqueIds rawElement (ids st)
               = (ids1, Ok i)
        else oid = None /\ ids1 = ids st)
    /\ callPost post el
         (mkResolving ids1
            match truthyStr (Raw.uniqueName rawElement) with
            | Some uniqueName => setProperty uniqueName el (uniques st)
            | None => uniques st
            end
            (hooked st))
       = (st', Ok tt).
Proof.
  unfold resolveSelf. intros Hself.
  apply ebind_Ok in Hself as (st1 & schema & Hschema & Hself).
  unfold pure in Hschema. injection Hschema as <- Hschema.
  apply ebind_Ok in Hself as (st2 & el1 & Hid & Hself).
  apply ebind_Ok in Hself as (st3 & el2 & Hun & Hself).
  apply ebind_Ok in Hself as (st4 & [] & Hpost & Hself).
  unfold eret in Hself. injection Hself as <- <-.
  exists schema, (Prose.id el1), (ids st2).
  split; [exact Hschema |].
  assert (el1 = Prose.mk schema (name schema) (Raw.data rawElement)
                  (Raw.storageKey rawElement) resolvedChildren
                  (Prose.id el1) None
          /\ uniques st2 = uniques st /\ hooked st2 = hooked st
          /\ if linkable && schemaLinkable schema then
               exists i, Prose.id el1 = Some i
                 /\ createId kebabCase uniqueIds rawElement (ids st)
                    = (ids st2, Ok i)
             else Prose.id el1 = None /\ ids st2 = ids st)
    as (Hel1 & Hu2 & Hh2 & Hids).
  { destruct (linkable && schemaLinkable schema).
    - apply ebind_Ok in Hid as (sti & i & Hcreate & Hret).
      unfold eret in Hret. injection Hret as <- <-.
      unfold onIds in Hcreate.
      destruct (createId kebabCase uniqueIds rawElement (ids st))
        as [ids' o] eqn:Hc.
      injection Hcreate as <- ->. cbn. repeat split. eauto.
    - unfold eret in Hid. injection Hid as <- <-. cbn. auto. }
  assert (el2 = Prose.mk schema (name schema) (Raw.data rawElement)
                  (Raw.storageKey rawElement) resolvedChildren
                  (Prose.id el1) (copiedUniqueName rawElement)
          /\ st3 = mkResolving (ids st2)
                     match truthyStr (Raw.uniqueName rawElement) with
                     | Some uniqueName => setProperty uniqueName el2 (uniques st)
                     | None => uniques st
                     end
                     (hooked st))
    as (Hel2 & Hst3).
  { unfold copiedUniqueName.
    destruct (truthyStr (Raw.uniqueName rawElement)) as [uniqueName |].
    - apply ebind_Ok in Hun as (stu & [] & Hset & Hret).
      unfold setUnique, emodify in Hset. injection Hset as <-.
      unfold eret in Hret. injection Hret as <- <-.
      rewrite Hel1 at 1 2. cbn. rewrite Hu2, Hh2. auto.
    - unfold eret in Hun. injection Hun as <- <-.
      split; [exact Hel1 |]. destruct st2. cbn in *. now subst. }
  split; [exact Hel2 |]. split; [exact Hids |].
  rewrite <- Hst3. exact Hpost.
Qed.

Lemma resolveRecursive_Ok rawElement st st' el :
  resolveRecursive' rawElement st = (st', Ok el) ->
  exists st1 st2 resolvedChildren,
    callPre pre rawElement st = (st1, Ok tt)
    /\ match Raw.children rawElement with
       | None => st2 = st1 /\ resolvedChildren = None
       | Some cs =>
           exists rs, resolveChildren' cs st1 = (st2, Ok rs)
             /\ resolvedChildren = Some rs
       end
    /\ resolveSelf' rawElement resolvedChildren st2 = (st', Ok el).
Proof.
  rewrite resolveRecursive_unfold. intros Hres.
  apply ebind_Ok in Hres as (st1 & [] & Hpre & Hres).
  apply ebind_Ok in Hres as (st2 & resolvedChildren & Hchildren & Hself).
  exists st1, st2, resolvedChildren. split; [exact Hpre |].
  split; [| exact Hself].
  destruct (Raw.children rawElement) as [cs |].
  - apply ebind_Ok in Hchildren as (stc & rs & Hrs & Hret).
    unfold eret in Hret. injection Hret as <- <-. eauto.
  - unfold eret in Hchildren. now injection Hchildren as <- <-.
Qed.

Lemma resolveChildren_Ok c cs st st' els :
  resolveChildren' (c :: cs) st = (st', Ok els) ->
  exists st1 el rest,
    resolveRecursive' c st = (st1, Ok el)
    /\ resolveChildren' cs st1 = (st', Ok rest)
    /\ els = el :: rest.
Proof.
  cbn [resolveChildren]. intros Hloop.
  apply ebind_Ok in Hloop as (st1 & el & Hel & Hloop).
  apply ebind_Ok in Hloop as (st2 & rest & Hrest & Hret).
  unfold eret in Hret. injection Hret as <- <-. eauto 6.
Qed.

Lemma mirrors_unfold rawElement el :
  mirrors registry linkable rawElement el
  = (mirrorsSelf registry linkable rawElement el
     /\ match Raw.children rawElement, Prose.children el with
        | None, None => True
        | Some rs, Some es => mirrorsEach registry linkable rs es
        | _, _ => False
        end).
Proof.
  destruct rawElement as [sk sn h tn sl d st [cs |] un];
    destruct el as [sk' sn' d' st' [es |] i un']; reflexivity.
Qed.

Lemma resolveSelf_mirrorsSelf rawElement resolvedChildren st st' el :
  resolveSelf' rawElement resolvedChildren st = (st', Ok el) ->
  mirrorsSelf registry linkable rawElement el
  /\ Prose.children el = resolvedChildren.
Proof.
  intros Hself.
  apply resolveSelf_Ok in Hself
    as (schema & oid & ids1 & Hschema & -> & Hid & _).
  unfold mirrorsSelf. cbn. repeat split; auto.
  - intros Hsome. destruct (linkable && schemaLinkable schema);
      [reflexivity |]. destruct Hid as [-> _]. now destruct Hsome.
  - intros Hl. rewrite Hl in Hid. destruct Hid as (i & -> & _). eauto.
Qed.

Lemma resolveChildren_mirrors cs :
  Forall (fun c => forall st st' el,
            resolveRecursive' c st = (st', Ok el) ->
            mirrors registry linkable c el) cs ->
  forall st st' els,
    resolveChildren' cs st = (st', Ok els) ->
    mirrorsEach registry linkable cs els.
Proof.
  induction 1 as [| c cs Hc _ IH]; intros st st' els.
  - cbn. unfold eret. now intros [= <- <-].
  - intros Hloop.
    apply resolveChildren_Ok in Hloop as (st1 & el & rest & Hel & Hrest & ->).
    cbn [mirrorsEach]. split; [exact (Hc _ _ _ Hel) | exact (IH _ _ _ Hrest)].
Qed.

Lemma resolveRecursive_mirrors : forall rawElement st st' el,
  resolveRecursive' rawElement st = (st', Ok el) ->
  mirrors registry linkable rawElement el.
Proof.
  induction rawElement as [rawElement IH] using RawElement_children_ind.
  intros st st' el Hres.
  apply resolveRecursive_Ok in Hres as (st1 & st2 & rc & _ & Hch & Hself).
  apply resolveSelf_mirrorsSelf in Hself as [Hself Hrc].
  rewrite mirrors_unfold, Hrc. split; [exact Hself |].
  destruct (Raw.children rawElement) as [cs |].
  - destruct Hch as (rs & Hrs & ->).
    exact (resolveChildren_mirrors cs IH _ _ _ Hrs).
  - now destruct Hch as [_ ->].
Qed.

End ResolveSteps.

(** X10. The element that [resolveRawElement] returns has the shape of
    the raw element: node by node it carries the registered schema of the
    raw element's schema name, its data, its storage key and its truthy
    unique name, the resolved children in the same order, and an
    identifier exactly when [linkable] is set and the schema is
    linkable. *)
Theorem resolve_mirrors_raw (kebabCase : string -> string) {H : Type}
    (registry : Registry) (rawElement : RawElement) (linkable : bool)
    (pre : option (RawElement -> Eff H unit))
    (post : option (ProseElement -> Eff H unit))
    (externalIds : gset string) (h h' : H) (result : ResolvedRawElement) :
  resolveRawElement kebabCase registry rawElement linkable pre post
                    externalIds h = (h', Ok result) ->
  mirrors registry linkable rawElement (proseElement result).
Proof.
  intros Hres.
  apply resolveRawElement_Ok in Hres as (uniqueIds & st & st' & Hrec & _).
  exact (resolveRecursive_mirrors _ _ _ _ _ _ _ _ _ _ Hrec).
Qed.

Lemma resolve_mirrors_raw_witness :
  exists result,
    resolveRawElement kebabCaseSample sampleRegistry sampleArticle true
                      None None ∅ tt = (tt, Ok result)
    /\ mirrors sampleRegistry true sampleArticle (proseElement result).
Proof.
  eexists. split; [vm_compute; reflexivity |].
  apply (resolve_mirrors_raw kebabCaseSample sampleRegistry sampleArticle
           true None None ∅ tt tt).
  vm_compute. reflexivity.
Defined.

Section PrescanFacts.
Variable kebabCase : string -> string.
Variable externalIds : gset string.

Local Abbreviation scan := (scanNames kebabCase externalIds).

Lemma scanNames_app l1 : forall l2 uniqueIds,
  scan (l1 ++ l2) uniqueIds
  = match scan l1 uniqueIds with
    | (u1, Ok _) => scan l2 u1
    | (u1, Throw e) => (u1, Throw e)
    | (u1, OutOfFuel) => (u1, OutOfFuel)
    end.
Proof.
  induction l1 as [| u l1 IH]; intros l2 uniqueIds; [reflexivity |].
  cbn [scanNames app].
  destruct (decide (kebabCase u ∈ externalIds)); [reflexivity | apply IH].
Qed.

Lemma scanNames_signal names : forall uniqueIds u1 sig,
  scan names uniqueIds = (u1, Ok sig) -> sig = Void.
Proof.
  induction names as [| u names IH]; intros uniqueIds u1 sig; cbn.
  - now intros [= _ <-].
  - destruct (decide (kebabCase u ∈ externalIds)); [discriminate | apply IH].
Qed.

Lemma uniqueNames_unfold rawElement :
  uniqueNames rawElement
  = ownUniqueName rawElement
    ++ match Raw.children rawElement with
       | None => []
       | Some cs => forestUniqueNames cs
       end.
Proof.
  destruct rawElement as [sk sn h tn sl d st [cs |] un]; reflexivity.
Qed.

Lemma prescan_own rawElement uniqueIds :
  prescan kebabCase externalIds (rawTree rawElement) uniqueIds
  = scan (ownUniqueName rawElement) uniqueIds.
Proof.
  unfold prescan, ownUniqueName, uniqueName2Id.
  replace (self (rawTree rawElement)) with rawElement
    by (now destruct rawElement).
  destruct (truthyStr (Raw.uniqueName rawElement)) as [u |]; [| reflexivity].
  cbn. destruct (decide (kebabCase u ∈ externalIds)); reflexivity.
Qed.

Lemma prescan_children cs :
  Forall (fun c => forall uniqueIds,
            walkElements (prescan kebabCase externalIds) (rawTree c) uniqueIds
            = scan (uniqueNames c) uniqueIds) cs ->
  forall uniqueIds,
    walkChildren (prescan kebabCase externalIds)
                 (map (fun c => Some (rawTree c)) cs) uniqueIds
    = scan (forestUniqueNames cs) uniqueIds.
Proof.
  induction 1 as [| c cs Hc _ IH]; intros uniqueIds; [reflexivity |].
  cbn [map walkChildren forestUniqueNames]. unfold ebind.
  rewrite Hc, scanNames_app.
  destruct (scan (uniqueNames c) uniqueIds) as [u1 [sig | e |]] eqn:Hscan;
    [| reflexivity..].
  apply scanNames_signal in Hscan as ->. apply IH.
Qed.

(** The pre-scan of a tree is the scan of its unique names. *)
Lemma prescan_walk : forall rawElement uniqueIds,
  walkElements (prescan kebabCase externalIds) (rawTree rawElement) uniqueIds
  = scan (uniqueNames rawElement) uniqueIds.
Proof.
  induction rawElement as [rawElement IH] using RawElement_children_ind.
  intros uniqueIds.
  rewrite walkElements_unfold, uniqueNames_unfold, scanNames_app.
  unfold ebind. rewrite prescan_own.
  destruct (scan (ownUniqueName rawElement) uniqueIds)
    as [u1 [sig | e |]] eqn:Hscan; [| reflexivity..].
  apply scanNames_signal in Hscan as ->.
  destruct rawElement as [sk sn h tn sl d st [cs |] un];
    cbn [rawTree treeChildren Raw.children] in *.
  - apply prescan_children, IH.
  - reflexivity.
Qed.

Lemma scanNames_Ok names : forall uniqueIds u1 sig,
  scan names uniqueIds = (u1, Ok sig) ->
  Forall (fun u => kebabCase u ∉ externalIds) names
  /\ u1 = list_to_set (map kebabCase names) ∪ uniqueIds.
Proof.
  induction names as [| u names IH]; intros uniqueIds u1 sig; cbn.
  - intros [= <- _]. split; [constructor | set_solver].
  - destruct (decide (kebabCase u ∈ externalIds)) as [| Hout];
      [discriminate |].
    intros Hrest. destruct (IH _ _ _ Hrest) as [Hall ->].
    split; [now constructor | set_solver].
Qed.

Lemma scanNames_run names : forall uniqueIds,
  Forall (fun u => kebabCase u ∉ externalIds) names ->
  scan names uniqueIds
  = (list_to_set (map kebabCase names) ∪ uniqueIds, Ok Void).
Proof.
  induction names as [| u names IH]; intros uniqueIds Hall; cbn.
  - f_equal. set_solver.
  - apply Forall_cons in Hall as [Hu Hall].
    destruct (decide (kebabCase u ∈ externalIds)); [contradiction |].
    rewrite (IH _ Hall). f_equal. set_solver.
Qed.

(** The scan throws for the first name whose identifier is taken. *)
Lemma scanNames_Throw before u later : forall uniqueIds,
  Forall (fun v => kebabCase v ∉ externalIds) before ->
  kebabCase u ∈ externalIds ->
  snd (scan (before ++ u :: later) uniqueIds)
  = Throw (DuplicateUniqueId u (kebabCase u)).
Proof.
  intros uniqueIds Hbefore Hu.
  rewrite scanNames_app, (scanNames_run _ _ Hbefore). cbn.
  destruct (decide (kebabCase u ∈ externalIds)); [reflexivity | contradiction].
Qed.

End PrescanFacts.

(** The first element of a list that has a decidable property splits the
    list. *)
Lemma first_with {A} (P : A -> Prop) `{forall x, Decision (P x)}
    (l : list A) (x : A) :
  x ∈ l -> P x ->
  exists before y later,
    l = before ++ y :: later /\ P y /\ Forall (fun z => ~ P z) before.
Proof.
  induction l as [| a l IH]; intros Hin Hx; [inversion Hin |].
  destruct (decide (P a)) as [Ha | Ha].
  - exists [], a, l. auto.
  - apply elem_of_cons in Hin as [-> | Hin]; [contradiction |].
    destruct (IH Hin Hx) as (before & y & later & -> & Hy & Hall).
    exists (a :: before), y, later. auto.
Qed.

(** X11. With [linkable], a unique name anywhere in the tree whose
    identifier is among the external [ids] makes [resolveRawElement] throw
    the duplicate error for the first such name in walk order, before any
    hook is called: the hooks' state is as it was. *)
Theorem taken_unique_id_rejected_first (kebabCase : string -> string)
    {H : Type} (registry : Registry) (rawElement : RawElement)
    (pre : option (RawElement -> Eff H unit))
    (post : option (ProseElement -> Eff H unit))
    (externalIds : gset string) (h : H) (uniqueName : string) :
  uniqueName ∈ uniqueNames rawElement ->
  kebabCase uniqueName ∈ externalIds ->
  exists before first later,
    uniqueNames rawElement = before ++ first :: later
    /\ Forall (fun v => kebabCase v ∉ externalIds) before
    /\ kebabCase first ∈ externalIds
    /\ resolveRawElement kebabCase registry rawElement true pre post
                         externalIds h
       = (h, Throw (DuplicateUniqueId first (kebabCase first))).
Proof.
  intros Hin Htaken.
  destruct (first_with (fun v => kebabCase v ∈ externalIds) _ _ Hin Htaken)
    as (before & first & later & Heq & Hfirst & Hbefore).
  exists before, first, later. repeat split; try assumption.
  unfold resolveRawElement. rewrite prescan_walk, Heq.
  pose proof (scanNames_Throw kebabCase externalIds before first later ∅
                Hbefore Hfirst) as Hthrow.
  destruct (scanNames _ _ _ _) as [u1 o]. cbn in Hthrow. now subst o.
Qed.

Lemma taken_unique_id_rejected_first_witness :
  exists before first later,
    uniqueNames sampleArticle = before ++ first :: later
    /\ Forall (fun v => kebabCaseSample v ∉ ({["my-anchor"]} : gset string))
              before
    /\ kebabCaseSample first ∈ ({["my-anchor"]} : gset string)
    /\ resolveRawElement kebabCaseSample sampleRegistry sampleArticle true
                         (Some recordPre) (Some recordPost) {["my-anchor"]} []
       = ([], Throw (DuplicateUniqueId first (kebabCaseSample first))).
Proof.
  apply (taken_unique_id_rejected_first kebabCaseSample sampleRegistry
           sampleArticle (Some recordPre) (Some recordPost)
           {["my-anchor"]} [] "myAnchor").
  - vm_compute. apply list_elem_of_here.
  - apply elem_of_singleton. vm_compute. reflexivity.
Defined.

Lemma proseNodes_unfold el :
  proseNodes el
  = match Prose.children el with
    | None => []
    | Some cs => forestNodes cs
    end ++ [el].
Proof. destruct el as [sk sn d st [cs |] i un]; reflexivity. Qed.

Lemma hookTrace_unfold rawElement el :
  hookTrace rawElement el
  = PreCalled rawElement
    :: match Raw.children rawElement, Prose.children el with
       | Some rs, Some es => forestTrace rs es
       | _, _ => []
       end
    ++ [PostCalled el].
Proof.
  destruct rawElement as [sk sn h tn sl d st [cs |] un];
    destruct el as [sk' sn' d' st' [es |] i un']; reflexivity.
Qed.

Lemma schemaNames_unfold rawElement :
  schemaNames rawElement
  = Raw.schemaName rawElement
    :: match Raw.children rawElement with
       | None => []
       | Some cs => forestSchemaNames cs
       end.
Proof.
  destruct rawElement as [sk sn h tn sl d st [cs |] un]; reflexivity.
Qed.

Lemma copiedUniqueName_None rawElement :
  copiedUniqueName rawElement = None ->
  truthyStr (Raw.uniqueName rawElement) = None.
Proof.
  unfold copiedUniqueName, truthyStr.
  destruct (Raw.uniqueName rawElement) as [s |]; [| reflexivity].
  destruct (String.eqb s ""); [reflexivity | discriminate].
Qed.

Lemma copiedUniqueName_Some rawElement u :
  truthyStr (Raw.uniqueName rawElement) = Some u ->
  copiedUniqueName rawElement = Some u.
Proof.
  unfold copiedUniqueName, truthyStr.
  destruct (Raw.uniqueName rawElement) as [s |]; [| discriminate].
  destruct (String.eqb s ""); [discriminate |]. now intros [= <-].
Qed.

Section ResolveTree.
Variable kebabCase : string -> string.
Context {H : Type}.
Variable registry : Registry.
Variable linkable : bool.
Variable pre : option (RawElement -> Eff H unit).
Variable post : option (ProseElement -> Eff H unit).
Variable uniqueIds : gset string.

Local Abbreviation resolveRecursive' :=
  (resolveRecursive kebabCase registry linkable pre post uniqueIds).
Local Abbreviation resolveChildren' :=
  (resolveChildren kebabCase registry linkable pre post uniqueIds).
Local Abbreviation resolveSelf' :=
  (resolveSelf kebabCase registry linkable post uniqueIds).

Lemma callPre_frame rawElement st st' o :
  callPre pre rawElement st = (st', o) ->
  ids st' = ids st /\ uniques st' = uniques st.
Proof.
  unfold callPre, onHooks, eret. destruct pre as [f |];
    [destruct (f rawElement (hooked st)) |]; intros [= <- _]; auto.
Qed.

Lemma callPost_frame el st st' o :
  callPost post el st = (st', o) ->
  ids st' = ids st /\ uniques st' = uniques st.
Proof.
  unfold callPost, onHooks, eret. destruct post as [f |];
    [destruct (f el (hooked st)) |]; intros [= <- _]; auto.
Qed.

Local Abbreviation generatedApart := (generatedApart uniqueIds).

Lemma resolveSelf_generated rawElement resolvedChildren st st' el :
  resolveSelf' rawElement resolvedChildren st = (st', Ok el) ->
  generatedApart el.
Proof.
  intros Hself.
  apply resolveSelf_Ok in Hself
    as (schema & oid & ids1 & _ & -> & Hid & _).
  intros Hname i Hi. cbn in Hname, Hi. subst oid.
  apply copiedUniqueName_None in Hname.
  destruct (linkable && schemaLinkable schema);
    [| now destruct Hid as [? _]].
  destruct Hid as (j & [= <-] & Hcreate).
  unfold createId in Hcreate. rewrite Hname in Hcreate.
  destruct (dedupe _ _ _ _ _ _) as [r | e |] eqn:Hd; try discriminate.
  injection Hcreate as _ <-. now apply dedupe_free in Hd as [_ Hu].
Qed.

Lemma resolveChildren_generated cs :
  Forall (fun c => forall st st' el,
            resolveRecursive' c st = (st', Ok el) ->
            Forall generatedApart (proseNodes el)) cs ->
  forall st st' els,
    resolveChildren' cs st = (st', Ok els) ->
    Forall generatedApart (forestNodes els).
Proof.
  induction 1 as [| c cs Hc _ IH]; intros st st' els.
  - cbn. unfold eret. intros [= <- <-]. constructor.
  - intros Hloop.
    apply resolveChildren_Ok in Hloop as (st1 & el & rest & Hel & Hrest & ->).
    cbn [forestNodes]. apply Forall_app.
    split; [exact (Hc _ _ _ Hel) | exact (IH _ _ _ Hrest)].
Qed.

Lemma resolveRecursive_generated : forall rawElement st st' el,
  resolveRecursive' rawElement st = (st', Ok el) ->
  Forall generatedApart (proseNodes el).
Proof.
  induction rawElement as [rawElement IH] using RawElement_children_ind.
  intros st st' el Hres.
  apply resolveRecursive_Ok in Hres as (st1 & st2 & rc & _ & Hch & Hself).
  pose proof (resolveSelf_generated _ _ _ _ _ Hself) as Hgen.
  apply resolveSelf_mirrorsSelf in Hself as [_ Hrc].
  rewrite proseNodes_unfold, Hrc. apply Forall_app.
  split; [| now repeat constructor].
  destruct (Raw.children rawElement) as [cs |].
  - destruct Hch as (rs & Hrs & ->).
    exact (resolveChildren_generated cs IH _ _ _ Hrs).
  - destruct Hch as [_ ->]. constructor.
Qed.

Lemma recordsUniques_refl m nodes : recordsUniques m m [] nodes.
Proof.
  split.
  - intros u. split; [auto |].
    intros [[Hu _] | Hu]; [inversion Hu | exact Hu].
  - intros u el Hl. right. split; [left; apply not_elem_of_nil | exact Hl].
Qed.

Lemma recordsUniques_app m1 m2 m3 names1 names2 nodes1 nodes2 :
  recordsUniques m1 m2 names1 nodes1 ->
  recordsUniques m2 m3 names2 nodes2 ->
  recordsUniques m1 m3 (names1 ++ names2) (nodes1 ++ nodes2).
Proof.
  intros [Hdom1 Hval1] [Hdom2 Hval2]. split.
  - intros u. rewrite Hdom2, Hdom1, elem_of_app. tauto.
  - intros u el Hl. destruct (Hval2 _ _ Hl) as [[Hin Hname] | [Hout Hl2]].
    + left. split; [apply elem_of_app; now right | exact Hname].
    + destruct (Hval1 _ _ Hl2) as [[Hin Hname] | [Hout1 Hl1]].
      * left. split; [apply elem_of_app; now left | exact Hname].
      * right. split; [| exact Hl1].
        destruct Hout as [Hout | ->]; [| now right].
        destruct Hout1 as [Hout1 | ->]; [| now right].
        left. intros [Hu | Hu]%elem_of_app; contradiction.
Qed.

Lemma resolveSelf_uniques rawElement resolvedChildren st st' el :
  resolveSelf' rawElement resolvedChildren st = (st', Ok el) ->
  recordsUniques (uniques st) (uniques st') (ownUniqueName rawElement) [el].
Proof.
  intros Hself.
  apply resolveSelf_Ok in Hself
    as (schema & oid & ids1 & _ & Hel & _ & Hpost).
  apply callPost_frame in Hpost as [_ ->]. cbn [uniques].
  unfold ownUniqueName.
  destruct (truthyStr (Raw.uniqueName rawElement)) as [u |] eqn:Hu;
    [| apply recordsUniques_refl].
  assert (Prose.uniqueName el = Some u) as Hname.
  { rewrite Hel. cbn. now apply copiedUniqueName_Some. }
  unfold setProperty.
  destruct (String.eqb_spec u "__proto__") as [-> | Hproto].
  - split.
    + intros v. rewrite list_elem_of_singleton. split; [auto |].
      intros [[-> Hv] | Hs]; [contradiction | exact Hs].
    + intros v n Hl. right. split; [| exact Hl].
      destruct (decide (v = "__proto__")) as [-> | Hne]; [now right |].
      left. now intros ->%list_elem_of_singleton.
  - split.
    + intros v. rewrite list_elem_of_singleton.
      destruct (decide (u = v)) as [<- | Hne].
      * rewrite lookup_insert_eq. split; eauto.
      * rewrite (lookup_insert_ne _ _ _ _ Hne). split; [auto |].
        intros [[-> _] | Hs]; [contradiction | exact Hs].
    + intros v n. destruct (decide (u = v)) as [<- | Hne].
      * rewrite lookup_insert_eq. intros [= <-]. left.
        split; [apply list_elem_of_here | exact Hname].
      * rewrite (lookup_insert_ne _ _ _ _ Hne). intros Hl. right.
        split; [| exact Hl]. left.
        intros ->%list_elem_of_singleton. contradiction.
Qed.

Lemma resolveChildren_uniques cs :
  Forall (fun c => forall st st' el,
            resolveRecursive' c st = (st', Ok el) ->
            recordsUniques (uniques st) (uniques st') (uniqueNames c)
                           (proseNodes el)) cs ->
  forall st st' els,
    resolveChildren' cs st = (st', Ok els) ->
    recordsUniques (uniques st) (uniques st') (forestUniqueNames cs)
                   (forestNodes els).
Proof.
  induction 1 as [| c cs Hc _ IH]; intros st st' els.
  - cbn. unfold eret. intros [= <- <-]. apply recordsUniques_refl.
  - intros Hloop.
    apply resolveChildren_Ok in Hloop as (st1 & el & rest & Hel & Hrest & ->).
    cbn [forestNodes forestUniqueNames].
    eapply recordsUniques_app; [exact (Hc _ _ _ Hel) | exact (IH _ _ _ Hrest)].
Qed.

Lemma recordsUniques_names m1 m2 names names' nodes :
  (forall u, u ∈ names <-> u ∈ names') ->
  recordsUniques m1 m2 names nodes -> recordsUniques m1 m2 names' nodes.
Proof.
  intros Hsame [Hdom Hval]. split.
  - intros u. now rewrite Hdom, Hsame.
  - intros u el Hl. destruct (Hval _ _ Hl) as [Hnew | [Hout Hold]];
      [now left |].
    right. split; [| exact Hold].
    destruct Hout as [Hout | ->]; [left; now rewrite <- Hsame | now right].
Qed.

Lemma resolveRecursive_uniques : forall rawElement st st' el,
  resolveRecursive' rawElement st = (st', Ok el) ->
  recordsUniques (uniques st) (uniques st') (uniqueNames rawElement)
                 (proseNodes el).
Proof.
  induction rawElement as [rawElement IH] using RawElement_children_ind.
  intros st st' el Hres.
  apply resolveRecursive_Ok in Hres as (st1 & st2 & rc & Hpre & Hch & Hself).
  apply callPre_frame in Hpre as [_ Hpre].
  pose proof (resolveSelf_uniques _ _ _ _ _ Hself) as Hown.
  apply resolveSelf_mirrorsSelf in Hself as [_ Hrc].
  rewrite proseNodes_unfold, Hrc, uniqueNames_unfold, <- Hpre.
  apply (recordsUniques_names _ _
           (match Raw.children rawElement with
            | None => []
            | Some cs => forestUniqueNames cs
            end ++ ownUniqueName rawElement)).
  { intros u. rewrite !elem_of_app. tauto. }
  eapply recordsUniques_app; [| exact Hown].
  destruct (Raw.children rawElement) as [cs |].
  - destruct Hch as (rs & Hrs & ->).
    exact (resolveChildren_uniques cs IH _ _ _ Hrs).
  - destruct Hch as [-> ->]. apply recordsUniques_refl.
Qed.

End ResolveTree.

Section HookOrder.
Variable kebabCase : string -> string.
Variable registry : Registry.
Variable linkable : bool.
Variable uniqueIds : gset string.

Local Abbreviation resolveRecursive' :=
  (resolveRecursive kebabCase registry linkable (Some recordPre)
                    (Some recordPost) uniqueIds).
Local Abbreviation resolveChildren' :=
  (resolveChildren kebabCase registry linkable (Some recordPre)
                   (Some recordPost) uniqueIds).

Lemma resolveChildren_trace cs :
  Forall (fun c => forall st st' el,
            resolveRecursive' c st = (st', Ok el) ->
            hooked st' = hooked st ++ hookTrace c el) cs ->
  forall st st' els,
    resolveChildren' cs st = (st', Ok els) ->
    hooked st' = hooked st ++ forestTrace cs els.
Proof.
  induction 1 as [| c cs Hc _ IH]; intros st st' els.
  - cbn. unfold eret. intros [= <- <-]. now rewrite app_nil_r.
  - intros Hloop.
    apply resolveChildren_Ok in Hloop as (st1 & el & rest & Hel & Hrest & ->).
    cbn [forestTrace].
    now rewrite (IH _ _ _ Hrest), (Hc _ _ _ Hel), app_assoc.
Qed.

Lemma resolveRecursive_trace : forall rawElement st st' el,
  resolveRecursive' rawElement st = (st', Ok el) ->
  hooked st' = hooked st ++ hookTrace rawElement el.
Proof.
  induction rawElement as [rawElement IH] using RawElement_children_ind.
  intros st st' el Hres.
  apply resolveRecursive_Ok in Hres as (st1 & st2 & rc & Hpre & Hch & Hself).
  unfold callPre, onHooks, recordPre in Hpre. injection Hpre as <-.
  pose proof Hself as Hown.
  apply resolveSelf_mirrorsSelf in Hown as [_ Hrc].
  apply resolveSelf_Ok in Hself as (schema & oid & ids1 & _ & _ & _ & Hpost).
  unfold callPost, onHooks, recordPost in Hpost. cbn in Hpost.
  injection Hpost as <-. cbn [hooked].
  rewrite hookTrace_unfold, Hrc.
  destruct (Raw.children rawElement) as [cs |].
  - destruct Hch as (rs & Hrs & ->).
    rewrite (resolveChildren_trace cs IH _ _ _ Hrs). cbn [hooked].
    now rewrite <- !app_assoc.
  - destruct Hch as [-> ->]. cbn [hooked]. now rewrite <- !app_assoc.
Qed.

End HookOrder.

(** What [resolveRawElement] runs when it returns: the recursion from
    the external identifiers and an empty record, with the identifiers of
    all unique names of the tree set apart when [linkable] is set. *)
Lemma resolveRawElement_run (kebabCase : string -> string) {H : Type}
    (registry : Registry) (rawElement : RawElement) (linkable : bool)
    (pre : option (RawElement -> Eff H unit))
    (post : option (ProseElement -> Eff H unit))
    (externalIds : gset string) (h h' : H) (result : ResolvedRawElement) :
  resolveRawElement kebabCase registry rawElement linkable pre post
                    externalIds h = (h', Ok result) ->
  exists st',
    resolveRecursive kebabCase registry linkable pre post
      (if linkable then list_to_set (map kebabCase (uniqueNames rawElement))
       else ∅)
      rawElement (mkResolving externalIds ∅ h)
    = (st', Ok (proseElement result))
    /\ resultIds result = ids st'
    /\ resultUniques result = uniques st'
    /\ h' = hooked st'
    /\ (linkable = true ->
        Forall (fun u => kebabCase u ∉ externalIds)
               (uniqueNames rawElement)).
Proof.
  unfold resolveRawElement.
  destruct (if linkable then _ else _) as [uniqueIds [sig | e |]] eqn:Hscan;
    try discriminate.
  assert (uniqueIds
          = (if linkable
             then list_to_set (map kebabCase (uniqueNames rawElement))
             else ∅)
          /\ (linkable = true ->
              Forall (fun u => kebabCase u ∉ externalIds)
                     (uniqueNames rawElement))) as [-> Hfree].
  { destruct linkable.
    - rewrite prescan_walk in Hscan.
      apply scanNames_Ok in Hscan as [Hall ->].
      split; [set_solver | auto].
    - injection Hscan as <- _. split; [reflexivity | discriminate]. }
  destruct (resolveRecursive _ _ _ _ _ _ _ _) as [st [el | e |]] eqn:Hres;
    try discriminate.
  intros [= <- <-]. cbn [proseElement resultIds resultUniques].
  exists st. auto.
Qed.

(** X12. With [linkable], an identifier generated for an element without
    a unique name differs from the identifier of every unique name of the
    tree, also of those that come later in the tree. *)
Theorem generated_ids_avoid_unique_names (kebabCase : string -> string)
    {H : Type} (registry : Registry) (rawElement : RawElement)
    (pre : option (RawElement -> Eff H unit))
    (post : option (ProseElement -> Eff H unit))
    (externalIds : gset string) (h h' : H) (result : ResolvedRawElement) :
  resolveRawElement kebabCase registry rawElement true pre post
                    externalIds h = (h', Ok result) ->
  forall el i,
    el ∈ proseNodes (proseElement result) ->
    Prose.uniqueName el = None ->
    Prose.id el = Some i ->
    i ∉ map kebabCase (uniqueNames rawElement).
Proof.
  intros Hres el i Hel Hname Hid.
  apply resolveRawElement_run in Hres as (st' & Hrec & _).
  apply resolveRecursive_generated in Hrec.
  rewrite Forall_forall in Hrec.
  specialize (Hrec el Hel Hname i Hid).
  intros Hin. apply Hrec. now apply elem_of_list_to_set.
Qed.

Lemma generated_ids_avoid_unique_names_witness :
  exists result,
    resolveRawElement kebabCaseSample sampleRegistry sampleClash true
                      None None ∅ tt = (tt, Ok result)
    /\ treeIds (proseElement result) = ["intro-1"; "intro"]
    /\ forall el i,
         el ∈ proseNodes (proseElement result) ->
         Prose.uniqueName el = None ->
         Prose.id el = Some i ->
         i ∉ map kebabCaseSample (uniqueNames sampleClash).
Proof.
  eexists. split; [vm_compute; reflexivity |].
  split; [vm_compute; reflexivity |].
  apply (generated_ids_avoid_unique_names kebabCaseSample sampleRegistry
           sampleClash None None ∅ tt tt).
  vm_compute. reflexivity.
Defined.

(** X13. The [uniques] record of the result has an own entry exactly for
    the truthy unique names of the raw tree other than [__proto__], and the
    entry of a name is an element of the resolved tree that carries this
    name. ([uniques['__proto__'] = proseElement] replaces the prototype of
    the record and adds no entry.) *)
Theorem uniques_hold_resolved_elements (kebabCase : string -> string)
    {H : Type} (registry : Registry) (rawElement : RawElement)
    (linkable : bool)
    (pre : option (RawElement -> Eff H unit))
    (post : option (ProseElement -> Eff H unit))
    (externalIds : gset string) (h h' : H) (result : ResolvedRawElement) :
  resolveRawElement kebabCase registry rawElement linkable pre post
                    externalIds h = (h', Ok result) ->
  (forall u, is_Some (resultUniques result !! u)
     <-> u ∈ uniqueNames rawElement /\ u <> "__proto__")
  /\ (forall u el, resultUniques result !! u = Some el ->
        el ∈ proseNodes (proseElement result)
        /\ Prose.uniqueName el = Some u).
Proof.
  intros Hres.
  apply resolveRawElement_run in Hres as (st' & Hrec & _ & -> & _).
  apply resolveRecursive_uniques in Hrec as [Hdom Hval]. cbn in *. split.
  - intros u. rewrite Hdom, lookup_empty. split; [| auto].
    intros [Hu | Hu]; [exact Hu | now destruct Hu].
  - intros u el Hl. destruct (Hval _ _ Hl) as [Hnew | [_ Hold]];
      [exact Hnew |]. now rewrite lookup_empty in Hold.
Qed.

Lemma uniques_hold_resolved_elements_witness :
  exists result,
    resolveRawElement kebabCaseSample sampleRegistry sampleProtoArticle true
                      None None ∅ tt = (tt, Ok result)
    /\ (forall u, is_Some (resultUniques result !! u)
          <-> u ∈ uniqueNames sampleProtoArticle /\ u <> "__proto__")
    /\ (forall u el, resultUniques result !! u = Some el ->
          el ∈ proseNodes (proseElement result)
          /\ Prose.uniqueName el = Some u).
Proof.
  eexists. split; [vm_compute; reflexivity |].
  apply (uniques_hold_resolved_elements kebabCaseSample sampleRegistry
           sampleProtoArticle true None None ∅ tt tt).
  vm_compute. reflexivity.
Defined.

(** X14. The hooks are called in the order of the recursion: [pre] on a
    raw element before anything of its subtree, [post] on the resolved
    element, complete with children and identifier, after everything of
    its subtree, the children from left to right. *)
Theorem hooks_called_in_order (kebabCase : string -> string)
    (registry : Registry) (rawElement : RawElement) (linkable : bool)
    (externalIds : gset string) (log log' : list HookCall)
    (result : ResolvedRawElement) :
  resolveRawElement kebabCase registry rawElement linkable
                    (Some recordPre) (Some recordPost) externalIds log
  = (log', Ok result) ->
  log' = log ++ hookTrace rawElement (proseElement result).
Proof.
  intros Hres.
  apply resolveRawElement_run in Hres as (st' & Hrec & _ & _ & -> & _).
  now apply resolveRecursive_trace in Hrec.
Qed.

Lemma hooks_called_in_order_witness :
  exists result log',
    resolveRawElement kebabCaseSample sampleRegistry sampleClash true
                      (Some recordPre) (Some recordPost) ∅ []
    = (log', Ok result)
    /\ log' = [] ++ hookTrace sampleClash (proseElement result).
Proof.
  eexists. eexists. split; [vm_compute; reflexivity |].
  apply (hooks_called_in_order kebabCaseSample sampleRegistry sampleClash
           true ∅).
  vm_compute. reflexivity.
Defined.
(* ===================================================================== *)
(** * When resolveRawElement returns *)
(* ===================================================================== *)

Lemma ebind_run {S A B} (m : Eff S A) (k : A -> Eff S B) s s1 a :
  m s = (s1, Ok a) -> ebind m k s = k a s1.
Proof. unfold ebind. now intros ->. Qed.

Lemma ebind_ends {S A B} (m : Eff S A) (k : A -> Eff S B) s :
  snd (m s) <> OutOfFuel ->
  (forall s1 a, m s = (s1, Ok a) -> snd (k a s1) <> OutOfFuel) ->
  snd (ebind m k s) <> OutOfFuel.
Proof.
  unfold ebind. destruct (m s) as [s1 [a | e |]]; cbn; intros Hm Hk.
  - now apply Hk.
  - discriminate.
  - contradiction.
Qed.

Section ResolveReturns.
Variable kebabCase : string -> string.
Context {H : Type}.
Variable registry : Registry.
Variable linkable : bool.
Variable pre : option (RawElement -> Eff H unit).
Variable post : option (ProseElement -> Eff H unit).
Variable uniqueIds : gset string.
Hypothesis Hpre : returns pre.
Hypothesis Hpost : returns post.

Local Abbreviation resolveRecursive' :=
  (resolveRecursive kebabCase registry linkable pre post uniqueIds).
Local Abbreviation resolveChildren' :=
  (resolveChildren kebabCase registry linkable pre post uniqueIds).
Local Abbreviation resolveSelf' :=
  (resolveSelf kebabCase registry linkable post uniqueIds).
Local Abbreviation ownAnchorId := (ownAnchorId kebabCase registry).
Local Abbreviation anchorIds := (anchorIds kebabCase registry).
Local Abbreviation forestAnchorIds := (forestAnchorIds kebabCase registry).
Local Abbreviation grownBy := (grownBy uniqueIds).
Local Abbreviation accepts := (accepts linkable uniqueIds).

Lemma callPre_returns rawElement st :
  exists st1, callPre pre rawElement st = (st1, Ok tt) /\ ids st1 = ids st.
Proof.
  unfold callPre, onHooks, eret. destruct pre as [f |] eqn:Hf; [| eauto].
  pose proof (Hpre f eq_refl rawElement (hooked st)) as Hok.
  destruct (f rawElement (hooked st)) as [h1 o]. cbn in Hok. subst o. eauto.
Qed.

Lemma callPost_returns el st :
  exists st1, callPost post el st = (st1, Ok tt) /\ ids st1 = ids st.
Proof.
  unfold callPost, onHooks, eret. destruct post as [f |] eqn:Hf; [| eauto].
  pose proof (Hpost f eq_refl el (hooked st)) as Hok.
  destruct (f el (hooked st)) as [h1 o]. cbn in Hok. subst o. eauto.
Qed.

(** [createId] on an element without a unique name returns. *)
Lemma createId_generates rawElement idSet :
  truthyStr (Raw.uniqueName rawElement) = None ->
  exists i,
    createId kebabCase uniqueIds rawElement idSet = ({[i]} ∪ idSet, Ok i)
    /\ (i ∉ uniqueIds).
Proof.
  intros Hname. unfold createId. rewrite Hname.
  set (baseId := match truthyStr (Raw.slug rawElement) with
                 | Some slug => kebabCase slug
                 | None => _
                 end).
  destruct (first_free_candidate (idSet ∪ uniqueIds) baseId)
    as (k & Hk & Hfree & Hbelow).
  exists (candidate baseId k).
  rewrite (dedupe_first_free kebabCase idSet uniqueIds baseId k
             (Datatypes.S (size (idSet ∪ uniqueIds))) 0%nat);
    [| lia | lia | intros j Hj; apply Hbelow; lia | exact Hfree].
  split; [reflexivity | set_solver].
Qed.

Lemma createId_ends rawElement idSet :
  snd (createId kebabCase uniqueIds rawElement idSet) <> OutOfFuel.
Proof.
  destruct (truthyStr (Raw.uniqueName rawElement)) as [u |] eqn:Hname.
  - unfold createId. rewrite Hname.
    destruct (decide (uniqueName2Id kebabCase u ∈ idSet)); discriminate.
  - destruct (createId_generates rawElement idSet Hname) as (i & -> & _).
    discriminate.
Qed.

Lemma ownAnchorId_linkable rawElement u schema :
  truthyStr (Raw.uniqueName rawElement) = Some u ->
  getSchema registry (Raw.schemaName rawElement) = Ok schema ->
  schemaLinkable schema = true ->
  ownAnchorId rawElement = [kebabCase u].
Proof.
  intros Hname Hschema Hl. cbv delta [ownAnchorId] beta.
  now rewrite Hname, Hschema, Hl.
Qed.

Lemma grownBy_refl idSet anchors : grownBy idSet idSet anchors.
Proof. intros i Hi. now left. Qed.

Lemma grownBy_app ids1 ids2 ids3 anchors1 anchors2 :
  grownBy ids1 ids2 anchors1 -> grownBy ids2 ids3 anchors2 ->
  grownBy ids1 ids3 (anchors1 ++ anchors2).
Proof.
  intros H12 H23 i Hi.
  destruct (H23 i Hi) as [Hi2 | [Ha | Hu]].
  - destruct (H12 i Hi2) as [Hi1 | [Ha | Hu]]; [now left | | now right; right].
    right. left. apply elem_of_app. now left.
  - right. left. apply elem_of_app. now right.
  - now right; right.
Qed.

(** The second subtree is accepted after the first one. *)
Lemma accepts_app anchors1 anchors2 ids1 ids2 :
  accepts (anchors1 ++ anchors2) ids1 ->
  grownBy ids1 ids2 anchors1 ->
  accepts anchors1 ids1 /\ accepts anchors2 ids2.
Proof.
  intros Haccepts Hgrown. split; intros Hl;
    destruct (Haccepts Hl) as [Hnd Hfree];
    apply NoDup_app in Hnd as (Hnd1 & Hdisj & Hnd2).
  - split; [exact Hnd1 |]. intros a Ha. apply Hfree, elem_of_app. now left.
  - split; [exact Hnd2 |]. intros a Ha.
    destruct (Hfree a) as [Hout Hu]; [apply elem_of_app; now right |].
    split; [| exact Hu]. intros Hin.
    destruct (Hgrown a Hin) as [H1 | [H1 | H1]];
      [contradiction | exact (Hdisj _ H1 Ha) | contradiction].
Qed.

Lemma resolveSelf_returns rawElement resolvedChildren st :
  registered registry (Raw.schemaName rawElement) ->
  accepts (ownAnchorId rawElement) (ids st) ->
  exists st' el,
    resolveSelf' rawElement resolvedChildren st = (st', Ok el)
    /\ grownBy (ids st) (ids st') (ownAnchorId rawElement).
Proof.
  intros [item Hitem] Haccepts.
  assert (getSchema registry (Raw.schemaName rawElement)
          = Ok (schema item)) as Hschema.
  { unfold getSchema. now rewrite Hitem. }
  unfold resolveSelf.
  rewrite (ebind_run _ _ st st (schema item))
    by (unfold pure; now rewrite Hschema).
  set (el0 := Prose.mk _ _ _ _ _ _ _).
  assert (exists st1 el1,
            (if linkable && schemaLinkable (schema item)
             then ebind (onIds (createId kebabCase uniqueIds rawElement))
                        (fun id => eret (Prose.setId (Some id) el0))
             else eret el0) st = (st1, Ok el1)
            /\ grownBy (ids st) (ids st1) (ownAnchorId rawElement))
    as (st1 & el1 & Hid & Hgrown).
  { destruct (linkable && schemaLinkable (schema item)) eqn:Hl.
    - apply andb_true_iff in Hl as [Hl Hs].
      unfold ebind, onIds, eret.
      destruct (truthyStr (Raw.uniqueName rawElement)) as [u |] eqn:Hname.
      + pose proof (ownAnchorId_linkable _ _ _ Hname Hschema Hs) as Hown.
        destruct (Haccepts Hl) as [_ Hfree].
        destruct (Hfree (kebabCase u)) as [Hout _];
          [rewrite Hown; apply list_elem_of_here |].
        unfold createId. rewrite Hname. unfold uniqueName2Id.
        destruct (decide (kebabCase u ∈ ids st)); [contradiction |].
        eexists _, _. split; [reflexivity |]. cbn [ids].
        intros i [->%elem_of_singleton | Hi]%elem_of_union.
        * right. left. rewrite Hown. apply list_elem_of_here.
        * now left.
      + destruct (createId_generates rawElement (ids st) Hname)
          as (i & -> & Hi).
        eexists _, _. split; [reflexivity |]. cbn [ids].
        intros j [->%elem_of_singleton | Hj]%elem_of_union.
        * now right; right.
        * now left.
    - unfold eret. exists st, el0. split; [reflexivity |].
      apply grownBy_refl. }
  rewrite (ebind_run _ _ _ _ _ Hid).
  assert (exists st2 el2,
            match truthyStr (Raw.uniqueName rawElement) with
            | Some uniqueName =>
                ebind (setUnique uniqueName
                         (Prose.setUniqueName (Raw.uniqueName rawElement)
                                              el1))
                      (fun _ =>
                         eret (Prose.setUniqueName
                                 (Raw.uniqueName rawElement) el1))
            | None => eret el1
            end st1 = (st2, Ok el2)
            /\ ids st2 = ids st1) as (st2 & el2 & Hun & Hids2).
  { destruct (truthyStr (Raw.uniqueName rawElement)) as [u |].
    - unfold ebind, setUnique, emodify, eret. eexists _, _.
      split; reflexivity.
    - unfold eret. eexists _, _. split; reflexivity. }
  rewrite (ebind_run _ _ _ _ _ Hun).
  destruct (callPost_returns el2 st2) as (st3 & Hcall & Hids3).
  rewrite (ebind_run _ _ _ _ _ Hcall). unfold eret.
  exists st3, el2. split; [reflexivity |].
  now rewrite Hids3, Hids2.
Qed.

Lemma resolveChildren_returns cs :
  Forall (fun c => forall st,
            Forall (registered registry) (schemaNames c) ->
            accepts (anchorIds c) (ids st) ->
            exists st' el,
              resolveRecursive' c st = (st', Ok el)
              /\ grownBy (ids st) (ids st') (anchorIds c)) cs ->
  forall st,
    Forall (registered registry) (forestSchemaNames cs) ->
    accepts (forestAnchorIds cs) (ids st) ->
    exists st' els,
      resolveChildren' cs st = (st', Ok els)
      /\ grownBy (ids st) (ids st') (forestAnchorIds cs).
Proof.
  induction 1 as [| c cs Hc _ IH]; intros st Hreg Haccepts.
  - exists st, []. split; [reflexivity | apply grownBy_refl].
  - cbn [forestSchemaNames forestAnchorIds] in Hreg, Haccepts.
    apply Forall_app in Hreg as [Hreg1 Hreg2].
    destruct (Hc st Hreg1) as (st1 & el & Hel & Hgrown1).
    { intros Hl. destruct (Haccepts Hl) as [Hnd Hfree].
      apply NoDup_app in Hnd as (Hnd1 & _ & _).
      split; [exact Hnd1 |]. intros a Ha. apply Hfree, elem_of_app.
      now left. }
    destruct (accepts_app _ _ _ _ Haccepts Hgrown1) as [_ Haccepts2].
    destruct (IH st1 Hreg2 Haccepts2) as (st2 & rest & Hrest & Hgrown2).
    exists st2, (el :: rest). cbn [resolveChildren forestAnchorIds].
    rewrite (ebind_run _ _ _ _ _ Hel), (ebind_run _ _ _ _ _ Hrest).
    split; [reflexivity |]. exact (grownBy_app _ _ _ _ _ Hgrown1 Hgrown2).
Qed.

Lemma resolveRecursive_returns : forall rawElement st,
  Forall (registered registry) (schemaNames rawElement) ->
  accepts (anchorIds rawElement) (ids st) ->
  exists st' el,
    resolveRecursive' rawElement st = (st', Ok el)
    /\ grownBy (ids st) (ids st') (anchorIds rawElement).
Proof.
  induction rawElement as [rawElement IH] using RawElement_children_ind.
  intros st Hreg Haccepts.
  rewrite schemaNames_unfold in Hreg. apply Forall_cons in Hreg as [Hown Hreg].
  rewrite anchorIds_unfold in Haccepts |- *.
  rewrite resolveRecursive_unfold.
  destruct (callPre_returns rawElement st) as (st1 & Hcall & Hids1).
  rewrite (ebind_run _ _ _ _ _ Hcall). rewrite <- Hids1 in Haccepts |- *.
  assert (exists st2 resolvedChildren,
            match Raw.children rawElement with
            | None => eret None
            | Some children =>
                ebind (resolveChildren' children)
                      (fun rs => eret (Some rs))
            end st1 = (st2, Ok resolvedChildren)
            /\ grownBy (ids st1) (ids st2)
                 match Raw.children rawElement with
                 | None => []
                 | Some cs => forestAnchorIds cs
                 end) as (st2 & rc & Hch & Hgrown).
  { destruct (Raw.children rawElement) as [cs |].
    - destruct (resolveChildren_returns cs IH st1 Hreg)
        as (st2 & els & Hels & Hgrown).
      { intros Hl. destruct (Haccepts Hl) as [Hnd Hfree].
        apply NoDup_app in Hnd as (Hnd1 & _ & _).
        split; [exact Hnd1 |]. intros a Ha. apply Hfree, elem_of_app.
        now left. }
      exists st2, (Some els). rewrite (ebind_run _ _ _ _ _ Hels).
      split; [reflexivity | exact Hgrown].
    - exists st1, None. split; [reflexivity | apply grownBy_refl]. }
  rewrite (ebind_run _ _ _ _ _ Hch).
  destruct (accepts_app _ _ _ _ Haccepts Hgrown) as [_ Haccepts2].
  destruct (resolveSelf_returns rawElement rc st2 Hown Haccepts2)
    as (st3 & el & Hself & Hgrown2).
  exists st3, el. split; [exact Hself |].
  exact (grownBy_app _ _ _ _ _ Hgrown Hgrown2).
Qed.

(** The other way round: what has returned had its schemas registered. *)
Lemma resolveChildren_registered cs :
  Forall (fun c => forall st st' el,
            resolveRecursive' c st = (st', Ok el) ->
            Forall (registered registry) (schemaNames c)) cs ->
  forall st st' els,
    resolveChildren' cs st = (st', Ok els) ->
    Forall (registered registry) (forestSchemaNames cs).
Proof.
  induction 1 as [| c cs Hc _ IH]; intros st st' els; [constructor |].
  intros Hloop.
  apply resolveChildren_Ok in Hloop as (st1 & el & rest & Hel & Hrest & ->).
  cbn [forestSchemaNames]. apply Forall_app.
  split; [exact (Hc _ _ _ Hel) | exact (IH _ _ _ Hrest)].
Qed.

Lemma resolveRecursive_registered : forall rawElement st st' el,
  resolveRecursive' rawElement st = (st', Ok el) ->
  Forall (registered registry) (schemaNames rawElement).
Proof.
  induction rawElement as [rawElement IH] using RawElement_children_ind.
  intros st st' el Hres.
  apply resolveRecursive_Ok in Hres as (st1 & st2 & rc & _ & Hch & Hself).
  apply resolveSelf_Ok in Hself as (schema & _ & _ & Hschema & _).
  rewrite schemaNames_unfold. constructor.
  - unfold registered, getSchema in *.
    destruct (Registry.items registry !! Raw.schemaName rawElement);
      [eauto | discriminate].
  - destruct (Raw.children rawElement) as [cs |]; [| constructor].
    destruct Hch as (rs & Hrs & _).
    exact (resolveChildren_registered cs IH _ _ _ Hrs).
Qed.

(** The recursion always ends. *)
Lemma resolveSelf_ends rawElement resolvedChildren st :
  snd (resolveSelf' rawElement resolvedChildren st) <> OutOfFuel.
Proof.
  unfold resolveSelf. apply ebind_ends.
  { unfold pure, getSchema. cbn.
    destruct (Registry.items registry !! _); discriminate. }
  intros st1 schema _. apply ebind_ends.
  { destruct (linkable && schemaLinkable schema); [| discriminate].
    apply ebind_ends; [| discriminate].
    unfold onIds.
    pose proof (createId_ends rawElement (ids st1)) as Hends.
    destruct (createId _ _ _ _) as [i o]. exact Hends. }
  intros st2 el1 _. apply ebind_ends.
  { destruct (truthyStr (Raw.uniqueName rawElement)); discriminate. }
  intros st3 el2 _. apply ebind_ends; [| discriminate].
  destruct (callPost_returns el2 st3) as (st4 & -> & _). discriminate.
Qed.

Lemma resolveChildren_ends cs :
  Forall (fun c => forall st,
            snd (resolveRecursive' c st) <> OutOfFuel) cs ->
  forall st, snd (resolveChildren' cs st) <> OutOfFuel.
Proof.
  induction 1 as [| c cs Hc _ IH]; intros st; [discriminate |].
  cbn [resolveChildren]. apply ebind_ends; [apply Hc |].
  intros st1 el _. apply ebind_ends; [apply IH | discriminate].
Qed.

Lemma resolveRecursive_ends : forall rawElement st,
  snd (resolveRecursive' rawElement st) <> OutOfFuel.
Proof.
  induction rawElement as [rawElement IH] using RawElement_children_ind.
  intros st. rewrite resolveRecursive_unfold. apply ebind_ends.
  { destruct (callPre_returns rawElement st) as (st1 & -> & _).
    discriminate. }
  intros st1 [] _. apply ebind_ends; [| intros; apply resolveSelf_ends].
  destruct (Raw.children rawElement) as [cs |]; [| discriminate].
  apply ebind_ends; [| discriminate]. now apply resolveChildren_ends.
Qed.

End ResolveReturns.

Lemma recorders_return :
  returns (Some recordPre) /\ returns (Some recordPost).
Proof. split; intros f [= <-] a h; reflexivity. Qed.

Lemma no_hook_returns {A H : Type} : @returns A H None.
Proof. intros f Hf. discriminate. Qed.

Section AnchorsAreUniqueNames.
Variable kebabCase : string -> string.
Variable registry : Registry.

Lemma ownAnchorId_subset rawElement a :
  a ∈ ownAnchorId kebabCase registry rawElement ->
  a ∈ map kebabCase (ownUniqueName rawElement).
Proof.
  unfold ownAnchorId, ownUniqueName.
  destruct (truthyStr (Raw.uniqueName rawElement)) as [u |];
    [| intros Ha; inversion Ha].
  destruct (getSchema registry (Raw.schemaName rawElement)) as [schema | |];
    try (intros Ha; inversion Ha; fail).
  destruct (schemaLinkable schema); [auto | intros Ha; inversion Ha].
Qed.

Lemma forestAnchorIds_subset cs a :
  Forall (fun c => a ∈ anchorIds kebabCase registry c ->
                   a ∈ map kebabCase (uniqueNames c)) cs ->
  a ∈ forestAnchorIds kebabCase registry cs ->
  a ∈ map kebabCase (forestUniqueNames cs).
Proof.
  induction 1 as [| c cs Hc _ IH]; cbn [forestAnchorIds forestUniqueNames];
    [auto |].
  rewrite map_app, !elem_of_app. intros [Ha | Ha]; auto.
Qed.

Lemma anchorIds_subset a : forall rawElement,
  a ∈ anchorIds kebabCase registry rawElement ->
  a ∈ map kebabCase (uniqueNames rawElement).
Proof.
  induction rawElement as [rawElement IH] using RawElement_children_ind.
  rewrite anchorIds_unfold, uniqueNames_unfold, map_app, !elem_of_app.
  intros [Ha | Ha].
  - right. destruct (Raw.children rawElement) as [cs |]; [| inversion Ha].
    now apply forestAnchorIds_subset.
  - left. now apply ownAnchorId_subset.
Qed.

End AnchorsAreUniqueNames.

Lemma scanNames_ends kebabCase externalIds names : forall uniqueIds,
  snd (scanNames kebabCase externalIds names uniqueIds) <> OutOfFuel.
Proof.
  induction names as [| u names IH]; intros uniqueIds; cbn; [discriminate |].
  destruct (decide (kebabCase u ∈ externalIds)); [discriminate | apply IH].
Qed.

(** X15. With hooks that do not throw, [resolveRawElement] always ends,
    and it returns exactly when every schema name of the tree is
    registered and, with [linkable], no unique name of the tree has its
    identifier among the external [ids] and the unique names of elements
    with a linkable schema have distinct identifiers. *)
Theorem resolve_returns_iff (kebabCase : string -> string) {H : Type}
    (registry : Registry) (rawElement : RawElement) (linkable : bool)
    (pre : option (RawElement -> Eff H unit))
    (post : option (ProseElement -> Eff H unit))
    (externalIds : gset string) (h : H) :
  returns pre -> returns post ->
  snd (resolveRawElement kebabCase registry rawElement linkable pre post
                         externalIds h) <> OutOfFuel
  /\ ((exists h' result,
         resolveRawElement kebabCase registry rawElement linkable pre post
                           externalIds h = (h', Ok result))
      <-> Forall (registered registry) (schemaNames rawElement)
          /\ (linkable = true ->
              Forall (fun u => kebabCase u ∉ externalIds)
                     (uniqueNames rawElement)
              /\ NoDup (anchorIds kebabCase registry rawElement))).
Proof.
  intros Hpre Hpost. split; [| split].
  - unfold resolveRawElement.
    destruct (if linkable then _ else _) as [uniqueIds [sig | e |]] eqn:Hscan.
    + pose proof (resolveRecursive_ends kebabCase registry linkable pre post
                    uniqueIds Hpre Hpost rawElement
                    (mkResolving externalIds ∅ h)) as Hends.
      destruct (resolveRecursive _ _ _ _ _ _ _ _) as [st [el | e |]];
        cbn in *; [discriminate | discriminate | contradiction].
    + discriminate.
    + destruct linkable; [| discriminate].
      rewrite prescan_walk in Hscan.
      pose proof (scanNames_ends kebabCase externalIds
                    (uniqueNames rawElement) ∅) as Hends.
      rewrite Hscan in Hends. now destruct Hends.
  - intros (h' & result & Hres).
    apply resolveRawElement_run in Hres as (st' & Hrec & _ & _ & _ & Hfree).
    split; [exact (resolveRecursive_registered _ _ _ _ _ _ _ _ _ _ Hrec) |].
    intros Hl. split; [now apply Hfree |]. subst linkable.
    apply (sublist_NoDup _ (treeIds (proseElement result))).
    + exact (proj1 (resolveRecursive_ids _ _ _ _ _ _ _ _ _ _ Hrec)).
    + exact (resolveRecursive_anchor _ _ _ _ _ _ eq_refl _ _ _ _ Hrec).
  - intros [Hreg Hlink]. unfold resolveRawElement.
    set (uniqueIds := if linkable
                      then list_to_set (map kebabCase (uniqueNames rawElement))
                           ∪ (∅ : gset string)
                      else ∅).
    assert ((if linkable
             then walkElements (prescan kebabCase externalIds)
                               (rawTree rawElement) ∅
             else (∅, Ok Void)) = (uniqueIds, Ok Void)) as ->.
    { unfold uniqueIds. destruct linkable; [| reflexivity].
      rewrite prescan_walk. apply scanNames_run. now apply Hlink. }
    destruct (resolveRecursive_returns kebabCase registry linkable pre post
                uniqueIds Hpre Hpost rawElement
                (mkResolving externalIds ∅ h) Hreg)
      as (st' & el & -> & _); [| eauto].
    intros Hl. destruct (Hlink Hl) as [Hfree Hnd]. split; [exact Hnd |].
    intros a Ha. apply anchorIds_subset in Ha. cbn [ids]. split.
    + apply list_elem_of_fmap in Ha as (u & -> & Hu).
      rewrite Forall_forall in Hfree. now apply Hfree.
    + unfold uniqueIds. rewrite Hl. apply elem_of_union. left.
      now apply elem_of_list_to_set.
Qed.

Lemma resolve_returns_iff_witness :
  exists h' result,
    resolveRawElement kebabCaseSample sampleRegistry sampleArticle true
                      (Some recordPre) (Some recordPost) {["intro-1"]} []
    = (h', Ok result).
Proof.
  apply (proj2 (resolve_returns_iff kebabCaseSample sampleRegistry
                  sampleArticle true (Some recordPre) (Some recordPost)
                  {["intro-1"]} []
                  (proj1 recorders_return) (proj2 recorders_return))).
  split.
  - apply (bool_decide_unpack _). vm_compute. exact I.
  - intros _. split; apply (bool_decide_unpack _); vm_compute; exact I.
Defined.
(* ===================================================================== *)
(** * More facts about the hash *)
(* ===================================================================== *)

Section HashMore.
Import Hash.

Lemma lxor_mod32 a b :
  Z.lxor a b mod 2 ^ 32 = Z.lxor (a mod 2 ^ 32) (b mod 2 ^ 32).
Proof.
  apply Z.bits_inj'. intros k Hk. rewrite Z.lxor_spec.
  destruct (Z.ltb_spec k 32) as [Hlt | Hge].
  - rewrite !Z.mod_pow2_bits_low by lia. now rewrite Z.lxor_spec.
  - now rewrite !Z.mod_pow2_bits_high by lia.
Qed.

Lemma toInt32_mod z : toInt32 z mod 2 ^ 32 = z mod 2 ^ 32.
Proof.
  unfold toInt32, toUint32. cbv zeta.
  destruct (Z.ltb_spec (z mod 2 ^ 32) (2 ^ 31)).
  - apply Z.mod_mod. discriminate.
  - rewrite <- (Z.mod_add _ 1) by discriminate.
    replace (z mod 2 ^ 32 - 2 ^ 32 + 1 * 2 ^ 32) with (z mod 2 ^ 32) by lia.
    apply Z.mod_mod. discriminate.
Qed.

Lemma bxor_mod h c : bxor h c mod 2 ^ 32 = Z.lxor (h mod 2 ^ 32) (c mod 2 ^ 32).
Proof.
  unfold bxor. now rewrite toInt32_mod, lxor_mod32, !toInt32_mod.
Qed.

Lemma shl_mod h k :
  0 <= k -> shl h k mod 2 ^ 32 = (h mod 2 ^ 32 * 2 ^ k) mod 2 ^ 32.
Proof.
  intros Hk. unfold shl.
  rewrite toInt32_mod, Z.shiftl_mul_pow2 by exact Hk.
  rewrite <- Z.mul_mod_idemp_l by discriminate. now rewrite toInt32_mod.
Qed.

Lemma lxor_range h c :
  0 <= h < 2 ^ 32 -> 0 <= c < 2 ^ 32 -> 0 <= Z.lxor h c < 2 ^ 32.
Proof.
  intros Hh Hc.
  rewrite <- (Z.mod_small h (2 ^ 32)), <- (Z.mod_small c (2 ^ 32)),
    <- lxor_mod32 by assumption.
  apply Z.mod_pos_bound. reflexivity.
Qed.

(** One round of the loop multiplies by the prime. *)
Lemma fnv_round h c :
  0 <= h < 2 ^ 32 -> 0 <= c < 2 ^ 32 ->
  ushr (bxor h c
        + (shl (bxor h c) 1 + shl (bxor h c) 4 + shl (bxor h c) 7
           + shl (bxor h c) 8 + shl (bxor h c) 24)) 0
  = (Z.lxor h c * 16777619) mod 2 ^ 32.
Proof.
  intros Hh Hc. rewrite ushr_0. unfold toUint32.
  set (x := bxor h c).
  assert (x mod 2 ^ 32 = Z.lxor h c) as Hx.
  { unfold x. rewrite bxor_mod. now rewrite !Z.mod_small by assumption. }
  assert (forall k, 0 <= k -> eqm (2 ^ 32) (shl x k) (Z.lxor h c * 2 ^ k))
    as Hshl.
  { intros k Hk. unfold eqm. rewrite shl_mod, Hx by exact Hk.
    reflexivity. }
  assert (eqm (2 ^ 32) x (Z.lxor h c)) as Hxm.
  { unfold eqm. rewrite Hx. symmetry.
    apply Z.mod_small, lxor_range; assumption. }
  change (eqm (2 ^ 32)
            (x + (shl x 1 + shl x 4 + shl x 7 + shl x 8 + shl x 24))
            (Z.lxor h c * 16777619)).
  eapply eqm_trans.
  - apply Zplus_eqm; [exact Hxm |].
    repeat apply Zplus_eqm; apply Hshl; lia.
  - unfold eqm. f_equal. lia.
Qed.

Lemma fnv_fold str : forall h,
  0 <= h < 2 ^ 32 ->
  Forall (fun c => 0 <= c < 2 ^ 32) str ->
  fold_left
    (fun h c =>
       let h := bxor h c in
       ushr (h + (shl h 1 + shl h 4 + shl h 7 + shl h 8 + shl h 24)) 0)
    str h
  = fold_left (fun h c => (Z.lxor h c * 16777619) mod 2 ^ 32) str h
  /\ 0 <= fold_left (fun h c => (Z.lxor h c * 16777619) mod 2 ^ 32) str h
     < 2 ^ 32.
Proof.
  induction str as [| c str IH]; intros h Hh Hall; [auto |].
  apply Forall_cons in Hall as [Hc Hall]. cbn [fold_left]. cbv zeta.
  rewrite (fnv_round _ _ Hh Hc). apply IH; [| exact Hall].
  apply Z.mod_pos_bound. reflexivity.
Qed.

Lemma fill_extends fuel k : forall x out,
  (2 <= fuel)%nat ->
  exists rest, fill fuel k x out = Ok (out +:+ rest).
Proof.
  induction k as [| k IH]; intros x out Hfuel.
  - exists "". cbn. now rewrite append_empty_r.
  - cbn [fill]. destruct (draw_enough fuel x Hfuel) as (x' & r & -> & _).
    cbn [obind fst snd].
    destruct (IH x' (out +:+ charAt ALPHABET (r mod ALPHABET_LEN)) Hfuel)
      as (rest & ->).
    exists (charAt ALPHABET (r mod ALPHABET_LEN) +:+ rest).
    now rewrite append_assoc.
Qed.

Lemma fill_split fuel n k : forall x out,
  (2 <= fuel)%nat ->
  exists s rest,
    fill fuel n x out = Ok s /\ fill fuel (n + k) x out = Ok (s +:+ rest).
Proof.
  induction n as [| n IH]; intros x out Hfuel.
  - destruct (fill_extends fuel k x out Hfuel) as (rest & Hk).
    exists out, rest. auto.
  - cbn [fill Nat.add].
    destruct (draw_enough fuel x Hfuel) as (x' & r & -> & _).
    cbn [obind fst snd]. now apply IH.
Qed.

End HashMore.

(** X16. A shorter hash of an input is the beginning of every longer hash
    of the same input. *)
Theorem hash_prefix (fuel : nat) (input : list Z) (n m : Z) :
  (2 <= fuel)%nat ->
  0 < n <= m ->
  exists short rest,
    Hash.hashUnits fuel input (NumInt n) = Ok short
    /\ Hash.hashUnits fuel input (NumInt m) = Ok (short +:+ rest).
Proof.
  intros Hfuel Hnm. unfold Hash.hashUnits.
  rewrite !(proj2 (Z.leb_gt _ _)) by lia.
  replace (Z.to_nat m) with (Z.to_nat n + Z.to_nat (m - n))%nat by lia.
  now apply fill_split.
Qed.

Lemma hash_prefix_witness :
  exists short rest,
    Hash.hashUnits 2 (Hash.charCodes "ABC") (NumInt 4) = Ok short
    /\ Hash.hashUnits 2 (Hash.charCodes "ABC") (NumInt 12)
       = Ok (short +:+ rest).
Proof. apply (hash_prefix 2 (Hash.charCodes "ABC") 4 12); lia. Defined.

(** X17. The shift-and-add round of [fnv1a32] is the multiplication by
    the FNV prime 16777619 modulo [2 ^ 32]: on code units, [fnv1a32] is
    FNV-1a. *)
Theorem fnv1a32_is_fnv (str : list Z) :
  Forall codeUnit str ->
  Hash.fnv1a32 str = fnvReference str.
Proof.
  intros Hunits.
  destruct (fnv_fold str 2166136261) as [Hfold Hrange]; [lia | |].
  { eapply Forall_impl; [exact Hunits |]. unfold codeUnit. cbn. lia. }
  unfold Hash.fnv1a32, fnvReference. cbv zeta in Hfold |- *.
  change (Hash.ushr 2166136261 0) with 2166136261.
  rewrite Hfold, ushr_0. unfold Hash.toUint32. now apply Z.mod_small.
Qed.

Lemma fnv1a32_is_fnv_witness :
  Hash.fnv1a32 (Hash.charCodes "example input")
  = fnvReference (Hash.charCodes "example input").
Proof.
  apply (fnv1a32_is_fnv (Hash.charCodes "example input")).
  apply (bool_decide_unpack _). vm_compute. exact I.
Defined.
(* ===================================================================== *)
(** * More facts about createId *)
(* ===================================================================== *)

Section CreateIdMore.
Variable kebabCase : string -> string.

(** [createId] returns the candidate [c] when the candidates before it
    are taken and it is free. *)
Lemma createId_at uniqueIds rawElement idSet baseId c :
  plain kebabCase baseId rawElement ->
  (forall j, (j < c)%nat -> candidate baseId j ∈ idSet ∪ uniqueIds) ->
  candidate baseId c ∉ idSet ∪ uniqueIds ->
  createId kebabCase uniqueIds rawElement idSet
  = ({[candidate baseId c]} ∪ idSet, Ok (candidate baseId c)).
Proof.
  intros [Hname Hbase] Hbelow Hfree. unfold createId. rewrite Hname.
  unfold baseIdOf in Hbase. rewrite Hbase.
  assert (c <= size (idSet ∪ uniqueIds))%nat as Hc.
  { destruct (first_free_candidate (idSet ∪ uniqueIds) baseId)
      as (k & Hk & Hkfree & Hkbelow).
    destruct (lt_eq_lt_dec k c) as [[Hlt | ->] | Hgt]; [| exact Hk |].
    - now destruct (Hkfree (Hbelow _ Hlt)).
    - now destruct (Hfree (Hkbelow _ Hgt)). }
  rewrite (dedupe_first_free kebabCase idSet uniqueIds baseId c
             (Datatypes.S (size (idSet ∪ uniqueIds))) 0%nat);
    [reflexivity | lia | lia | intros j Hj; apply Hbelow; lia | exact Hfree].
Qed.

Lemma createIdEach_from uniqueIds baseId els : forall idSet c,
  Forall (plain kebabCase baseId) els ->
  (forall j, (j < c)%nat -> candidate baseId j ∈ idSet ∪ uniqueIds) ->
  (forall j, (c <= j < c + length els)%nat ->
     candidate baseId j ∉ idSet ∪ uniqueIds) ->
  createIdEach kebabCase uniqueIds els idSet
  = (list_to_set (map (candidate baseId) (seq c (length els))) ∪ idSet,
     Ok (map (candidate baseId) (seq c (length els)))).
Proof.
  induction els as [| el els IH]; intros idSet c Hall Hbelow Hfree.
  - cbn. unfold eret. f_equal. set_solver.
  - apply Forall_cons in Hall as [Hel Hall]. cbn [createIdEach length seq map].
    assert (candidate baseId c ∉ idSet ∪ uniqueIds) as Hc.
    { apply Hfree. cbn. lia. }
    rewrite (ebind_run _ _ _ _ _
               (createId_at uniqueIds el idSet baseId c Hel Hbelow Hc)).
    assert (createIdEach kebabCase uniqueIds els
              ({[candidate baseId c]} ∪ idSet)
            = (list_to_set (map (candidate baseId)
                                (seq (Datatypes.S c) (length els)))
               ∪ ({[candidate baseId c]} ∪ idSet),
               Ok (map (candidate baseId)
                       (seq (Datatypes.S c) (length els))))) as Hrest.
    { apply IH; [exact Hall | |].
      - intros j Hj. destruct (decide (j = c)) as [-> | Hne]; [set_solver |].
        assert (candidate baseId j ∈ idSet ∪ uniqueIds)
          by (apply Hbelow; lia).
        set_solver.
      - intros j Hj.
        assert (candidate baseId j ∉ idSet ∪ uniqueIds) as Hout
          by (apply Hfree; cbn; lia).
        assert (candidate baseId j <> candidate baseId c) as Hne.
        { intros Heq. apply candidate_inj in Heq. lia. }
        set_solver. }
    rewrite (ebind_run _ _ _ _ _ Hrest).
    unfold eret. f_equal. cbn [list_to_set]. set_solver.
Qed.

End CreateIdMore.

(** X18. Elements without unique names and with the same base get the
    base, base-1, base-2, ... in the order of the calls, when these
    candidates are in neither set before the first call. *)
Theorem same_base_numbered (kebabCase : string -> string)
    (ids uniqueIds : gset string) (baseId : string)
    (els : list RawElement) :
  Forall (plain kebabCase baseId) els ->
  (forall j, (j < length els)%nat ->
     candidate baseId j ∉ ids ∪ uniqueIds) ->
  createIdEach kebabCase uniqueIds els ids
  = (list_to_set (map (candidate baseId) (seq 0 (length els))) ∪ ids,
     Ok (map (candidate baseId) (seq 0 (length els)))).
Proof.
  intros Hall Hfree. apply createIdEach_from; [exact Hall | lia |].
  intros j Hj. apply Hfree. lia.
Qed.

Lemma same_base_numbered_witness :
  createIdEach kebabCaseSample ∅ sampleIntros ∅
  = (list_to_set (map (candidate "intro") (seq 0 (length sampleIntros))) ∪ ∅,
     Ok (map (candidate "intro") (seq 0 (length sampleIntros)))).
Proof.
  apply (same_base_numbered kebabCaseSample ∅ ∅ "intro" sampleIntros).
  - repeat constructor.
  - intros j _. set_solver.
Defined.
(* ===================================================================== *)
(** * More facts about normalizeChildren *)
(* ===================================================================== *)

Section NormalizeMore.
Context `{Runtime}.
Variable fuel : nat.
Hypothesis Hfuel : (2 <= fuel)%nat.

Lemma last_snoc_inv {A} (l : list A) (x : A) :
  last l = Some x -> l = removelast l ++ [x].
Proof.
  induction l as [| a l IH]; [discriminate |].
  destruct l as [| b l]; [now intros [= ->] |].
  intros Hl. cbn [removelast app]. f_equal. now apply IH.
Qed.

Lemma nonText_app xs ys : nonText (xs ++ ys) = nonText xs ++ nonText ys.
Proof. unfold nonText. apply List.filter_app. Qed.

Lemma mergedText_isText t str : isText (mergedText t str) = isText t.
Proof. reflexivity. Qed.

Lemma nonText_single el :
  nonText [el] = if isText el then [] else [el].
Proof. unfold nonText. cbn [List.filter]. now destruct (isText el). Qed.

(** A run of text leaves the elements that are not text as they are. *)
Lemma mergeRun_nonText acc str : nonText (mergeRun acc str) = nonText acc.
Proof.
  unfold mergeRun. destruct (last acc) as [t |] eqn:Hlast.
  - destruct (isText t) eqn:Ht.
    + rewrite (last_snoc_inv _ _ Hlast) at 2.
      rewrite !nonText_app, !nonText_single.
      now rewrite mergedText_isText, Ht.
    + rewrite nonText_app, nonText_single.
      change (isText (jsxText str (hash12 str))) with true.
      now rewrite app_nil_r.
  - rewrite nonText_app, nonText_single.
    change (isText (jsxText str (hash12 str))) with true.
    now rewrite app_nil_r.
Qed.

Lemma stepArgument_other v : isText (jsxText (jsString v) (hash12 (jsString v))) = true.
Proof. reflexivity. Qed.

Lemma normalizeChild_nonText {S} (s : S) acc c out :
  normalizeChild fuel None acc c s = (s, Ok out) ->
  exists el, stepArgument c = Some el
    /\ nonText out = nonText (acc ++ [el])
    /\ (length out <= Datatypes.S (length acc))%nat
    /\ out <> [].
Proof.
  destruct c as [el | u | v]; cbn [stepArgument].
  - rewrite normalizeChild_raw by exact Hfuel. intros [= <-].
    rewrite deepCloneRawElement_id. exists el.
    rewrite length_app. cbn. repeat split; [lia |].
    now destruct acc.
  - rewrite normalizeChild_unique by exact Hfuel.
    destruct (getRawElement u) as [el |]; [| discriminate].
    intros [= <-]. rewrite deepCloneRawElement_id. exists (anonymized el).
    rewrite length_app. cbn. repeat split; [lia |]. now destruct acc.
  - rewrite normalizeChild_other by exact Hfuel. intros [= <-].
    eexists. split; [reflexivity |].
    rewrite mergeRun_nonText, nonText_app, nonText_single.
    change (isText (jsxText (jsString v) (hash12 (jsString v)))) with true.
    rewrite app_nil_r. split; [reflexivity |].
    destruct (mergeRun_nonempty acc (jsString v)) as (init & t & Hrun).
    unfold mergeRun in *. destruct (last acc) as [t0 |] eqn:Hlast.
    + destruct (isText t0).
      * rewrite (last_snoc_inv _ _ Hlast) at 2.
        rewrite !length_app. cbn. split; [lia |].
        now destruct (removelast acc).
      * rewrite length_app. cbn. split; [lia |]. now destruct acc.
    + rewrite length_app. cbn. split; [lia |]. now destruct acc.
Qed.

Lemma normalizeLoop_nonText {S} (s : S) cs : forall acc out,
  normalizeLoop fuel None acc cs s = (s, Ok out) ->
  exists els, stepArguments cs = Some els
    /\ nonText out = nonText (acc ++ els)
    /\ (length out <= length acc + length cs)%nat
    /\ (out = [] -> acc = [] /\ cs = []).
Proof.
  induction cs as [| c cs IH]; intros acc out.
  - cbn. unfold eret. intros [= <-]. exists []. rewrite app_nil_r.
    repeat split; auto. lia.
  - cbn [normalizeLoop]. unfold ebind.
    destruct (normalizeChild fuel None acc c s) as [s1 [acc1 | e |]] eqn:Hc;
      try discriminate.
    assert (s1 = s) as ->.
    { destruct c as [el | u | v].
      - rewrite normalizeChild_raw in Hc by exact Hfuel. congruence.
      - rewrite normalizeChild_unique in Hc by exact Hfuel.
        destruct (getRawElement u); congruence.
      - rewrite normalizeChild_other in Hc by exact Hfuel. congruence. }
    intros Hrest.
    destruct (normalizeChild_nonText _ _ _ _ Hc) as (el & Hel & Hnt & Hlen & Hne).
    destruct (IH _ _ Hrest) as (els & Hels & Hnt' & Hlen' & Hempty).
    exists (el :: els). cbn [stepArguments]. rewrite Hel, Hels.
    split; [reflexivity |]. split; [| split].
    + change (acc ++ el :: els) with (acc ++ [el] ++ els).
      rewrite Hnt', !nonText_app, Hnt, !nonText_app.
      now rewrite <- app_assoc.
    + cbn [length]. lia.
    + intros Hout. destruct (Hempty Hout) as [Hacc1 _]. contradiction.
Qed.

(** The recording step sees one element for each child. *)
Lemma normalizeChild_recorded acc c log log' out :
  normalizeChild fuel (Some recordStep) acc c log = (log', Ok out) ->
  exists el, stepArgument c = Some el /\ log' = log ++ [el].
Proof.
  destruct c as [el | u | v]; cbn [stepArgument normalizeChild].
  - unfold ebind, callStep, recordStep, eret. intros [= <- _]. eauto.
  - destruct (getRawElement u) as [el |]; [| discriminate].
    unfold ebind, callStep, recordStep, eret. intros [= <- _].
    eexists. split; reflexivity.
  - unfold ebind, liftOutcome, callStep, recordStep.
    rewrite (hash12_ok fuel _ Hfuel).
    destruct (last acc) as [t |].
    + destruct (isRawProseElement t (Some textSchema)).
      * rewrite (hash12_ok fuel _ Hfuel). unfold eret.
        intros [= <- _]. eauto.
      * unfold eret. intros [= <- _]. eauto.
    + unfold eret. intros [= <- _]. eauto.
Qed.

Lemma normalizeLoop_recorded cs : forall acc log log' out,
  normalizeLoop fuel (Some recordStep) acc cs log = (log', Ok out) ->
  exists els, stepArguments cs = Some els /\ log' = log ++ els.
Proof.
  induction cs as [| c cs IH]; intros acc log log' out.
  - cbn. unfold eret. intros [= <- _]. exists []. now rewrite app_nil_r.
  - cbn [normalizeLoop]. intros Hloop.
    apply ebind_Ok in Hloop as (log1 & acc1 & Hc & Hrest).
    apply normalizeChild_recorded in Hc as (el & Hel & ->).
    apply IH in Hrest as (els & Hels & ->).
    exists (el :: els). cbn [stepArguments]. rewrite Hel, Hels.
    now rewrite <- app_assoc.
Qed.

(** X19. [normalizeChildren] calls [step] once for each child, in order:
    with the clone of an element, with the renamed clone of a unique's
    element, and with the text element of a stringified value by itself,
    before it is merged into a text element in front of it. *)
Theorem step_called_once_per_child (cs : list Child)
    (log log' : list RawElement) (out : option (list RawElement)) :
  normalizeChildren fuel (Some recordStep) (ChildrenArray cs) log
  = (log', Ok out) ->
  exists els,
    stepArguments cs = Some els
    /\ log' = log ++ els
    /\ length els = length cs.
Proof.
  cbn [normalizeChildren]. intros Hrun.
  apply ebind_Ok in Hrun as (log1 & r & Hloop & Hret).
  unfold eret in Hret. injection Hret as <- _.
  apply normalizeLoop_recorded in Hloop as (els & Hels & ->).
  exists els. repeat split; [exact Hels |].
  clear - Hels. revert els Hels.
  induction cs as [| c cs IH]; intros els; cbn [stepArguments].
  - now intros [= <-].
  - destruct (stepArgument c); [| discriminate].
    destruct (stepArguments cs) as [rest |]; [| discriminate].
    intros [= <-]. cbn. f_equal. now apply IH.
Qed.

(** X20. The elements of the result that are not text are the clones made
    for the children, in the order of the children: merging changes text
    elements only. The result has at most one element for each child, and
    is empty only for an empty array. *)
Theorem normalize_keeps_elements (S : Type)
    (step : option (RawElement -> Eff S unit)) (s s' : S)
    (cs : list Child) (out : option (list RawElement)) :
  normalizeChildren fuel step (ChildrenArray cs) s = (s', Ok out) ->
  exists result els,
    out = Some result
    /\ stepArguments cs = Some els
    /\ nonText result = nonText els
    /\ (length result <= length cs)%nat
    /\ (result = [] <-> cs = []).
Proof.
  cbn [normalizeChildren]. intros Hrun.
  apply ebind_Ok in Hrun as (s1 & r & Hloop & Hret).
  unfold eret in Hret. injection Hret as _ <-.
  apply (normalizeLoop_step fuel Hfuel step cs [] s s1 tt) in Hloop.
  pose proof Hloop as Hloop'.
  apply normalizeLoop_nonText in Hloop as (els & Hels & Hnt & Hlen & Hempty).
  exists r, els. repeat split; try assumption.
  - intros Hr. now destruct (Hempty Hr).
  - intros ->. cbn in Hloop'. unfold eret in Hloop'. congruence.
Qed.

End NormalizeMore.

Section NormalizeMoreWitness.
Local Existing Instance sampleRuntime.

Lemma step_called_once_per_child_witness :
  exists els,
    stepArguments sampleChildren = Some els
    /\ fst (normalizeChildren 2 (Some recordStep)
              (ChildrenArray sampleChildren) [])
       = [] ++ els
    /\ length els = length sampleChildren.
Proof.
  apply (step_called_once_per_child 2 (le_n 2) sampleChildren []
           (fst (normalizeChildren 2 (Some recordStep)
                   (ChildrenArray sampleChildren) []))
           (Some [jsxText "a" (hash12 "a"); rawBold "bold-hash";
                  jsxText "7b" (hash12 "7b"); anonymized sampleAnchored])).
  vm_compute. reflexivity.
Defined.

Lemma normalize_keeps_elements_witness :
  exists result els,
    Some [jsxText "a" (hash12 "a"); rawBold "bold-hash";
          jsxText "7b" (hash12 "7b"); anonymized sampleAnchored]
    = Some result
    /\ stepArguments sampleChildren = Some els
    /\ nonText result = nonText els
    /\ (length result <= length sampleChildren)%nat
    /\ (result = [] <-> sampleChildren = []).
Proof.
  apply (normalize_keeps_elements 2 (le_n 2) unit None tt tt sampleChildren).
  vm_compute. reflexivity.
Defined.
End NormalizeMoreWitness.
(* ===================================================================== *)
(** * More facts about fillStorage *)
(* ===================================================================== *)

Lemma prosePreorder_unfold el :
  prosePreorder el = el :: childrenPreorder el.
Proof. destruct el as [sk sn d st [cs |] i un]; reflexivity. Qed.

Lemma poolPreorder_app p1 p2 :
  poolPreorder (p1 ++ p2) = poolPreorder p1 ++ poolPreorder p2.
Proof.
  unfold poolPreorder. induction p1 as [| p p1 IH]; [reflexivity |].
  cbn [map app forestPreorder]. now rewrite IH, app_assoc.
Qed.

Lemma poolPreorder_delete pool : forall i p,
  pool !! i = Some p ->
  poolPreorder pool
  ≡ₚ prosePreorder (suspended p) ++ poolPreorder (delete i pool).
Proof.
  unfold poolPreorder.
  induction pool as [| q pool IH]; intros [| i] p Hp; try discriminate.
  - injection Hp as ->. reflexivity.
  - change (delete (Datatypes.S i) (q :: pool)) with (q :: delete i pool).
    cbn [map forestPreorder]. rewrite (IH i p Hp).
    rewrite !app_assoc. apply Permutation_app_tail, Permutation_app_comm.
Qed.

(** An invariant of the call, told with the elements that the running
    call has still to visit: it holds when the call is suspended again if
    it is kept by suspending a call, by a step without a generator, and by
    resuming a call. *)
Section FillInvariant.
Variable storageCreators : gmap string (ProseElement -> JsValue).
Variable step : bool.
Variable Inv : list ProseElement -> Filling -> Prop.

Local Abbreviation createStorageFor' :=
  (createStorageFor storageCreators step).
Local Abbreviation startChildren := (startChildren storageCreators step).
Local Abbreviation resume := (resume storageCreators step).

Hypothesis Hsuspend : forall el generator work f,
  generatorFor storageCreators (storage f) el = Some generator ->
  Inv (prosePreorder el ++ work) f ->
  Inv work (suspend (mkPending el (generator el)) f).
Hypothesis Hstep : forall el work f,
  generatorFor storageCreators (storage f) el = None ->
  Inv (el :: work) f -> Inv work (callStepOn step el f).
Hypothesis Hresume : forall i p f,
  pool f !! i = Some p ->
  Inv [] f ->
  Inv (childrenPreorder (suspended p))
      (callStepOn step (suspended p)
         (writeStorage (suspended p) (produced p)
            (mkFilling (storage f) (stepped f) (delete i (pool f))))).

Lemma startChildren_invariant cs :
  Forall (fun c => forall work f,
            Inv (prosePreorder c ++ work) f ->
            Inv work (createStorageFor' FromStart c f)) cs ->
  forall work f,
    Inv (forestPreorder cs ++ work) f -> Inv work (startChildren cs f).
Proof.
  induction 1 as [| c cs Hc _ IH]; intros work f Hf; [exact Hf |].
  cbn [startChildren]. cbn [forestPreorder] in Hf.
  rewrite <- app_assoc in Hf. apply IH, Hc, Hf.
Qed.

Lemma createStorageFor_invariant : forall el work f,
  Inv (prosePreorder el ++ work) f ->
  Inv work (createStorageFor' FromStart el f).
Proof.
  induction el as [el IH] using ProseElement_children_ind.
  intros work f Hf. rewrite createStorageFor_unfold.
  destruct (generatorFor storageCreators (storage f) el) as [generator |]
    eqn:Hgen; [now apply Hsuspend |].
  rewrite prosePreorder_unfold in Hf. cbn [app] in Hf.
  apply Hstep in Hf; [| exact Hgen].
  unfold proceed, childrenPreorder in *.
  destruct (Prose.children el) as [cs |]; [| exact Hf].
  now apply (startChildren_invariant cs IH).
Qed.

Lemma resume_invariant i f : Inv [] f -> Inv [] (resume i f).
Proof.
  intros Hf. cbv delta [resume] beta.
  destruct (pool f !! i) as [p |] eqn:Hp; [| exact Hf].
  rewrite createStorageFor_unfold.
  pose proof (Hresume i p f Hp Hf) as Hstart.
  unfold proceed, childrenPreorder in *.
  destruct (Prose.children (suspended p)) as [cs |]; [| exact Hstart].
  apply (startChildren_invariant cs); [| now rewrite app_nil_r].
  apply Forall_forall. intros c _. apply createStorageFor_invariant.
Qed.

Lemma fillStorage_invariant schedule st el :
  Inv (prosePreorder el) (mkFilling st [] []) ->
  Inv [] (fillStorage storageCreators step schedule st el).
Proof.
  intros Hstart. unfold fillStorage.
  assert (Inv [] (createStorageFor' FromStart el (mkFilling st [] [])))
    as Hf.
  { apply createStorageFor_invariant. now rewrite app_nil_r. }
  revert Hf. generalize (createStorageFor' FromStart el (mkFilling st [] [])).
  induction schedule as [| i schedule IH]; intros f Hf; [exact Hf |].
  cbn [fold_left]. apply IH, resume_invariant, Hf.
Qed.

End FillInvariant.

Section FillMore.
Variable storageCreators : gmap string (ProseElement -> JsValue).

Lemma generatorFor_Some st el generator :
  generatorFor storageCreators st el = Some generator ->
  storageCreators !! Prose.schemaName el = Some generator.
Proof.
  unfold generatorFor.
  destruct (truthyStr (Prose.storageKey el)); [| discriminate].
  destruct (negb _); [auto | discriminate].
Qed.

Lemma generatorFor_None st el :
  generatorFor storageCreators st el = None ->
  filled storageCreators st el.
Proof.
  unfold generatorFor. intros Hgen key generator Hkey Hcreator.
  rewrite Hkey in Hgen. unfold readStorage in Hgen.
  destruct (st !! key) as [v |]; [eauto |]. cbn in Hgen. congruence.
Qed.

Lemma truthyStr_Some o s : truthyStr o = Some s -> o = Some s.
Proof.
  unfold truthyStr. destruct o as [t |]; [| discriminate].
  destruct (String.eqb t ""); [discriminate | auto].
Qed.

(** ** Every element is stepped once *)


(** ** Where the values come from *)

Lemma provenance_invariant step st nodes schedule el :
  (forall n, n ∈ prosePreorder el -> n ∈ nodes) ->
  (forall key value,
     storage (fillStorage storageCreators step schedule st el) !! key
     = Some value ->
     st !! key = Some value \/ generatedBy storageCreators nodes key value)
  /\ (forall key, is_Some (st !! key) ->
        is_Some (storage (fillStorage storageCreators step schedule st el)
                 !! key)).
Proof.
  intros Hnodes.
  pose (Inv := fun (work : list ProseElement) (f : Filling) =>
    (forall key value, storage f !! key = Some value ->
       st !! key = Some value
       \/ generatedBy storageCreators nodes key value)
    /\ (forall key, is_Some (st !! key) -> is_Some (storage f !! key))
    /\ Forall (fun p => awaitsGenerator storageCreators p
                        /\ forall n, n ∈ prosePreorder (suspended p) ->
                                     n ∈ nodes) (pool f)
    /\ forall n, n ∈ work -> n ∈ nodes).
  assert (Inv [] (fillStorage storageCreators step schedule st el)) as Hinv.
  { apply fillStorage_invariant; unfold Inv.
    - intros c generator work f Hgen (Hval & Hdom & Hpool & Hwork).
      cbn [suspend storage pool]. repeat split; try assumption.
      + apply Forall_app. split; [exact Hpool |].
        constructor; [| constructor]. cbn [suspended produced]. split.
        * exists generator. split; [| reflexivity].
          exact (generatorFor_Some _ _ _ Hgen).
        * intros n Hn. apply Hwork, elem_of_app. now left.
      + intros n Hn. apply Hwork, elem_of_app. now right.
    - intros c work f _ (Hval & Hdom & Hpool & Hwork).
      assert (storage (callStepOn step c f) = storage f
              /\ pool (callStepOn step c f) = pool f) as [-> ->]
        by (unfold callStepOn; destruct step; auto).
      repeat split; try assumption.
      intros n Hn. apply Hwork. now apply list_elem_of_further.
    - intros i p f Hp (Hval & Hdom & Hpool & _).
      assert (awaitsGenerator storageCreators p
              /\ forall n, n ∈ prosePreorder (suspended p) -> n ∈ nodes)
        as [(generator & Hcreator & Hproduced) Hsub].
      { rewrite Forall_forall in Hpool. apply Hpool.
        apply list_elem_of_lookup. eauto. }
      set (g := mkFilling (storage f) (stepped f) (delete i (pool f))).
      assert (storage (callStepOn step (suspended p)
                         (writeStorage (suspended p) (produced p) g))
              = match Prose.storageKey (suspended p) with
                | Some key => <[key := produced p]> (storage f)
                | None => storage f
                end
              /\ pool (callStepOn step (suspended p)
                         (writeStorage (suspended p) (produced p) g))
                 = delete i (pool f)) as [-> ->].
      { unfold callStepOn, writeStorage.
        destruct step, (Prose.storageKey (suspended p)); auto. }
      split; [| split; [| split]].
      + intros key value.
        destruct (Prose.storageKey (suspended p)) as [k |] eqn:Hk;
          [| apply Hval].
        destruct (decide (k = key)) as [<- | Hne].
        * rewrite lookup_insert_eq. intros [= <-]. right.
          exists (suspended p), generator. repeat split; try assumption.
          apply Hsub. rewrite prosePreorder_unfold. apply list_elem_of_here.
        * rewrite (lookup_insert_ne _ _ _ _ Hne). apply Hval.
      + intros key Hkey. specialize (Hdom key Hkey).
        destruct (Prose.storageKey (suspended p)) as [k |]; [| exact Hdom].
        destruct (decide (k = key)) as [<- | Hne].
        * rewrite lookup_insert_eq. eauto.
        * now rewrite (lookup_insert_ne _ _ _ _ Hne).
      + apply Forall_delete, Hpool.
      + intros n Hn. apply Hsub. rewrite prosePreorder_unfold.
        now apply list_elem_of_further.
    - cbn [storage pool]. split; [auto |]. split; [auto |].
      split; [constructor | exact Hnodes]. }
  destruct Hinv as (Hval & Hdom & _). auto.
Qed.

(** ** What is filled at the end *)

Lemma filled_invariant step schedule st el :
  forall n, n ∈ prosePreorder el ->
    n ∈ poolPreorder (pool (fillStorage storageCreators step schedule st el))
    \/ filled storageCreators
         (storage (fillStorage storageCreators step schedule st el)) n.
Proof.
  pose (Inv := fun (work : list ProseElement) (f : Filling) =>
    forall n, n ∈ prosePreorder el ->
      n ∈ work \/ n ∈ poolPreorder (pool f)
      \/ filled storageCreators (storage f) n).
  assert (Inv [] (fillStorage storageCreators step schedule st el)) as Hinv.
  { apply fillStorage_invariant; unfold Inv.
    - intros c generator work f _ Hf n Hn. cbn [suspend storage pool].
      rewrite poolPreorder_app. unfold poolPreorder at 2.
      cbn [map forestPreorder suspended]. rewrite app_nil_r.
      destruct (Hf n Hn) as [[Hc | Hw]%elem_of_app | [Hp | Hfilled]].
      + right. left. apply elem_of_app. now right.
      + now left.
      + right. left. apply elem_of_app. now left.
      + now right; right.
    - intros c work f Hgen Hf n Hn.
      assert (storage (callStepOn step c f) = storage f
              /\ pool (callStepOn step c f) = pool f) as [-> ->]
        by (unfold callStepOn; destruct step; auto).
      destruct (Hf n Hn) as [[-> | Hw]%elem_of_cons | Hrest].
      + right. right. now apply generatorFor_None.
      + now left.
      + now right.
    - intros i p f Hp Hf n Hn.
      set (g := mkFilling (storage f) (stepped f) (delete i (pool f))).
      assert (storage (callStepOn step (suspended p)
                         (writeStorage (suspended p) (produced p) g))
              = match Prose.storageKey (suspended p) with
                | Some key => <[key := produced p]> (storage f)
                | None => storage f
                end
              /\ pool (callStepOn step (suspended p)
                         (writeStorage (suspended p) (produced p) g))
                 = delete i (pool f)) as [-> ->].
      { unfold callStepOn, writeStorage.
        destruct step, (Prose.storageKey (suspended p)); auto. }
      assert (forall m, filled storageCreators (storage f) m ->
                filled storageCreators
                  match Prose.storageKey (suspended p) with
                  | Some key => <[key := produced p]> (storage f)
                  | None => storage f
                  end m) as Hmono.
      { intros m Hm key generator Hkey Hcreator.
        specialize (Hm key generator Hkey Hcreator).
        destruct (Prose.storageKey (suspended p)) as [k |]; [| exact Hm].
        destruct (decide (k = key)) as [<- | Hne].
        - rewrite lookup_insert_eq. eauto.
        - now rewrite (lookup_insert_ne _ _ _ _ Hne). }
      destruct (Hf n Hn) as [Hw | [Hpool | Hfilled]].
      + inversion Hw.
      + rewrite (poolPreorder_delete _ _ _ Hp), prosePreorder_unfold in Hpool.
        apply elem_of_app in Hpool as [[-> | Hc]%elem_of_cons | Hrest].
        * right. right. intros key generator Hkey Hcreator.
          apply truthyStr_Some in Hkey. rewrite Hkey.
          rewrite lookup_insert_eq. eauto.
        * now left.
        * now right; left.
      + right. right. now apply Hmono.
    - intros n Hn. now left. }
  intros n Hn. destruct (Hinv n Hn) as [Hw | Hrest]; [inversion Hw | exact Hrest].
Qed.

(** ** Nothing to generate *)

Lemma startChildren_plain step st cs :
  Forall (fun c => forall done,
            createStorageFor storageCreators step FromStart c
              (mkFilling st done [])
            = mkFilling st (done ++ if step then prosePreorder c else [])
                        []) cs ->
  forall done,
    startChildren storageCreators step cs (mkFilling st done [])
    = mkFilling st (done ++ if step then forestPreorder cs else []) [].
Proof.
  induction 1 as [| c cs Hc _ IH]; intros done; cbn [startChildren].
  - destruct step; now rewrite app_nil_r.
  - rewrite Hc, IH. destruct step; cbn [forestPreorder].
    + now rewrite <- app_assoc.
    + now rewrite !app_nil_r.
Qed.

Lemma createStorageFor_plain step st : forall el done,
  Forall (fun n => generatorFor storageCreators st n = None)
         (prosePreorder el) ->
  createStorageFor storageCreators step FromStart el (mkFilling st done [])
  = mkFilling st (done ++ if step then prosePreorder el else []) [].
Proof.
  induction el as [el IH] using ProseElement_children_ind.
  intros done Hnone. rewrite createStorageFor_unfold.
  rewrite prosePreorder_unfold in Hnone |- *.
  apply Forall_cons in Hnone as [Hel Hcs]. cbn [storage]. rewrite Hel.
  unfold proceed, childrenPreorder in *.
  destruct (Prose.children el) as [cs |].
  - assert (callStepOn step el (mkFilling st done [])
            = mkFilling st (done ++ if step then [el] else []) []) as ->.
    { unfold callStepOn. destruct step; [reflexivity |].
      now rewrite app_nil_r. }
    rewrite startChildren_plain.
    + destruct step; [now rewrite <- app_assoc | now rewrite !app_nil_r].
    + clear - IH Hcs. induction cs as [| c cs IHcs]; [constructor |].
      apply Forall_cons in IH as [Hc IH]. cbn [forestPreorder] in Hcs.
      apply Forall_app in Hcs as [Hcs1 Hcs2].
      constructor; [| now apply IHcs].
      intros done. now apply Hc.
  - unfold callStepOn. destruct step; [reflexivity |].
    now rewrite app_nil_r.
Qed.

End FillMore.


(** X22. For a tree that reads own properties only, the side table only
    gets values from generators: under every schedule, an entry is the one
    from before the call or the value that the generator of an element's
    schema produced for an element with this storage key; no entry is
    removed; and a key that no element of the tree carries holds what it
    held before. *)
Theorem only_generated_values_written
    (storageCreators : gmap string (ProseElement -> JsValue)) (step : bool)
    (schedule : list nat) (st : gmap string JsValue) (el : ProseElement)
    (key : string) :
  readsOwnProperties el = true ->
  (forall value,
     storage (fillStorage storageCreators step schedule st el) !! key
     = Some value ->
     st !! key = Some value
     \/ generatedBy storageCreators (prosePreorder el) key value)
  /\ (is_Some (st !! key) ->
      is_Some (storage (fillStorage storageCreators step schedule st el)
               !! key))
  /\ (Forall (fun n => Prose.storageKey n <> Some key) (prosePreorder el) ->
      storage (fillStorage storageCreators step schedule st el) !! key
      = st !! key).
Proof.
  intros _.
  destruct (provenance_invariant storageCreators step st (prosePreorder el)
              schedule el (fun n Hn => Hn)) as [Hval Hdom].
  split; [intros value; apply Hval |]. split; [apply Hdom |].
  intros Hnone.
  assert (forall value,
            ~ generatedBy storageCreators (prosePreorder el) key value)
    as Hnot.
  { intros value (n & generator & Hn & Hkey & _).
    rewrite Forall_forall in Hnone. exact (Hnone n Hn Hkey). }
  destruct (storage (fillStorage storageCreators step schedule st el) !! key)
    as [value |] eqn:Hafter.
  - destruct (Hval _ _ Hafter) as [Hst | Hgen]; [now symmetry |].
    now destruct (Hnot _ Hgen).
  - destruct (st !! key) as [value |] eqn:Hbefore; [| reflexivity].
    destruct (Hdom key) as [v Hv]; [rewrite Hbefore; eauto |]. congruence.
Qed.

Lemma only_generated_values_written_witness :
  (forall value,
     storage (fillStorage sampleCreators true [1%nat; 0%nat]
                {["bird.jpg" := JNum 0]} sampleAlbum) !! "cat.jpg"
     = Some value ->
     ({["bird.jpg" := JNum 0]} : gmap string JsValue) !! "cat.jpg"
     = Some value
     \/ generatedBy sampleCreators (prosePreorder sampleAlbum) "cat.jpg"
          value)
  /\ (is_Some (({["bird.jpg" := JNum 0]} : gmap string JsValue)
               !! "cat.jpg") ->
      is_Some (storage (fillStorage sampleCreators true [1%nat; 0%nat]
                          {["bird.jpg" := JNum 0]} sampleAlbum)
               !! "cat.jpg"))
  /\ (Forall (fun n => Prose.storageKey n <> Some "cat.jpg")
             (prosePreorder sampleAlbum) ->
      storage (fillStorage sampleCreators true [1%nat; 0%nat]
                 {["bird.jpg" := JNum 0]} sampleAlbum) !! "cat.jpg"
      = ({["bird.jpg" := JNum 0]} : gmap string JsValue) !! "cat.jpg").
Proof.
  apply (only_generated_values_written sampleCreators true [1%nat; 0%nat]
           {["bird.jpg" := JNum 0]} sampleAlbum "cat.jpg").
  vm_compute. reflexivity.
Defined.

(** X23. For a tree that reads own properties only: when the call has
    completed, every element that has a storage key and whose schema has a
    generator has an entry in the side table under its key. *)
Theorem completed_call_filled_every_key
    (storageCreators : gmap string (ProseElement -> JsValue)) (step : bool)
    (schedule : list nat) (st : gmap string JsValue) (el n : ProseElement) :
  readsOwnProperties el = true ->
  completed (fillStorage storageCreators step schedule st el) = true ->
  n ∈ prosePreorder el ->
  filled storageCreators
    (storage (fillStorage storageCreators step schedule st el)) n.
Proof.
  intros _ Hdone Hn.
  destruct (filled_invariant storageCreators step schedule st el n Hn)
    as [Hpool | Hfilled]; [| exact Hfilled].
  unfold completed in Hdone.
  destruct (pool (fillStorage storageCreators step schedule st el));
    [inversion Hpool | discriminate].
Qed.

Lemma completed_call_filled_every_key_witness :
  filled sampleCreators
    (storage (fillStorage sampleCreators true [1%nat; 0%nat] ∅ sampleAlbum))
    sampleImage.
Proof.
  apply (completed_call_filled_every_key sampleCreators true [1%nat; 0%nat]
           ∅ sampleAlbum sampleImage).
  - vm_compute. reflexivity.
  - vm_compute. reflexivity.
  - vm_compute. apply list_elem_of_further, list_elem_of_here.
Defined.

(** X24. For a tree that reads own properties only: when no element of
    the tree needs a value (no storage key, an entry that is truthy, or no
    generator for the schema), [fillStorage] completes without suspending,
    whatever the schedule: the side table is as before, and [step] is
    called on every element, a parent before its children, the children
    from left to right. *)
Theorem nothing_to_generate
    (storageCreators : gmap string (ProseElement -> JsValue)) (step : bool)
    (schedule : list nat) (st : gmap string JsValue) (el : ProseElement) :
  readsOwnProperties el = true ->
  Forall (fun n => generatorFor storageCreators st n = None)
         (prosePreorder el) ->
  fillStorage storageCreators step schedule st el
  = mkFilling st (if step then prosePreorder el else []) [].
Proof.
  intros _ Hnone. unfold fillStorage.
  rewrite (createStorageFor_plain storageCreators step st el [] Hnone).
  cbn [app]. induction schedule as [| i schedule IH]; [reflexivity |].
  cbn [fold_left]. unfold resume at 2. cbn [pool].
  now rewrite lookup_nil.
Qed.

Lemma nothing_to_generate_witness :
  fillStorage sampleCreators true [0%nat; 3%nat]
              {["cat.jpg" := JObj 7; "dog.jpg" := JObj 8]} sampleAlbum
  = mkFilling {["cat.jpg" := JObj 7; "dog.jpg" := JObj 8]}
              (prosePreorder sampleAlbum) [].
Proof.
  apply (nothing_to_generate sampleCreators true [0%nat; 3%nat]
           {["cat.jpg" := JObj 7; "dog.jpg" := JObj 8]} sampleAlbum).
  - vm_compute. reflexivity.
  - repeat constructor.
Defined.

(* ===================================================================== *)
(** ** Distinct storage keys: the schedule does not matter *)
(* ===================================================================== *)

Lemma rotate_Permutation {A} (l1 l2 l3 : list A) :
  l2 ++ l3 ++ l1 ≡ₚ (l1 ++ l2) ++ l3.
Proof.
  rewrite <- (app_assoc l1), (Permutation_app_comm l1 (l2 ++ l3)).
  now rewrite <- app_assoc.
Qed.

Lemma omap_cons_eq {A B} (f : A -> option B) (a : A) (l : list A) :
  omap f (a :: l)
  = match f a with
    | Some b => b :: omap f l
    | None => omap f l
    end.
Proof. reflexivity. Qed.

Lemma keys_inj {A B} (f : A -> option B) (l : list A) x y k :
  NoDup (omap f l) -> x ∈ l -> y ∈ l -> f x = Some k -> f y = Some k ->
  x = y.
Proof.
  induction l as [| a l IH]; intros Hnd Hx Hy Hfx Hfy; [inversion Hx |].
  rewrite omap_cons_eq in Hnd.
  apply elem_of_cons in Hx as [-> | Hx], Hy as [-> | Hy].
  - reflexivity.
  - rewrite Hfx in Hnd. apply NoDup_cons in Hnd as [Hk _].
    exfalso. apply Hk. apply list_elem_of_omap. eauto.
  - rewrite Hfy in Hnd. apply NoDup_cons in Hnd as [Hk _].
    exfalso. apply Hk. apply list_elem_of_omap. eauto.
  - apply IH; try assumption.
    destruct (f a); [now apply NoDup_cons in Hnd as [_ ?] | exact Hnd].
Qed.

Section FillSettles.
Variable storageCreators : gmap string (ProseElement -> JsValue).
Variable step : bool.
Variable st : gmap string JsValue.
Variable el : ProseElement.
Hypothesis Hkeys : NoDup (storageKeys (prosePreorder el)).

Local Abbreviation nodes := (prosePreorder el).
Local Abbreviation settling := (settling storageCreators st nodes).
Local Abbreviation expectedEntry := (expectedEntry storageCreators st).

(** The generator of an element depends on the entry of its key only. *)
Lemma generatorFor_entry st1 st2 c :
  (forall key, keyOf c = Some key -> st1 !! key = st2 !! key) ->
  generatorFor storageCreators st1 c = generatorFor storageCreators st2 c.
Proof.
  intros Hsame. unfold generatorFor, readStorage. unfold keyOf in Hsame.
  destruct (truthyStr (Prose.storageKey c)) as [key |]; [| reflexivity].
  now rewrite (Hsame key eq_refl).
Qed.

Lemma generatorFor_keyOf stx c generator :
  generatorFor storageCreators stx c = Some generator ->
  exists key, keyOf c = Some key /\ Prose.storageKey c = Some key.
Proof.
  unfold generatorFor, keyOf.
  destruct (truthyStr (Prose.storageKey c)) as [key |] eqn:Hkey;
    [| discriminate].
  intros _. exists key. split; [reflexivity |]. now apply truthyStr_Some.
Qed.

Lemma settling_schedule schedule :
  settling (poolPreorder
              (pool (fillStorage storageCreators step schedule st el)))
           (fillStorage storageCreators step schedule st el).
Proof.
  pose (Inv := fun (work : list ProseElement) (f : Filling) =>
                 settling (work ++ poolPreorder (pool f)) f).
  assert (Inv [] (fillStorage storageCreators step schedule st el)) as Hinv;
    [| exact Hinv].
  apply fillStorage_invariant; unfold Inv.
  - (* a call is suspended *)
    intros c generator work f Hgen (Hfree & Hkeyed & Hin & Hpnd & Hpool).
    assert (forall n,
              n ∈ work ++ poolPreorder (pool f ++ [mkPending c (generator c)])
              <-> n ∈ (prosePreorder c ++ work) ++ poolPreorder (pool f))
      as Hsame.
    { intros n. rewrite poolPreorder_app. unfold poolPreorder at 2.
      cbn [map forestPreorder suspended]. rewrite app_nil_r, !elem_of_app.
      tauto. }
    cbn [suspend storage pool].
    split; [exact Hfree |]. split; [| split; [| split]].
    + intros n key Hn Hkey. destruct (Hkeyed n key Hn Hkey) as [H1 H2].
      split; intros Hp; [apply H1 | apply H2]; now rewrite <- Hsame.
    + intros n Hn. apply Hin. now apply Hsame.
    + rewrite poolPreorder_app. unfold poolPreorder at 2.
      cbn [map forestPreorder suspended]. rewrite app_nil_r.
      eapply NoDup_Permutation_proper; [| exact Hpnd].
      unfold storageKeys. apply omap_Permutation.
      apply rotate_Permutation.
    + apply Forall_app. split; [exact Hpool |].
      constructor; [| constructor]. cbn [suspended produced].
      exists generator. split; [| reflexivity]. rewrite <- Hgen.
      symmetry. apply generatorFor_entry. intros key Hkey.
      apply (Hkeyed c key); [| exact Hkey |].
      * apply Hin. rewrite prosePreorder_unfold. cbn. apply list_elem_of_here.
      * rewrite prosePreorder_unfold. cbn. apply list_elem_of_here.
  - (* an element without a generator is passed *)
    intros c work f Hgen (Hfree & Hkeyed & Hin & Hpnd & Hpool).
    cbv delta [settling] beta.
    assert (storage (callStepOn step c f) = storage f
            /\ pool (callStepOn step c f) = pool f) as [-> ->]
      by (unfold callStepOn; destruct step; auto).
    cbn [app] in *.
    assert (c ∈ nodes) as Hc by (apply Hin, list_elem_of_here).
    split; [exact Hfree |]. split; [| split; [| split]].
    + intros n key Hn Hkey. destruct (Hkeyed n key Hn Hkey) as [H1 H2].
      split.
      * intros Hp. apply H1. now apply list_elem_of_further.
      * intros Hp. destruct (decide (keyOf c = Some key)) as [Hck | Hne].
        -- assert (n = c) as ->
             by exact (keys_inj keyOf nodes _ _ _ Hkeys Hn Hc Hkey Hck).
           rewrite (H1 (list_elem_of_here _ _)).
           cbv delta [expectedEntry] beta.
           rewrite <- (generatorFor_entry (storage f) st c), Hgen;
             [reflexivity |].
           intros key' Hkey'.
           apply (Hkeyed c key' Hc Hkey'), list_elem_of_here.
        -- apply H2. intros [-> | Hp']%elem_of_cons; contradiction.
    + intros n Hn. apply Hin. now apply list_elem_of_further.
    + unfold storageKeys in *. rewrite omap_cons_eq in Hpnd.
      destruct (keyOf c); [now apply NoDup_cons in Hpnd as [_ ?] | exact Hpnd].
    + exact Hpool.
  - (* a call resumes *)
    intros i p f Hp (Hfree & Hkeyed & Hin & Hpnd & Hpool).
    cbn [app] in *.
    assert (exists generator,
              generatorFor storageCreators st (suspended p) = Some generator
              /\ produced p = generator (suspended p))
      as (generator & Hgen & Hproduced).
    { rewrite Forall_forall in Hpool. apply Hpool.
      apply list_elem_of_lookup. eauto. }
    destruct (generatorFor_keyOf _ _ _ Hgen) as (k & Hk & Hraw).
    cbv delta [settling] beta.
    set (g := mkFilling (storage f) (stepped f) (delete i (pool f))).
    assert (storage (callStepOn step (suspended p)
                       (writeStorage (suspended p) (produced p) g))
            = <[k := produced p]> (storage f)
            /\ pool (callStepOn step (suspended p)
                       (writeStorage (suspended p) (produced p) g))
               = delete i (pool f)) as [-> ->].
    { unfold callStepOn, writeStorage. rewrite Hraw. destruct step; auto. }
    pose proof (poolPreorder_delete _ _ _ Hp) as Hperm.
    rewrite prosePreorder_unfold in Hperm. cbn [app] in Hperm.
    set (pending := childrenPreorder (suspended p)
                    ++ poolPreorder (delete i (pool f))) in *.
    assert (suspended p ∈ nodes) as Hnode.
    { apply Hin. rewrite Hperm. apply list_elem_of_here. }
    assert ((k ∉ storageKeys pending) /\ NoDup (storageKeys pending))
      as [Hfresh Hpnd'].
    { unfold storageKeys in *. rewrite Hperm, omap_cons_eq, Hk in Hpnd.
      now apply NoDup_cons in Hpnd. }
    split; [| split; [| split; [| split]]].
    + intros key Hnone. rewrite lookup_insert_ne; [now apply Hfree |].
      intros <-. exact (Hnone _ Hnode Hk).
    + intros n key Hn Hkey. destruct (Hkeyed n key Hn Hkey) as [H1 H2].
      split.
      * intros Hpending.
        rewrite lookup_insert_ne.
        -- apply H1. rewrite Hperm. now apply list_elem_of_further.
        -- intros <-. apply Hfresh. apply list_elem_of_omap. eauto.
      * intros Hpending. destruct (decide (k = key)) as [<- | Hne].
        -- assert (n = suspended p) as ->
             by exact (keys_inj keyOf nodes _ _ _ Hkeys Hn Hnode Hkey Hk).
           rewrite lookup_insert_eq. cbv delta [expectedEntry] beta.
           now rewrite Hgen, Hproduced.
        -- rewrite (lookup_insert_ne _ _ _ _ Hne).
           apply H2. rewrite Hperm.
           intros [-> | Hp']%elem_of_cons; [congruence | contradiction].
    + intros n Hn. apply Hin. rewrite Hperm. now apply list_elem_of_further.
    + exact Hpnd'.
    + apply Forall_delete, Hpool.
  - (* before the call *)
    cbn [pool storage]. unfold poolPreorder. cbn [map forestPreorder].
    rewrite app_nil_r.
    split; [reflexivity |]. split; [| split; [| split]].
    + intros n key Hn Hkey. split; [reflexivity | contradiction].
    + auto.
    + exact Hkeys.
    + constructor.
Qed.

(** The side table of a completed call. *)
Lemma settled schedule key :
  completed (fillStorage storageCreators step schedule st el) = true ->
  storage (fillStorage storageCreators step schedule st el) !! key
  = match List.find (fun n => bool_decide (keyOf n = Some key)) nodes with
    | Some n => expectedEntry n key
    | None => st !! key
    end.
Proof.
  intros Hdone.
  destruct (settling_schedule schedule) as (Hfree & Hkeyed & _).
  unfold completed in Hdone.
  destruct (pool (fillStorage storageCreators step schedule st el));
    [| discriminate].
  destruct (List.find _ nodes) as [n |] eqn:Hfind.
  - apply List.find_some in Hfind as [Hn Hkey].
    apply bool_decide_eq_true in Hkey.
    apply (Hkeyed n key); [now apply list_elem_of_In | exact Hkey |].
    intros Hin. inversion Hin.
  - apply Hfree. intros n Hn Hkey.
    assert (bool_decide (keyOf n = Some key) = false) as Hnot.
    { apply (List.find_none _ _ Hfind n). now apply list_elem_of_In. }
    now apply bool_decide_eq_false in Hnot.
Qed.

End FillSettles.

(** X27. For a tree that reads own properties only: when the storage
    keys of the elements of the tree are distinct, the side table of a
    completed call does not depend on the order in which the generators
    settle, nor on [step]: every such call leaves the generated value under
    the key of each element that needed one, and every other entry as it
    was. *)
Theorem distinct_keys_schedule_independent
    (storageCreators : gmap string (ProseElement -> JsValue))
    (step1 step2 : bool) (schedule1 schedule2 : list nat)
    (st : gmap string JsValue) (el : ProseElement) :
  readsOwnProperties el = true ->
  NoDup (storageKeys (prosePreorder el)) ->
  completed (fillStorage storageCreators step1 schedule1 st el) = true ->
  completed (fillStorage storageCreators step2 schedule2 st el) = true ->
  storage (fillStorage storageCreators step1 schedule1 st el)
  = storage (fillStorage storageCreators step2 schedule2 st el)
  /\ forall n key,
       n ∈ prosePreorder el -> keyOf n = Some key ->
       storage (fillStorage storageCreators step1 schedule1 st el) !! key
       = expectedEntry storageCreators st n key.
Proof.
  intros _ Hkeys Hdone1 Hdone2. split.
  - apply map_eq. intros key.
    now rewrite !(settled storageCreators _ st el Hkeys _ key).
  - intros n key Hn Hkey.
    destruct (settling_schedule storageCreators step1 st el Hkeys schedule1)
      as (_ & Hkeyed & _).
    unfold completed in Hdone1.
    destruct (pool (fillStorage storageCreators step1 schedule1 st el));
      [| discriminate].
    apply (Hkeyed n key Hn Hkey). intros Hin. inversion Hin.
Qed.

Lemma distinct_keys_schedule_independent_witness :
  storage (fillStorage sampleCreators true [1%nat; 0%nat] ∅ sampleAlbum)
  = storage (fillStorage sampleCreators false [0%nat; 0%nat] ∅ sampleAlbum)
  /\ forall n key,
       n ∈ prosePreorder sampleAlbum -> keyOf n = Some key ->
       storage (fillStorage sampleCreators true [1%nat; 0%nat] ∅ sampleAlbum)
         !! key
       = expectedEntry sampleCreators ∅ n key.
Proof.
  apply (distinct_keys_schedule_independent sampleCreators true false
           [1%nat; 0%nat] [0%nat; 0%nat] ∅ sampleAlbum).
  - vm_compute. reflexivity.
  - apply (bool_decide_unpack _). vm_compute. exact I.
  - vm_compute. reflexivity.
  - vm_compute. reflexivity.
Defined.
(* ===================================================================== *)
(** * Facts about document identifiers and the comma scan *)
(* ===================================================================== *)

Lemma append_length (a b : string) :
  String.length (a +:+ b) = (String.length a + String.length b)%nat.
Proof.
  induction a as [| x a IH]; [reflexivity |].
  change (Datatypes.S (String.length (a +:+ b))
          = Datatypes.S (String.length a + String.length b)).
  now f_equal.
Qed.

Lemma append_inj_r (s : string) : forall a b, a +:+ s = b +:+ s -> a = b.
Proof.
  induction a as [| x a IH]; intros [| y b] Heq.
  - reflexivity.
  - apply (f_equal String.length) in Heq.
    change (String.length s
            = Datatypes.S (String.length (b +:+ s))) in Heq.
    rewrite append_length in Heq. lia.
  - apply (f_equal String.length) in Heq.
    change (Datatypes.S (String.length (a +:+ s)) = String.length s) in Heq.
    rewrite append_length in Heq. lia.
  - change (String x (a +:+ s) = String y (b +:+ s)) in Heq.
    injection Heq as -> Heq. f_equal. now apply IH.
Qed.

Lemma autoId_inj : Inj (=) (=) autoId.
Proof.
  intros n m Heq. unfold autoId in Heq.
  apply String.app_inj, append_inj_r in Heq.
  now apply natToString_inj.
Qed.

Lemma tryAddDocumentId_returns requests request d d1 documentId :
  autoIdsReserved (request :: requests) d ->
  tryAddDocumentId request d = (d1, inl documentId) ->
  (documentId ∉ documentIds d)
  /\ documentIds d1 = {[documentId]} ∪ documentIds d
  /\ autoIdsReserved requests d1.
Proof.
  intros Hres Htry. unfold tryAddDocumentId in Htry.
  destruct request as [explicit |].
  - destruct (decide (explicit ∈ documentIds d)) as [| Hfresh];
      [discriminate |].
    injection Htry as <- <-. cbn [documentIds].
    split; [exact Hfresh |]. split; [reflexivity |].
    intros m Hm. cbn in Hm. destruct (Hres m Hm) as [Hout Hreq]. split.
    + cbn. intros [Heq%elem_of_singleton | Hin]%elem_of_union;
        [| contradiction].
      apply Hreq. rewrite Heq. apply list_elem_of_here.
    + intros Hin. apply Hreq. now apply list_elem_of_further.
  - injection Htry as <- <-. cbn [documentIds].
    destruct (Hres (autoIdCounter d) (le_n _)) as [Hout _].
    split; [exact Hout |]. split; [reflexivity |].
    intros m Hm. cbn in Hm. destruct (Hres m) as [Hout' Hreq]; [lia |].
    split.
    + cbn. intros [Heq%elem_of_singleton | Hin]%elem_of_union;
        [| contradiction].
      apply autoId_inj in Heq. lia.
    + intros Hin. apply Hreq. now apply list_elem_of_further.
Qed.

Lemma tryAddDocumentId_throws request d d1 e :
  tryAddDocumentId request d = (d1, inr e) ->
  d1 = d /\ exists documentId,
             request = Some documentId /\ documentId ∈ documentIds d
             /\ e = DuplicateDocumentId documentId.
Proof.
  unfold tryAddDocumentId. destruct request as [explicit |];
    [| discriminate].
  destruct (decide (explicit ∈ documentIds d)); [| discriminate].
  intros [= <- <-]. eauto.
Qed.

(** X25. Over any sequence of [defineDocument] calls, the identifiers of
    the calls that returned are pairwise distinct and were not in use
    before, and they are what is added to the set of identifiers, as long
    as no explicit identifier has the form of an automatic identifier
    that is still to come. (An automatic identifier is not checked
    against the set.) *)
Theorem document_ids_distinct (requests : list (option string))
    (d d' : Documents) (returned : list string) :
  autoIdsReserved requests d ->
  defineAll requests d = (d', returned) ->
  NoDup returned
  /\ (forall i, i ∈ returned -> i ∉ documentIds d)
  /\ documentIds d' = list_to_set returned ∪ documentIds d.
Proof.
  revert d d' returned.
  induction requests as [| request rest IH]; intros d d' returned Hres.
  - cbn. intros [= <- <-]. split; [constructor |]. split; [| set_solver].
    intros i Hi. inversion Hi.
  - cbn [defineAll].
    destruct (tryAddDocumentId request d) as [d1 [documentId | e]] eqn:Htry.
    + destruct (defineAll rest d1) as [d2 others] eqn:Hrest.
      intros [= <- <-].
      destruct (tryAddDocumentId_returns _ _ _ _ _ Hres Htry)
        as (Hfresh & Hids & Hres1).
      destruct (IH _ _ _ Hres1 Hrest) as (Hnd & Hout & Hids2).
      split; [| split].
      * constructor; [| exact Hnd]. intros Hin.
        apply (Hout _ Hin). rewrite Hids. set_solver.
      * intros i [-> | Hi]%elem_of_cons; [exact Hfresh |].
        specialize (Hout i Hi). rewrite Hids in Hout. set_solver.
      * rewrite Hids2, Hids. cbn [list_to_set]. set_solver.
    + apply tryAddDocumentId_throws in Htry as [-> _].
      apply IH. intros m Hm. destruct (Hres m Hm) as [Hout Hreq].
      split; [exact Hout |]. intros Hin. apply Hreq.
      now apply list_elem_of_further.
Qed.

Lemma sampleRequests_reserved :
  autoIdsReserved sampleRequests initialDocuments.
Proof.
  intros n _. split; [set_solver |]. intros Hin.
  unfold sampleRequests in Hin.
  repeat (apply elem_of_cons in Hin as [Heq | Hin]; [discriminate Heq |]).
  inversion Hin.
Qed.

Lemma document_ids_distinct_witness :
  NoDup [autoId 1; "intro"; autoId 2]
  /\ (forall i, i ∈ [autoId 1; "intro"; autoId 2] ->
        i ∉ documentIds initialDocuments)
  /\ documentIds (fst (defineAll sampleRequests initialDocuments))
     = list_to_set [autoId 1; "intro"; autoId 2]
       ∪ documentIds initialDocuments.
Proof.
  apply (document_ids_distinct sampleRequests initialDocuments
           (fst (defineAll sampleRequests initialDocuments))).
  - exact sampleRequests_reserved.
  - vm_compute. reflexivity.
Defined.

Section CommaScan.
Import Comma.

Lemma scan_true chars : forall depth inString escaped,
  scan depth inString escaped chars = true -> ","%char ∈ chars.
Proof.
  induction chars as [| char rest IH]; intros depth inString escaped;
    [discriminate |].
  cbn [scan]. intros Hscan.
  assert (forall d q e, scan d q e rest = true -> ","%char ∈ char :: rest)
    as Hrest.
  { intros d q e Hr. apply list_elem_of_further. exact (IH _ _ _ Hr). }
  destruct escaped; [exact (Hrest _ _ _ Hscan) |].
  destruct (Ascii.eqb char backslash); [exact (Hrest _ _ _ Hscan) |].
  destruct inString as [quote |].
  - destruct (Ascii.eqb char quote); exact (Hrest _ _ _ Hscan).
  - destruct (isQuote char); [exact (Hrest _ _ _ Hscan) |].
    destruct (isOpening char); [exact (Hrest _ _ _ Hscan) |].
    destruct (isClosing char).
    + destruct (Z.eqb depth 0 && Ascii.eqb char ")"); [discriminate |].
      exact (Hrest _ _ _ Hscan).
    + destruct (Ascii.eqb_spec char ",") as [-> | Hne].
      * apply list_elem_of_here.
      * cbn [andb] in Hscan. exact (Hrest _ _ _ Hscan).
Qed.

Lemma inert_parts char :
  inert char = true ->
  isQuote char = false /\ isOpening char = false /\ isClosing char = false
  /\ Ascii.eqb char backslash = false.
Proof.
  unfold inert. rewrite negb_true_iff, !orb_false_iff. tauto.
Qed.

(** An inert character that is not a comma at depth zero is passed
    over. *)
Lemma scan_inert depth char rest :
  inert char = true ->
  isComma char && Z.eqb depth 0 = false ->
  scan depth None false (char :: rest) = scan depth None false rest.
Proof.
  intros (Hq & Ho & Hc & Hb)%inert_parts Hcomma. unfold isComma in Hcomma.
  cbn [scan]. now rewrite Hb, Hq, Ho, Hc, Hcomma.
Qed.

Lemma scan_inert_run depth chars rest :
  Forall (fun char => inert char = true
                      /\ isComma char && Z.eqb depth 0 = false) chars ->
  scan depth None false (chars ++ rest) = scan depth None false rest.
Proof.
  induction 1 as [| char chars [Hi Hc] _ IH]; [reflexivity |].
  cbn [app]. now rewrite scan_inert.
Qed.

Lemma scan_in_string depth quote chars rest :
  Ascii.eqb quote backslash = false ->
  Forall (fun char => char <> quote /\ char <> backslash) chars ->
  scan depth (Some quote) false (chars ++ quote :: rest)
  = scan depth None false rest.
Proof.
  intros Hq. induction 1 as [| char chars [Hc Hb] _ IH]; cbn [app scan].
  - now rewrite Hq, Ascii.eqb_refl.
  - apply Ascii.eqb_neq in Hc, Hb. now rewrite Hb, Hc.
Qed.

Lemma isQuote_not_backslash quote :
  isQuote quote = true -> Ascii.eqb quote backslash = false.
Proof.
  unfold isQuote. rewrite !orb_true_iff, !Ascii.eqb_eq.
  intros [[-> | ->] | ->]; reflexivity.
Qed.

End CommaScan.

(** X26. [hasCommaBeforeDefinition] answers true only for a text with a
    comma, and counts a comma only at the top level: after characters
    that are no quotes, brackets, backslashes or commas, a comma gives
    true and a closing parenthesis gives false; a bracketed group without
    inner quotes, brackets and backslashes is passed over with the commas
    in it, and so is a quoted string without backslashes. *)
Theorem comma_counts_only_at_top_level :
  (forall afterParen,
     Comma.hasCommaBeforeDefinition afterParen = true ->
     ","%char ∈ list_ascii_of_string afterParen)
  /\ (forall before rest,
        Forall (fun char => inert char = true /\ isComma char = false)
               before ->
        Comma.hasCommaBeforeDefinition
          (string_of_list_ascii (before ++ ","%char :: rest)) = true
        /\ Comma.hasCommaBeforeDefinition
             (string_of_list_ascii (before ++ ")"%char :: rest)) = false)
  /\ (forall depth opening inner closing rest,
        0 <= depth ->
        Comma.isOpening opening = true ->
        Comma.isClosing closing = true ->
        Forall (fun char => inert char = true) inner ->
        Comma.scan depth None false (opening :: inner ++ closing :: rest)
        = Comma.scan depth None false rest)
  /\ (forall depth quote inner rest,
        Comma.isQuote quote = true ->
        Forall (fun char => char <> quote /\ char <> Comma.backslash)
               inner ->
        Comma.scan depth None false (quote :: inner ++ quote :: rest)
        = Comma.scan depth None false rest).
Proof.
  split; [| split; [| split]].
  - intros afterParen. apply scan_true.
  - intros before rest Hbefore. unfold Comma.hasCommaBeforeDefinition.
    rewrite !list_ascii_of_string_of_list_ascii.
    rewrite !scan_inert_run.
    + split; reflexivity.
    + eapply Forall_impl; [exact Hbefore |]. cbn. intros c [-> ->]. auto.
    + eapply Forall_impl; [exact Hbefore |]. cbn. intros c [-> ->]. auto.
  - intros depth opening inner closing rest Hdepth Hopen Hclose Hinner.
    assert (Comma.isQuote opening = false
            /\ Ascii.eqb opening Comma.backslash = false) as [Hq Hb].
    { unfold Comma.isOpening in Hopen.
      rewrite !orb_true_iff, !Ascii.eqb_eq in Hopen.
      destruct Hopen as [[-> | ->] | ->]; split; reflexivity. }
    assert (Comma.isQuote closing = false
            /\ Comma.isOpening closing = false
            /\ Ascii.eqb closing Comma.backslash = false) as (Hq' & Ho' & Hb').
    { unfold Comma.isClosing in Hclose.
      rewrite !orb_true_iff, !Ascii.eqb_eq in Hclose.
      destruct Hclose as [[-> | ->] | ->]; repeat split; reflexivity. }
    cbn [Comma.scan]. rewrite Hb, Hq, Hopen.
    rewrite scan_inert_run.
    + cbn [Comma.scan]. rewrite Hb', Hq', Ho', Hclose.
      replace (Z.eqb (depth + 1) 0) with false by (symmetry; lia).
      cbn [andb]. f_equal. lia.
    + eapply Forall_impl; [exact Hinner |]. cbn. intros c ->.
      split; [reflexivity |].
      replace (Z.eqb (depth + 1) 0) with false by (symmetry; lia).
      apply andb_false_r.
  - intros depth quote inner rest Hquote Hinner.
    pose proof (isQuote_not_backslash _ Hquote) as Hb.
    cbn [Comma.scan]. rewrite Hb, Hquote.
    now apply scan_in_string.
Qed.

(** The calls of the tests of [insertDocumentId], after the opening
    parenthesis. *)
Example hasCommaBeforeDefinition_examples :
  Comma.hasCommaBeforeDefinition "{ uniques: {} });" = false
  /\ Comma.hasCommaBeforeDefinition "'existing-id', { uniques: {} });" = true
  /\ Comma.hasCommaBeforeDefinition "myId, { uniques: {} });" = true
  /\ Comma.hasCommaBeforeDefinition "`${id}`, { uniques: {} });" = true
  /\ Comma.hasCommaBeforeDefinition
       "{ uniques: {}, nested: { a: 1, b: 2 } });" = false.
Proof. repeat split; vm_compute; reflexivity. Qed.

(* ===================================================================== *)
(** * normalizeChildren: the objects and what they hold *)
(* ===================================================================== *)

Lemma heldBy_head depth h bound r refs els :
  heldBy depth h bound (r :: refs) els -> (r < bound)%nat.
Proof.
  revert r els. induction refs as [| r' refs IH]; intros r els.
  - destruct els as [| el els]; [intros [] |]. cbn. intros (Hr & _). exact Hr.
  - destruct els as [| el els]; [intros [] |].
    cbn [heldBy]. intros (Hr & _ & Hrest).
    specialize (IH _ _ Hrest). lia.
Qed.

Lemma contentOwned_take depth h h2 n r el :
  (forall i o, (i < n)%nat -> h !! i = Some o -> h2 !! i = Some o) ->
  Obj.contentOwned depth (take n h) r = Some el ->
  Obj.contentOwned depth (take n h2) r = Some el.
Proof.
  intros Hkept. apply contentOwned_agree. intros i o _ Hi.
  apply lookup_take_Some in Hi as [Hi Hlt].
  apply lookup_take_Some. split; [now apply Hkept | exact Hlt].
Qed.

(** Objects created before [bound] that are kept hold what they held. *)
Lemma heldBy_kept depth h h2 bound refs : forall els,
  (forall i o, (i < bound)%nat -> h !! i = Some o -> h2 !! i = Some o) ->
  heldBy depth h bound refs els -> heldBy depth h2 bound refs els.
Proof.
  intros els Hkept. revert els.
  induction refs as [| r refs IH]; intros els; [exact id |].
  destruct els as [| el els]; [exact id |].
  cbn [heldBy]. intros (Hr & Hel & Hrest).
  split; [exact Hr |]. split; [| exact (IH _ Hrest)].
  eapply contentOwned_take; [| exact Hel].
  intros i o Hi. apply Hkept.
  destruct refs as [| r' refs]; [exact Hi |].
  apply heldBy_head in Hrest. lia.
Qed.

Lemma heldBy_raise depth h bound bound2 refs : forall els,
  (bound <= bound2)%nat ->
  heldBy depth h bound refs els -> heldBy depth h bound2 refs els.
Proof.
  intros els Hle. revert els.
  induction refs as [| r refs IH]; intros els; [exact id |].
  destruct els as [| el els]; [exact id |].
  cbn [heldBy]. intros (Hr & Hel & Hrest).
  destruct refs as [| r' refs]; [| auto].
  split; [lia |]. split; [| exact (IH _ Hrest)].
  eapply contentOwned_agree; [| exact Hel].
  intros i o _ Hi. apply lookup_take_Some in Hi as [Hi Hlt].
  apply lookup_take_Some. split; [exact Hi | lia].
Qed.

(** A new child, made when the heap had [bound] objects. *)
Lemma heldBy_snoc depth h bound bound2 refs el : forall els,
  heldBy depth h bound refs els ->
  (bound < bound2)%nat ->
  Obj.contentOwned depth (take bound2 h) bound = Some el ->
  heldBy depth h bound2 (refs ++ [bound]) (els ++ [el]).
Proof.
  induction refs as [| r refs IH]; intros els.
  - destruct els as [| e els]; [| intros []]. cbn. auto.
  - destruct els as [| e els]; [intros [] |].
    cbn [heldBy app]. intros (Hr & Hel & Hrest) Hlt Hnew.
    specialize (IH _ Hrest Hlt Hnew).
    destruct refs as [| r' refs]; cbn [app] in *; auto.
Qed.

Lemma heldBy_before_last depth h bound refs l : forall els,
  heldBy depth h bound (refs ++ [l]) els ->
  Forall (fun r => (r < l)%nat) refs.
Proof.
  induction refs as [| r refs IH]; intros els; [constructor |].
  destruct els as [| e els]; [intros [] |].
  cbn [heldBy app]. intros (Hr & _ & Hrest).
  specialize (IH _ Hrest). constructor; [| exact IH].
  destruct refs as [| r' refs]; cbn [app] in Hr; [exact Hr |].
  apply Forall_cons in IH as [Hlt _]. lia.
Qed.

(** The last child, after a write to it. *)
Lemma heldBy_last depth h bound refs l : forall els,
  heldBy depth h bound (refs ++ [l]) els ->
  exists els0 el,
    els = els0 ++ [el]
    /\ Obj.contentOwned depth (take bound h) l = Some el
    /\ forall h2 el2,
         (forall i o, (i < l)%nat -> h !! i = Some o -> h2 !! i = Some o) ->
         Obj.contentOwned depth (take bound h2) l = Some el2 ->
         heldBy depth h2 bound (refs ++ [l]) (els0 ++ [el2]).
Proof.
  induction refs as [| r refs IH]; intros els.
  - destruct els as [| el [| e els]]; cbn [app heldBy].
    + intros [].
    + intros (Hl & Hel & _). exists [], el. repeat split; auto.
    + intros (_ & _ & []).
  - destruct els as [| e els]; [intros [] |].
    cbn [heldBy app]. intros (Hr & Hel & Hrest).
    destruct (IH _ Hrest) as (els0 & el & -> & Hlast & Hchange).
    exists (e :: els0), el. split; [reflexivity |]. split; [exact Hlast |].
    intros h2 el2 Hkept Hnew. cbn [app heldBy].
    split; [exact Hr |]. split; [| exact (Hchange _ _ Hkept Hnew)].
    eapply contentOwned_take; [| exact Hel].
    intros i o Hi. apply Hkept.
    destruct refs as [| r' refs]; cbn [app] in *; [exact Hi |].
    apply (heldBy_before_last _ _ _ (r' :: refs)) in Hrest.
    apply Forall_cons in Hrest as [Hlt _]. lia.
Qed.

(** What the normalized children hold, read in the heap as it is. *)
Lemma heldBy_contents depth h low refs : forall els,
  heldBy depth h (length h) refs els ->
  Forall (fun r => (low <= r)%nat) refs ->
  Forall2 (fun r el => Obj.contentSince low depth h r = Some el) refs els.
Proof.
  induction refs as [| r refs IH]; intros els.
  - destruct els; [constructor | intros []].
  - destruct els as [| el els]; [intros [] |].
    cbn [heldBy]. intros (_ & Hel & Hrest) Hlow.
    apply Forall_cons in Hlow as [Hr Hlow].
    constructor; [| exact (IH _ Hrest Hlow)].
    eapply contentSince_mono; [exact Hr |].
    apply contentOwned_since.
    eapply contentOwned_agree; [| exact Hel].
    intros i o _ Hi. now apply lookup_take_Some in Hi as [Hi _].
Qed.

Section ObjectsHold.
Context `{Runtime} {S : Type}.
Variable fuel : nat.
Variable depth : nat.
Hypothesis Hdepth : depth <> 0%nat.
Variable step : option (Obj.Heap -> Obj.Ref -> Eff S unit).

Lemma contentOwned_new h o :
  Obj.children o = None ->
  Obj.contentOwned depth (h ++ [o]) (length h) = Some (Obj.toRaw o None).
Proof.
  intros Hch. destruct depth as [| d]; [contradiction |].
  cbn [Obj.contentOwned]. rewrite list_lookup_middle by reflexivity.
  now rewrite Hch.
Qed.

Lemma contentOwned_root d h r el :
  Obj.contentOwned d h r = Some el ->
  exists o, h !! r = Some o /\ Obj.toRaw o (Raw.children el) = el.
Proof.
  destruct d as [| d]; [discriminate |]. cbn [Obj.contentOwned].
  destruct (h !! r) as [o |]; [| discriminate].
  assert (Hsome : forall x y : RawElement, Some x = Some y -> x = y)
    by (intros x y Heq; congruence).
  intros Hown. exists o. split; [reflexivity |].
  destruct (Obj.children o) as [rs |].
  - destruct (mapM _ rs) as [cs |]; [| discriminate].
    apply Hsome in Hown. now rewrite <- Hown.
  - apply Hsome in Hown. now rewrite <- Hown.
Qed.

(** One round, on the objects and on what they hold. *)
Lemma objChild_holds h0 acc accEls c c' h s h1 s1 out :
  (forall i o, h0 !! i = Some o -> h !! i = Some o) ->
  Forall (fun r => (length h0 <= r)%nat) acc ->
  holds depth h0 c c' ->
  heldBy depth h (length h) acc accEls ->
  Obj.normalizeChild fuel depth step acc c (h, s) = ((h1, s1), Ok out) ->
  exists outEls,
    normalizeChild fuel None accEls c' tt = (tt, Ok outEls)
    /\ heldBy depth h1 (length h1) out outEls.
Proof.
  intros Hkept0 Hacc Hholds Hheld Hrun.
  destruct Hholds as [r el Hcontent | u u' Hbound | v].
  - assert (Hcontent1 : Obj.content depth h r = Some el).
    { unfold Obj.content. eapply contentSince_agree; [| exact Hcontent].
      intros i o _. apply Hkept0. }
    destruct (deepClone_content depth r h el Hcontent1)
      as (created & Hclone & Hown).
    cbn [Obj.normalizeChild] in Hrun.
    unfold ebind, Obj.onHeap in Hrun. cbn [fst snd] in Hrun.
    rewrite Hclone in Hrun.
    destruct (Obj.callStep step (length h) _) as [[h2 s2] [[] | e |]] eqn:Es;
      try discriminate.
    apply callStep_heap in Es. cbn in Es. subst h2.
    unfold eret in Hrun. injection Hrun as <- <- <-.
    exists (accEls ++ [el]). split.
    { rewrite (normalizeChild_raw fuel). reflexivity. }
    assert (Hlen : (length h < length (h ++ created))%nat).
    { rewrite length_app. destruct created as [| o created]; [| cbn; lia].
      destruct depth; cbn in Hown; [discriminate |].
      rewrite app_nil_r in Hown.
      now rewrite (lookup_ge_None_2 h (length h)) in Hown by lia. }
    apply heldBy_snoc; [| exact Hlen | now rewrite firstn_all].
    eapply heldBy_kept; [| exact Hheld].
    intros i o _ Ho. now apply lookup_app_l_Some.
  - cbn [Obj.normalizeChild] in Hrun. unfold holdsBound in Hbound.
    destruct (Obj._rawElement u) as [r |] eqn:Hr; [| discriminate].
    destruct (getRawElement u') as [el |] eqn:Hel; [| destruct Hbound].
    assert (Hcontent1 : Obj.content depth h r = Some el).
    { unfold Obj.content. eapply contentSince_agree; [| exact Hbound].
      intros i o _. apply Hkept0. }
    destruct (objChild_unique_content fuel depth step acc u r el h s
                Hr Hcontent1) as (h3 & Hown & Hlen & Hkept & _ & Hthe).
    assert (Hrun' : Obj.normalizeChild fuel depth step acc
                      (Obj.ChildUnique u) (h, s) = ((h1, s1), Ok out)).
    { cbn [Obj.normalizeChild]. rewrite Hr. exact Hrun. }
    destruct (Hthe _ _ _ Hrun') as [-> ->].
    exists (accEls ++ [anonymized el]). split.
    { rewrite (normalizeChild_unique fuel), Hel. reflexivity. }
    apply heldBy_snoc; [| exact Hlen | now rewrite firstn_all].
    eapply heldBy_kept; [| exact Hheld].
    intros i o _ Ho. now apply Hkept.
  - cbn [Obj.normalizeChild normalizeChild] in Hrun |- *.
    unfold ebind, Obj.liftOutcome, liftOutcome, Obj.onHeap, Obj.new,
      callStep, eret in Hrun |- *.
    cbn [fst snd] in Hrun.
    destruct (Hash.hash fuel (jsString v) (NumInt 12)) as [hv | e |];
      try discriminate.
    destruct (Obj.callStep step (length h) _) as [[h2 s2] [[] | e |]] eqn:Es;
      try discriminate.
    apply callStep_heap in Es. cbn in Es. subst h2. cbn [fst snd] in Hrun.
    set (text := Obj.jsxText (jsString v) hv) in *.
    assert (Hpush : heldBy depth (h ++ [text]) (length (h ++ [text]))
                      (acc ++ [length h])
                      (accEls ++ [jsxText (jsString v) hv])).
    { apply heldBy_snoc.
      - eapply heldBy_kept; [| exact Hheld].
        intros i o _ Ho. now apply lookup_app_l_Some.
      - rewrite length_app. cbn. lia.
      - rewrite firstn_all. now apply contentOwned_new. }
    assert (Hshape : acc = [] \/ exists acc0 l, acc = acc0 ++ [l]).
    { destruct (last acc) as [l |] eqn:El.
      - apply last_Some in El as [acc0 ->]. eauto.
      - apply last_None in El. now left. }
    destruct Hshape as [-> | (acc0 & l & ->)].
    + destruct accEls as [| e accEls]; [| destruct Hheld].
      cbn [last] in Hrun |- *.
      injection Hrun as <- <- <-. eexists. split; [reflexivity |].
      exact Hpush.
    + rewrite last_snoc in Hrun.
      destruct (heldBy_last _ _ _ _ _ _ Hheld)
        as (els0 & el & -> & Hlast & Hchange).
      rewrite firstn_all in Hlast.
      destruct (contentOwned_root _ _ _ _ Hlast) as (o & Ho & Hfields).
      rewrite last_snoc.
      unfold Obj.read in Hrun. cbn [fst snd] in Hrun.
      rewrite (lookup_app_l_Some _ _ _ _ Ho) in Hrun.
      cbn beta iota zeta in Hrun.
      assert (Htext : Obj.isRawProseElement o (Some textSchema)
                      = isRawProseElement el (Some textSchema)).
      { rewrite <- Hfields. reflexivity. }
      rewrite Htext in Hrun.
      destruct (isRawProseElement el (Some textSchema)).
      * unfold Obj.write in Hrun. cbn [fst snd] in Hrun.
        assert (Hdata : Obj.data o = Raw.data el)
          by (rewrite <- Hfields; reflexivity).
        rewrite Hdata in Hrun.
        destruct (Hash.hash fuel (appendData (Raw.data el) (jsString v))
                    (NumInt 12)) as [hd | e |]; try discriminate.
        cbn [fst snd] in Hrun. injection Hrun as <- <- <-.
        eexists. split; [reflexivity |].
        rewrite removelast_last.
        pose proof (lookup_lt_Some _ _ _ Ho) as Hl.
        apply (heldBy_raise _ _ (length h));
          [rewrite !length_alter, length_app; lia |].
        apply Hchange.
        -- intros i o' Hi Ho'. rewrite !list_lookup_alter_ne by lia.
           now apply lookup_app_l_Some.
        -- rewrite !take_alter_lt by exact Hl. rewrite take_app_length.
           apply (contentOwned_alter depth _ l _ (Obj.setHash hd)
                    (Raw.setHash hd)); [reflexivity | reflexivity |].
           apply (contentOwned_alter depth _ l _
                    (Obj.setData
                       (JStr (appendData (Raw.data el) (jsString v))))
                    (Raw.setData
                       (JStr (appendData (Raw.data el) (jsString v)))));
             [reflexivity | reflexivity | exact Hlast].
      * injection Hrun as <- <- <-. eexists. split; [reflexivity |].
        exact Hpush.
Qed.

Lemma objLoop_holds h0 cs : forall cs' acc accEls h s h1 s1 out,
  (forall i o, h0 !! i = Some o -> h !! i = Some o) ->
  Forall (fun r => (length h0 <= r)%nat) acc ->
  Forall2 (holds depth h0) cs cs' ->
  heldBy depth h (length h) acc accEls ->
  Obj.normalizeLoop fuel depth step acc cs (h, s) = ((h1, s1), Ok out) ->
  exists outEls,
    normalizeLoop fuel None accEls cs' tt = (tt, Ok outEls)
    /\ heldBy depth h1 (length h1) out outEls.
Proof.
  induction cs as [| c cs IH];
    intros cs' acc accEls h s h1 s1 out Hkept0 Hacc Hcs Hheld.
  - apply Forall2_nil_inv_l in Hcs as ->. cbn. unfold eret.
    intros [= <- <- <-]. eauto.
  - apply Forall2_cons_inv_l in Hcs as (c' & cs0 & Hc & Hcs & ->).
    cbn [Obj.normalizeLoop normalizeLoop]. unfold ebind.
    destruct (Obj.normalizeChild fuel depth step acc c (h, s))
      as [[h2 s2] [acc2 | e |]] eqn:Ec; try discriminate.
    intros Hrest.
    destruct (objChild_holds h0 _ _ _ _ _ _ _ _ _ Hkept0 Hacc Hc Hheld Ec)
      as (els2 & -> & Hheld2).
    destruct (objChild_keeps fuel depth step _ _ _ _ _ _ _ Ec)
      as ((more & -> & Hmore & _) & Hlen & Hkeep).
    apply (IH cs0 _ _ _ _ _ _ _) with (3 := Hcs) (4 := Hheld2) (5 := Hrest).
    + intros i o Ho. pose proof (lookup_lt_Some _ _ _ Ho) as Hi.
      destruct (Hkeep i o (Hkept0 _ _ Ho)) as (o' & Ho' & _ & Hlast & _).
      rewrite Hlast in Ho'; [exact Ho' |].
      intros Hl. apply last_Some_elem_of in Hl.
      rewrite Forall_forall in Hacc. specialize (Hacc _ Hl). cbn in Hacc.
      lia.
    + apply Forall_app. split; [exact Hacc |].
      eapply Forall_impl; [exact Hmore |]. cbn. intros r Hr.
      assert (length h0 <= length h)%nat; [| lia].
      destruct (decide (length h0 <= length h)%nat) as [Hle | Hgt];
        [exact Hle |].
      assert (is_Some (h0 !! length h)) as [o Ho]
        by (apply lookup_lt_is_Some; lia).
      apply Hkept0, lookup_lt_Some in Ho. lia.
Qed.
End ObjectsHold.

(** X28. [normalizeChildren] writes to no object that existed before the
    call, and returns no such object: when it returns, the heap is the heap
    of before followed by the objects created during the call, and the
    normalized children are distinct objects among the created ones. *)
Theorem normalize_leaves_inputs `{Runtime} (S : Type) (fuel depth : nat)
    (step : option (Obj.Heap -> Obj.Ref -> Eff S unit))
    (cs : list Obj.Child) (h h' : Obj.Heap) (s s' : S)
    (out : option (list Obj.Ref)) :
  Obj.normalizeChildren fuel depth step (Obj.ChildrenArray cs) (h, s)
  = ((h', s'), Ok out) ->
  exists refs created,
    out = Some refs
    /\ h' = h ++ created
    /\ Forall (fun r => (length h <= r < length h')%nat) refs
    /\ NoDup refs.
Proof.
  cbn [Obj.normalizeChildren]. unfold ebind.
  destruct (Obj.normalizeLoop fuel depth step [] cs (h, s))
    as [[h1 s1] [refs | e |]] eqn:E; try discriminate.
  unfold eret. intros [= <- <- <-].
  destruct (objLoop_keeps fuel depth step cs _ _ _ _ _ _ E)
    as ((more & -> & Hmore & Hnodup) & Hlen & Hkeep).
  assert (Hkept : forall i o, h !! i = Some o -> h1 !! i = Some o).
  { intros i o Ho. destruct (Hkeep i o Ho) as (o' & Ho' & _ & Hlast & _).
    rewrite (Hlast ltac:(discriminate)) in Ho'. exact Ho'. }
  destruct (kept_objects_app h h1 Hlen Hkept) as [created ->].
  exists more, created. auto.
Qed.

(** X29. The two readings of [normalizeChildren] agree. When the call on
    the objects returns, the call on what the objects hold returns too,
    and each normalized child, read in the heap after the call and through
    objects created during the call only, holds the corresponding element
    of that result. *)
Theorem objects_hold_normalized `{Runtime} (S : Type) (fuel depth : nat)
    (step : option (Obj.Heap -> Obj.Ref -> Eff S unit))
    (cs : list Obj.Child) (cs' : list Child) (h h' : Obj.Heap) (s s' : S)
    (out : option (list Obj.Ref)) :
  depth <> 0%nat ->
  Forall2 (holds depth h) cs cs' ->
  Obj.normalizeChildren fuel depth step (Obj.ChildrenArray cs) (h, s)
  = ((h', s'), Ok out) ->
  exists refs els,
    out = Some refs
    /\ normalizeChildren fuel None (ChildrenArray cs') tt
       = (tt, Ok (Some els))
    /\ Forall2 (fun r el =>
                  Obj.contentSince (length h) depth h' r = Some el)
               refs els.
Proof.
  intros Hdepth Hcs. cbn [Obj.normalizeChildren normalizeChildren].
  unfold ebind.
  destruct (Obj.normalizeLoop fuel depth step [] cs (h, s))
    as [[h1 s1] [refs | e |]] eqn:E; try discriminate.
  unfold eret. intros [= <- <- <-].
  destruct (objLoop_holds fuel depth Hdepth step h cs cs' [] [] h s h1 s1
              refs) as (els & Hrun & Hheld); auto.
  { cbn. exact I. }
  destruct (objLoop_keeps fuel depth step cs _ _ _ _ _ _ E)
    as ((more & Hrefs & Hmore & _) & _ & _).
  cbn [app] in Hrefs. subst more.
  exists refs, els. split; [reflexivity |]. rewrite Hrun.
  split; [reflexivity |].
  apply heldBy_contents; [exact Hheld |].
  eapply Forall_impl; [exact Hmore |]. cbn. intros; lia.
Qed.

Section ObjectsWitness.
Local Existing Instance sampleRuntime.

Lemma normalize_leaves_inputs_witness :
  exists refs created,
    Some [2%nat; 3%nat; 5%nat] = Some refs
    /\ sampleHeap ++ sampleCreated = sampleHeap ++ created
    /\ Forall (fun r => (length sampleHeap <= r
                         < length (sampleHeap ++ sampleCreated))%nat) refs
    /\ NoDup refs.
Proof.
  apply (normalize_leaves_inputs unit 2 2 None sampleObjectChildren
           sampleHeap (sampleHeap ++ sampleCreated) tt tt
           (Some [2%nat; 3%nat; 5%nat])).
  vm_compute. reflexivity.
Defined.

Lemma objects_hold_normalized_witness :
  exists refs els,
    Some [2%nat; 3%nat; 5%nat] = Some refs
    /\ normalizeChildren 2 None (ChildrenArray sampleHeldChildren) tt
       = (tt, Ok (Some els))
    /\ Forall2 (fun r el =>
                  Obj.contentSince (length sampleHeap) 2
                    (sampleHeap ++ sampleCreated) r = Some el)
               refs els.
Proof.
  apply (objects_hold_normalized unit 2 2 None sampleObjectChildren
           sampleHeldChildren sampleHeap (sampleHeap ++ sampleCreated)
           tt tt (Some [2%nat; 3%nat; 5%nat])).
  - discriminate.
  - repeat constructor; vm_compute; reflexivity.
  - vm_compute. reflexivity.
Defined.
End ObjectsWitness.
